(** * JSONParser: a shallow embedding of [Json.h] / [Json.cpp]

    The development follows the layout of the sources: the value model
    ([struct Json], its accessors and index operators), the serializer
    ([Json::stringify]) and the recursive-descent parser
    ([class JsonParser]).  [std::string] is a list of 8-bit characters,
    [size_t] positions are natural numbers, [double] is the IEEE 754
    binary64 format of the standard library's [SpecFloat], and
    [std::map<std::string, Json>] is an association list kept in strictly
    increasing key order. *)

From Stdlib Require Import Ascii String List Bool Arith ZArith Lia.
From Stdlib Require Import SpecFloat.
Import ListNotations.

Open Scope char_scope.
Open Scope list_scope.
Open Scope nat_scope.

(** ** Characters and text *)

Abbreviation text := (list ascii).

(** Source-text literal without quotation marks. *)
Definition lit (s : string) : text := list_ascii_of_string s.

Definition NUL : ascii := "000".
Definition DQ : ascii := "034".          (* the quotation mark *)
Definition BSLASH : ascii := "092".      (* the backslash *)
Definition BS : ascii := "008".          (* '\b' *)
Definition HT : ascii := "009".          (* '\t' *)
Definition LF : ascii := "010".          (* '\n' *)
Definition VT : ascii := "011".          (* '\v' *)
Definition FF : ascii := "012".          (* '\f' *)
Definition CR : ascii := "013".          (* '\r' *)

(** [static_cast<unsigned char>(c)] *)
Definition uchar (c : ascii) : nat := nat_of_ascii c.

(** [std::isspace] in the C locale: space and the five controls
    [\t \n \v \f \r]. *)
Definition isspace (c : ascii) : bool :=
  (uchar c =? 32) || ((9 <=? uchar c) && (uchar c <=? 13)).

(** [std::isdigit] *)
Definition isdigit (c : ascii) : bool :=
  (48 <=? uchar c) && (uchar c <=? 57).

(** [std::isxdigit], used by the library conversion [strtol] in base 16. *)
Definition isxdigit (c : ascii) : bool :=
  isdigit c
  || ((97 <=? uchar c) && (uchar c <=? 102))
  || ((65 <=? uchar c) && (uchar c <=? 70)).

Definition digit_val (c : ascii) : Z := Z.of_nat (uchar c - 48).

Definition xdigit_val (c : ascii) : Z :=
  if isdigit c then Z.of_nat (uchar c - 48)
  else if (97 <=? uchar c) then Z.of_nat (uchar c - 87)
  else Z.of_nat (uchar c - 55).

(** [s.substr(pos, n)]; every call site has [pos <= s.size()]. *)
Definition substr (s : text) (pos n : nat) : text := firstn n (skipn pos s).

(** [std::string::operator<]: lexicographic on unsigned character values. *)
Fixpoint text_compare (a b : text) : comparison :=
  match a, b with
  | [], [] => Eq
  | [], _ :: _ => Lt
  | _ :: _, [] => Gt
  | x :: a', y :: b' =>
      match Nat.compare (uchar x) (uchar y) with
      | Eq => text_compare a' b'
      | c => c
      end
  end.

Definition text_ltb (a b : text) : bool :=
  match text_compare a b with Lt => true | _ => false end.

Definition text_eqb (a b : text) : bool :=
  match text_compare a b with Eq => true | _ => false end.

(** ** [double]

    A [double] is an IEEE 754 binary64 number in the representation of
    [SpecFloat]: 53 bits of precision, exponent of infinity 1024.  The
    NaNs of the machine are one value here, [S754_nan]: it has neither the
    sign bit nor the payload of a NaN.  The comparisons and conversions of
    the program treat all NaNs alike; the text the stream prints for one
    does not, and is given below for a NaN whose sign bit is clear. *)

Module Double.

Definition double : Type := spec_float.

Definition prec : Z := 53.
Definition emax : Z := 1024.

(** Conversion of an integer, rounding to nearest even: [double(i)] and
    [static_cast<double>(n)] for a [long long] n. *)
Definition of_Z (z : Z) : double := binary_normalize prec emax z 0 false.

(** [a == b] on doubles. *)
Definition eqb (a b : double) : bool := SFeqb a b.

Definition LLONG_MIN : Z := - 2 ^ 63.
Definition LLONG_MAX : Z := 2 ^ 63 - 1.

(** The integer obtained by discarding the fractional part of a finite
    double. *)
Definition truncate (d : double) : option Z :=
  match d with
  | S754_zero _ => Some 0%Z
  | S754_finite s m e =>
      let a := match e with
               | Zneg p => Z.shiftr (Zpos m) (Zpos p)
               | _ => Z.shiftl (Zpos m) e
               end in
      Some (if s then Z.opp a else a)
  | _ => None
  end.

(** [static_cast<long long>(d)].  When the truncated value is not
    representable (and for infinities and NaN) the conversion is undefined
    in C++; the model takes what the x86-64 conversion instruction
    delivers there, the integer indefinite value [LLONG_MIN]. *)
Definition to_long_long (d : double) : Z :=
  match truncate d with
  | Some t => if ((LLONG_MIN <=? t) && (t <=? LLONG_MAX))%Z then t else LLONG_MIN
  | None => LLONG_MIN
  end.

(** The double nearest to [(-1)^neg * m * 10^e] for [m > 0], ties to
    even: the value the library conversion [strtod] computes for a decimal
    literal with digits [m] and decimal exponent [e]. *)
Definition of_decimal (neg : bool) (m e : Z) : double :=
  match m with
  | Zpos p =>
      match e with
      | Zneg _ =>
          let '(q, e', l) := SFdiv_core_binary prec emax m 0 (10 ^ (- e)) 0 in
          binary_round_aux prec emax neg q e' l
      | _ => binary_round prec emax neg (Z.to_pos (m * 10 ^ e)) 0
      end
  | _ => S754_zero neg
  end.

(** Does the finite double [d] have exactly the magnitude [m * 10^e]? *)
Definition exactly (d : double) (m e : Z) : bool :=
  match d with
  | S754_finite _ dm de =>
      (Zpos dm * 2 ^ Z.max de 0 * 10 ^ Z.max (- e) 0
       =? m * 10 ^ Z.max e 0 * 2 ^ Z.max (- de) 0)%Z
  | S754_zero _ => (m =? 0)%Z
  | _ => false
  end.

(** Is the magnitude [m * 10^e] tiny: does it round, to 53 bits and with
    no bound on the exponent, to a magnitude below the least normal one
    [2^-1022]?  The last two numbers of 53 bits up to [2^-1022] are
    [2^-1022 - 2^-1075] and [2^-1022], and their middle goes to the even
    one, [2^-1022]: the tiny magnitudes are those below
    [2^-1022 - 2^-1076]. *)
Definition tiny (m e : Z) : bool :=
  (m * 10 ^ Z.max e 0 * 2 ^ 1076 <? (2 ^ 54 - 1) * 10 ^ Z.max (- e) 0)%Z.

(** [strtod] with its range error: [None] stands for [errno == ERANGE],
    set on overflow and on underflow.  Whether an underflow is reported
    is left to the C library; the GNU C library reports it, on x86-64,
    in rounding to nearest, when the value is tiny and the double is not
    exactly the value.  A text below [2^-1022 - 2^-1076] that rounds up to
    the double [2^-1022], such as 2.2250738585072012e-308, is a range
    error too. *)
Definition strtod_value (neg : bool) (m e : Z) : option double :=
  let d := of_decimal neg m e in
  match d with
  | S754_infinity _ | S754_nan => None
  | S754_zero _ => if (m =? 0)%Z then Some d else None
  | S754_finite _ _ _ =>
      if tiny m e && negb (exactly d m e) then None else Some d
  end.

(** *** Six significant decimal digits

    For a positive finite double [m * 2^e], the pair [(n, x)] with
    [100000 <= n < 1000000] such that [n * 10^(x-5)] is the value rounded
    to six significant decimal digits, ties to even: the digits and the
    decimal exponent of the [printf] conversion [%.5e]. *)

(** [10^x <= m * 2^e] *)
Definition pow10_le (x : Z) (m e : Z) : bool :=
  (10 ^ Z.max x 0 * 2 ^ Z.max (- e) 0 <=? m * 2 ^ Z.max e 0 * 10 ^ Z.max (- x) 0)%Z.

Fixpoint raise_exponent (fuel : nat) (x : Z) (m e : Z) : Z :=
  match fuel with
  | O => x
  | S f => if pow10_le (x + 1) m e then raise_exponent f (x + 1) m e else x
  end.

(** [floor (log10 (m * 2^e))], searched upwards from an underestimate
    ([30102/100000 < log10 2]). *)
Definition decimal_exponent (m e : Z) : Z :=
  let l := (Z.log2 m + e)%Z in
  raise_exponent 4 (l * 30102 / 100000 - 1) m e.

Definition round_half_even (a b : Z) : Z :=
  let q := (a / b)%Z in
  let r := (a mod b)%Z in
  match (2 * r ?= b)%Z with
  | Lt => q
  | Gt => (q + 1)%Z
  | Eq => if Z.even q then q else (q + 1)%Z
  end.

Definition six_digits (m e : Z) : Z * Z :=
  let x := decimal_exponent m e in
  let s := (x - 5)%Z in
  let n := round_half_even (m * 2 ^ Z.max e 0 * 10 ^ Z.max (- s) 0)
                           (2 ^ Z.max (- e) 0 * 10 ^ Z.max s 0) in
  if (n =? 1000000)%Z then (100000%Z, (x + 1)%Z) else (n, x).

End Double.

Abbreviation double := Double.double.

(** ** [std::map<std::string, V>]

    An ordered map is the list of its entries in strictly increasing key
    order, which is also its iteration order. *)

Section OrderedMap.
Context {V : Type}.

(** [m.find(key)], with [None] for [m.end()]. *)
Fixpoint map_find (m : list (text * V)) (key : text) : option V :=
  match m with
  | [] => None
  | (k, v) :: m' =>
      match text_compare key k with
      | Eq => Some v
      | Lt => None
      | Gt => map_find m' key
      end
  end.

(** The map after [m[key]]: an absent key is inserted with the
    value-initialised [dflt]; the reference returned designates the
    entry at [key]. *)
Fixpoint map_subscript (dflt : V) (m : list (text * V)) (key : text)
  : list (text * V) :=
  match m with
  | [] => [(key, dflt)]
  | (k, v) :: m' =>
      match text_compare key k with
      | Eq => m
      | Lt => (key, dflt) :: m
      | Gt => (k, v) :: map_subscript dflt m' key
      end
  end.

(** The entry that a reference to the entry at [key] designates. *)
Definition map_entry (dflt : V) (m : list (text * V)) (key : text) : V :=
  match map_find m key with
  | Some v => v
  | None => dflt
  end.

(** Assignment through a reference to the entry at [key]. *)
Fixpoint map_store (m : list (text * V)) (key : text) (v : V)
  : list (text * V) :=
  match m with
  | [] => []
  | (k, w) :: m' =>
      match text_compare key k with
      | Eq => (k, v) :: m'
      | Lt => m
      | Gt => (k, w) :: map_store m' key v
      end
  end.

(** [m[key] = v] *)
Definition map_assign (dflt : V) (m : list (text * V)) (key : text) (v : V)
  : list (text * V) :=
  map_store (map_subscript dflt m key) key v.

(** [m.insert({key, v})]: the entry is added, at its place in the key
    order, if and only if the map has no entry for [key]; a map that has
    one is left as it is. *)
Fixpoint map_insert (m : list (text * V)) (key : text) (v : V)
  : list (text * V) :=
  match m with
  | [] => [(key, v)]
  | (k, w) :: m' =>
      match text_compare key k with
      | Eq => m
      | Lt => (key, v) :: m
      | Gt => (k, w) :: map_insert m' key v
      end
  end.

(** The constructor of [std::map] from an initializer list, the one behind
    [JsonObject{{k1, v1}, {k2, v2}}]: the pairs are inserted into an empty
    map in the order of the list. *)
Definition map_of_list (l : list (text * V)) : list (text * V) :=
  fold_left (fun m kv => map_insert m (fst kv) (snd kv)) l [].

(** Keys in strictly increasing order. *)
Fixpoint keys_sorted (m : list (text * V)) : bool :=
  match m with
  | [] => true
  | (k, _) :: m' =>
      match m' with
      | [] => true
      | (k', _) :: _ => text_ltb k k' && keys_sorted m'
      end
  end.
End OrderedMap.

(** ** The value model ([Json.h]) *)

(** [struct Json] with its [std::variant] payload; [JsonArray] is
    [std::vector<Json>] and [JsonObject] is [std::map<std::string, Json>]. *)
Inductive Json : Type :=
| JNull
| JBool (b : bool)
| JNumber (d : double)
| JString (s : text)
| JArray (a : list Json)
| JObject (o : list (text * Json)).

Definition JsonArray : Type := list Json.
Definition JsonObject : Type := list (text * Json).

(** [Json(int i) : value(double(i))] *)
Definition Json_of_int (i : Z) : Json := JNumber (Double.of_Z i).

Definition is_null (j : Json) : bool := match j with JNull => true | _ => false end.
Definition is_bool (j : Json) : bool := match j with JBool _ => true | _ => false end.
Definition is_number (j : Json) : bool := match j with JNumber _ => true | _ => false end.
Definition is_string (j : Json) : bool := match j with JString _ => true | _ => false end.
Definition is_array (j : Json) : bool := match j with JArray _ => true | _ => false end.
Definition is_object (j : Json) : bool := match j with JObject _ => true | _ => false end.

(** The [std::runtime_error]s of the accessors, one constructor per
    message. *)
Inductive runtime_error : Type :=
| Not_a_boolean          (* JSON value is not a boolean *)
| Not_a_number           (* JSON value is not a number *)
| Not_a_string           (* JSON value is not a string *)
| Not_an_array           (* JSON value is not an array *)
| Not_an_object          (* JSON value is not an object *)
| Key_not_found (key : text).   (* Key not found: key *)

(** Outcome of a call on a value: a result, an exception, or behaviour the
    language leaves undefined (an unchecked access outside a vector). *)
Inductive Access (A : Type) : Type :=
| Returns (a : A)
| Raises (e : runtime_error)
| Undefined.
Arguments Returns {A} a.
Arguments Raises {A} e.
Arguments Undefined {A}.

Definition as_bool (j : Json) : Access bool :=
  match j with JBool b => Returns b | _ => Raises Not_a_boolean end.

Definition as_number (j : Json) : Access double :=
  match j with JNumber d => Returns d | _ => Raises Not_a_number end.

Definition as_string (j : Json) : Access text :=
  match j with JString s => Returns s | _ => Raises Not_a_string end.

Definition as_array (j : Json) : Access JsonArray :=
  match j with JArray a => Returns a | _ => Raises Not_an_array end.

Definition as_object (j : Json) : Access JsonObject :=
  match j with JObject o => Returns o | _ => Raises Not_an_object end.

(** [std::vector::operator[]]: no bounds check. *)
Definition vector_subscript (a : JsonArray) (index : nat) : Access Json :=
  match nth_error a index with
  | Some v => Returns v
  | None => Undefined
  end.

(** [Json::operator[](size_t)], const and non-const alike:
    [return as_array()[index];] *)
Definition index_at (j : Json) (index : nat) : Access Json :=
  match as_array j with
  | Returns a => vector_subscript a index
  | Raises e => Raises e
  | Undefined => Undefined
  end.

(** [Json& Json::operator[](const std::string&)]:
    [return as_object()[key];].  The result is the value after the call
    together with the entry the returned reference designates. *)
Definition index_key_mut (j : Json) (key : text) : Access (Json * Json) :=
  match as_object j with
  | Returns o =>
      let o' := map_subscript JNull o key in
      Returns (JObject o', map_entry JNull o' key)
  | Raises e => Raises e
  | Undefined => Undefined
  end.

(** [j[key] = v]: the assignment through the reference that the mutable
    index operator by key returns. *)
Definition assign_key (j : Json) (key : text) (v : Json) : Access Json :=
  match as_object j with
  | Returns o => Returns (JObject (map_assign JNull o key v))
  | Raises e => Raises e
  | Undefined => Undefined
  end.

(** [const Json& Json::operator[](const std::string&) const] *)
Definition index_key (j : Json) (key : text) : Access Json :=
  match as_object j with
  | Returns obj =>
      match map_find obj key with
      | None => Raises (Key_not_found key)
      | Some v => Returns v
      end
  | Raises e => Raises e
  | Undefined => Undefined
  end.

(** ** Library conversions between text and numbers *)

Fixpoint skip_spaces (s : text) : text :=
  match s with
  | c :: s' => if isspace c then skip_spaces s' else s
  | [] => []
  end.

(** The longest prefix of characters satisfying [p], and the rest. *)
Fixpoint span (p : ascii -> bool) (s : text) : text * text :=
  match s with
  | c :: s' => if p c then let (a, b) := span p s' in (c :: a, b) else ([], s)
  | [] => ([], [])
  end.

Definition decimal_value (ds : text) : Z :=
  fold_left (fun acc c => (10 * acc + digit_val c)%Z) ds 0%Z.

Definition hex_value (ds : text) : Z :=
  fold_left (fun acc c => (16 * acc + xdigit_val c)%Z) ds 0%Z.

(** An optional sign: is it a minus, and the rest. *)
Definition take_sign (s : text) : bool * text :=
  match s with
  | "-" :: s' => (true, s')
  | "+" :: s' => (false, s')
  | _ => (false, s)
  end.

(** The prefix 0x or 0X of a hexadecimal number, skipped by [strtol] when
    a hexadecimal digit follows it. *)
Definition skip_hex_prefix (s : text) : text :=
  match s with
  | "0" :: x :: h :: s' =>
      if ((Ascii.eqb x "x") || (Ascii.eqb x "X")) && isxdigit h
      then h :: s' else s
  | _ => s
  end.

Definition INT_MIN : Z := - 2 ^ 31.
Definition INT_MAX : Z := 2 ^ 31 - 1.

(** [std::stoi(str, nullptr, 16)], with [None] for either of its
    exceptions.  As [strtol] does in base 16: leading white space is
    skipped, a sign is optional, a prefix 0x or 0X is skipped when a
    hexadecimal digit follows it, and the longest run of hexadecimal
    digits is converted; no digit at all is [std::invalid_argument], a
    value outside [int] is [std::out_of_range]. *)
Definition stoi16 (str : text) : option Z :=
  let (neg, s1) := take_sign (skip_spaces str) in
  let s2 := skip_hex_prefix s1 in
  let (ds, _) := span isxdigit s2 in
  match ds with
  | [] => None
  | _ =>
      let v := if neg then Z.opp (hex_value ds) else hex_value ds in
      if ((INT_MIN <=? v) && (v <=? INT_MAX))%Z then Some v else None
  end.

(** [static_cast<char>(code_point)] *)
Definition char_of_int (code_point : Z) : ascii :=
  ascii_of_nat (Z.to_nat (code_point mod 256)).

(** [std::stod(str)] on decimal text, with [None] for either of its
    exceptions: optional white space and sign, digits with an optional
    fraction, an optional exponent that counts only when it has a digit;
    no digit in the mantissa is [std::invalid_argument], a range error of
    [strtod] is [std::out_of_range].  (The other forms [strtod] reads,
    hexadecimal, infinity and NaN, begin with a letter after the sign and
    never reach it from [parse_number].) *)
Definition stod (str : text) : option double :=
  let (neg, s1) := take_sign (skip_spaces str) in
  let (ip, s2) := span isdigit s1 in
  let (fp, s3) := match s2 with
                  | "." :: s' => span isdigit s'
                  | _ => ([], s2)
                  end in
  match ip ++ fp with
  | [] => None
  | ds =>
      let ex := match s3 with
                | c :: s' =>
                    if (Ascii.eqb c "e") || (Ascii.eqb c "E") then
                      let (eneg, s4) := take_sign s' in
                      let (es, _) := span isdigit s4 in
                      if eneg then Z.opp (decimal_value es) else decimal_value es
                    else 0%Z
                | [] => 0%Z
                end in
      Double.strtod_value neg (decimal_value ds) (ex - Z.of_nat (length fp))
  end.

Definition digit_char (n : Z) : ascii := ascii_of_nat (48 + Z.to_nat n).

Definition xdigit_char (n : nat) : ascii :=
  if n <? 10 then ascii_of_nat (48 + n) else ascii_of_nat (87 + n).

Fixpoint decimal_digits (fuel : nat) (n : Z) (acc : text) : text :=
  match fuel with
  | O => acc
  | S f =>
      let acc' := digit_char (n mod 10) :: acc in
      if (n <? 10)%Z then acc' else decimal_digits f (n / 10) acc'
  end.

(** The decimal digits of [n >= 0], without leading zeros. *)
Definition print_unsigned (n : Z) : text :=
  decimal_digits (S (Z.to_nat (Z.log2 n))) n [].

(** [oss << n] for a [long long] n. *)
Definition print_long_long (n : Z) : text :=
  if (n <? 0)%Z then "-" :: print_unsigned (- n) else print_unsigned n.

(** The digits of [n], padded with zeros on the left to [width]. *)
Definition print_padded (width : nat) (n : Z) : text :=
  let ds := print_unsigned n in
  repeat "0" (width - length ds) ++ ds.

Fixpoint strip_zeros_rev (r : text) : text :=
  match r with
  | "0" :: r' => strip_zeros_rev r'
  | _ => r
  end.

(** Removal of trailing zeros. *)
Definition strip_zeros (s : text) : text := rev (strip_zeros_rev (rev s)).

(** A fraction after its integer part: nothing when it is empty. *)
Definition with_fraction (ip fp : text) : text :=
  match fp with
  | [] => ip
  | _ => ip ++ "." :: fp
  end.

(** [oss << d] for a [double] d in a stream with default flags: the
    [printf] conversion [%g] with precision 6.  With [x] the decimal
    exponent of the value rounded to six digits, fixed notation is used
    when [-4 <= x < 6] and scientific notation otherwise; trailing zeros
    of the fraction are removed.  A NaN is printed as nan when its sign
    bit is clear; the stream puts a minus sign before it when the bit is
    set, a NaN that [double] does not have. *)
Definition print_double (d : double) : text :=
  match d with
  | S754_nan => lit "nan"
  | S754_infinity s => if s then lit "-inf" else lit "inf"
  | S754_zero s => if s then lit "-0" else lit "0"
  | S754_finite s m e =>
      let (n, x) := Double.six_digits (Zpos m) e in
      let ds := print_unsigned n in
      let body :=
        if ((x <? -4) || (6 <=? x))%Z then
          with_fraction (firstn 1 ds) (strip_zeros (skipn 1 ds))
          ++ "e" :: (if (x <? 0)%Z then "-" else "+")
          :: print_padded 2 (Z.abs x)
        else if (x <? 0)%Z then
          with_fraction (lit "0")
            (strip_zeros (repeat "0" (Z.to_nat (- x - 1)) ++ ds))
        else
          with_fraction (firstn (Z.to_nat (x + 1)) ds)
                        (strip_zeros (skipn (Z.to_nat (x + 1)) ds))
      in if s then "-" :: body else body
  end.

(** [oss << std::hex << std::setw(4) << std::setfill('0') << n] for an
    [int] n below 0x20. *)
Definition print_hex4 (n : nat) : text :=
  [ "0"; "0"; xdigit_char (n / 16); xdigit_char (n mod 16) ].

(** ** The serializer ([Json::stringify]) *)

(** The escape of one character of a string payload (the [switch] in the
    string branch). *)
Definition escape_char (c : ascii) : text :=
  if Ascii.eqb c DQ then [BSLASH; DQ]
  else if Ascii.eqb c BSLASH then [BSLASH; BSLASH]
  else if Ascii.eqb c BS then [BSLASH; "b"]
  else if Ascii.eqb c FF then [BSLASH; "f"]
  else if Ascii.eqb c LF then [BSLASH; "n"]
  else if Ascii.eqb c CR then [BSLASH; "r"]
  else if Ascii.eqb c HT then [BSLASH; "t"]
  else if uchar c <? 32 then BSLASH :: "u" :: print_hex4 (uchar c)
  else [c].

(** The lambda [make_indent]: [indent * 2] spaces when [pretty]. *)
Definition make_indent (pretty : bool) (indent : Z) : text :=
  if pretty then repeat " " (Z.to_nat (indent * 2)) else [].

Definition when_ (b : bool) (t : text) : text := if b then t else [].

Definition is_nil {A : Type} (l : list A) : bool :=
  match l with [] => true | _ => false end.

(** The number branch. *)
Definition stringify_number (num : double) : text :=
  if Double.eqb num (Double.of_Z (Double.to_long_long num))
  then print_long_long (Double.to_long_long num)
  else print_double num.

(** The body of the loop over the elements of an array, for the
    elements [l] that remain; [print] is the recursive call
    [stringify(pretty, indent + 1)] and the comma follows every element
    but the last. *)
Fixpoint stringify_elements (pretty : bool) (indent : Z)
    (print : Json -> text) (l : list Json) : text :=
  match l with
  | [] => []
  | v :: l' =>
      when_ pretty (make_indent pretty indent)
      ++ when_ pretty (lit "  ")
      ++ print v
      ++ when_ (negb (is_nil l')) [","]
      ++ when_ pretty [LF]
      ++ stringify_elements pretty indent print l'
  end.

(** The body of the loop over the entries of an object, in the iteration
    order of the map.  The key is written between quotation marks as it
    is. *)
Fixpoint stringify_members (pretty : bool) (indent : Z)
    (print : Json -> text) (l : list (text * Json)) : text :=
  match l with
  | [] => []
  | (key, val) :: l' =>
      when_ pretty (make_indent pretty indent)
      ++ when_ pretty (lit "  ")
      ++ DQ :: key ++ DQ :: ":" :: " "
      :: print val
      ++ when_ (negb (is_nil l')) [","]
      ++ when_ pretty [LF]
      ++ stringify_members pretty indent print l'
  end.

Fixpoint stringify (pretty : bool) (indent : Z) (j : Json) : text :=
  match j with
  | JNull => lit "null"
  | JBool b => if b then lit "true" else lit "false"
  | JNumber num => stringify_number num
  | JString s => DQ :: flat_map escape_char s ++ [DQ]
  | JArray arr =>
      "[" :: when_ (pretty && negb (is_nil arr)) [LF]
      ++ stringify_elements pretty indent (stringify pretty (indent + 1)) arr
      ++ when_ (pretty && negb (is_nil arr)) (make_indent pretty indent)
      ++ ["]"]
  | JObject obj =>
      "{" :: when_ (pretty && negb (is_nil obj)) [LF]
      ++ stringify_members pretty indent (stringify pretty (indent + 1)) obj
      ++ when_ (pretty && negb (is_nil obj)) (make_indent pretty indent)
      ++ ["}"]
  end.

(** ** The parser ([class JsonParser]) *)

(** The messages of [JsonParseError], one constructor per [throw]. *)
Inductive message : Type :=
| Unexpected_characters_after_JSON_value
| Unexpected_end_of_input
| Unexpected_character
| Invalid_null_value
| Invalid_boolean_value
| Invalid_number
| Invalid_number_expected_digit_after_decimal_point
| Invalid_number_expected_digit_in_exponent
| Invalid_number_format
| Expected_quote
| Unterminated_string
| Invalid_unicode_escape
| Invalid_escape_sequence
| Expected_open_bracket
| Expected_comma_or_close_bracket_in_array
| Expected_open_brace
| Expected_string_key_in_object
| Expected_colon_after_key_in_object
| Expected_comma_or_close_brace_in_object.

Record JsonParseError : Type := ParseError { what : message; position : nat }.

(** What running a parser member function gives: a result and the new
    cursor, an exception, or exhaustion of the recursion budget of the
    model. *)
Inductive Outcome (A : Type) : Type :=
| Ok (a : A) (pos : nat)
| Throw (e : JsonParseError)
| OutOfFuel.
Arguments Ok {A} a pos.
Arguments Throw {A} e.
Arguments OutOfFuel {A}.

(** A member function reads [json_] and updates [pos_]. *)
Definition Parser (A : Type) : Type := text -> nat -> Outcome A.

Definition ret {A : Type} (a : A) : Parser A := fun _ pos => Ok a pos.

Definition bind {A B : Type} (m : Parser A) (k : A -> Parser B) : Parser B :=
  fun json pos =>
    match m json pos with
    | Ok a pos' => k a json pos'
    | Throw e => Throw e
    | OutOfFuel => OutOfFuel
    end.

Declare Scope parser_scope.
Delimit Scope parser_scope with parser.
Notation "x <- m ;; k" := (bind m (fun x => k))
  (at level 61, m at next level, right associativity) : parser_scope.
Notation "m ;; k" := (bind m (fun _ => k))
  (at level 61, right associativity) : parser_scope.
Open Scope parser_scope.

(** [throw JsonParseError(msg, pos_)] *)
Definition throw {A : Type} (msg : message) : Parser A :=
  fun _ pos => Throw (ParseError msg pos).

(** [throw JsonParseError(msg, p)] *)
Definition throw_at {A : Type} (msg : message) (p : nat) : Parser A :=
  fun _ _ => Throw (ParseError msg p).

Definition get_pos : Parser nat := fun _ pos => Ok pos pos.
Definition set_pos (p : nat) : Parser unit := fun _ _ => Ok tt p.
Definition size : Parser nat := fun json pos => Ok (length json) pos.
Definition json_ : Parser text := fun json pos => Ok json pos.
Definition out_of_fuel {A : Type} : Parser A := fun _ _ => OutOfFuel.

(** [json_[i]] *)
Definition char_at (json : text) (i : nat) : ascii := nth i json NUL.

Definition current : Parser ascii :=
  fun json pos =>
    if length json <=? pos then Throw (ParseError Unexpected_end_of_input pos)
    else Ok (char_at json pos) pos.

Definition peek : Parser ascii :=
  fun json pos =>
    if length json <=? pos then Ok NUL pos else Ok (char_at json pos) pos.

Definition advance : Parser unit :=
  fun json pos => if pos <? length json then Ok tt (S pos) else Ok tt pos.

(** [while (pos_ < json_.size() && p(json_[pos_])) ++pos_;]  The loop runs
    at most once per remaining character, which bounds [fuel]. *)
Fixpoint skip_while_loop (p : ascii -> bool) (fuel : nat) : Parser unit :=
  fun json pos =>
    match fuel with
    | O => Ok tt pos
    | S f =>
        if (pos <? length json) && p (char_at json pos)
        then skip_while_loop p f json (S pos)
        else Ok tt pos
    end.

Definition skip_while (p : ascii -> bool) : Parser unit :=
  fun json pos => skip_while_loop p (length json - pos) json pos.

Definition skip_whitespace : Parser unit := skip_while isspace.

(** The digit loops of [parse_number]:
    [while (pos_ < json_.size() && isdigit(peek())) advance();] *)
Definition skip_digits : Parser unit := skip_while isdigit.

Definition parse_null : Parser Json :=
  fun json pos =>
    if text_eqb (substr json pos 4) (lit "null") then Ok JNull (pos + 4)
    else Throw (ParseError Invalid_null_value pos).

Definition parse_bool : Parser Json :=
  fun json pos =>
    if text_eqb (substr json pos 4) (lit "true") then Ok (JBool true) (pos + 4)
    else if text_eqb (substr json pos 5) (lit "false") then Ok (JBool false) (pos + 5)
    else Throw (ParseError Invalid_boolean_value pos).

Definition when (b : bool) (m : Parser unit) : Parser unit :=
  if b then m else ret tt.

(** The four parts of the scan of [parse_number], in the order of the
    source: the sign, the integer part, the fraction, the exponent. *)
Definition number_sign : Parser unit :=
  c <- peek ;;
  when (Ascii.eqb c "-") advance.

Definition number_integer : Parser unit :=
  c <- peek ;;
  if Ascii.eqb c "0" then advance
  else if isdigit c then skip_digits
  else throw Invalid_number.

Definition number_fraction : Parser unit :=
  c <- peek ;;
  when (Ascii.eqb c ".")
    (advance ;;
     c <- peek ;;
     if negb (isdigit c)
     then throw Invalid_number_expected_digit_after_decimal_point
     else skip_digits).

Definition number_exponent : Parser unit :=
  c <- peek ;;
  when (Ascii.eqb c "e" || Ascii.eqb c "E")
    (advance ;;
     c <- peek ;;
     when (Ascii.eqb c "+" || Ascii.eqb c "-") advance ;;
     c <- peek ;;
     if negb (isdigit c)
     then throw Invalid_number_expected_digit_in_exponent
     else skip_digits).

Definition parse_number : Parser Json :=
  start <- get_pos ;;
  number_sign ;;
  number_integer ;;
  number_fraction ;;
  number_exponent ;;
  pos <- get_pos ;;
  json <- json_ ;;
  let num_str := substr json start (pos - start) in
  match stod num_str with
  | Some d => ret (JNumber d)
  | None => throw_at Invalid_number_format start
  end.

(** The [switch (escaped)] of [parse_string], up to its [break]: the
    character to append.  In the case of [u] the cursor is left on the
    last of the four characters. *)
Definition parse_escape (escaped : ascii) : Parser ascii :=
  if Ascii.eqb escaped DQ then ret DQ
  else if Ascii.eqb escaped BSLASH then ret BSLASH
  else if Ascii.eqb escaped "/" then ret "/"
  else if Ascii.eqb escaped "b" then ret BS
  else if Ascii.eqb escaped "f" then ret FF
  else if Ascii.eqb escaped "n" then ret LF
  else if Ascii.eqb escaped "r" then ret CR
  else if Ascii.eqb escaped "t" then ret HT
  else if Ascii.eqb escaped "u" then
    advance ;;
    pos <- get_pos ;;
    n <- size ;;
    if n <? pos + 4 then throw Invalid_unicode_escape
    else
      json <- json_ ;;
      let hex := substr json pos 4 in
      match stoi16 hex with
      | Some code_point =>
          set_pos (pos + 3) ;;
          ret (if (code_point <? 128)%Z then char_of_int code_point else "?")
      | None => throw Invalid_unicode_escape
      end
  else throw Invalid_escape_sequence.

(** The [while] loop of [parse_string], which runs until the closing
    quotation mark or the end of the input, with the accumulated
    [result]; every iteration advances the cursor, which
    bounds [fuel] by the number of remaining characters. *)
Fixpoint parse_string_loop (fuel : nat) (result : text) : Parser text :=
  match fuel with
  | O => ret result
  | S f =>
      pos <- get_pos ;;
      n <- size ;;
      c <- peek ;;
      if (pos <? n) && negb (Ascii.eqb c DQ) then
        if Ascii.eqb c BSLASH then
          advance ;;
          pos <- get_pos ;;
          if n <=? pos then throw Unterminated_string
          else
            escaped <- peek ;;
            ch <- parse_escape escaped ;;
            advance ;;
            parse_string_loop f (result ++ [ch])
        else
          advance ;;
          parse_string_loop f (result ++ [c])
      else ret result
  end.

Definition parse_string_text : Parser text :=
  c <- current ;;
  if negb (Ascii.eqb c DQ) then throw Expected_quote
  else
    advance ;;
    pos <- get_pos ;;
    n <- size ;;
    result <- parse_string_loop (n - pos) [] ;;
    c <- peek ;;
    if negb (Ascii.eqb c DQ) then throw Unterminated_string
    else advance ;; ret result.

Definition parse_string : Parser Json :=
  result <- parse_string_text ;;
  ret (JString result).

(** [parse_array] up to its [while (true)], given the loop. *)
Definition parse_array_with (loop : JsonArray -> Parser Json) : Parser Json :=
  c <- current ;;
  if negb (Ascii.eqb c "[") then throw Expected_open_bracket
  else
    advance ;;
    skip_whitespace ;;
    c <- peek ;;
    if Ascii.eqb c "]" then advance ;; ret (JArray [])
    else loop [].

(** [parse_object] up to its [while (true)], given the loop. *)
Definition parse_object_with (loop : JsonObject -> Parser Json) : Parser Json :=
  c <- current ;;
  if negb (Ascii.eqb c "{") then throw Expected_open_brace
  else
    advance ;;
    skip_whitespace ;;
    c <- peek ;;
    if Ascii.eqb c "}" then advance ;; ret (JObject [])
    else loop [].

(** The three mutually recursive parts of the descent: [parse_value] and
    the [while (true)] loops of [parse_array] and [parse_object].  Every
    call of [parse_value] and every iteration takes one unit of [fuel]. *)
Fixpoint parse_value (fuel : nat) : Parser Json :=
  match fuel with
  | O => out_of_fuel
  | S f =>
      skip_whitespace ;;
      c <- current ;;
      if Ascii.eqb c "n" then parse_null
      else if Ascii.eqb c "t" || Ascii.eqb c "f" then parse_bool
      else if Ascii.eqb c DQ then parse_string
      else if Ascii.eqb c "[" then parse_array_with (parse_array_loop f)
      else if Ascii.eqb c "{" then parse_object_with (parse_object_loop f)
      else if Ascii.eqb c "-" || isdigit c then parse_number
      else throw Unexpected_character
  end

with parse_array_loop (fuel : nat) (arr : JsonArray) : Parser Json :=
  match fuel with
  | O => out_of_fuel
  | S f =>
      v <- parse_value f ;;
      let arr := arr ++ [v] in            (* arr.push_back(...) *)
      skip_whitespace ;;
      c <- peek ;;
      if Ascii.eqb c "]" then advance ;; ret (JArray arr)
      else if negb (Ascii.eqb c ",") then
        throw Expected_comma_or_close_bracket_in_array
      else
        advance ;;
        skip_whitespace ;;
        parse_array_loop f arr
  end

with parse_object_loop (fuel : nat) (obj : JsonObject) : Parser Json :=
  match fuel with
  | O => out_of_fuel
  | S f =>
      skip_whitespace ;;
      c <- peek ;;
      if negb (Ascii.eqb c DQ) then throw Expected_string_key_in_object
      else
        key <- parse_string_text ;;       (* parse_string().as_string() *)
        skip_whitespace ;;
        c <- peek ;;
        if negb (Ascii.eqb c ":") then throw Expected_colon_after_key_in_object
        else
          advance ;;
          skip_whitespace ;;
          v <- parse_value f ;;
          let obj := map_assign JNull obj key v in   (* obj[key] = ... *)
          skip_whitespace ;;
          c <- peek ;;
          if Ascii.eqb c "}" then advance ;; ret (JObject obj)
          else if negb (Ascii.eqb c ",") then
            throw Expected_comma_or_close_brace_in_object
          else
            advance ;;
            parse_object_loop f obj
  end.

Definition parse_array (fuel : nat) : Parser Json :=
  parse_array_with (parse_array_loop fuel).

Definition parse_object (fuel : nat) : Parser Json :=
  parse_object_with (parse_object_loop fuel).

(** [JsonParser::parse] *)
Definition JsonParser_parse (fuel : nat) : Parser Json :=
  skip_whitespace ;;
  result <- parse_value fuel ;;
  skip_whitespace ;;
  pos <- get_pos ;;
  n <- size ;;
  if pos <? n then throw Unexpected_characters_after_JSON_value
  else ret result.

(** A value and a loop iteration each consume a character before the
    next one starts, so twice the length of the input, and two, is a
    recursion budget that is never exhausted ([parse_total] below). *)
Definition fuel_for (json : text) : nat := 2 * length json + 2.

(** [Json::parse]: a parser on [json_string] with [pos_(0)]. *)
Definition parse (json_string : text) : Outcome Json :=
  JsonParser_parse (fuel_for json_string) json_string 0.

(** ** Vocabulary of the statements *)

(** Every key of [m] is above [k]. *)
Definition above {V : Type} (k : text) (m : list (text * V)) : Prop :=
  forall k' v', In (k', v') m -> text_compare k k' = Lt.

(** The text from the cursor on does not begin with a character
    satisfying [p]. *)
Definition stops (p : ascii -> bool) (rest : text) : bool :=
  match rest with
  | [] => true
  | c :: _ => negb (p c)
  end.

(** What [parse_string] appends for a decoded code point. *)
Definition decode_code_point (code_point : Z) : ascii :=
  if (code_point <? 128)%Z then char_of_int code_point else "?".

(** A block of an escape that begins with 0x or 0X and a hexadecimal
    digit. *)
Definition hex_prefixed (block : text) : bool :=
  match block with
  | "0" :: x :: h :: _ =>
      ((Ascii.eqb x "x") || (Ascii.eqb x "X")) && isxdigit h
  | _ => false
  end.

(** The leading run of hexadecimal digits of a block. *)
Definition leading_hex (block : text) : text := fst (span isxdigit block).

(** *** The number grammar, in the words of the specification *)

(** One or more digits. *)
Definition digits (ds : text) : Prop :=
  ds <> [] /\ forallb isdigit ds = true.

(** An optional leading minus. *)
Definition sign_part (s : text) : Prop := s = [] \/ s = ["-"].

(** A single zero, or a nonzero digit followed by more digits. *)
Definition int_part (s : text) : Prop :=
  s = ["0"]
  \/ exists d ds,
       s = d :: ds /\ isdigit d = true /\ d <> "0" /\ forallb isdigit ds = true.

(** An optional point followed by one or more digits. *)
Definition frac_part (s : text) : Prop :=
  s = [] \/ exists ds, s = "." :: ds /\ digits ds.

(** An optional exponent marker with an optional sign, followed by one or
    more digits. *)
Definition exp_part (s : text) : Prop :=
  s = []
  \/ exists m sg ds,
       s = m :: sg ++ ds /\ (m = "e" \/ m = "E")
       /\ (sg = [] \/ sg = ["+"] \/ sg = ["-"]) /\ digits ds.

Definition json_number (s : text) : Prop :=
  exists sg ip fp ep,
    s = sg ++ ip ++ fp ++ ep
    /\ sign_part sg /\ int_part ip /\ frac_part fp /\ exp_part ep.

(** A character that may continue a number. *)
Definition number_char (c : ascii) : bool :=
  isdigit c || Ascii.eqb c "." || Ascii.eqb c "e" || Ascii.eqb c "E".

(** The cursor goes from [pos] to [pos'] over the text [tok]. *)
Definition consumed (json : text) (pos pos' : nat) (tok : text) : Prop :=
  skipn pos json = tok ++ skipn pos' json /\ pos' = pos + length tok.

(** The kinds of parse error of the specification; [ExpectedOpening]
    stands for the messages it does not name. *)
Inductive ParseErrorKind : Type :=
| UnexpectedCharacter | InvalidLiteral | InvalidNumber | UnterminatedString
| InvalidEscape | ExpectedCommaOrBracket | ExpectedStringKey | ExpectedColon
| ExpectedCommaOrBrace | TrailingContent | UnexpectedEndOfInput
| ExpectedOpening.

(** The kind of each message of the code. *)
Definition kind (m : message) : ParseErrorKind :=
  match m with
  | Unexpected_characters_after_JSON_value => TrailingContent
  | Unexpected_end_of_input => UnexpectedEndOfInput
  | Unexpected_character => UnexpectedCharacter
  | Invalid_null_value | Invalid_boolean_value => InvalidLiteral
  | Invalid_number
  | Invalid_number_expected_digit_after_decimal_point
  | Invalid_number_expected_digit_in_exponent
  | Invalid_number_format => InvalidNumber
  | Unterminated_string => UnterminatedString
  | Invalid_unicode_escape | Invalid_escape_sequence => InvalidEscape
  | Expected_comma_or_close_bracket_in_array => ExpectedCommaOrBracket
  | Expected_string_key_in_object => ExpectedStringKey
  | Expected_colon_after_key_in_object => ExpectedColon
  | Expected_comma_or_close_brace_in_object => ExpectedCommaOrBrace
  | Expected_quote | Expected_open_bracket | Expected_open_brace =>
      ExpectedOpening
  end.

(** *** Values that survive printing *)

Fixpoint All {A : Type} (P : A -> Prop) (l : list A) : Prop :=
  match l with
  | [] => True
  | x :: l' => P x /\ All P l'
  end.

(** A key without quotation mark and backslash. *)
Definition plain_key (key : text) : bool :=
  forallb (fun c => negb (Ascii.eqb c DQ) && negb (Ascii.eqb c BSLASH)) key.

(** A number free of precision effects: its printed text is a text of the
    number grammar and converts back to the same double. *)
Definition plain_number (d : double) : Prop :=
  json_number (stringify_number d) /\ stod (stringify_number d) = Some d.

(** A value all of whose numbers are plain and all of whose objects are
    maps, in key order, with plain keys. *)
Fixpoint printable (v : Json) : Prop :=
  match v with
  | JNumber d => plain_number d
  | JArray a => All printable a
  | JObject o =>
      keys_sorted o = true
      /\ All (fun '(k, x) => plain_key k = true /\ printable x) o
  | _ => True
  end.

Fixpoint total {A : Type} (f : A -> nat) (l : list A) : nat :=
  match l with
  | [] => 0
  | x :: l' => S (f x + total f l')
  end.

(** A recursion budget that suffices to read the compact text of a value
    back. *)
Fixpoint need (v : Json) : nat :=
  match v with
  | JArray a => S (total need a)
  | JObject o => S (total (fun '(_, x) => need x) o)
  | _ => 1
  end.

(** The object the loop of [parse_object] builds from entries read in the
    order [l]. *)
Definition assign_all (obj : JsonObject) (l : list (text * Json)) : JsonObject :=
  fold_left (fun o '(k, x) => map_assign JNull o k x) l obj.

(** A character a value can begin with. *)
Definition value_start (c : ascii) : bool :=
  Ascii.eqb c "n" || Ascii.eqb c "t" || Ascii.eqb c "f" || Ascii.eqb c DQ
  || Ascii.eqb c "[" || Ascii.eqb c "{" || Ascii.eqb c "-" || isdigit c.

(** What the round trip says of one value: its text as [print] gives it,
    followed by a text that does not continue a number, is read back as
    the value. *)
Definition reads_back (print : Json -> text) (v : Json) : Prop :=
  (exists c t, print v = c :: t /\ value_start c = true)
  /\ forall fuel json pos rest,
       need v <= fuel -> skipn pos json = print v ++ rest ->
       stops number_char rest = true ->
       parse_value fuel json pos = Ok v (pos + length (print v)).

(** The compact text of an object that lists the entries [l] in the order
    of the list, which may repeat a key. *)
Definition object_text (l : list (text * Json)) : text :=
  "{" :: stringify_members false 0 (stringify false 1) l ++ ["}"].

(** A value all of whose objects have their entries in strictly increasing
    key order. *)
Fixpoint well_formed (v : Json) : Prop :=
  match v with
  | JArray a => All well_formed a
  | JObject o =>
      keys_sorted o = true /\ All (fun '(_, x) => well_formed x) o
  | _ => True
  end.

(** No exhaustion of the recursion budget, and a cursor that does not move
    back. *)
Definition safe_at {A : Type} (pos : nat) (r : Outcome A) : Prop :=
  match r with
  | Ok _ p => pos <= p
  | Throw _ => True
  | OutOfFuel => False
  end.

Definition safe {A : Type} (m : Parser A) : Prop :=
  forall json pos, safe_at pos (m json pos).

(** A value with the six variants. *)
Definition sample_value : Json :=
  JArray [JNull; JBool true; JNumber (Double.of_Z 3);
          JNumber (S754_finite false 7881299347898368 (-51));
          JString (lit "a" ++ [DQ; LF; BSLASH; "001"]);
          JObject [(lit "a", JArray []);
                   (lit "b c", JNumber (Double.of_Z (-17)))]].

(** A string whose escape has the block 0x41. *)
Definition escape_0x41 : text := DQ :: BSLASH :: lit "u0x41" ++ [DQ].

(** The three messages of the checks that open [parse_string],
    [parse_array] and [parse_object]. *)
Definition opening_check (m : message) : bool :=
  match m with
  | Expected_quote | Expected_open_bracket | Expected_open_brace => true
  | _ => false
  end.

(** The cursor and the positions of errors stay between the position of
    the call and the end of the input, and no error is one of an opening
    check. *)
Definition tidy_at {A : Type} (json : text) (pos : nat) (r : Outcome A)
  : Prop :=
  match r with
  | Ok _ p => pos <= p <= length json
  | Throw e =>
      pos <= position e <= length json /\ opening_check (what e) = false
  | OutOfFuel => True
  end.

Definition tidy {A : Type} (m : Parser A) : Prop :=
  forall json pos, pos <= length json -> tidy_at json pos (m json pos).

(** What follows the text of an element in the text of an array: the
    comma when an element follows, the line feed when [pretty], and the
    elements [l] that remain. *)
Definition elements_after (pretty : bool) (indent : Z) (print : Json -> text)
    (l : list Json) : text :=
  when_ (negb (is_nil l)) [","] ++ when_ pretty [LF]
  ++ stringify_elements pretty indent print l.

(** The same for the entries of an object. *)
Definition members_after (pretty : bool) (indent : Z) (print : Json -> text)
    (l : list (text * Json)) : text :=
  when_ (negb (is_nil l)) [","] ++ when_ pretty [LF]
  ++ stringify_members pretty indent print l.

(** The indentation that [stringify] writes before an element or an
    entry. *)
Definition element_indent (pretty : bool) (indent : Z) : text :=
  when_ pretty (make_indent pretty indent) ++ when_ pretty (lit "  ").

(** An outcome with its positions moved [n] characters to the right. *)
Definition shift {A : Type} (n : nat) (r : Outcome A) : Outcome A :=
  match r with
  | Ok a p => Ok a (n + p)
  | Throw e => Throw (ParseError (what e) (n + position e))
  | OutOfFuel => OutOfFuel
  end.

(** A member function that only looks at the input from the cursor on:
    with a text put before the input, it does the same, every position
    moved by the length of that text. *)
Definition cursor_relative {A : Type} (m : Parser A) : Prop :=
  forall pre json pos,
    m (pre ++ json) (length pre + pos) = shift (length pre) (m json pos).

(** Zero or a finite double: neither an infinity nor a NaN. *)
Definition is_finite (d : double) : bool :=
  match d with
  | S754_zero _ | S754_finite _ _ _ => true
  | _ => false
  end.

(** A value all of whose numbers, at any depth, are finite. *)
Fixpoint numbers_finite (v : Json) : Prop :=
  match v with
  | JNumber d => is_finite d = true
  | JArray a => All numbers_finite a
  | JObject o => All (fun '(_, x) => numbers_finite x) o
  | _ => True
  end.

(** A character that is not a control character below the space. *)
Definition visible (c : ascii) : bool := 32 <=? uchar c.

(** A character of a line of text, or a line feed when [pretty]. *)
Definition line_char (pretty : bool) (c : ascii) : bool :=
  visible c || (pretty && Ascii.eqb c LF).

(** A value whose keys, at any depth, have no control character. *)
Fixpoint keys_visible (v : Json) : Prop :=
  match v with
  | JArray a => All keys_visible a
  | JObject o =>
      All (fun '(k, x) => forallb visible k = true /\ keys_visible x) o
  | _ => True
  end.

(** A character that cannot continue a number: no digit, point, exponent
    marker or sign. *)
Definition inert (c : ascii) : bool :=
  negb (number_char c || Ascii.eqb c "-" || Ascii.eqb c "+").

(** The escapes of one letter that [parse_string] decodes, with the
    character each stands for. *)
Definition named_escapes : list (ascii * ascii) :=
  [ (DQ, DQ); (BSLASH, BSLASH); ("/", "/"); ("b", BS); ("f", FF);
    ("n", LF); ("r", CR); ("t", HT) ].

(** A character that may follow the backslash of an escape. *)
Definition escape_letter (c : ascii) : bool :=
  existsb (Ascii.eqb c) (map fst named_escapes) || Ascii.eqb c "u".

(** *** The integer a double holds

    A double of the machine: a mantissa of 53 bits, or fewer for a
    subnormal number, with the one exponent that goes with it.  Every
    [double] of the program is one; [spec_float] has other triples, which
    stand for no double. *)
Definition is_double (d : double) : bool :=
  valid_binary Double.prec Double.emax d.

(** The integer that a double is, when it is one: [m * 2^e] with
    [e >= 0], or with [e < 0] and [m] a multiple of [2^-e]; both zeros are
    the integer 0; an infinity and a NaN are none. *)
Definition integral_value (d : double) : option Z :=
  match d with
  | S754_zero _ => Some 0%Z
  | S754_finite s m e =>
      let sign := if s then (-1)%Z else 1%Z in
      match e with
      | Zneg k =>
          if (Zpos m mod 2 ^ Zpos k =? 0)%Z
          then Some (sign * (Zpos m / 2 ^ Zpos k))%Z
          else None
      | _ => Some (sign * (Zpos m * 2 ^ e))%Z
      end
  | _ => None
  end.

(** The range of [long long]. *)
Definition in_long_long (z : Z) : bool :=
  ((Double.LLONG_MIN <=? z) && (z <=? Double.LLONG_MAX))%Z.

(** The integer of 64 bits that a double is, when it is one. *)
Definition long_long_value (d : double) : option Z :=
  match integral_value d with
  | Some z => if in_long_long z then Some z else None
  | None => None
  end.

(** *** Texts that parse, put together

    The text [e] is read as the value [v]: it parses, as a document of
    its own, to [v].  It is the text of a value with any white space
    before and after it. *)
Definition reads (e : text) (v : Json) : Prop := parse e = Ok v (length e).

(** Texts with a comma between each one and the next: the elements of an
    array, or the entries of an object, between the delimiters. *)
Fixpoint separated (es : list text) : text :=
  match es with
  | [] => []
  | e :: es' =>
      match es' with
      | [] => e
      | _ :: _ => e ++ "," :: separated es'
      end
  end.

(** The text of an entry of an object: the text of the key, a colon, the
    text of the value. *)
Definition entry_text (t : text * text) : text := fst t ++ ":" :: snd t.

(** The entry text [t] is read as the entry [kv]: the text of the key is
    read as the string that is the key, the text of the value as the
    value. *)
Definition reads_entry (t : text * text) (kv : text * Json) : Prop :=
  reads (fst t) (JString (fst kv)) /\ reads (snd t) (snd kv).

(** * Properties *)

(** ** Order on keys *)

Lemma uchar_inj (a b : ascii) : uchar a = uchar b -> a = b.
Proof.
  unfold uchar; intros H.
  rewrite <- (ascii_nat_embedding a), <- (ascii_nat_embedding b).
  now f_equal.
Qed.

Lemma text_compare_refl (a : text) : text_compare a a = Eq.
Proof.
  induction a as [|x a IH]; simpl; [reflexivity|].
  now rewrite Nat.compare_refl.
Qed.

Lemma text_compare_eq (a b : text) : text_compare a b = Eq -> a = b.
Proof.
  revert b; induction a as [|x a IH]; intros [|y b]; simpl; try congruence.
  destruct (Nat.compare (uchar x) (uchar y)) eqn:E; try congruence.
  apply Nat.compare_eq in E. apply uchar_inj in E.
  intros H; apply IH in H; congruence.
Qed.

Lemma text_compare_antisym (a b : text) :
  text_compare b a = CompOpp (text_compare a b).
Proof.
  revert b; induction a as [|x a IH]; intros [|y b]; simpl; try reflexivity.
  rewrite (Nat.compare_antisym (uchar x) (uchar y)).
  destruct (Nat.compare (uchar x) (uchar y)); simpl; auto.
Qed.

Lemma text_compare_lt_trans (a b c : text) :
  text_compare a b = Lt -> text_compare b c = Lt -> text_compare a c = Lt.
Proof.
  revert b c; induction a as [|x a IH]; intros [|y b] [|z c]; simpl;
    try congruence.
  destruct (Nat.compare (uchar x) (uchar y)) eqn:E1; try congruence;
  destruct (Nat.compare (uchar y) (uchar z)) eqn:E2; try congruence;
  intros H1 H2.
  - apply Nat.compare_eq in E1, E2. rewrite E1, E2, Nat.compare_refl. eauto.
  - apply Nat.compare_eq in E1. now rewrite E1, E2.
  - apply Nat.compare_eq in E2. now rewrite <- E2, E1.
  - apply Nat.compare_lt_iff in E1, E2.
    assert (E : uchar x < uchar z) by lia.
    apply Nat.compare_lt_iff in E. now rewrite E.
Qed.

Lemma text_compare_gt_lt (a b : text) :
  text_compare a b = Gt -> text_compare b a = Lt.
Proof. intros H. now rewrite text_compare_antisym, H. Qed.

Lemma text_compare_lt_gt (a b : text) :
  text_compare a b = Lt -> text_compare b a = Gt.
Proof. intros H. now rewrite text_compare_antisym, H. Qed.

Lemma text_ltb_lt (a b : text) : text_ltb a b = true <-> text_compare a b = Lt.
Proof. unfold text_ltb. destruct (text_compare a b); split; congruence. Qed.

Lemma text_ltb_irrefl (a : text) : text_ltb a a = false.
Proof. unfold text_ltb. now rewrite text_compare_refl. Qed.

Lemma text_eqb_eq (a b : text) : text_eqb a b = true <-> a = b.
Proof.
  unfold text_eqb; split.
  - destruct (text_compare a b) eqn:E; try discriminate.
    intros _. now apply text_compare_eq.
  - intros ->. now rewrite text_compare_refl.
Qed.

(** ** The ordered map *)

Section OrderedMapFacts.
Context {V : Type}.
Implicit Types (m : list (text * V)) (k key : text) (v dflt : V).

Lemma keys_sorted_cons k v m :
  keys_sorted ((k, v) :: m) = true <-> above k m /\ keys_sorted m = true.
Proof.
  revert k v; induction m as [|[k1 v1] m IH]; intros k v.
  - simpl. split; [intros _; split; [intros ? ? []|reflexivity]|reflexivity].
  - change (keys_sorted ((k, v) :: (k1, v1) :: m))
      with (text_ltb k k1 && keys_sorted ((k1, v1) :: m)).
    rewrite andb_true_iff, text_ltb_lt. split.
    + intros [H1 H2]. split; [|exact H2].
      intros k' v' [E|HIn].
      * now inversion E; subst.
      * apply IH in H2. destruct H2 as [Hab _].
        eapply text_compare_lt_trans; [exact H1|]. eapply Hab; eauto.
    + intros [Hab H2]. split; [|exact H2].
      eapply Hab. left; reflexivity.
Qed.

Lemma map_find_above k m : above k m -> map_find m k = None.
Proof.
  destruct m as [|[k1 v1] m]; simpl; [reflexivity|].
  intros H. now rewrite (H k1 v1 (or_introl eq_refl)).
Qed.

(** On a sorted map [find] is membership. *)
Lemma map_find_In m key v :
  keys_sorted m = true -> (map_find m key = Some v <-> In (key, v) m).
Proof.
  induction m as [|[k1 v1] m IH]; intros Hs.
  - simpl. split; [discriminate|tauto].
  - apply keys_sorted_cons in Hs. destruct Hs as [Hab Hs].
    simpl. destruct (text_compare key k1) eqn:E.
    + apply text_compare_eq in E. subst k1. split.
      * intros [= ->]. now left.
      * intros [[= ->]|HIn]; [reflexivity|].
        apply Hab in HIn. now rewrite text_compare_refl in HIn.
    + split; [discriminate|].
      intros [HE|HIn].
      * injection HE as <- <-. now rewrite text_compare_refl in E.
      * apply Hab in HIn.
        pose proof (text_compare_lt_trans _ _ _ E HIn) as F.
        now rewrite text_compare_refl in F.
    + rewrite (IH Hs). split; [now right|].
      intros [HE|HIn]; [|exact HIn].
      injection HE as <- <-. now rewrite text_compare_refl in E.
Qed.

Lemma map_find_None_In m key :
  keys_sorted m = true ->
  (map_find m key = None <-> ~ In key (map fst m)).
Proof.
  intros Hs. split.
  - intros HN HIn. apply in_map_iff in HIn. destruct HIn as [[k v] [E HIn]].
    simpl in E; subst k. apply (map_find_In m key v Hs) in HIn. congruence.
  - intros HN. destruct (map_find m key) as [v|] eqn:E; [|reflexivity].
    apply (map_find_In m key v Hs) in E. exfalso. apply HN.
    apply in_map_iff. now exists (key, v).
Qed.

Lemma map_subscript_In dflt m key k v :
  In (k, v) (map_subscript dflt m key) ->
  In (k, v) m \/ (k = key /\ v = dflt /\ map_find m key = None).
Proof.
  induction m as [|[k1 v1] m IH]; simpl.
  - intros [[= <- <-]|[]]. now right.
  - destruct (text_compare key k1) eqn:E; simpl.
    + tauto.
    + intros [[= <- <-]|H]; [now right|now left].
    + intros [H|H]; [now left; left|].
      apply IH in H. tauto.
Qed.

Lemma In_map_subscript dflt m key k v :
  In (k, v) m -> In (k, v) (map_subscript dflt m key).
Proof.
  induction m as [|[k1 v1] m IH]; simpl; [tauto|].
  destruct (text_compare key k1); simpl; tauto.
Qed.

Lemma map_subscript_sorted dflt m key :
  keys_sorted m = true -> keys_sorted (map_subscript dflt m key) = true.
Proof.
  induction m as [|[k1 v1] m IH]; intros Hs; [reflexivity|].
  simpl. destruct (text_compare key k1) eqn:E.
  - exact Hs.
  - apply keys_sorted_cons. split; [|exact Hs].
    apply keys_sorted_cons in Hs. destruct Hs as [Hab _].
    intros k' v' [[= <- <-]|HIn]; [exact E|].
    eapply text_compare_lt_trans; [exact E|]. eapply Hab; eauto.
  - apply keys_sorted_cons in Hs. destruct Hs as [Hab Hs].
    apply keys_sorted_cons. split; [|now apply IH].
    intros k' v' HIn. apply map_subscript_In in HIn.
    destruct HIn as [HIn|[-> _]]; [eapply Hab; eauto|].
    now apply text_compare_gt_lt.
Qed.

Lemma map_find_subscript_same dflt m key :
  map_find (map_subscript dflt m key) key
  = match map_find m key with Some v => Some v | None => Some dflt end.
Proof.
  induction m as [|[k1 v1] m IH]; simpl.
  - now rewrite text_compare_refl.
  - destruct (text_compare key k1) eqn:E; simpl.
    + now rewrite E.
    + now rewrite text_compare_refl.
    + now rewrite E.
Qed.

Lemma map_subscript_present dflt m key v :
  map_find m key = Some v -> map_subscript dflt m key = m.
Proof.
  induction m as [|[k1 v1] m IH]; simpl; [discriminate|].
  destruct (text_compare key k1); try discriminate; [reflexivity|].
  intros H. now rewrite (IH H).
Qed.

Lemma map_store_keys m key v : map fst (map_store m key v) = map fst m.
Proof.
  induction m as [|[k1 v1] m IH]; simpl; [reflexivity|].
  destruct (text_compare key k1); simpl; congruence.
Qed.

Lemma keys_sorted_keys m m' :
  map fst m = map fst m' -> keys_sorted m = keys_sorted m'.
Proof.
  revert m'; induction m as [|[k v] m IH]; intros [|[k' v'] m']; simpl;
    try discriminate; [reflexivity|].
  intros [= -> H]. specialize (IH _ H).
  destruct m as [|[k1 v1] m], m' as [|[k1' v1'] m']; try discriminate;
    [reflexivity|].
  injection H as -> _. now rewrite IH.
Qed.

Lemma map_store_sorted m key v :
  keys_sorted m = true -> keys_sorted (map_store m key v) = true.
Proof.
  intros H. now rewrite (keys_sorted_keys _ m (map_store_keys m key v)).
Qed.

Lemma map_find_store_same m key v w :
  map_find m key = Some w -> map_find (map_store m key v) key = Some v.
Proof.
  induction m as [|[k1 v1] m IH]; simpl; [discriminate|].
  destruct (text_compare key k1) eqn:E; simpl; rewrite ?E;
    auto; discriminate.
Qed.

Lemma map_find_store_other m key v k :
  k <> key -> map_find (map_store m key v) k = map_find m k.
Proof.
  intros Hne. induction m as [|[k1 v1] m IH]; simpl; [reflexivity|].
  destruct (text_compare key k1) eqn:E; simpl; [|reflexivity|].
  - apply text_compare_eq in E. subst k1.
    destruct (text_compare k key) eqn:F; try reflexivity.
    apply text_compare_eq in F. contradiction.
  - now rewrite IH.
Qed.

Lemma map_assign_sorted dflt m key v :
  keys_sorted m = true -> keys_sorted (map_assign dflt m key v) = true.
Proof.
  intros H. unfold map_assign.
  now apply map_store_sorted, map_subscript_sorted.
Qed.

Lemma map_find_assign_same dflt m key v :
  map_find (map_assign dflt m key v) key = Some v.
Proof.
  unfold map_assign.
  pose proof (map_find_subscript_same dflt m key) as H.
  destruct (map_find m key) as [w|];
    eapply map_find_store_same; exact H.
Qed.
End OrderedMapFacts.

(** ** The cursor

    What the members that read the input see is the text from the cursor
    on, [skipn pos json]. *)

Lemma skipn_cons_inv (json : text) (pos : nat) (c : ascii) (rest : text) :
  skipn pos json = c :: rest ->
  pos < length json /\ char_at json pos = c /\ skipn (S pos) json = rest.
Proof.
  revert json; induction pos as [|pos IH]; intros [|x json] H;
    simpl in H; try discriminate.
  - injection H as -> ->. simpl. repeat split. lia.
  - apply IH in H. destruct H as (H1 & H2 & H3).
    repeat split; [simpl; lia| exact H2 | exact H3].
Qed.

Lemma skipn_nil_inv (json : text) (pos : nat) :
  skipn pos json = [] -> length json <= pos.
Proof.
  intros H. pose proof (length_skipn pos json) as L.
  rewrite H in L. simpl in L. lia.
Qed.

Lemma skipn_app_inv (json : text) (pos : nat) (a b : text) :
  skipn pos json = a ++ b -> skipn (pos + length a) json = b.
Proof.
  intros H. rewrite Nat.add_comm, <- skipn_skipn, H.
  now rewrite skipn_app, skipn_all, Nat.sub_diag.
Qed.

Lemma skipn_length_le (json : text) (pos : nat) (a b : text) :
  skipn pos json = a ++ b -> pos + length a + length b = length json \/
                             (a ++ b = [] /\ length json <= pos).
Proof.
  intros H. pose proof (length_skipn pos json) as L.
  rewrite H, length_app in L.
  destruct (a ++ b) eqn:E.
  - right. split; [reflexivity|]. now apply skipn_nil_inv.
  - left. rewrite <- E in H. 
    assert (length (a ++ b) <> 0) by (rewrite E; simpl; lia).
    rewrite length_app in *. lia.
Qed.

Lemma substr_app (json : text) (pos : nat) (a b : text) :
  skipn pos json = a ++ b -> substr json pos (length a) = a.
Proof.
  intros H. unfold substr. rewrite H.
  now rewrite firstn_app, Nat.sub_diag, firstn_all, app_nil_r.
Qed.

Lemma peek_cons json pos c rest :
  skipn pos json = c :: rest -> peek json pos = Ok c pos.
Proof.
  intros H. apply skipn_cons_inv in H. destruct H as (H1 & H2 & _).
  unfold peek. apply Nat.leb_gt in H1. now rewrite H1, H2.
Qed.

Lemma peek_nil json pos : skipn pos json = [] -> peek json pos = Ok NUL pos.
Proof.
  intros H. apply skipn_nil_inv in H. unfold peek.
  apply Nat.leb_le in H. now rewrite H.
Qed.

Lemma current_cons json pos c rest :
  skipn pos json = c :: rest -> current json pos = Ok c pos.
Proof.
  intros H. apply skipn_cons_inv in H. destruct H as (H1 & H2 & _).
  unfold current. apply Nat.leb_gt in H1. now rewrite H1, H2.
Qed.

Lemma current_nil json pos :
  skipn pos json = [] ->
  current json pos = Throw (ParseError Unexpected_end_of_input pos).
Proof.
  intros H. apply skipn_nil_inv in H. unfold current.
  apply Nat.leb_le in H. now rewrite H.
Qed.

Lemma advance_cons json pos c rest :
  skipn pos json = c :: rest -> advance json pos = Ok tt (S pos).
Proof.
  intros H. apply skipn_cons_inv in H. destruct H as (H1 & _).
  unfold advance. apply Nat.ltb_lt in H1. now rewrite H1.
Qed.

Lemma skip_while_loop_spec p ws : forall fuel json pos rest,
  skipn pos json = ws ++ rest -> forallb p ws = true -> stops p rest = true ->
  length ws <= fuel ->
  skip_while_loop p fuel json pos = Ok tt (pos + length ws).
Proof.
  induction ws as [|c ws IH]; intros fuel json pos rest H Hp Hs Hf.
  - simpl in *. rewrite Nat.add_0_r. destruct fuel; [reflexivity|].
    simpl. destruct rest as [|c rest].
    + apply skipn_nil_inv in H. apply Nat.ltb_ge in H. now rewrite H.
    + apply skipn_cons_inv in H. destruct H as (_ & -> & _).
      simpl in Hs. apply negb_true_iff in Hs. rewrite Hs.
      now rewrite andb_false_r.
  - simpl in Hp. apply andb_true_iff in Hp. destruct Hp as [Hc Hp].
    destruct fuel; [simpl in Hf; lia|]. simpl in *.
    apply skipn_cons_inv in H. destruct H as (H1 & -> & H3).
    apply Nat.ltb_lt in H1. rewrite H1, Hc. simpl.
    rewrite (IH fuel json (S pos) rest H3 Hp Hs); [f_equal; lia|lia].
Qed.

Lemma skip_while_spec p json pos ws rest :
  skipn pos json = ws ++ rest -> forallb p ws = true -> stops p rest = true ->
  skip_while p json pos = Ok tt (pos + length ws).
Proof.
  intros H Hp Hs. unfold skip_while.
  apply (skip_while_loop_spec p ws _ json pos rest H Hp Hs).
  pose proof (length_skipn pos json) as L.
  rewrite H, length_app in L. lia.
Qed.

Lemma skip_while_stops p json pos rest :
  skipn pos json = rest -> stops p rest = true ->
  skip_while p json pos = Ok tt pos.
Proof.
  intros H Hs. rewrite (skip_while_spec p json pos [] rest H eq_refl Hs).
  now rewrite Nat.add_0_r.
Qed.

(** ** Sequencing *)

Lemma bind_ok {A B : Type} (m : Parser A) (k : A -> Parser B) json pos a pos' r :
  m json pos = Ok a pos' -> k a json pos' = r -> bind m k json pos = r.
Proof. intros H1 H2. unfold bind. now rewrite H1. Qed.

Lemma bind_throw {A B : Type} (m : Parser A) (k : A -> Parser B) json pos e :
  m json pos = Throw e -> bind m k json pos = Throw e.
Proof. intros H1. unfold bind. now rewrite H1. Qed.

Lemma bind_inv {A B : Type} (m : Parser A) (k : A -> Parser B) json pos b pos' :
  bind m k json pos = Ok b pos' ->
  exists a pos1, m json pos = Ok a pos1 /\ k a json pos1 = Ok b pos'.
Proof.
  unfold bind. destruct (m json pos) as [a pos1| |]; try discriminate.
  intros H. now exists a, pos1.
Qed.

Lemma isspace_spec (c : ascii) :
  isspace c = true <-> In c [" "; HT; LF; VT; FF; CR].
Proof.
  split.
  - destruct c as [[] [] [] [] [] [] [] []]; vm_compute; intros H;
      try discriminate; tauto.
  - intros H. simpl in H.
    repeat (destruct H as [<-|H]; [reflexivity|]). contradiction.
Qed.

(** C10: the parser skips exactly the characters [std::isspace] accepts,
    which are the space and the five controls tab, line feed, vertical
    tab, form feed and carriage return; a run of such characters before a
    token is skipped whole, so an input with a form feed or a vertical tab
    between tokens parses. *)
Theorem skip_whitespace_follows_isspace :
  (forall c, isspace c = true <-> In c [" "; HT; LF; VT; FF; CR])
  /\ (forall json pos ws rest,
        skipn pos json = ws ++ rest ->
        forallb isspace ws = true -> stops isspace rest = true ->
        skip_whitespace json pos = Ok tt (pos + length ws))
  /\ (forall ws, forallb isspace ws = true ->
        parse (ws ++ lit "[]") = Ok (JArray []) (length ws + 2))
  /\ parse (FF :: lit "[]") = Ok (JArray []) 3
  /\ parse (lit "[1," ++ VT :: lit "2" ++ FF :: lit "]")
     = Ok (JArray [Json_of_int 1; Json_of_int 2]) 7.
Proof.
  split; [exact isspace_spec|].
  split; [intros; now apply skip_while_spec with (rest := rest)|].
  split; [|split; vm_compute; reflexivity].
  intros ws Hws. unfold parse, JsonParser_parse, fuel_for.
  set (json := ws ++ lit "[]").
  assert (H0 : skipn 0 json = ws ++ lit "[]") by reflexivity.
  assert (H1 : skipn (length ws) json = lit "[]")
    by (apply (skipn_app_inv json 0 ws _ H0)).
  assert (H2 : skipn (S (length ws)) json = lit "]")
    by (now apply skipn_cons_inv in H1).
  assert (H3 : skipn (S (S (length ws))) json = [])
    by (now apply skipn_cons_inv in H2).
  assert (HL : length json = length ws + 2)
    by (unfold json; rewrite length_app; reflexivity).
  eapply bind_ok.
  { apply (skip_while_spec isspace json 0 ws _ H0 Hws). reflexivity. }
  replace (2 * length json + 2) with (S (2 * length json + 1)) by lia.
  eapply bind_ok.
  { simpl parse_value. eapply bind_ok.
    { apply (skip_while_stops isspace json _ _ H1). reflexivity. }
    eapply bind_ok; [apply (current_cons _ _ _ _ H1)|].
    cbn -[parse_array_loop].
    unfold parse_array_with.
    eapply bind_ok; [apply (current_cons _ _ _ _ H1)|]. simpl negb. cbv iota.
    eapply bind_ok; [apply (advance_cons _ _ _ _ H1)|].
    eapply bind_ok.
    { apply (skip_while_stops isspace json _ _ H2). reflexivity. }
    eapply bind_ok; [apply (peek_cons _ _ _ _ H2)|]. cbn.
    eapply bind_ok; [apply (advance_cons _ _ _ _ H2)|]. reflexivity. }
  eapply bind_ok.
  { apply (skip_while_stops isspace json _ _ H3). reflexivity. }
  unfold bind, get_pos, size. rewrite HL.
  replace (S (S (length ws)) <? length ws + 2) with false
    by (symmetry; apply Nat.ltb_ge; lia).
  unfold ret. f_equal. lia.
Qed.

Lemma skip_whitespace_follows_isspace_witness :
  skip_whitespace (lit "[" ++ [VT; FF] ++ lit "1]") 1 = Ok tt 3
  /\ parse ([" "; HT; LF; VT; FF; CR] ++ lit "[]") = Ok (JArray []) 8.
Proof.
  split.
  - exact (proj1 (proj2 skip_whitespace_follows_isspace)
             (lit "[" ++ [VT; FF] ++ lit "1]") 1 [VT; FF] (lit "1]")
             eq_refl eq_refl eq_refl).
  - exact (proj1 (proj2 (proj2 skip_whitespace_follows_isspace))
             [" "; HT; LF; VT; FF; CR] eq_refl).
Defined.

(** ** Trailing commas *)

(** C8: the text of an object with a comma before its closing brace is
    rejected with an error whose offset, 8, is that of the brace; this is
    what the object loop does whenever it starts an iteration on a closing
    brace, which is where a comma followed by the closing brace leaves it. *)
Theorem trailing_comma_rejected :
  parse (lit "{" ++ DQ :: lit "a" ++ DQ :: lit ": 1,}")
  = Throw (ParseError Expected_string_key_in_object 8)
  /\ nth_error (lit "{" ++ DQ :: lit "a" ++ DQ :: lit ": 1,}") 8 = Some "}"
  /\ (forall fuel obj json pos rest,
        skipn pos json = "}" :: rest ->
        parse_object_loop (S fuel) obj json pos
        = Throw (ParseError Expected_string_key_in_object pos)).
Proof.
  split; [vm_compute; reflexivity|].
  split; [reflexivity|].
  intros fuel obj json pos rest H. simpl parse_object_loop.
  eapply bind_ok.
  { apply (skip_while_stops isspace json _ _ H). reflexivity. }
  eapply bind_ok; [apply (peek_cons _ _ _ _ H)|]. reflexivity.
Qed.

Lemma trailing_comma_rejected_witness :
  parse_object_loop 1 [] (lit "{}") 1
  = Throw (ParseError Expected_string_key_in_object 1).
Proof.
  exact (proj2 (proj2 trailing_comma_rejected) 0 [] (lit "{}") 1 [] eq_refl).
Defined.

(** ** Index operators *)

(** C4, on the code: indexing by position raises the type error of
    [as_array] on every variant but the array and returns the element of
    an array at a position below its size; at any other position the
    vector is accessed unchecked, which is undefined and raises no
    error. *)
Theorem index_at_unchecked :
  (forall j index, is_array j = false -> index_at j index = Raises Not_an_array)
  /\ (forall a index, index < length a ->
        index_at (JArray a) index = Returns (nth index a JNull))
  /\ (forall a index, length a <= index ->
        index_at (JArray a) index = Undefined)
  /\ index_at (JArray []) 0 = Undefined.
Proof.
  split; [intros [] index H; try discriminate; reflexivity|].
  split.
  { intros a index H. unfold index_at, as_array, vector_subscript.
    destruct (nth_error a index) as [v|] eqn:E.
    - now rewrite (nth_error_nth _ _ JNull E).
    - apply nth_error_None in E. lia. }
  split; [|reflexivity].
  intros a index H. unfold index_at, as_array, vector_subscript.
  apply nth_error_None in H. now rewrite H.
Qed.

Lemma index_at_unchecked_witness :
  index_at (JString (lit "x")) 0 = Raises Not_an_array
  /\ index_at (JArray [JNull; JBool true]) 1 = Returns (JBool true)
  /\ index_at (JArray [JNull; JBool true]) 2 = Undefined.
Proof.
  split; [|split].
  - exact (proj1 index_at_unchecked (JString (lit "x")) 0 eq_refl).
  - apply (proj1 (proj2 index_at_unchecked) [JNull; JBool true] 1).
    simpl; lia.
  - apply (proj1 (proj2 (proj2 index_at_unchecked)) [JNull; JBool true] 2).
    simpl; lia.
Defined.

(** C5: on an object, the mutable index operator by key returns a
    reference to the entry when the key is present and leaves the object
    as it is; when the key is absent it inserts a null entry at the key,
    keeps every other entry and the key order, and returns a reference to
    the new entry.  The immutable operator, a function of the object
    alone, returns the entry of a present key and raises the key-not-found
    error, which names the key, for an absent one.  A value assigned
    through the reference of the mutable operator is the entry found
    afterwards. *)
Theorem index_key_semantics (o : JsonObject) (key : text) :
  keys_sorted o = true ->
  (forall v, In (key, v) o ->
     index_key_mut (JObject o) key = Returns (JObject o, v)
     /\ index_key (JObject o) key = Returns v)
  /\ (~ In key (map fst o) ->
      exists o',
        index_key_mut (JObject o) key = Returns (JObject o', JNull)
        /\ In (key, JNull) o'
        /\ keys_sorted o' = true
        /\ (forall k v, k <> key -> (In (k, v) o' <-> In (k, v) o))
        /\ index_key (JObject o) key = Raises (Key_not_found key))
  /\ (forall v, exists o',
        assign_key (JObject o) key v = Returns (JObject o')
        /\ index_key (JObject o') key = Returns v).
Proof.
  intros Hs. split; [|split].
  3: { intros v. exists (map_assign JNull o key v). split; [reflexivity|].
       unfold index_key, as_object. now rewrite map_find_assign_same. }
  - intros v HIn. apply (map_find_In o key v Hs) in HIn.
    unfold index_key_mut, index_key, as_object, map_entry.
    rewrite (map_subscript_present JNull o key v HIn). now rewrite HIn.
  - intros HN. apply (map_find_None_In o key Hs) in HN.
    exists (map_subscript JNull o key).
    pose proof (map_subscript_sorted JNull o key Hs) as Hs'.
    pose proof (map_find_subscript_same JNull o key) as Hf.
    rewrite HN in Hf.
    unfold index_key_mut, index_key, as_object, map_entry. rewrite Hf, HN.
    repeat split; auto.
    + now apply (map_find_In _ key JNull Hs').
    + intros HIn. apply map_subscript_In in HIn.
      destruct HIn as [HIn|[-> _]]; [exact HIn|contradiction].
    + apply In_map_subscript.
Qed.

Lemma index_key_semantics_witness :
  (index_key_mut (JObject [(lit "a", JBool true)]) (lit "a")
   = Returns (JObject [(lit "a", JBool true)], JBool true)
   /\ index_key (JObject [(lit "a", JBool true)]) (lit "a")
      = Returns (JBool true))
  /\ exists o',
       index_key_mut (JObject [(lit "b", JBool true)]) (lit "a")
       = Returns (JObject o', JNull)
       /\ In (lit "a", JNull) o'
       /\ keys_sorted o' = true
       /\ (forall k v, k <> lit "a" ->
             (In (k, v) o' <-> In (k, v) [(lit "b", JBool true)]))
       /\ index_key (JObject [(lit "b", JBool true)]) (lit "a")
          = Raises (Key_not_found (lit "a")).
Proof.
  split.
  - apply (proj1 (index_key_semantics [(lit "a", JBool true)] (lit "a")
                    eq_refl)).
    left; reflexivity.
  - apply (proj1 (proj2 (index_key_semantics [(lit "b", JBool true)] (lit "a")
                           eq_refl))).
    simpl. intros [H|[]]. discriminate H.
Defined.

(** ** Printed numbers *)

Lemma isdigit_digit_char (k : Z) :
  (0 <= k < 10)%Z -> isdigit (digit_char k) = true.
Proof.
  intros H.
  assert (E : (k = 0 \/ k = 1 \/ k = 2 \/ k = 3 \/ k = 4 \/ k = 5 \/ k = 6
               \/ k = 7 \/ k = 8 \/ k = 9)%Z) by lia.
  repeat (destruct E as [->|E]; [reflexivity|]). now subst.
Qed.

Lemma decimal_digits_isdigit (fuel : nat) : forall n acc,
  forallb isdigit acc = true ->
  forallb isdigit (decimal_digits fuel n acc) = true.
Proof.
  induction fuel as [|fuel IH]; intros n acc H; cbn [decimal_digits];
    [exact H|].
  assert (H' : forallb isdigit (digit_char (n mod 10) :: acc) = true).
  { cbn [forallb]. rewrite H, isdigit_digit_char; [reflexivity|].
    apply Z.mod_pos_bound. lia. }
  destruct (n <? 10)%Z; [exact H'|now apply IH].
Qed.

Lemma print_unsigned_isdigit (n : Z) :
  forallb isdigit (print_unsigned n) = true.
Proof. now apply decimal_digits_isdigit. Qed.

Lemma print_unsigned_nonempty (n : Z) : print_unsigned n <> [].
Proof.
  assert (H : forall fuel m c acc, decimal_digits fuel m (c :: acc) <> []).
  { induction fuel as [|f IH]; intros m c acc; cbn [decimal_digits];
      [discriminate|].
    destruct (m <? 10)%Z; [discriminate|apply IH]. }
  unfold print_unsigned. cbn [decimal_digits].
  destruct (n <? 10)%Z; [discriminate|apply H].
Qed.

Lemma print_long_long_no_point (n : Z) : ~ In "." (print_long_long n).
Proof.
  assert (H : forall s, forallb isdigit s = true -> ~ In "." s).
  { intros s Hs HIn. rewrite forallb_forall in Hs.
    apply Hs in HIn. discriminate HIn. }
  unfold print_long_long. destruct (n <? 0)%Z.
  - intros [E|HIn]; [discriminate E|].
    revert HIn. apply H, print_unsigned_isdigit.
  - apply H, print_unsigned_isdigit.
Qed.

(** ** Strings *)

(** The facts about a hexadecimal digit that the conversion uses, checked
    on each of the 256 characters. *)
Lemma isxdigit_facts (c : ascii) :
  isxdigit c = true ->
  isspace c = false
  /\ Ascii.eqb c "-" = false /\ Ascii.eqb c "+" = false
  /\ Ascii.eqb c "x" = false /\ Ascii.eqb c "X" = false
  /\ ((0 <=? xdigit_val c) && (xdigit_val c <? 16))%Z = true.
Proof.
  destruct c as [[] [] [] [] [] [] [] []]; vm_compute; intros H;
    try discriminate H; repeat split.
Qed.

Lemma take_sign_other (c : ascii) (s : text) :
  Ascii.eqb c "-" = false -> Ascii.eqb c "+" = false ->
  take_sign (c :: s) = (false, c :: s).
Proof.
  destruct c as [[] [] [] [] [] [] [] []]; vm_compute; intros H1 H2;
    try discriminate; reflexivity.
Qed.

Lemma skip_hex_prefix_spec (s : text) :
  skip_hex_prefix s = if hex_prefixed s then skipn 2 s else s.
Proof.
  destruct s as [|c [|x [|h s]]]; try reflexivity;
    destruct c as [[] [] [] [] [] [] [] []]; reflexivity.
Qed.

Lemma hex_value_snoc (ds : text) (c : ascii) :
  hex_value (ds ++ [c]) = (16 * hex_value ds + xdigit_val c)%Z.
Proof. unfold hex_value. now rewrite fold_left_app. Qed.

Lemma hex_value_bound (ds : text) :
  forallb isxdigit ds = true ->
  (0 <= hex_value ds < 16 ^ Z.of_nat (length ds))%Z.
Proof.
  induction ds as [|c ds IH] using rev_ind; intros H.
  - cbn. lia.
  - rewrite forallb_app in H. apply andb_true_iff in H.
    destruct H as [H1 H2]. cbn [forallb] in H2.
    rewrite andb_true_r in H2. specialize (IH H1).
    apply isxdigit_facts in H2. destruct H2 as (_ & _ & _ & _ & _ & H2).
    apply andb_true_iff in H2. destruct H2 as [L U].
    apply Z.leb_le in L. apply Z.ltb_lt in U.
    rewrite hex_value_snoc, length_app, Nat.add_comm. cbn [length Nat.add].
    rewrite Nat2Z.inj_succ, Z.pow_succ_r by lia. lia.
Qed.

Lemma span_forallb (p : ascii -> bool) (s : text) :
  forallb p (fst (span p s)) = true.
Proof.
  induction s as [|c s IH]; [reflexivity|]. cbn [span].
  destruct (p c) eqn:E; [|reflexivity].
  destruct (span p s) as [a b]. cbn [fst forallb] in *. now rewrite E.
Qed.

Lemma span_length (p : ascii -> bool) (s : text) :
  length (fst (span p s)) <= length s.
Proof.
  induction s as [|c s IH]; [cbn; lia|]. cbn [span].
  destruct (p c); [|cbn; lia].
  destruct (span p s) as [a b]. cbn [fst length] in *. lia.
Qed.

Lemma span_all (p : ascii -> bool) (ds rest : text) :
  forallb p ds = true -> stops p rest = true ->
  span p (ds ++ rest) = (ds, rest).
Proof.
  intros Hd Hr. induction ds as [|c ds IH]; cbn [app].
  - destruct rest as [|c rest]; [reflexivity|]. cbn [span].
    cbn [stops] in Hr. apply negb_true_iff in Hr. now rewrite Hr.
  - cbn [forallb] in Hd. apply andb_true_iff in Hd. destruct Hd as [Hc Hd].
    cbn [span]. now rewrite Hc, (IH Hd).
Qed.

(** The conversion of a block of at most four characters that begins with
    a hexadecimal digit. *)
Lemma stoi16_leading_digit (c : ascii) (s : text) :
  isxdigit c = true -> length s <= 3 ->
  stoi16 (c :: s)
  = Some (hex_value (leading_hex (if hex_prefixed (c :: s)
                                  then skipn 2 (c :: s) else c :: s))).
Proof.
  intros Hc Hl. pose proof (isxdigit_facts c Hc) as (F1 & F2 & F3 & _).
  unfold stoi16. cbn [skip_spaces]. rewrite F1.
  rewrite (take_sign_other c s F2 F3), skip_hex_prefix_spec.
  set (s2 := if hex_prefixed (c :: s) then skipn 2 (c :: s) else c :: s).
  assert (Hne : leading_hex s2 <> []).
  { unfold s2, leading_hex. destruct (hex_prefixed (c :: s)) eqn:E.
    - destruct s as [|x [|h s]];
        try (destruct c as [[] [] [] [] [] [] [] []]; discriminate E).
      assert (Hh : isxdigit h = true).
      { destruct c as [[] [] [] [] [] [] [] []]; try discriminate E.
        cbn [hex_prefixed] in E. now apply andb_true_iff in E. }
      cbn [skipn span]. rewrite Hh. now destruct (span isxdigit s).
    - cbn [span]. rewrite Hc. now destruct (span isxdigit s). }
  assert (Hlen : length (leading_hex s2) <= 4).
  { unfold leading_hex. etransitivity; [apply span_length|].
    unfold s2. destruct (hex_prefixed (c :: s)).
    - rewrite length_skipn. cbn [length]. lia.
    - cbn [length]. lia. }
  pose proof (hex_value_bound (leading_hex s2) (span_forallb _ _)) as B.
  unfold leading_hex in *. destruct (span isxdigit s2) as [ds tl].
  cbn [fst] in *. destruct ds as [|d ds]; [contradiction|].
  assert (P : (16 ^ Z.of_nat (length (d :: ds)) <= 16 ^ 4)%Z)
    by (apply Z.pow_le_mono_r; lia).
  change (16 ^ 4)%Z with 65536%Z in P.
  unfold INT_MIN, INT_MAX.
  change (2 ^ 31)%Z with 2147483648%Z.
  replace ((- (2147483648) <=? hex_value (d :: ds))
           && (hex_value (d :: ds) <=? 2147483648 - 1))%Z with true;
    [reflexivity|].
  symmetry. apply andb_true_iff. split; apply Z.leb_le; lia.
Qed.

Lemma parse_escape_unicode json pos hex rest :
  skipn pos json = "u" :: hex ++ rest -> length hex = 4 ->
  parse_escape "u" json pos
  = match stoi16 hex with
    | Some cp => Ok (decode_code_point cp) (pos + 4)
    | None => Throw (ParseError Invalid_unicode_escape (S pos))
    end.
Proof.
  intros H Hl.
  assert (H1 : skipn (S pos) json = hex ++ rest)
    by (now apply skipn_cons_inv in H).
  assert (HL : S pos + 4 <= length json).
  { pose proof (length_skipn (S pos) json) as L.
    rewrite H1, length_app, Hl in L. lia. }
  change (parse_escape "u") with
    (advance ;;
     pos <- get_pos ;;
     n <- size ;;
     if n <? pos + 4 then throw Invalid_unicode_escape
     else
       json <- json_ ;;
       let hex := substr json pos 4 in
       match stoi16 hex with
       | Some code_point =>
           set_pos (pos + 3) ;;
           ret (if (code_point <? 128)%Z then char_of_int code_point else "?")
       | None => throw Invalid_unicode_escape
       end).
  eapply bind_ok; [apply (advance_cons _ _ _ _ H)|].
  unfold bind at 1 2, get_pos, size.
  replace (length json <? S pos + 4) with false
    by (symmetry; apply Nat.ltb_ge; lia).
  unfold bind at 1, json_. cbv zeta.
  rewrite <- Hl, (substr_app json (S pos) hex rest H1).
  destruct (stoi16 hex) as [cp|]; [|reflexivity].
  unfold bind, set_pos, ret, decode_code_point. f_equal. lia.
Qed.

Lemma string_loop_backslash fuel result json pos e rest :
  skipn pos json = BSLASH :: e :: rest ->
  parse_string_loop (S fuel) result json pos
  = (ch <- parse_escape e ;;
     advance ;;
     parse_string_loop fuel (result ++ [ch])) json (S pos).
Proof.
  intros H. pose proof (skipn_cons_inv _ _ _ _ H) as (H1 & _ & H2).
  cbn [parse_string_loop].
  unfold bind at 1 2, get_pos, size.
  eapply bind_ok; [apply (peek_cons _ _ _ _ H)|].
  apply Nat.ltb_lt in H1. rewrite H1.
  change (negb (Ascii.eqb BSLASH DQ)) with true.
  change (Ascii.eqb BSLASH BSLASH) with true. cbv iota. cbn [andb].
  eapply bind_ok; [apply (advance_cons _ _ _ _ H)|].
  unfold bind at 1, get_pos.
  pose proof (skipn_cons_inv _ _ _ _ H2) as (H3 & _).
  replace (length json <=? S pos) with false
    by (symmetry; apply Nat.leb_gt; lia).
  eapply bind_ok; [apply (peek_cons _ _ _ _ H2)|]. reflexivity.
Qed.

Lemma string_loop_unicode fuel result json pos hex rest :
  skipn pos json = BSLASH :: "u" :: hex ++ rest -> length hex = 4 ->
  parse_string_loop (S fuel) result json pos
  = match stoi16 hex with
    | Some cp =>
        parse_string_loop fuel (result ++ [decode_code_point cp]) json (pos + 6)
    | None => Throw (ParseError Invalid_unicode_escape (pos + 2))
    end.
Proof.
  intros H Hl. rewrite (string_loop_backslash _ _ _ _ _ _ H).
  pose proof (skipn_cons_inv _ _ _ _ H) as (_ & _ & H2).
  unfold bind at 1. rewrite (parse_escape_unicode _ _ _ _ H2 Hl).
  destruct (stoi16 hex) as [cp|]; [|do 2 f_equal; lia].
  destruct hex as [|h1 [|h2 [|h3 [|h4 [|]]]]]; try discriminate Hl.
  assert (H5 : skipn (S pos + 4) json = h4 :: rest).
  { replace (S pos + 4) with (S pos + 1 + length [h1; h2; h3]) by (cbn; lia).
    apply skipn_app_inv. 
    replace (S pos + 1) with (pos + length [BSLASH; "u"]) by (cbn; lia).
    now apply skipn_app_inv. }
  eapply bind_ok; [apply (advance_cons _ _ _ _ H5)|].
  f_equal. lia.
Qed.

Lemma string_loop_plain fuel result json pos c rest :
  skipn pos json = c :: rest ->
  Ascii.eqb c DQ = false -> Ascii.eqb c BSLASH = false ->
  parse_string_loop (S fuel) result json pos
  = parse_string_loop fuel (result ++ [c]) json (S pos).
Proof.
  intros H Hq Hb. pose proof (skipn_cons_inv _ _ _ _ H) as (H1 & _ & H2).
  cbn [parse_string_loop].
  unfold bind at 1 2, get_pos, size.
  eapply bind_ok; [apply (peek_cons _ _ _ _ H)|].
  apply Nat.ltb_lt in H1. rewrite H1, Hq, Hb. cbn [andb negb].
  eapply bind_ok; [apply (advance_cons _ _ _ _ H)|]. reflexivity.
Qed.

Lemma string_loop_quote fuel result json pos rest :
  skipn pos json = DQ :: rest ->
  parse_string_loop fuel result json pos = Ok result pos.
Proof.
  intros H. destruct fuel; [reflexivity|].
  cbn [parse_string_loop].
  unfold bind at 1 2, get_pos, size.
  eapply bind_ok; [apply (peek_cons _ _ _ _ H)|].
  change (negb (Ascii.eqb DQ DQ)) with false. now rewrite andb_false_r.
Qed.

Lemma string_loop_end fuel result json pos :
  skipn pos json = [] ->
  parse_string_loop fuel result json pos = Ok result pos.
Proof.
  intros H. destruct fuel; [reflexivity|].
  cbn [parse_string_loop].
  unfold bind at 1 2, get_pos, size.
  eapply bind_ok; [apply (peek_nil _ _ H)|].
  apply skipn_nil_inv in H. apply Nat.ltb_ge in H. now rewrite H.
Qed.

Lemma hex_prefixed_digit (c x : ascii) (s : text) :
  isxdigit x = true -> hex_prefixed (c :: x :: s) = false.
Proof.
  intros Hx. apply isxdigit_facts in Hx.
  destruct Hx as (_ & _ & _ & E1 & E2 & _).
  destruct s as [|h s];
    destruct c as [[] [] [] [] [] [] [] []]; try reflexivity.
  cbn [hex_prefixed]. now rewrite E1, E2.
Qed.

(** C3: an escape of four hexadecimal digits, wherever it stands in a
    string, makes the string loop append one character and go on after the
    six characters of the escape: the character whose code is the value of
    the digits when that value is below 128, and a question mark
    otherwise. *)
Theorem unicode_escape_decoding :
  (forall fuel result json pos h1 h2 h3 h4 rest,
     skipn pos json = BSLASH :: "u" :: h1 :: h2 :: h3 :: h4 :: rest ->
     isxdigit h1 = true -> isxdigit h2 = true ->
     isxdigit h3 = true -> isxdigit h4 = true ->
     let code_point := (4096 * xdigit_val h1 + 256 * xdigit_val h2
                        + 16 * xdigit_val h3 + xdigit_val h4)%Z in
     parse_string_loop (S fuel) result json pos
     = parse_string_loop fuel
         (result ++ [if (code_point <? 128)%Z
                     then ascii_of_nat (Z.to_nat code_point) else "?"])
         json (pos + 6))
  /\ parse (DQ :: BSLASH :: lit "u0041" ++ [DQ]) = Ok (JString (lit "A")) 8
  /\ parse (DQ :: BSLASH :: lit "u007f" ++ [DQ]) = Ok (JString ["127"]) 8
  /\ parse (DQ :: BSLASH :: lit "u0080" ++ [DQ]) = Ok (JString (lit "?")) 8
  /\ parse (DQ :: BSLASH :: lit "u20AC" ++ [DQ]) = Ok (JString (lit "?")) 8.
Proof.
  split; [|repeat split; vm_compute; reflexivity].
  intros fuel result json pos h1 h2 h3 h4 rest H X1 X2 X3 X4 code_point.
  rewrite (string_loop_unicode fuel result json pos [h1; h2; h3; h4] rest H
             eq_refl).
  rewrite (stoi16_leading_digit h1 [h2; h3; h4] X1) by (cbn; lia).
  rewrite (hex_prefixed_digit h1 h2 _ X2).
  unfold leading_hex. cbn [span]. rewrite X1, X2, X3, X4. cbn [fst].
  assert (E : hex_value [h1; h2; h3; h4] = code_point).
  { unfold hex_value, code_point. cbn [fold_left]. lia. }
  pose proof (hex_value_bound [h1; h2; h3; h4]) as B.
  cbn [forallb] in B. rewrite X1, X2, X3, X4 in B. specialize (B eq_refl).
  rewrite E in *. unfold decode_code_point, char_of_int.
  destruct (code_point <? 128)%Z eqn:L; [|reflexivity].
  apply Z.ltb_lt in L. rewrite Z.mod_small by lia. reflexivity.
Qed.

Lemma unicode_escape_decoding_witness :
  parse_string_loop 2 [] (DQ :: BSLASH :: lit "u0041" ++ [DQ]) 1
  = parse_string_loop 1 ([] ++ [ascii_of_nat 65])
      (DQ :: BSLASH :: lit "u0041" ++ [DQ]) 7.
Proof.
  exact (proj1 unicode_escape_decoding 1 []
           (DQ :: BSLASH :: lit "u0041" ++ [DQ]) 1 "0" "0" "4" "1" [DQ]
           eq_refl eq_refl eq_refl eq_refl eq_refl).
Defined.

(** C9, as the code has it: a block of four characters after the escape
    marker that begins with a hexadecimal digit never fails, whatever the
    other three characters are.  The string loop appends the character
    decoded from the leading run of hexadecimal digits of the block (of
    the two characters after the marker when the block begins with 0x or
    0X and a hexadecimal digit), and goes on after the six characters of
    the escape.  The conversion error of the escape is raised only for a
    block whose first character is not a hexadecimal digit. *)
Theorem lenient_unicode_escape :
  (forall fuel result json pos c1 c2 c3 c4 rest,
     skipn pos json = BSLASH :: "u" :: c1 :: c2 :: c3 :: c4 :: rest ->
     isxdigit c1 = true ->
     parse_string_loop (S fuel) result json pos
     = parse_string_loop fuel
         (result ++ [decode_code_point
                       (hex_value (leading_hex
                          (if hex_prefixed [c1; c2; c3; c4]
                           then [c3; c4] else [c1; c2; c3; c4])))])
         json (pos + 6))
  /\ (forall json pos c1 c2 c3 c4 rest e,
        skipn pos json = "u" :: c1 :: c2 :: c3 :: c4 :: rest ->
        parse_escape "u" json pos = Throw e ->
        isxdigit c1 = false)
  /\ forallb isxdigit (lit "00g1") = false
  /\ parse (DQ :: BSLASH :: lit "u00g1" ++ [DQ]) = Ok (JString [NUL]) 8.
Proof.
  split; [|split; [|split; vm_compute; reflexivity]].
  - intros fuel result json pos c1 c2 c3 c4 rest H X1.
    rewrite (string_loop_unicode fuel result json pos [c1; c2; c3; c4] rest H
               eq_refl).
    rewrite (stoi16_leading_digit c1 [c2; c3; c4] X1) by (cbn; lia).
    reflexivity.
  - intros json pos c1 c2 c3 c4 rest e H T.
    rewrite (parse_escape_unicode json pos [c1; c2; c3; c4] rest H eq_refl)
      in T.
    destruct (isxdigit c1) eqn:X1; [|reflexivity].
    rewrite (stoi16_leading_digit c1 [c2; c3; c4] X1) in T by (cbn; lia).
    discriminate T.
Qed.

Lemma lenient_unicode_escape_witness :
  parse_string_loop 2 [] (DQ :: BSLASH :: lit "u00g1" ++ [DQ]) 1
  = parse_string_loop 1 ([] ++ [NUL]) (DQ :: BSLASH :: lit "u00g1" ++ [DQ]) 7
  /\ isxdigit "g" = false.
Proof.
  split.
  - exact (proj1 lenient_unicode_escape 1 []
             (DQ :: BSLASH :: lit "u00g1" ++ [DQ]) 1 "0" "0" "g" "1" [DQ]
             eq_refl eq_refl).
  - exact (proj1 (proj2 lenient_unicode_escape)
             (DQ :: BSLASH :: lit "ug001" ++ [DQ]) 2 "g" "0" "0" "1" [DQ]
             (ParseError Invalid_unicode_escape 3) eq_refl eq_refl).
Defined.

(** C9 as it was stated, with the leading run of hexadecimal digits of the
    whole block in every case, fails on a block that begins with 0x: the
    code decodes the digits after the prefix. *)
Lemma lenient_unicode_escape_0x :
  skipn 1 escape_0x41 = BSLASH :: "u" :: "0" :: "x" :: "4" :: "1" :: [DQ]
  /\ isxdigit "0" = true
  /\ leading_hex (lit "0x41") = lit "0"
  /\ parse_string_loop 2 [] escape_0x41 1
     <> parse_string_loop 1
          ([] ++ [decode_code_point (hex_value (leading_hex (lit "0x41")))])
          escape_0x41 7
  /\ parse escape_0x41 = Ok (JString (lit "A")) 8.
Proof.
  repeat split; try reflexivity. vm_compute. discriminate.
Qed.

(** ** Numbers *)

Lemma span_app (p : ascii -> bool) (s : text) :
  s = fst (span p s) ++ snd (span p s).
Proof.
  induction s as [|c s IH]; [reflexivity|]. cbn [span].
  destruct (p c); [|reflexivity].
  destruct (span p s) as [a b]. cbn [fst snd app] in *. now f_equal.
Qed.

Lemma span_stops (p : ascii -> bool) (s : text) :
  stops p (snd (span p s)) = true.
Proof.
  induction s as [|c s IH]; [reflexivity|]. cbn [span].
  destruct (p c) eqn:E.
  - now destruct (span p s) as [a b].
  - cbn [snd stops]. now rewrite E.
Qed.

Lemma skip_while_loop_span p : forall fuel json pos,
  length json - pos <= fuel ->
  skip_while_loop p fuel json pos
  = Ok tt (pos + length (fst (span p (skipn pos json)))).
Proof.
  induction fuel as [|fuel IH]; intros json pos Hf.
  - cbn [skip_while_loop]. rewrite skipn_all2 by lia.
    cbn. now rewrite Nat.add_0_r.
  - cbn [skip_while_loop]. destruct (skipn pos json) as [|c rest] eqn:E.
    + apply skipn_nil_inv in E. apply Nat.ltb_ge in E. rewrite E.
      cbn. now rewrite Nat.add_0_r.
    + apply skipn_cons_inv in E. destruct E as (H1 & -> & H3).
      assert (Hf' : length json - S pos <= fuel) by lia.
      apply Nat.ltb_lt in H1. rewrite H1. cbn [andb span].
      destruct (p c).
      * rewrite (IH json (S pos) Hf'). rewrite H3.
        destruct (span p rest) as [a b]. cbn [fst length]. apply f_equal. lia.
      * cbn. now rewrite Nat.add_0_r.
Qed.

Lemma consumed_refl json pos : consumed json pos pos [].
Proof. split; [reflexivity|cbn; lia]. Qed.

Lemma consumed_app json p1 p2 p3 a b :
  consumed json p1 p2 a -> consumed json p2 p3 b -> consumed json p1 p3 (a ++ b).
Proof.
  intros [H1 E1] [H2 E2]. split.
  - now rewrite H1, H2, app_assoc.
  - rewrite length_app. lia.
Qed.

Lemma consumed_one json pos c rest :
  skipn pos json = c :: rest -> consumed json pos (S pos) [c].
Proof.
  intros H. pose proof (skipn_cons_inv _ _ _ _ H) as (_ & _ & H3).
  split; [now rewrite H3|cbn; lia].
Qed.

Lemma consumed_substr json pos pos' tok :
  consumed json pos pos' tok -> substr json pos (pos' - pos) = tok.
Proof.
  intros [H E]. replace (pos' - pos) with (length tok) by lia.
  now apply substr_app with (b := skipn pos' json).
Qed.

(** A loop that skips the characters satisfying [p] consumes the longest
    run of them. *)
Lemma skip_while_inv p json pos pos' :
  skip_while p json pos = Ok tt pos' ->
  consumed json pos pos' (fst (span p (skipn pos json)))
  /\ stops p (skipn pos' json) = true.
Proof.
  unfold skip_while. rewrite skip_while_loop_span by lia.
  intros [= <-].
  assert (E : skipn (pos + length (fst (span p (skipn pos json)))) json
              = snd (span p (skipn pos json))).
  { apply skipn_app_inv. apply span_app. }
  split; [split; [|reflexivity]|].
  - rewrite E. apply span_app.
  - rewrite E. apply span_stops.
Qed.

Lemma skip_while_total p json pos :
  exists pos', skip_while p json pos = Ok tt pos'.
Proof. unfold skip_while. rewrite skip_while_loop_span by lia. eauto. Qed.

Lemma peek_skipn json pos : peek json pos = Ok (hd NUL (skipn pos json)) pos.
Proof.
  destruct (skipn pos json) as [|c rest] eqn:E.
  - now apply peek_nil.
  - now apply peek_cons with (rest := rest).
Qed.

Lemma stops_hd (p : ascii -> bool) (t : text) :
  p NUL = false -> stops p t = negb (p (hd NUL t)).
Proof. intros H. destruct t; cbn; [now rewrite H|reflexivity]. Qed.

Lemma hd_app_cons (c : ascii) (s t : text) : hd NUL ((c :: s) ++ t) = c.
Proof. reflexivity. Qed.

Lemma isdigit_facts (c : ascii) :
  isdigit c = true ->
  isspace c = false
  /\ Ascii.eqb c "-" = false /\ Ascii.eqb c "+" = false
  /\ Ascii.eqb c "." = false
  /\ Ascii.eqb c "e" = false /\ Ascii.eqb c "E" = false
  /\ Ascii.eqb c "n" = false /\ Ascii.eqb c "t" = false
  /\ Ascii.eqb c "f" = false /\ Ascii.eqb c DQ = false
  /\ Ascii.eqb c "[" = false /\ Ascii.eqb c "{" = false.
Proof.
  destruct c as [[] [] [] [] [] [] [] []]; vm_compute; intros H;
    try discriminate H; repeat split.
Qed.

Lemma number_sign_spec json pos sg t :
  sign_part sg -> skipn pos json = sg ++ t ->
  (sg = [] -> Ascii.eqb (hd NUL t) "-" = false) ->
  number_sign json pos = Ok tt (pos + length sg).
Proof.
  intros [->| ->] H Hn; unfold number_sign;
    (eapply bind_ok; [apply peek_skipn|]); rewrite H.
  - cbn [app]. rewrite (Hn eq_refl). cbn. now rewrite Nat.add_0_r.
  - cbn [app hd]. change (Ascii.eqb "-" "-") with true. cbn [when].
    rewrite (advance_cons _ _ _ _ H). apply f_equal. cbn. lia.
Qed.

Lemma number_integer_spec json pos ip t :
  int_part ip -> skipn pos json = ip ++ t ->
  ip = ["0"] \/ isdigit (hd NUL t) = false ->
  number_integer json pos = Ok tt (pos + length ip).
Proof.
  intros Hip H Ht. unfold number_integer.
  eapply bind_ok; [apply peek_skipn|]. rewrite H.
  destruct Hip as [->|(d & ds & -> & Hd & Hz & Hds)].
  - cbn [app hd]. change (Ascii.eqb "0" "0") with true. cbv iota.
    rewrite (advance_cons _ _ _ _ H). apply f_equal. cbn. lia.
  - cbn [app hd].
    destruct (Ascii.eqb d "0") eqn:E; [apply Ascii.eqb_eq in E; contradiction|].
    rewrite Hd. destruct Ht as [Ht|Ht]; [congruence|].
    apply (skip_while_spec isdigit json pos (d :: ds) t H).
    + cbn [forallb]. now rewrite Hd, Hds.
    + rewrite stops_hd by reflexivity. now rewrite Ht.
Qed.

Lemma number_fraction_spec json pos fp t :
  frac_part fp -> skipn pos json = fp ++ t ->
  isdigit (hd NUL t) = false ->
  (fp = [] -> Ascii.eqb (hd NUL t) "." = false) ->
  number_fraction json pos = Ok tt (pos + length fp).
Proof.
  intros Hfp H Ht Hn. unfold number_fraction.
  eapply bind_ok; [apply peek_skipn|]. rewrite H.
  destruct Hfp as [->|(ds & -> & Hne & Hds)].
  - cbn [app]. rewrite (Hn eq_refl). cbn. now rewrite Nat.add_0_r.
  - cbn [app hd]. change (Ascii.eqb "." ".") with true. cbn [when].
    eapply bind_ok; [apply (advance_cons _ _ _ _ H)|].
    pose proof (skipn_cons_inv _ _ _ _ H) as (_ & _ & H1).
    eapply bind_ok; [apply peek_skipn|]. rewrite H1.
    destruct ds as [|d ds]; [contradiction|].
    cbn [forallb] in Hds. apply andb_true_iff in Hds. destruct Hds as [Hd Hds].
    cbn [app hd]. rewrite Hd. cbn [negb].
    unfold skip_digits.
    rewrite (skip_while_spec isdigit json (S pos) (d :: ds) t H1).
    + apply f_equal. cbn [length]. lia.
    + cbn [forallb]. now rewrite Hd, Hds.
    + rewrite stops_hd by reflexivity. now rewrite Ht.
Qed.

Lemma number_exponent_spec json pos ep t :
  exp_part ep -> skipn pos json = ep ++ t ->
  isdigit (hd NUL t) = false ->
  (ep = [] -> Ascii.eqb (hd NUL t) "e" || Ascii.eqb (hd NUL t) "E" = false) ->
  number_exponent json pos = Ok tt (pos + length ep).
Proof.
  intros Hep H Ht Hn. unfold number_exponent.
  eapply bind_ok; [apply peek_skipn|]. rewrite H.
  destruct Hep as [->|(m & sg & ds & -> & Hm & Hsg & Hne & Hds)].
  - cbn [app]. rewrite (Hn eq_refl). cbn. now rewrite Nat.add_0_r.
  - cbn [app hd].
    assert (Em : Ascii.eqb m "e" || Ascii.eqb m "E" = true)
      by (destruct Hm as [->| ->]; reflexivity).
    rewrite Em. cbn [when].
    eapply bind_ok; [apply (advance_cons _ _ _ _ H)|].
    pose proof (skipn_cons_inv _ _ _ _ H) as (_ & _ & H1).
    eapply bind_ok; [apply peek_skipn|]. rewrite H1.
    destruct ds as [|d ds]; [contradiction|].
    cbn [forallb] in Hds. apply andb_true_iff in Hds. destruct Hds as [Hd Hds].
    pose proof (isdigit_facts d Hd) as (_ & F1 & F2 & _).
    assert (Hsk : forall p, skipn p json = (d :: ds) ++ t ->
              (c <- peek ;;
               (if negb (isdigit c)
                then throw Invalid_number_expected_digit_in_exponent
                else skip_digits)) json p
              = Ok tt (p + length (d :: ds))).
    { intros p Hp. eapply bind_ok; [apply peek_skipn|]. rewrite Hp.
      cbn [app hd]. rewrite Hd. cbn [negb].
      apply (skip_while_spec isdigit json p (d :: ds) t Hp).
      + cbn [forallb]. now rewrite Hd, Hds.
      + rewrite stops_hd by reflexivity. now rewrite Ht. }
    destruct Hsg as [->|[->| ->]]; cbn [app hd] in *.
    + rewrite F1, F2. cbn [orb when].
      eapply bind_ok; [reflexivity|]. rewrite (Hsk _ H1).
      apply f_equal. cbn [length]. lia.
    + change (Ascii.eqb "+" "+" || Ascii.eqb "+" "-") with true. cbn [when].
      eapply bind_ok; [apply (advance_cons _ _ _ _ H1)|].
      pose proof (skipn_cons_inv _ _ _ _ H1) as (_ & _ & H2).
      rewrite (Hsk _ H2). apply f_equal. cbn [length]. lia.
    + change (Ascii.eqb "-" "+" || Ascii.eqb "-" "-") with true. cbn [when].
      eapply bind_ok; [apply (advance_cons _ _ _ _ H1)|].
      pose proof (skipn_cons_inv _ _ _ _ H1) as (_ & _ & H2).
      rewrite (Hsk _ H2). apply f_equal. cbn [length]. lia.
Qed.

Lemma int_part_head ip : int_part ip -> exists d t, ip = d :: t /\ isdigit d = true.
Proof.
  intros [->|(d & ds & -> & Hd & _)]; [now exists "0", []|now exists d, ds].
Qed.

Lemma number_char_false c :
  number_char c = false ->
  isdigit c = false /\ Ascii.eqb c "." = false
  /\ Ascii.eqb c "e" || Ascii.eqb c "E" = false.
Proof.
  unfold number_char. intros H.
  destruct (isdigit c), (Ascii.eqb c "."), (Ascii.eqb c "e"), (Ascii.eqb c "E");
    try discriminate H; repeat split.
Qed.

Lemma exp_part_head ep t :
  exp_part ep -> number_char (hd NUL t) = false ->
  isdigit (hd NUL (ep ++ t)) = false /\ Ascii.eqb (hd NUL (ep ++ t)) "." = false.
Proof.
  intros [->|(m & sg & ds & -> & Hm & _)] Ht.
  - apply number_char_false in Ht. tauto.
  - destruct Hm as [->| ->]; split; reflexivity.
Qed.

Lemma frac_part_head fp t :
  frac_part fp -> isdigit (hd NUL t) = false ->
  isdigit (hd NUL (fp ++ t)) = false.
Proof. intros [->|(ds & -> & _)] Ht; [exact Ht|reflexivity]. Qed.

(** A text of the grammar, followed by no character that continues a
    number, is scanned whole and handed to the conversion. *)
Lemma parse_number_complete json pos num rest :
  skipn pos json = num ++ rest -> json_number num ->
  stops number_char rest = true ->
  parse_number json pos
  = match stod num with
    | Some d => Ok (JNumber d) (pos + length num)
    | None => Throw (ParseError Invalid_number_format pos)
    end.
Proof.
  intros H (sg & ip & fp & ep & -> & Hsg & Hip & Hfp & Hep) Hr.
  rewrite stops_hd in Hr by reflexivity. apply negb_true_iff in Hr.
  pose proof (number_char_false _ Hr) as (R1 & R2 & R3).
  pose proof (exp_part_head ep rest Hep Hr) as (E1 & E2).
  pose proof (frac_part_head fp (ep ++ rest) Hfp E1) as F1.
  rewrite <- !app_assoc in H.
  pose proof (skipn_app_inv _ _ _ _ H) as H1.
  pose proof (skipn_app_inv _ _ _ _ H1) as H2.
  pose proof (skipn_app_inv _ _ _ _ H2) as H3.
  pose proof (skipn_app_inv _ _ _ _ H3) as H4.
  unfold parse_number.
  eapply bind_ok; [reflexivity|].
  eapply bind_ok.
  { apply (number_sign_spec json pos sg _ Hsg H). intros _.
    destruct (int_part_head ip Hip) as (d & t & -> & Hd).
    cbn [app hd]. now apply isdigit_facts in Hd. }
  eapply bind_ok.
  { apply (number_integer_spec json _ ip _ Hip H1). now right. }
  eapply bind_ok.
  { apply (number_fraction_spec json _ fp _ Hfp H2 E1). now intros _. }
  eapply bind_ok.
  { apply (number_exponent_spec json _ ep _ Hep H3 R1). now intros _. }
  eapply bind_ok; [reflexivity|].
  eapply bind_ok; [reflexivity|]. cbv zeta.
  assert (C : consumed json pos
                (pos + length sg + length ip + length fp + length ep)
                (sg ++ ip ++ fp ++ ep)).
  { split; [|rewrite !length_app; lia].
    rewrite H4. now rewrite <- !app_assoc. }
  rewrite (consumed_substr _ _ _ _ C).
  destruct (stod (sg ++ ip ++ fp ++ ep)); [|reflexivity].
  unfold ret. apply f_equal. rewrite !length_app. lia.
Qed.

(** A point that no digit follows. *)
Lemma parse_number_point_error json pos sg ip rest :
  skipn pos json = sg ++ ip ++ "." :: rest ->
  sign_part sg -> int_part ip -> stops isdigit rest = true ->
  parse_number json pos
  = Throw (ParseError Invalid_number_expected_digit_after_decimal_point
             (pos + length sg + length ip + 1)).
Proof.
  intros H Hsg Hip Hr.
  rewrite stops_hd in Hr by reflexivity. apply negb_true_iff in Hr.
  pose proof (skipn_app_inv _ _ _ _ H) as H1.
  pose proof (skipn_app_inv _ _ _ _ H1) as H2.
  unfold parse_number.
  eapply bind_ok; [reflexivity|].
  eapply bind_ok.
  { apply (number_sign_spec json pos sg _ Hsg H). intros _.
    destruct (int_part_head ip Hip) as (d & t & -> & Hd).
    cbn [app hd]. now apply isdigit_facts in Hd. }
  eapply bind_ok.
  { apply (number_integer_spec json _ ip _ Hip H1). now right. }
  apply bind_throw. unfold number_fraction.
  eapply bind_ok; [apply peek_skipn|]. rewrite H2. cbn [hd].
  change (Ascii.eqb "." ".") with true. cbn [when].
  eapply bind_ok; [apply (advance_cons _ _ _ _ H2)|].
  pose proof (skipn_cons_inv _ _ _ _ H2) as (_ & _ & H3).
  eapply bind_ok; [apply peek_skipn|]. rewrite H3, Hr. cbn [negb].
  unfold throw. do 2 apply f_equal. lia.
Qed.

(** An exponent marker, with or without a sign, that no digit follows. *)
Lemma parse_number_exponent_error json pos sg ip fp m es rest :
  skipn pos json = sg ++ ip ++ fp ++ m :: es ++ rest ->
  sign_part sg -> int_part ip -> frac_part fp ->
  m = "e" \/ m = "E" -> es = [] \/ es = ["+"] \/ es = ["-"] ->
  stops isdigit rest = true ->
  (es = [] -> stops (fun c => Ascii.eqb c "+" || Ascii.eqb c "-") rest = true) ->
  parse_number json pos
  = Throw (ParseError Invalid_number_expected_digit_in_exponent
             (pos + length (sg ++ ip ++ fp) + 1 + length es)).
Proof.
  intros H Hsg Hip Hfp Hm Hes Hr Hs.
  rewrite stops_hd in Hr by reflexivity. apply negb_true_iff in Hr.
  pose proof (skipn_app_inv _ _ _ _ H) as H1.
  pose proof (skipn_app_inv _ _ _ _ H1) as H2.
  pose proof (skipn_app_inv _ _ _ _ H2) as H3.
  assert (Em : Ascii.eqb m "e" || Ascii.eqb m "E" = true)
    by (destruct Hm as [->| ->]; reflexivity).
  assert (Dm : isdigit m = false /\ Ascii.eqb m "." = false)
    by (destruct Hm as [->| ->]; split; reflexivity).
  unfold parse_number.
  eapply bind_ok; [reflexivity|].
  eapply bind_ok.
  { apply (number_sign_spec json pos sg _ Hsg H). intros _.
    destruct (int_part_head ip Hip) as (d & t & -> & Hd).
    cbn [app hd]. now apply isdigit_facts in Hd. }
  eapply bind_ok.
  { apply (number_integer_spec json _ ip _ Hip H1). right.
    apply frac_part_head; [exact Hfp|apply Dm]. }
  eapply bind_ok.
  { apply (number_fraction_spec json _ fp _ Hfp H2); [apply Dm|].
    intros _. apply Dm. }
  apply bind_throw. unfold number_exponent.
  eapply bind_ok; [apply peek_skipn|]. rewrite H3. cbn [hd].
  rewrite Em. cbn [when].
  eapply bind_ok; [apply (advance_cons _ _ _ _ H3)|].
  pose proof (skipn_cons_inv _ _ _ _ H3) as (_ & _ & H4).
  eapply bind_ok; [apply peek_skipn|]. rewrite H4.
  assert (P : pos + length sg + length ip + length fp
              = pos + length (sg ++ ip ++ fp))
    by (rewrite !length_app; lia).
  destruct Hes as [->|[->| ->]]; cbn [app hd].
  - specialize (Hs eq_refl). rewrite stops_hd in Hs by reflexivity.
    apply negb_true_iff in Hs. cbn [app] in H4. rewrite Hs. cbn [when].
    eapply bind_ok; [reflexivity|].
    eapply bind_ok; [apply peek_skipn|]. rewrite H4, Hr. cbn [negb].
    unfold throw. do 2 apply f_equal. cbn [length]. lia.
  - change (Ascii.eqb "+" "+" || Ascii.eqb "+" "-") with true. cbn [when].
    eapply bind_ok; [apply (advance_cons _ _ _ _ H4)|].
    pose proof (skipn_cons_inv _ _ _ _ H4) as (_ & _ & H5).
    eapply bind_ok; [apply peek_skipn|]. rewrite H5. cbn [app]. rewrite Hr.
    cbn [negb]. unfold throw. do 2 apply f_equal. cbn [length]. lia.
  - change (Ascii.eqb "-" "+" || Ascii.eqb "-" "-") with true. cbn [when].
    eapply bind_ok; [apply (advance_cons _ _ _ _ H4)|].
    pose proof (skipn_cons_inv _ _ _ _ H4) as (_ & _ & H5).
    eapply bind_ok; [apply peek_skipn|]. rewrite H5. cbn [app]. rewrite Hr.
    cbn [negb]. unfold throw. do 2 apply f_equal. cbn [length]. lia.
Qed.

Lemma hd_cons (s : text) (c : ascii) :
  hd NUL s = c -> c <> NUL -> exists rest, s = c :: rest.
Proof. destruct s as [|x s]; cbn; intros <- H; [contradiction|eauto]. Qed.

Lemma span_digits_cons (c : ascii) (rest : text) :
  isdigit c = true ->
  exists ds, fst (span isdigit (c :: rest)) = c :: ds
             /\ forallb isdigit ds = true.
Proof.
  intros Hc. cbn [span]. rewrite Hc.
  pose proof (span_forallb isdigit rest) as F.
  destruct (span isdigit rest) as [a b]. now exists a.
Qed.

Lemma peek_inv json pos c p :
  peek json pos = Ok c p -> c = hd NUL (skipn pos json) /\ p = pos.
Proof. rewrite peek_skipn. intros H. injection H as <- <-. now split. Qed.

Lemma number_sign_inv json pos pos1 :
  number_sign json pos = Ok tt pos1 ->
  exists sg, sign_part sg /\ consumed json pos pos1 sg.
Proof.
  unfold number_sign, bind. rewrite peek_skipn.
  destruct (Ascii.eqb (hd NUL (skipn pos json)) "-") eqn:E; cbn [when].
  - apply Ascii.eqb_eq in E. apply hd_cons in E; [|discriminate].
    destruct E as [rest E]. rewrite (advance_cons _ _ _ _ E).
    intros [= <-]. exists ["-"]. split; [now right|].
    now apply consumed_one with (rest := rest).
  - intros [= <-]. exists []. split; [now left|apply consumed_refl].
Qed.

Lemma number_integer_inv json pos pos1 :
  number_integer json pos = Ok tt pos1 ->
  exists ip, int_part ip /\ consumed json pos pos1 ip.
Proof.
  unfold number_integer, bind. rewrite peek_skipn.
  destruct (Ascii.eqb (hd NUL (skipn pos json)) "0") eqn:E.
  - apply Ascii.eqb_eq in E. apply hd_cons in E; [|discriminate].
    destruct E as [rest E]. rewrite (advance_cons _ _ _ _ E).
    intros [= <-]. exists ["0"]. split; [now left|].
    now apply consumed_one with (rest := rest).
  - destruct (isdigit (hd NUL (skipn pos json))) eqn:D; [|discriminate].
    intros H. apply skip_while_inv in H. destruct H as [C _].
    destruct (skipn pos json) as [|c rest] eqn:Sk; [discriminate D|].
    cbn [hd] in *. destruct (span_digits_cons c rest D) as (ds & Es & Hds).
    rewrite Es in C. exists (c :: ds). split; [|exact C].
    right. exists c, ds. repeat split; auto.
    intros ->. discriminate E.
Qed.

Lemma digits_run_inv json pos pos1 :
  (c <- peek ;;
   (if negb (isdigit c) then throw Invalid_number_expected_digit_after_decimal_point
    else skip_digits)) json pos = Ok tt pos1
  \/ (c <- peek ;;
      (if negb (isdigit c) then throw Invalid_number_expected_digit_in_exponent
       else skip_digits)) json pos = Ok tt pos1 ->
  exists ds, digits ds /\ consumed json pos pos1 ds.
Proof.
  unfold bind. rewrite peek_skipn.
  destruct (isdigit (hd NUL (skipn pos json))) eqn:D; cbn [negb];
    [|intros [H|H]; discriminate H].
  intros H. assert (H' : skip_digits json pos = Ok tt pos1) by tauto.
  apply skip_while_inv in H'. destruct H' as [C _].
  destruct (skipn pos json) as [|c rest] eqn:Sk; [discriminate D|].
  cbn [hd] in *. destruct (span_digits_cons c rest D) as (ds & Es & Hds).
  rewrite Es in C. exists (c :: ds). split; [|exact C].
  split; [discriminate|]. cbn [forallb]. now rewrite D, Hds.
Qed.

Lemma number_fraction_inv json pos pos1 :
  number_fraction json pos = Ok tt pos1 ->
  exists fp, frac_part fp /\ consumed json pos pos1 fp.
Proof.
  unfold number_fraction. intros H. apply bind_inv in H.
  destruct H as (c & p & Hp & H). apply peek_inv in Hp. destruct Hp as [-> ->].
  destruct (Ascii.eqb (hd NUL (skipn pos json)) ".") eqn:E; cbn [when] in H.
  - apply Ascii.eqb_eq in E. apply hd_cons in E; [|discriminate].
    destruct E as [rest E]. apply bind_inv in H.
    destruct H as ([] & p & Ha & H). rewrite (advance_cons _ _ _ _ E) in Ha.
    injection Ha as <-.
    destruct (digits_run_inv json (S pos) pos1 (or_introl H)) as (ds & Hd & C).
    exists ("." :: ds). split; [right; now exists ds|].
    apply (consumed_app json pos (S pos) pos1 ["."] ds); [|exact C].
    now apply consumed_one with (rest := rest).
  - injection H as <-. exists []. split; [now left|apply consumed_refl].
Qed.

Lemma number_exponent_inv json pos pos1 :
  number_exponent json pos = Ok tt pos1 ->
  exists ep, exp_part ep /\ consumed json pos pos1 ep.
Proof.
  unfold number_exponent. intros H. apply bind_inv in H.
  destruct H as (c & p & Hp & H). apply peek_inv in Hp. destruct Hp as [-> ->].
  destruct (Ascii.eqb (hd NUL (skipn pos json)) "e"
            || Ascii.eqb (hd NUL (skipn pos json)) "E") eqn:E; cbn [when] in H.
  - assert (Hm : exists m rest, skipn pos json = m :: rest
                                /\ (m = "e" \/ m = "E")).
    { apply orb_true_iff in E.
      destruct E as [E|E]; apply Ascii.eqb_eq in E;
        (apply hd_cons in E; [|discriminate]); destruct E as [rest E];
        eauto. }
    destruct Hm as (m & rest & Sk & Hm).
    apply bind_inv in H. destruct H as ([] & p & Ha & H).
    rewrite (advance_cons _ _ _ _ Sk) in Ha. injection Ha as <-.
    apply bind_inv in H. destruct H as (c & p & Hp & H).
    apply peek_inv in Hp. destruct Hp as [-> ->].
    apply bind_inv in H. destruct H as ([] & p2 & Hs & H).
    assert (Hsg : exists sg, (sg = [] \/ sg = ["+"] \/ sg = ["-"])
                             /\ consumed json (S pos) p2 sg).
    { destruct (Ascii.eqb (hd NUL (skipn (S pos) json)) "+"
                || Ascii.eqb (hd NUL (skipn (S pos) json)) "-") eqn:G;
        cbn [when] in Hs.
      - apply orb_true_iff in G.
        destruct G as [G|G]; apply Ascii.eqb_eq in G;
          (apply hd_cons in G; [|discriminate]); destruct G as [r G];
          rewrite (advance_cons _ _ _ _ G) in Hs; injection Hs as <-;
          [exists ["+"]|exists ["-"]]; (split; [tauto|]);
          now apply consumed_one with (rest := r).
      - injection Hs as <-. exists []. split; [tauto|apply consumed_refl]. }
    destruct Hsg as (sg & Hsg & Csg).
    destruct (digits_run_inv json p2 pos1 (or_intror H)) as (ds & Hd & C).
    exists (m :: sg ++ ds). split.
    + right. now exists m, sg, ds.
    + apply (consumed_app json pos (S pos) pos1 [m] (sg ++ ds)).
      * now apply consumed_one with (rest := rest).
      * now apply consumed_app with (p2 := p2).
  - injection H as <-. exists []. split; [now left|apply consumed_refl].
Qed.

(** Whatever [parse_number] accepts is a text of the grammar that the
    conversion accepts. *)
Lemma parse_number_sound json pos v pos' :
  parse_number json pos = Ok v pos' ->
  exists num d,
    consumed json pos pos' num /\ json_number num
    /\ stod num = Some d /\ v = JNumber d.
Proof.
  unfold parse_number. intros H.
  apply bind_inv in H. destruct H as (start & p & Hp & H).
  injection Hp as <- <-.
  apply bind_inv in H. destruct H as ([] & p1 & H1 & H).
  apply bind_inv in H. destruct H as ([] & p2 & H2 & H).
  apply bind_inv in H. destruct H as ([] & p3 & H3 & H).
  apply bind_inv in H. destruct H as ([] & p4 & H4 & H).
  apply bind_inv in H. destruct H as (p' & p & Hp & H).
  injection Hp as <- <-.
  apply bind_inv in H. destruct H as (j & p & Hp & H).
  injection Hp as <- <-. cbv zeta in H.
  apply number_sign_inv in H1. destruct H1 as (sg & Hsg & C1).
  apply number_integer_inv in H2. destruct H2 as (ip & Hip & C2).
  apply number_fraction_inv in H3. destruct H3 as (fp & Hfp & C3).
  apply number_exponent_inv in H4. destruct H4 as (ep & Hep & C4).
  pose proof (consumed_app _ _ _ _ _ _ C1
                (consumed_app _ _ _ _ _ _ C2
                   (consumed_app _ _ _ _ _ _ C3 C4))) as C.
  rewrite (consumed_substr _ _ _ _ C) in H.
  destruct (stod (sg ++ ip ++ fp ++ ep)) as [d|] eqn:E; [|discriminate H].
  injection H as <- <-.
  exists (sg ++ ip ++ fp ++ ep), d. repeat split; try apply C; auto.
  now exists sg, ip, fp, ep.
Qed.

(** *** The dispatch of [parse_value] *)

Lemma parse_array_loop_shape : forall fuel arr json pos v pos',
  parse_array_loop fuel arr json pos = Ok v pos' -> is_array v = true.
Proof.
  induction fuel as [|f IH]; intros arr json pos v pos' H; [discriminate H|].
  cbn [parse_array_loop] in H.
  apply bind_inv in H. destruct H as (x & p1 & _ & H). cbv zeta in H.
  apply bind_inv in H. destruct H as ([] & p2 & _ & H).
  apply bind_inv in H. destruct H as (c & p3 & _ & H).
  destruct (Ascii.eqb c "]").
  - apply bind_inv in H. destruct H as ([] & p4 & _ & H).
    now injection H as <- _.
  - destruct (negb (Ascii.eqb c ",")); [discriminate H|].
    apply bind_inv in H. destruct H as ([] & p4 & _ & H).
    apply bind_inv in H. destruct H as ([] & p5 & _ & H).
    now apply IH in H.
Qed.

Lemma parse_object_loop_shape : forall fuel obj json pos v pos',
  parse_object_loop fuel obj json pos = Ok v pos' -> is_object v = true.
Proof.
  induction fuel as [|f IH]; intros obj json pos v pos' H; [discriminate H|].
  cbn [parse_object_loop] in H.
  apply bind_inv in H. destruct H as ([] & p1 & _ & H).
  apply bind_inv in H. destruct H as (c & p2 & _ & H).
  destruct (negb (Ascii.eqb c DQ)); [discriminate H|].
  apply bind_inv in H. destruct H as (key & p3 & _ & H).
  apply bind_inv in H. destruct H as ([] & p4 & _ & H).
  apply bind_inv in H. destruct H as (c' & p5 & _ & H).
  destruct (negb (Ascii.eqb c' ":")); [discriminate H|].
  apply bind_inv in H. destruct H as ([] & p6 & _ & H).
  apply bind_inv in H. destruct H as ([] & p7 & _ & H).
  apply bind_inv in H. destruct H as (x & p8 & _ & H). cbv zeta in H.
  apply bind_inv in H. destruct H as ([] & p9 & _ & H).
  apply bind_inv in H. destruct H as (c'' & p10 & _ & H).
  destruct (Ascii.eqb c'' "}").
  - apply bind_inv in H. destruct H as ([] & p11 & _ & H).
    now injection H as <- _.
  - destruct (negb (Ascii.eqb c'' ",")); [discriminate H|].
    apply bind_inv in H. destruct H as ([] & p11 & _ & H).
    now apply IH in H.
Qed.

Lemma parse_array_with_shape loop json pos v pos' :
  (forall arr json pos v pos', loop arr json pos = Ok v pos' -> is_array v = true) ->
  parse_array_with loop json pos = Ok v pos' -> is_array v = true.
Proof.
  intros Hl H. unfold parse_array_with in H.
  apply bind_inv in H. destruct H as (c & p1 & _ & H).
  destruct (negb (Ascii.eqb c "[")); [discriminate H|].
  apply bind_inv in H. destruct H as ([] & p2 & _ & H).
  apply bind_inv in H. destruct H as ([] & p3 & _ & H).
  apply bind_inv in H. destruct H as (c' & p4 & _ & H).
  destruct (Ascii.eqb c' "]").
  - apply bind_inv in H. destruct H as ([] & p5 & _ & H).
    now injection H as <- _.
  - now apply Hl in H.
Qed.

Lemma parse_object_with_shape loop json pos v pos' :
  (forall obj json pos v pos', loop obj json pos = Ok v pos' -> is_object v = true) ->
  parse_object_with loop json pos = Ok v pos' -> is_object v = true.
Proof.
  intros Hl H. unfold parse_object_with in H.
  apply bind_inv in H. destruct H as (c & p1 & _ & H).
  destruct (negb (Ascii.eqb c "{")); [discriminate H|].
  apply bind_inv in H. destruct H as ([] & p2 & _ & H).
  apply bind_inv in H. destruct H as ([] & p3 & _ & H).
  apply bind_inv in H. destruct H as (c' & p4 & _ & H).
  destruct (Ascii.eqb c' "}").
  - apply bind_inv in H. destruct H as ([] & p5 & _ & H).
    now injection H as <- _.
  - now apply Hl in H.
Qed.

(** A number can only come out of the number branch. *)
Lemma parse_value_number_inv fuel json pos d pos' :
  parse_value fuel json pos = Ok (JNumber d) pos' ->
  exists p, skip_whitespace json pos = Ok tt p
            /\ parse_number json p = Ok (JNumber d) pos'.
Proof.
  destruct fuel as [|f]; [discriminate|]. cbn [parse_value]. intros H.
  apply bind_inv in H. destruct H as ([] & p & Hs & H).
  exists p. split; [exact Hs|].
  apply bind_inv in H. destruct H as (c & p1 & Hc & H).
  assert (p1 = p) as ->.
  { unfold current in Hc. destruct (length json <=? p); [discriminate|].
    now injection Hc. }
  destruct (Ascii.eqb c "n").
  { unfold parse_null in H. destruct (text_eqb _ _); discriminate H. }
  destruct (Ascii.eqb c "t" || Ascii.eqb c "f").
  { unfold parse_bool in H. repeat destruct (text_eqb _ _); discriminate H. }
  destruct (Ascii.eqb c DQ).
  { unfold parse_string in H. apply bind_inv in H.
    destruct H as (s & p2 & _ & H). discriminate H. }
  destruct (Ascii.eqb c "[").
  { apply parse_array_with_shape in H; [discriminate H|].
    apply parse_array_loop_shape. }
  destruct (Ascii.eqb c "{").
  { apply parse_object_with_shape in H; [discriminate H|].
    apply parse_object_loop_shape. }
  destruct (Ascii.eqb c "-" || isdigit c); [exact H|discriminate H].
Qed.

Lemma parse_value_number fuel json pos c rest :
  skipn pos json = c :: rest -> c = "-" \/ isdigit c = true ->
  parse_value (S fuel) json pos = parse_number json pos.
Proof.
  intros H Hc. cbn [parse_value].
  assert (F : isspace c = false /\ Ascii.eqb c "n" = false
              /\ Ascii.eqb c "t" || Ascii.eqb c "f" = false
              /\ Ascii.eqb c DQ = false /\ Ascii.eqb c "[" = false
              /\ Ascii.eqb c "{" = false
              /\ Ascii.eqb c "-" || isdigit c = true).
  { destruct Hc as [->|Hc]; [repeat split|].
    pose proof (isdigit_facts c Hc) as (? & ? & ? & ? & ? & ? & ? & F1 & F2 & ?).
    rewrite F1, F2, Hc, orb_true_r. tauto. }
  destruct F as (F0 & F1 & F2 & F3 & F4 & F5 & F6).
  eapply bind_ok.
  { apply (skip_while_stops isspace json pos _ H). cbn. now rewrite F0. }
  eapply bind_ok; [apply (current_cons _ _ _ _ H)|].
  now rewrite F1, F2, F3, F4, F5, F6.
Qed.

Lemma json_number_head num :
  json_number num ->
  exists c t, num = c :: t /\ (c = "-" \/ isdigit c = true).
Proof.
  intros (sg & ip & fp & ep & -> & Hsg & Hip & _).
  destruct (int_part_head ip Hip) as (d & t & -> & Hd).
  destruct Hsg as [->| ->]; cbn [app]; eauto.
Qed.

(** The whole input is a text of the grammar. *)
Lemma parse_json_number num :
  json_number num ->
  parse num
  = match stod num with
    | Some d => Ok (JNumber d) (length num)
    | None => Throw (ParseError Invalid_number_format 0)
    end.
Proof.
  intros Hn. destruct (json_number_head num Hn) as (c & t & E & Hc).
  assert (H0 : skipn 0 num = c :: t) by (now rewrite E).
  assert (Sp : isspace c = false).
  { destruct Hc as [->|Hc]; [reflexivity|now apply isdigit_facts in Hc]. }
  unfold parse, JsonParser_parse, fuel_for.
  eapply bind_ok.
  { apply (skip_while_stops isspace num 0 _ H0). cbn. now rewrite Sp. }
  replace (2 * length num + 2) with (S (2 * length num + 1)) by lia.
  unfold bind at 1. rewrite (parse_value_number _ num 0 c t H0 Hc).
  rewrite (parse_number_complete num 0 num []);
    [|now rewrite app_nil_r|exact Hn|reflexivity].
  destruct (stod num) as [d|]; [|reflexivity].
  cbn [Nat.add].
  eapply bind_ok.
  { apply (skip_while_stops isspace num _ []); [|reflexivity].
    now apply skipn_all. }
  unfold bind, get_pos, size. now rewrite Nat.ltb_irrefl.
Qed.

(** A parse that returns a number read a text of the grammar, with white
    space around it at most. *)
Lemma parse_number_only json d pos' :
  parse json = Ok (JNumber d) pos' ->
  exists ws1 num ws2,
    json = ws1 ++ num ++ ws2
    /\ forallb isspace ws1 = true /\ forallb isspace ws2 = true
    /\ json_number num /\ stod num = Some d.
Proof.
  unfold parse, JsonParser_parse. generalize (fuel_for json) as fuel.
  intros fuel H.
  apply bind_inv in H. destruct H as ([] & p1 & S1 & H).
  apply bind_inv in H. destruct H as (v & p2 & Hv & H).
  apply bind_inv in H. destruct H as ([] & p3 & S3 & H).
  apply bind_inv in H. destruct H as (p & p' & Hp & H).
  injection Hp as <- <-.
  apply bind_inv in H. destruct H as (n & p' & Hn & H).
  injection Hn as <- <-.
  destruct (p3 <? length json) eqn:L; [discriminate H|].
  injection H as -> <-. apply Nat.ltb_ge in L.
  apply parse_value_number_inv in Hv. destruct Hv as (p1' & S2 & Hv).
  apply parse_number_sound in Hv.
  destruct Hv as (num & d' & C & Hnum & Hd & E). injection E as <-.
  apply skip_while_inv in S1. destruct S1 as [C1 _].
  apply skip_while_inv in S2. destruct S2 as [C2 _].
  apply skip_while_inv in S3. destruct S3 as [C3 _].
  pose proof (consumed_app _ _ _ _ _ _ C1 C2) as C12.
  pose proof (consumed_app _ _ _ _ _ _ C12
                (consumed_app _ _ _ _ _ _ C C3)) as [Call _].
  rewrite (skipn_all2 json L), app_nil_r in Call. cbn [skipn] in Call.
  match type of Call with _ = ?a ++ _ ++ ?b => exists a, num, b end.
  split; [exact Call|].
  repeat split; auto.
  - rewrite forallb_app. now rewrite !span_forallb.
  - apply span_forallb.
Qed.

(** C2, as the code has it: [parse_number] scans exactly the texts of the
    number grammar and accepts those that the conversion to [double]
    accepts; a text of the grammar that is out of the range of [double] is
    rejected at its first character, on overflow ([1e999]) and on an
    underflow that loses precision ([1e-999], and
    [2.2250738585072012e-308], which is tiny although it rounds up to the
    least normal double; [2.2250738585072014e-308] is accepted).  A point
    that no digit follows and an exponent marker that no digit follows are
    rejected with an invalid-number error at the offset where the digit
    was expected. *)
Theorem parse_number_grammar :
  (forall json pos num rest,
     skipn pos json = num ++ rest -> json_number num ->
     stops number_char rest = true ->
     parse_number json pos
     = match stod num with
       | Some d => Ok (JNumber d) (pos + length num)
       | None => Throw (ParseError Invalid_number_format pos)
       end)
  /\ (forall json pos v pos',
        parse_number json pos = Ok v pos' ->
        exists num d,
          consumed json pos pos' num /\ json_number num
          /\ stod num = Some d /\ v = JNumber d)
  /\ (forall num, json_number num ->
        parse num
        = match stod num with
          | Some d => Ok (JNumber d) (length num)
          | None => Throw (ParseError Invalid_number_format 0)
          end)
  /\ (forall json d pos',
        parse json = Ok (JNumber d) pos' ->
        exists ws1 num ws2,
          json = ws1 ++ num ++ ws2
          /\ forallb isspace ws1 = true /\ forallb isspace ws2 = true
          /\ json_number num /\ stod num = Some d)
  /\ (forall json pos sg ip rest,
        skipn pos json = sg ++ ip ++ "." :: rest ->
        sign_part sg -> int_part ip -> stops isdigit rest = true ->
        parse_number json pos
        = Throw (ParseError Invalid_number_expected_digit_after_decimal_point
                   (pos + length sg + length ip + 1)))
  /\ (forall json pos sg ip fp m es rest,
        skipn pos json = sg ++ ip ++ fp ++ m :: es ++ rest ->
        sign_part sg -> int_part ip -> frac_part fp ->
        m = "e" \/ m = "E" -> es = [] \/ es = ["+"] \/ es = ["-"] ->
        stops isdigit rest = true ->
        (es = [] ->
         stops (fun c => Ascii.eqb c "+" || Ascii.eqb c "-") rest = true) ->
        parse_number json pos
        = Throw (ParseError Invalid_number_expected_digit_in_exponent
                   (pos + length (sg ++ ip ++ fp) + 1 + length es)))
  /\ kind Invalid_number_expected_digit_after_decimal_point = InvalidNumber
  /\ kind Invalid_number_expected_digit_in_exponent = InvalidNumber
  /\ kind Invalid_number_format = InvalidNumber
  /\ parse (lit "01")
     = Throw (ParseError Unexpected_characters_after_JSON_value 1)
  /\ parse (lit "-") = Throw (ParseError Invalid_number 1)
  /\ parse (lit "1e999") = Throw (ParseError Invalid_number_format 0)
  /\ parse (lit "1e-999") = Throw (ParseError Invalid_number_format 0)
  /\ parse (lit "2.2250738585072012e-308")
     = Throw (ParseError Invalid_number_format 0)
  /\ parse (lit "2.2250738585072014e-308")
     = Ok (JNumber (S754_finite false 4503599627370496 (-1074))) 23
  /\ parse (lit "1.7976931348623157e308")
     = Ok (JNumber (S754_finite false 9007199254740991 971)) 22.
Proof.
  split; [exact parse_number_complete|].
  split; [exact parse_number_sound|].
  split; [exact parse_json_number|].
  split; [exact parse_number_only|].
  split; [exact parse_number_point_error|].
  split; [exact parse_number_exponent_error|].
  repeat split; vm_compute; reflexivity.
Qed.

Lemma parse_number_grammar_witness :
  parse_number (lit "[12.5e-3]") 1
  = match stod (lit "12.5e-3") with
    | Some d => Ok (JNumber d) (1 + length (lit "12.5e-3"))
    | None => Throw (ParseError Invalid_number_format 1)
    end
  /\ (exists num d,
        consumed (lit "7,") 0 1 num /\ json_number num
        /\ stod num = Some d /\ Json_of_int 7 = JNumber d)
  /\ parse (lit "-0")
     = match stod (lit "-0") with
       | Some d => Ok (JNumber d) (length (lit "-0"))
       | None => Throw (ParseError Invalid_number_format 0)
       end
  /\ (exists ws1 num ws2,
        lit " 10 " = ws1 ++ num ++ ws2
        /\ forallb isspace ws1 = true /\ forallb isspace ws2 = true
        /\ json_number num /\ stod num = Some (Double.of_Z 10))
  /\ parse_number (lit "-1.x") 0
     = Throw (ParseError Invalid_number_expected_digit_after_decimal_point 3)
  /\ parse_number (lit "2.5E+]") 0
     = Throw (ParseError Invalid_number_expected_digit_in_exponent 5).
Proof.
  destruct parse_number_grammar as (G1 & G2 & G3 & G4 & G5 & G6 & _).
  split; [|split; [|split; [|split; [|split]]]].
  - apply (G1 (lit "[12.5e-3]") 1 (lit "12.5e-3") (lit "]") eq_refl);
      [|reflexivity].
    exists [], (lit "12"), (lit ".5"), (lit "e-3").
    split; [reflexivity|]. split; [now left|].
    split; [right; exists "1", (lit "2"); repeat split; discriminate|].
    split; [right; exists (lit "5"); repeat split; discriminate|].
    right. exists "e", (lit "-"), (lit "3").
    repeat split; auto; discriminate.
  - apply (G2 (lit "7,") 0 (Json_of_int 7) 1). vm_compute. reflexivity.
  - apply (G3 (lit "-0")).
    exists (lit "-"), (lit "0"), [], [].
    split; [reflexivity|]. split; [now right|].
    split; [now left|]. split; now left.
  - apply (G4 (lit " 10 ") (Double.of_Z 10) 4). vm_compute. reflexivity.
  - apply (G5 (lit "-1.x") 0 (lit "-") (lit "1") (lit "x") eq_refl);
      [now right| |reflexivity].
    right. exists "1", []. repeat split; discriminate.
  - apply (G6 (lit "2.5E+]") 0 [] (lit "2") (lit ".5") "E" (lit "+") (lit "]")
             eq_refl).
    + now left.
    + right. exists "2", []. repeat split; discriminate.
    + right. exists (lit "5"). repeat split; discriminate.
    + now right.
    + right. now left.
    + reflexivity.
    + intros H. discriminate H.
Defined.

(** C2 as it was stated, every text of the grammar accepted, fails on a
    text of the grammar whose value is out of range: the conversion
    raises, and the parser turns that into an error at the first character
    of the number.  So it is for a value too large, and for a value below
    the least normal double that is no double itself. *)
Lemma number_out_of_range_rejected :
  json_number (lit "1e999")
  /\ parse (lit "1e999") = Throw (ParseError Invalid_number_format 0)
  /\ json_number (lit "2.2250738585072012e-308")
  /\ parse (lit "2.2250738585072012e-308")
     = Throw (ParseError Invalid_number_format 0).
Proof.
  split; [|split; [vm_compute; reflexivity|split; [|vm_compute; reflexivity]]].
  - exists [], (lit "1"), [], (lit "e999").
    split; [reflexivity|]. split; [now left|].
    split; [right; exists "1", []; repeat split; discriminate|].
    split; [now left|].
    right. exists "e", [], (lit "999"). repeat split; auto; discriminate.
  - exists [], (lit "2"), (lit ".2250738585072012"), (lit "e-308").
    split; [reflexivity|]. split; [now left|].
    split; [right; exists "2", []; repeat split; discriminate|].
    split; [right; exists (lit "2250738585072012");
            repeat split; discriminate|].
    right. exists "e", (lit "-"), (lit "308").
    repeat split; auto; discriminate.
Qed.

(** ** Reading printed strings back *)

Lemma string_loop_simple fuel result json pos e ch rest :
  skipn pos json = BSLASH :: e :: rest ->
  parse_escape e = ret ch ->
  parse_string_loop (S fuel) result json pos
  = parse_string_loop fuel (result ++ [ch]) json (pos + 2).
Proof.
  intros H He. rewrite (string_loop_backslash _ _ _ _ _ _ H), He.
  pose proof (skipn_cons_inv _ _ _ _ H) as (_ & _ & H1).
  eapply bind_ok; [reflexivity|].
  eapply bind_ok; [apply (advance_cons _ _ _ _ H1)|].
  f_equal. lia.
Qed.

(** One iteration of the string loop reads the escape of one character
    back; checked on each of the 256 characters. *)
Lemma escape_char_step (c : ascii) : forall fuel result json pos tail,
  skipn pos json = escape_char c ++ tail ->
  parse_string_loop (S fuel) result json pos
  = parse_string_loop fuel (result ++ [c]) json (pos + length (escape_char c)).
Proof.
  intros fuel result json pos tail.
  destruct c as [[] [] [] [] [] [] [] []];
    set (e := escape_char _); vm_compute in e; subst e; intros H;
    cbn [app length] in *;
    first
      [ rewrite (string_loop_plain _ _ _ _ _ _ H eq_refl eq_refl);
        f_equal; lia
      | apply (string_loop_simple _ _ _ _ _ _ _ H); reflexivity
      | match type of H with
        | _ = _ :: _ :: ?h1 :: ?h2 :: ?h3 :: ?h4 :: _ =>
            rewrite (string_loop_unicode _ _ _ _ [h1; h2; h3; h4] _ H eq_refl);
            reflexivity
        end ].
Qed.

Lemma escape_char_length (c : ascii) : 1 <= length (escape_char c).
Proof.
  unfold escape_char.
  repeat match goal with
         | |- context [if ?b then _ else _] => destruct b
         end; cbn; lia.
Qed.

Lemma flat_map_escape_length (s : text) :
  length s <= length (flat_map escape_char s).
Proof.
  induction s as [|c s IH]; [cbn; lia|].
  cbn [flat_map length]. rewrite length_app.
  pose proof (escape_char_length c). lia.
Qed.

Lemma string_loop_escaped (s : text) : forall fuel result json pos tail,
  skipn pos json = flat_map escape_char s ++ DQ :: tail ->
  length s <= fuel ->
  parse_string_loop fuel result json pos
  = Ok (result ++ s) (pos + length (flat_map escape_char s)).
Proof.
  induction s as [|c s IH]; intros fuel result json pos tail H Hf.
  - cbn [flat_map app length] in *.
    rewrite (string_loop_quote _ _ _ _ _ H). now rewrite app_nil_r, Nat.add_0_r.
  - destruct fuel as [|fuel]; [cbn in Hf; lia|].
    cbn [flat_map] in *. rewrite <- app_assoc in H.
    rewrite (escape_char_step c _ _ _ _ _ H).
    apply skipn_app_inv in H.
    rewrite (IH fuel _ json _ tail H) by (cbn in Hf; lia).
    rewrite <- app_assoc, length_app. cbn [app]. f_equal. lia.
Qed.

Lemma string_loop_plain_key (s : text) : forall fuel result json pos tail,
  skipn pos json = s ++ DQ :: tail ->
  plain_key s = true -> length s <= fuel ->
  parse_string_loop fuel result json pos = Ok (result ++ s) (pos + length s).
Proof.
  induction s as [|c s IH]; intros fuel result json pos tail H Hp Hf.
  - cbn [app length] in *.
    rewrite (string_loop_quote _ _ _ _ _ H). now rewrite app_nil_r, Nat.add_0_r.
  - destruct fuel as [|fuel]; [cbn in Hf; lia|].
    cbn [plain_key forallb] in Hp. apply andb_true_iff in Hp.
    destruct Hp as [Hc Hp]. apply andb_true_iff in Hc.
    destruct Hc as [Hq Hb]. apply negb_true_iff in Hq, Hb.
    cbn [app] in H. rewrite (string_loop_plain _ _ _ _ _ _ H Hq Hb).
    pose proof (skipn_cons_inv _ _ _ _ H) as (_ & _ & H1).
    rewrite (IH fuel _ json _ tail H1 Hp) by (cbn in Hf; lia).
    rewrite <- app_assoc. cbn [app length]. f_equal. lia.
Qed.

(** The text read between two quotation marks, given what the string loop
    makes of the text between them. *)
Lemma parse_string_text_spec json pos body s tail :
  skipn pos json = DQ :: body ++ DQ :: tail ->
  (forall fuel, length body <= fuel ->
     parse_string_loop fuel [] json (S pos) = Ok s (S pos + length body)) ->
  parse_string_text json pos = Ok s (pos + length body + 2).
Proof.
  intros H Hloop. pose proof (skipn_cons_inv _ _ _ _ H) as (_ & _ & H1).
  pose proof (skipn_app_inv _ _ _ _ H1) as H2.
  unfold parse_string_text.
  eapply bind_ok; [apply (current_cons _ _ _ _ H)|].
  change (negb (Ascii.eqb DQ DQ)) with false. cbv iota.
  eapply bind_ok; [apply (advance_cons _ _ _ _ H)|].
  eapply bind_ok; [reflexivity|].
  eapply bind_ok; [reflexivity|].
  eapply bind_ok.
  { apply Hloop. pose proof (length_skipn (S pos) json) as L.
    rewrite H1, length_app in L. lia. }
  eapply bind_ok; [apply (peek_cons _ _ _ _ H2)|].
  change (negb (Ascii.eqb DQ DQ)) with false. cbv iota.
  eapply bind_ok; [apply (advance_cons _ _ _ _ H2)|].
  unfold ret. f_equal. lia.
Qed.

Lemma parse_string_text_escaped json pos s tail :
  skipn pos json = DQ :: flat_map escape_char s ++ DQ :: tail ->
  parse_string_text json pos
  = Ok s (pos + length (flat_map escape_char s) + 2).
Proof.
  intros H. apply (parse_string_text_spec json pos _ s tail H).
  intros fuel Hf. pose proof (skipn_cons_inv _ _ _ _ H) as (_ & _ & H1).
  apply (string_loop_escaped s fuel [] json (S pos) tail H1).
  pose proof (flat_map_escape_length s). lia.
Qed.

Lemma parse_string_text_plain json pos key tail :
  skipn pos json = DQ :: key ++ DQ :: tail -> plain_key key = true ->
  parse_string_text json pos = Ok key (pos + length key + 2).
Proof.
  intros H Hp. apply (parse_string_text_spec json pos _ key tail H).
  intros fuel Hf. pose proof (skipn_cons_inv _ _ _ _ H) as (_ & _ & H1).
  now apply (string_loop_plain_key key fuel [] json (S pos) tail H1).
Qed.

(** ** Rebuilding a map from its entries *)

Lemma keys_sorted_app_l {V : Type} (a b : list (text * V)) :
  keys_sorted (a ++ b) = true -> keys_sorted a = true.
Proof.
  induction a as [|[k v] a IH]; [reflexivity|].
  cbn [app]. intros H. apply keys_sorted_cons in H. destruct H as [Hab Hs].
  apply keys_sorted_cons. split; [|now apply IH].
  intros k' v' HIn. apply (Hab k' v'). apply in_or_app. now left.
Qed.

Lemma map_subscript_last {V : Type} (dflt : V) (m : list (text * V)) k v :
  keys_sorted (m ++ [(k, v)]) = true ->
  map_subscript dflt m k = m ++ [(k, dflt)].
Proof.
  induction m as [|[k1 v1] m IH]; [reflexivity|].
  cbn [app]. intros H. apply keys_sorted_cons in H. destruct H as [Hab Hs].
  cbn [map_subscript].
  assert (E : text_compare k1 k = Lt).
  { apply (Hab k v). apply in_or_app. right. now left. }
  rewrite (text_compare_lt_gt _ _ E). now rewrite (IH Hs).
Qed.

Lemma map_store_last {V : Type} (m : list (text * V)) k v w :
  keys_sorted (m ++ [(k, w)]) = true ->
  map_store (m ++ [(k, w)]) k v = m ++ [(k, v)].
Proof.
  induction m as [|[k1 v1] m IH].
  - intros _. cbn. now rewrite text_compare_refl.
  - cbn [app]. intros H. pose proof H as H'.
    apply keys_sorted_cons in H. destruct H as [Hab Hs].
    cbn [map_store].
    assert (E : text_compare k1 k = Lt).
    { apply (Hab k w). apply in_or_app. right. now left. }
    rewrite (text_compare_lt_gt _ _ E). now rewrite (IH Hs).
Qed.

Lemma keys_sorted_last {V : Type} (m : list (text * V)) k v w :
  keys_sorted (m ++ [(k, v)]) = keys_sorted (m ++ [(k, w)]).
Proof. apply keys_sorted_keys. rewrite !map_app. reflexivity. Qed.

Lemma map_assign_last {V : Type} (dflt : V) (m : list (text * V)) k v :
  keys_sorted (m ++ [(k, v)]) = true ->
  map_assign dflt m k v = m ++ [(k, v)].
Proof.
  intros H. unfold map_assign.
  rewrite (map_subscript_last dflt m k v H).
  apply map_store_last. now rewrite (keys_sorted_last m k dflt v).
Qed.

(** Assigning the entries of a map in its iteration order rebuilds it. *)
Lemma assign_all_sorted (l : JsonObject) : forall obj,
  keys_sorted (obj ++ l) = true -> assign_all obj l = obj ++ l.
Proof.
  induction l as [|[k v] l IH]; intros obj H.
  - cbn. now rewrite app_nil_r.
  - unfold assign_all. cbn [fold_left].
    change (fold_left _ l ?o) with (assign_all o l).
    assert (E : obj ++ (k, v) :: l = (obj ++ [(k, v)]) ++ l)
      by (now rewrite <- app_assoc).
    rewrite E in H. rewrite map_assign_last by (now apply keys_sorted_app_l in H).
    rewrite (IH _ H). now rewrite <- app_assoc.
Qed.

Lemma map_find_subscript_found {V : Type} (dflt : V) (m : list (text * V))
    k key v :
  map_find m key = Some v -> k <> key ->
  map_find (map_subscript dflt m k) key = Some v.
Proof.
  intros Ho Hk. induction m as [|[k1 v1] m IH]; [discriminate Ho|].
  cbn [map_find map_subscript] in *.
  destruct (text_compare key k1) eqn:E1; [| discriminate Ho |].
  - apply text_compare_eq in E1. subst k1.
    destruct (text_compare k key) eqn:E2; cbn [map_find].
    + now rewrite text_compare_refl.
    + rewrite (text_compare_lt_gt _ _ E2). cbn [map_find].
      now rewrite text_compare_refl.
    + now rewrite text_compare_refl.
  - destruct (text_compare k k1) eqn:E2; cbn [map_find].
    + now rewrite E1.
    + pose proof (text_compare_lt_trans _ _ _ E2 (text_compare_gt_lt _ _ E1))
        as E3.
      rewrite (text_compare_lt_gt _ _ E3). cbn [map_find]. now rewrite E1.
    + rewrite E1. now apply IH.
Qed.

(** In a map built by a run of assignments, the last value assigned to a
    key is the one found. *)
Lemma assign_all_last_wins (l1 l2 : list (text * Json)) obj key v :
  ~ In key (map fst l2) ->
  map_find (assign_all obj (l1 ++ (key, v) :: l2)) key = Some v.
Proof.
  intros Hn. unfold assign_all. rewrite fold_left_app. cbn [fold_left].
  set (o := map_assign JNull _ key v).
  assert (Ho : map_find o key = Some v) by apply map_find_assign_same.
  clearbody o. revert o Ho.
  induction l2 as [|[k x] l2 IH]; intros o Ho; [exact Ho|].
  cbn [fold_left]. apply IH.
  - intros HIn. apply Hn. now right.
  - assert (Hk : k <> key) by (intros ->; apply Hn; now left).
    unfold map_assign. rewrite map_find_store_other by congruence.
    now apply map_find_subscript_found.
Qed.

(** ** Reading printed values back *)

Lemma Json_induction (P : Json -> Prop) :
  P JNull -> (forall b, P (JBool b)) -> (forall d, P (JNumber d)) ->
  (forall s, P (JString s)) ->
  (forall a, All P a -> P (JArray a)) ->
  (forall o, All (fun '(_, x) => P x) o -> P (JObject o)) ->
  forall v, P v.
Proof.
  intros Hn Hb Hd Hs Ha Ho. fix IH 1.
  intros [ | b | d | s | a | o];
    [exact Hn | apply Hb | apply Hd | apply Hs | | ].
  - apply Ha. induction a as [|x a IHa]; cbn; [exact I|].
    split; [apply IH|exact IHa].
  - apply Ho. induction o as [|[k x] o IHo]; cbn; [exact I|].
    split; [apply IH|exact IHo].
Qed.

Lemma value_start_facts (c : ascii) :
  value_start c = true ->
  isspace c = false /\ Ascii.eqb c "]" = false /\ number_char c || true = true.
Proof.
  destruct c as [[] [] [] [] [] [] [] []]; vm_compute; intros H;
    try discriminate H; repeat split.
Qed.

Lemma parse_value_dispatch fuel json pos c rest :
  skipn pos json = c :: rest -> isspace c = false ->
  parse_value (S fuel) json pos
  = (if Ascii.eqb c "n" then parse_null
     else if Ascii.eqb c "t" || Ascii.eqb c "f" then parse_bool
     else if Ascii.eqb c DQ then parse_string
     else if Ascii.eqb c "[" then parse_array_with (parse_array_loop fuel)
     else if Ascii.eqb c "{" then parse_object_with (parse_object_loop fuel)
     else if Ascii.eqb c "-" || isdigit c then parse_number
     else throw Unexpected_character) json pos.
Proof.
  intros H Hc. cbn [parse_value].
  eapply bind_ok.
  { apply (skip_while_stops isspace json pos _ H). cbn. now rewrite Hc. }
  eapply bind_ok; [apply (current_cons _ _ _ _ H)|]. reflexivity.
Qed.

Lemma parse_null_spec json pos rest :
  skipn pos json = lit "null" ++ rest -> parse_null json pos = Ok JNull (pos + 4).
Proof.
  intros H. unfold parse_null.
  change 4 with (length (lit "null")) at 1.
  now rewrite (substr_app _ _ _ _ H).
Qed.

Lemma parse_true_spec json pos rest :
  skipn pos json = lit "true" ++ rest ->
  parse_bool json pos = Ok (JBool true) (pos + 4).
Proof.
  intros H. unfold parse_bool.
  change 4 with (length (lit "true")) at 1.
  now rewrite (substr_app _ _ _ _ H).
Qed.

Lemma parse_false_spec json pos rest :
  skipn pos json = lit "false" ++ rest ->
  parse_bool json pos = Ok (JBool false) (pos + 5).
Proof.
  intros H. unfold parse_bool.
  assert (E : substr json pos 4 = lit "fals").
  { change 4 with (length (lit "fals")).
    apply substr_app with (b := "e" :: rest). exact H. }
  rewrite E. change (text_eqb (lit "fals") (lit "true")) with false. cbv iota.
  change 5 with (length (lit "false")) at 1.
  now rewrite (substr_app _ _ _ _ H).
Qed.

Lemma parse_array_loop_spec (indent : Z) (print : Json -> text) (l : list Json) :
  l <> [] -> All (reads_back print) l ->
  forall fuel arr json pos rest,
    total need l <= fuel ->
    skipn pos json = stringify_elements false indent print l ++ "]" :: rest ->
    parse_array_loop fuel arr json pos
    = Ok (JArray (arr ++ l))
         (pos + length (stringify_elements false indent print l) + 1).
Proof.
  induction l as [|v l IH]; [contradiction|].
  intros _ [[_ Hv] Hl] fuel arr json pos rest Hf H.
  destruct fuel as [|fuel]; [cbn in Hf; lia|].
  cbn [total] in Hf.
  cbn [stringify_elements when_ app] in *.
  set (tl := when_ (negb (is_nil l)) [","]
             ++ stringify_elements false indent print l) in *.
  rewrite <- app_assoc in H.
  change ((tl ++ "]" :: rest)) with (tl ++ "]" :: rest) in H.
  cbn [parse_array_loop].
  assert (Hs : stops number_char (tl ++ "]" :: rest) = true)
    by (unfold tl; destruct l; reflexivity).
  eapply bind_ok;
    [apply (Hv fuel json pos (tl ++ "]" :: rest)); [lia|exact H|exact Hs]|].
  cbv zeta.
  pose proof (skipn_app_inv _ _ _ _ H) as H1.
  destruct l as [|v' l].
  - unfold tl in *. cbn [is_nil negb when_ stringify_elements app] in *.
    eapply bind_ok; [apply (skip_while_stops isspace json _ _ H1); reflexivity|].
    eapply bind_ok; [apply (peek_cons _ _ _ _ H1)|].
    change (Ascii.eqb "]" "]") with true. cbv iota.
    eapply bind_ok; [apply (advance_cons _ _ _ _ H1)|].
    unfold ret. f_equal. rewrite length_app. cbn [length]. lia.
  - assert (E : tl = "," :: stringify_elements false indent print (v' :: l))
      by reflexivity.
    rewrite E in *. clearbody tl. subst tl. cbn [app] in H1.
    eapply bind_ok; [apply (skip_while_stops isspace json _ _ H1); reflexivity|].
    eapply bind_ok; [apply (peek_cons _ _ _ _ H1)|].
    change (Ascii.eqb "," "]") with false.
    change (negb (Ascii.eqb "," ",")) with false. cbv iota.
    eapply bind_ok; [apply (advance_cons _ _ _ _ H1)|].
    pose proof (skipn_cons_inv _ _ _ _ H1) as (_ & _ & H2).
    destruct Hl as [[(c & t & Ec & Sc) Hv'] Hl].
    eapply bind_ok.
    { apply (skip_while_stops isspace json _ _ H2).
      cbn [stringify_elements when_ app]. rewrite Ec. cbn [app stops].
      apply value_start_facts in Sc. destruct Sc as (-> & _). reflexivity. }
    rewrite (IH (fun E' => ltac:(discriminate E'))
               (conj (conj (ex_intro _ c (ex_intro _ t (conj Ec Sc))) Hv') Hl)
               fuel (arr ++ [v]) json _ rest);
      [|cbn [total] in *; lia|exact H2].
    rewrite <- app_assoc. cbn [app]. apply f_equal.
    cbn [stringify_elements when_ is_nil negb app length].
    rewrite ?length_app. cbn [length]. rewrite ?length_app. lia.
Qed.

Lemma skipn_after (json : text) (pos p' : nat) (a b : text) :
  skipn pos json = a ++ b -> p' = pos + length a -> skipn p' json = b.
Proof. intros H ->. now apply skipn_app_inv. Qed.

Lemma parse_object_loop_spec (indent : Z) (print : Json -> text)
    (l : list (text * Json)) :
  l <> [] ->
  All (fun '(k, x) => plain_key k = true /\ reads_back print x) l ->
  forall fuel obj json pos rest,
    total (fun '(_, x) => need x) l <= fuel ->
    skipn pos json = stringify_members false indent print l ++ "}" :: rest ->
    parse_object_loop fuel obj json pos
    = Ok (JObject (assign_all obj l))
         (pos + length (stringify_members false indent print l) + 1).
Proof.
  induction l as [|[key val] l IH]; [contradiction|].
  intros _ [[Hk Hv] Hl] fuel obj json pos rest Hf H.
  destruct fuel as [|fuel]; [cbn in Hf; lia|].
  cbn [total] in Hf.
  cbn [stringify_members when_ app] in *.
  set (tl := when_ (negb (is_nil l)) [","]
             ++ stringify_members false indent print l) in *.
  assert (Hs : stops number_char (tl ++ "}" :: rest) = true)
    by (unfold tl; destruct l as [|[] ?]; reflexivity).
  assert (H0 : skipn pos json
               = DQ :: key ++ DQ :: ":" :: " " :: print val ++ tl ++ "}" :: rest).
  { rewrite H. cbn [app]. f_equal. rewrite <- !app_assoc. cbn [app].
    do 4 f_equal. now rewrite <- app_assoc. }
  clear H.
  assert (H1 : skipn (pos + length key + 2) json
               = ":" :: " " :: print val ++ tl ++ "}" :: rest).
  { apply (skipn_after json pos _ (DQ :: key ++ [DQ])).
    - rewrite H0. cbn [app]. f_equal. now rewrite <- app_assoc.
    - cbn [length]. rewrite length_app. cbn [length]. lia. }
  pose proof (skipn_cons_inv _ _ _ _ H1) as (_ & _ & H2).
  pose proof (skipn_cons_inv _ _ _ _ H2) as (_ & _ & H3).
  pose proof (skipn_app_inv _ _ _ _ H3) as H4.
  cbn [parse_object_loop].
  eapply bind_ok; [apply (skip_while_stops isspace json _ _ H0); reflexivity|].
  eapply bind_ok; [apply (peek_cons _ _ _ _ H0)|].
  change (negb (Ascii.eqb DQ DQ)) with false. cbv iota.
  eapply bind_ok; [apply (parse_string_text_plain json pos key _ H0 Hk)|].
  eapply bind_ok; [apply (skip_while_stops isspace json _ _ H1); reflexivity|].
  eapply bind_ok; [apply (peek_cons _ _ _ _ H1)|].
  change (negb (Ascii.eqb ":" ":")) with false. cbv iota.
  eapply bind_ok; [apply (advance_cons _ _ _ _ H1)|].
  destruct Hv as [(c & t & Ec & Sc) Hv].
  eapply bind_ok.
  { apply (skip_while_spec isspace json _ [" "] _ H2); [reflexivity|].
    rewrite Ec. cbn [app stops].
    apply value_start_facts in Sc. destruct Sc as (-> & _). reflexivity. }
  cbn [length].
  replace (S (pos + length key + 2) + 1) with (S (S (pos + length key + 2)))
    by lia.
  eapply bind_ok;
    [apply (Hv fuel json _ (tl ++ "}" :: rest)); [lia|exact H3|exact Hs]|].
  cbv zeta.
  destruct l as [|[key' val'] l].
  - unfold tl in *. cbn [is_nil negb when_ stringify_members app] in *.
    eapply bind_ok; [apply (skip_while_stops isspace json _ _ H4); reflexivity|].
    eapply bind_ok; [apply (peek_cons _ _ _ _ H4)|].
    change (Ascii.eqb "}" "}") with true. cbv iota.
    eapply bind_ok; [apply (advance_cons _ _ _ _ H4)|].
    unfold ret. f_equal.
    cbn [length]. rewrite length_app. cbn [length]. rewrite length_app.
    cbn [length]. lia.
  - assert (E : tl = "," :: stringify_members false indent print
                                 ((key', val') :: l)) by reflexivity.
    rewrite E in *. clearbody tl. subst tl. cbn [app] in H4.
    eapply bind_ok; [apply (skip_while_stops isspace json _ _ H4); reflexivity|].
    eapply bind_ok; [apply (peek_cons _ _ _ _ H4)|].
    change (Ascii.eqb "," "}") with false.
    change (negb (Ascii.eqb "," ",")) with false. cbv iota.
    eapply bind_ok; [apply (advance_cons _ _ _ _ H4)|].
    pose proof (skipn_cons_inv _ _ _ _ H4) as (_ & _ & H5).
    rewrite (IH (fun E' => ltac:(discriminate E')) Hl
               fuel (map_assign JNull obj key val) json _ rest);
      [|cbn [total] in *; lia|exact H5].
    apply f_equal.
    cbn [stringify_members when_ is_nil negb app length].
    repeat (cbn [length]; rewrite ?length_app). lia.
Qed.

(** The text of an object that lists the entries [l], in that order, is
    read as the map built by assigning them in that order. *)
Lemma parse_value_object (indent : Z) (print : Json -> text)
    (l : list (text * Json)) fuel json pos rest :
  All (fun '(k, x) => plain_key k = true /\ reads_back print x) l ->
  total (fun '(_, x) => need x) l <= fuel ->
  skipn pos json = "{" :: stringify_members false indent print l ++ "}" :: rest ->
  parse_value (S fuel) json pos
  = Ok (JObject (assign_all [] l))
       (pos + length (stringify_members false indent print l) + 2).
Proof.
  intros Hall Hf H'.
  rewrite (parse_value_dispatch fuel json pos "{" _ H' eq_refl).
  change (Ascii.eqb "{" "n") with false.
  change (Ascii.eqb "{" "t" || Ascii.eqb "{" "f") with false.
  change (Ascii.eqb "{" DQ) with false.
  change (Ascii.eqb "{" "[") with false.
  change (Ascii.eqb "{" "{") with true. cbv iota.
  unfold parse_object_with.
  eapply bind_ok; [apply (current_cons _ _ _ _ H')|].
  change (negb (Ascii.eqb "{" "{")) with false. cbv iota.
  eapply bind_ok; [apply (advance_cons _ _ _ _ H')|].
  pose proof (skipn_cons_inv _ _ _ _ H') as (_ & _ & H1).
  destruct l as [|[k x] l].
  - cbn [stringify_members app] in *.
    eapply bind_ok; [apply (skip_while_stops isspace json _ _ H1); reflexivity|].
    eapply bind_ok; [apply (peek_cons _ _ _ _ H1)|].
    change (Ascii.eqb "}" "}") with true. cbv iota.
    eapply bind_ok; [apply (advance_cons _ _ _ _ H1)|].
    unfold ret. f_equal. cbn [length]. lia.
  - assert (Hhd : exists t', skipn (S pos) json = DQ :: t').
    { rewrite H1. cbn [stringify_members when_ app]. eauto. }
    destruct Hhd as [t' Hhd].
    eapply bind_ok; [apply (skip_while_stops isspace json _ _ Hhd); reflexivity|].
    eapply bind_ok; [apply (peek_cons _ _ _ _ Hhd)|].
    change (Ascii.eqb DQ "}") with false. cbv iota.
    rewrite (parse_object_loop_spec indent _ ((k, x) :: l)
               (fun E' => ltac:(discriminate E')) Hall fuel [] json (S pos)
               rest); [|exact Hf|exact H1].
    apply f_equal. lia.
Qed.

Lemma value_start_number (c : ascii) :
  c = "-" \/ isdigit c = true -> value_start c = true.
Proof.
  intros [->|H]; [reflexivity|]. unfold value_start.
  rewrite H. now rewrite !orb_true_r.
Qed.

Lemma All_impl {A : Type} (P Q : A -> Prop) (l : list A) :
  (forall x, P x -> Q x) -> All P l -> All Q l.
Proof.
  intros H. induction l as [|x l IH]; cbn; [tauto|].
  intros [Hx Hl]. split; auto.
Qed.

Lemma All_and {A : Type} (P Q : A -> Prop) (l : list A) :
  All P l -> All Q l -> All (fun x => P x /\ Q x) l.
Proof.
  induction l as [|x l IH]; cbn; [tauto|].
  intros [Hx Hl] [Hx' Hl']. repeat split; auto.
Qed.

(** Every printable value is read back from its compact text. *)
Lemma printable_reads_back (v : Json) :
  printable v -> forall indent, reads_back (stringify false indent) v.
Proof.
  induction v as [ | b | d | s | a IH | o IH] using Json_induction;
    intros Hp indent; unfold reads_back; cbn [stringify andb when_ app].
  - split; [now exists "n", (lit "ull")|].
    intros [|fuel] json pos rest Hf H Hr; [cbn in Hf; lia|].
    rewrite (parse_value_dispatch fuel json pos "n" (lit "ull" ++ rest) H eq_refl).
    apply (parse_null_spec json pos rest H).
  - split; [destruct b; [now exists "t", (lit "rue")|now exists "f", (lit "alse")]|].
    intros [|fuel] json pos rest Hf H Hr; [cbn in Hf; lia|].
    destruct b; cbn [stringify] in H.
    + rewrite (parse_value_dispatch fuel json pos "t" (lit "rue" ++ rest) H eq_refl).
      apply (parse_true_spec json pos rest H).
    + rewrite (parse_value_dispatch fuel json pos "f" (lit "alse" ++ rest) H eq_refl).
      apply (parse_false_spec json pos rest H).
  - destruct Hp as [Hn Hd]. cbn [stringify].
    destruct (json_number_head _ Hn) as (c & t & E & Hc).
    split; [exists c, t; split; [exact E|now apply value_start_number]|].
    intros [|fuel] json pos rest Hf H Hr; [cbn in Hf; lia|].
    cbn [stringify] in H.
    assert (H' : skipn pos json = c :: t ++ rest) by (now rewrite H, E).
    rewrite (parse_value_number fuel json pos c _ H' Hc).
    rewrite (parse_number_complete json pos _ rest H Hn Hr). now rewrite Hd.
  - cbn [stringify]. split; [now exists DQ, (flat_map escape_char s ++ [DQ])|].
    intros [|fuel] json pos rest Hf H Hr; [cbn in Hf; lia|].
    cbn [stringify] in H.
    assert (H' : skipn pos json = DQ :: flat_map escape_char s ++ DQ :: rest).
    { rewrite H. cbn [app]. f_equal. now rewrite <- app_assoc. }
    rewrite (parse_value_dispatch fuel json pos DQ _ H' eq_refl).
    change (Ascii.eqb DQ "n") with false.
    change (Ascii.eqb DQ "t" || Ascii.eqb DQ "f") with false.
    change (Ascii.eqb DQ DQ) with true. cbv iota.
    unfold parse_string.
    eapply bind_ok; [apply (parse_string_text_escaped json pos s rest H')|].
    unfold ret. f_equal. cbn [length]. rewrite length_app. cbn [length]. lia.
  - cbn [stringify andb when_ app].
    split; [now exists "[", (stringify_elements false indent
                               (stringify false (indent + 1)) a ++ ["]"])|].
    intros [|fuel] json pos rest Hf H Hr; [cbn in Hf; lia|].
    cbn [need] in Hf. cbn [stringify andb when_ app] in H.
    assert (H' : skipn pos json
                 = "[" :: stringify_elements false indent
                            (stringify false (indent + 1)) a ++ "]" :: rest).
    { rewrite H. cbn [app]. f_equal. now rewrite <- app_assoc. }
    clear H.
    rewrite (parse_value_dispatch fuel json pos "[" _ H' eq_refl).
    change (Ascii.eqb "[" "n") with false.
    change (Ascii.eqb "[" "t" || Ascii.eqb "[" "f") with false.
    change (Ascii.eqb "[" DQ) with false.
    change (Ascii.eqb "[" "[") with true. cbv iota.
    unfold parse_array_with.
    eapply bind_ok; [apply (current_cons _ _ _ _ H')|].
    change (negb (Ascii.eqb "[" "[")) with false. cbv iota.
    eapply bind_ok; [apply (advance_cons _ _ _ _ H')|].
    pose proof (skipn_cons_inv _ _ _ _ H') as (_ & _ & H1).
    assert (Hall : All (reads_back (stringify false (indent + 1))) a).
    { cbn [printable] in Hp. clear - IH Hp.
      induction a as [|x a IHa]; cbn in *; [exact I|].
      destruct IH as [Hx IH], Hp as [Px Pa]. split; auto. }
    destruct a as [|x a].
    + cbn [stringify_elements app] in *.
      eapply bind_ok; [apply (skip_while_stops isspace json _ _ H1); reflexivity|].
      eapply bind_ok; [apply (peek_cons _ _ _ _ H1)|].
      change (Ascii.eqb "]" "]") with true. cbv iota.
      eapply bind_ok; [apply (advance_cons _ _ _ _ H1)|].
      unfold ret. f_equal. cbn [length]. lia.
    + pose proof Hall as [[(c & t & Ec & Sc) _] _].
      pose proof (value_start_facts c Sc) as (Sp & Br & _).
      assert (Hhd : exists t', skipn (S pos) json = c :: t').
      { rewrite H1. cbn [stringify_elements when_ app]. rewrite Ec.
        cbn [app]. eauto. }
      destruct Hhd as [t' Hhd].
      eapply bind_ok.
      { apply (skip_while_stops isspace json _ _ Hhd). cbn. now rewrite Sp. }
      eapply bind_ok; [apply (peek_cons _ _ _ _ Hhd)|].
      rewrite Br.
      rewrite (parse_array_loop_spec indent _ (x :: a)
                 (fun E' => ltac:(discriminate E')) Hall fuel [] json (S pos)
                 rest); [|lia|exact H1].
      cbn [app]. apply f_equal. cbn [length]. rewrite length_app.
      cbn [length]. lia.
  - cbn [stringify andb when_ app].
    split; [now exists "{", (stringify_members false indent
                               (stringify false (indent + 1)) o ++ ["}"])|].
    intros [|fuel] json pos rest Hf H Hr; [cbn in Hf; lia|].
    cbn [need] in Hf. cbn [stringify andb when_ app] in H.
    assert (H' : skipn pos json
                 = "{" :: stringify_members false indent
                            (stringify false (indent + 1)) o ++ "}" :: rest).
    { rewrite H. cbn [app]. f_equal. now rewrite <- app_assoc. }
    clear H.
    cbn [printable] in Hp. destruct Hp as [Hs Hp].
    assert (Hall : All (fun '(k, x) =>
                          plain_key k = true
                          /\ reads_back (stringify false (indent + 1)) x) o).
    { clear - IH Hp.
      induction o as [|[k x] o IHo]; cbn in *; [exact I|].
      destruct IH as [Hx IH], Hp as [[Pk Px] Po]. repeat split; auto.
      - now apply Hx.
      - now apply Hx. }
    rewrite (parse_value_object indent _ o fuel json pos rest Hall);
      [|lia|exact H'].
    rewrite (assign_all_sorted o []) by exact Hs.
    cbn [app]. apply f_equal. cbn [length]. rewrite length_app.
    cbn [length]. lia.
Qed.

Lemma total_elements_bound (indent : Z) (print : Json -> text) (l : list Json) :
  All (fun x => need x <= 2 * length (print x) + 1) l ->
  total need l <= 2 * length (stringify_elements false indent print l) + 2.
Proof.
  induction l as [|x l IH]; [cbn; lia|].
  intros [Hx Hl]. specialize (IH Hl).
  cbn [total stringify_elements when_ app]. rewrite !length_app.
  destruct l as [|y l]; cbn [is_nil negb when_ length total] in *; lia.
Qed.

Lemma total_members_bound (indent : Z) (print : Json -> text)
    (l : list (text * Json)) :
  All (fun '(_, x) => need x <= 2 * length (print x) + 1) l ->
  total (fun '(_, x) => need x) l
  <= 2 * length (stringify_members false indent print l) + 2.
Proof.
  induction l as [|[k x] l IH]; [cbn; lia|].
  intros [Hx Hl]. specialize (IH Hl).
  cbn [total stringify_members when_ app length]. rewrite !length_app.
  cbn [length]. rewrite !length_app.
  destruct l as [|y l]; cbn [is_nil negb when_ length total] in *; lia.
Qed.

Lemma need_bound (v : Json) :
  forall indent, need v <= 2 * length (stringify false indent v) + 1.
Proof.
  induction v as [ | b | d | s | a IH | o IH] using Json_induction;
    intros indent; cbn [need stringify andb when_ app]; try lia.
  - cbn [length]. rewrite length_app. cbn [length].
    pose proof (total_elements_bound indent (stringify false (indent + 1)) a)
      as B.
    assert (Hall : All (fun x => need x
                     <= 2 * length (stringify false (indent + 1) x) + 1) a).
    { clear - IH. induction a as [|x a IHa]; cbn in *; [exact I|].
      destruct IH as [Hx IH]. split; auto. }
    specialize (B Hall). lia.
  - cbn [length]. rewrite length_app. cbn [length].
    pose proof (total_members_bound indent (stringify false (indent + 1)) o)
      as B.
    assert (Hall : All (fun '(_, x) => need x
                     <= 2 * length (stringify false (indent + 1) x) + 1) o).
    { clear - IH. induction o as [|[k x] o IHo]; cbn in *; [exact I|].
      destruct IH as [Hx IH]. split; auto. }
    specialize (B Hall). lia.
Qed.

(** The round trip: the compact text of a printable value parses, to that
    value. *)
Lemma stringify_parse_round_trip (v : Json) :
  printable v ->
  parse (stringify false 0 v) = Ok v (length (stringify false 0 v)).
Proof.
  intros Hp.
  destruct (printable_reads_back v Hp 0%Z) as [(c & t & E & Sc) Hrd].
  pose proof (value_start_facts c Sc) as (Sp & _).
  unfold parse, JsonParser_parse.
  set (json := stringify false 0 v) in *.
  assert (H0 : skipn 0 json = c :: t) by exact E.
  eapply bind_ok.
  { apply (skip_while_stops isspace json 0 _ H0). cbn. now rewrite Sp. }
  eapply bind_ok.
  { apply (Hrd (fuel_for json) json 0 []).
    - pose proof (need_bound v 0%Z). unfold fuel_for. fold json in H. lia.
    - cbn [skipn]. now rewrite app_nil_r.
    - reflexivity. }
  cbn [Nat.add].
  eapply bind_ok.
  { apply (skip_while_stops isspace json _ []); [|reflexivity].
    now apply skipn_all. }
  unfold bind, get_pos, size. now rewrite Nat.ltb_irrefl.
Qed.

(** ** Integers are printed and read back exactly *)

Lemma uchar_digit_char (k : Z) :
  (0 <= k < 10)%Z -> digit_val (digit_char k) = k /\ isdigit (digit_char k) = true
                     /\ (0 < k -> digit_char k <> "0")%Z.
Proof.
  intros H.
  assert (E : (k = 0 \/ k = 1 \/ k = 2 \/ k = 3 \/ k = 4 \/ k = 5 \/ k = 6
               \/ k = 7 \/ k = 8 \/ k = 9)%Z) by lia.
  repeat (destruct E as [->|E];
          [split; [reflexivity|split; [reflexivity|]];
           intros L; try lia; discriminate|]).
  subst. split; [reflexivity|split; [reflexivity|]]. discriminate.
Qed.

Lemma decimal_digits_value (fuel : nat) : forall n acc,
  (0 <= n < 2 ^ Z.of_nat fuel)%Z ->
  fold_left (fun a c => (10 * a + digit_val c)%Z) (decimal_digits fuel n acc) 0%Z
  = fold_left (fun a c => (10 * a + digit_val c)%Z) acc n.
Proof.
  induction fuel as [|f IH]; intros n acc Hn.
  - cbn [decimal_digits]. change (2 ^ Z.of_nat 0)%Z with 1%Z in Hn.
    now replace n with 0%Z by lia.
  - cbn [decimal_digits].
    rewrite Nat2Z.inj_succ, Z.pow_succ_r in Hn by lia.
    pose proof (Z.mod_pos_bound n 10 ltac:(lia)) as Hm.
    destruct (uchar_digit_char _ Hm) as (Hv & _).
    destruct (n <? 10)%Z eqn:L.
    + apply Z.ltb_lt in L. cbn [fold_left]. rewrite Hv.
      rewrite Z.mod_small by lia. reflexivity.
    + apply Z.ltb_ge in L. rewrite IH.
      * cbn [fold_left]. rewrite Hv. f_equal.
        pose proof (Z.div_mod n 10 ltac:(lia)). lia.
      * split; [apply Z.div_pos; lia|].
        apply Z.div_lt_upper_bound; lia.
Qed.

Lemma print_unsigned_value (n : Z) :
  (0 <= n)%Z -> decimal_value (print_unsigned n) = n.
Proof.
  intros Hn. unfold decimal_value, print_unsigned.
  rewrite decimal_digits_value; [reflexivity|].
  split; [exact Hn|].
  destruct (Z.eq_dec n 0) as [->|Hz]; [reflexivity|].
  rewrite Nat2Z.inj_succ, Z2Nat.id by apply Z.log2_nonneg.
  apply Z.log2_spec. lia.
Qed.

Lemma decimal_digits_shape (fuel : nat) : forall n acc,
  (0 < n < 2 ^ Z.of_nat fuel)%Z ->
  exists d ds,
    decimal_digits fuel n acc = d :: ds ++ acc
    /\ isdigit d = true /\ d <> "0" /\ forallb isdigit ds = true.
Proof.
  induction fuel as [|f IH]; intros n acc Hn.
  - change (2 ^ Z.of_nat 0)%Z with 1%Z in Hn. lia.
  - cbn [decimal_digits].
    rewrite Nat2Z.inj_succ, Z.pow_succ_r in Hn by lia.
    pose proof (Z.mod_pos_bound n 10 ltac:(lia)) as Hm.
    destruct (uchar_digit_char _ Hm) as (_ & Hd & Hnz).
    destruct (n <? 10)%Z eqn:L.
    + apply Z.ltb_lt in L. exists (digit_char (n mod 10)), [].
      repeat split; auto. apply Hnz. rewrite Z.mod_small; lia.
    + apply Z.ltb_ge in L.
      destruct (IH (n / 10)%Z (digit_char (n mod 10) :: acc)) as
        (d & ds & E & D1 & D2 & D3).
      * split; [apply Z.div_str_pos; lia|].
        apply Z.div_lt_upper_bound; lia.
      * exists d, (ds ++ [digit_char (n mod 10)]).
        rewrite E, <- app_assoc. repeat split; auto.
        rewrite forallb_app, D3. cbn [forallb]. now rewrite Hd.
Qed.

Lemma print_unsigned_shape (n : Z) :
  (0 < n)%Z ->
  exists d ds,
    print_unsigned n = d :: ds
    /\ isdigit d = true /\ d <> "0" /\ forallb isdigit ds = true.
Proof.
  intros Hn. unfold print_unsigned.
  destruct (decimal_digits_shape (S (Z.to_nat (Z.log2 n))) n []) as
    (d & ds & E & D).
  - split; [exact Hn|].
    rewrite Nat2Z.inj_succ, Z2Nat.id by apply Z.log2_nonneg.
    apply Z.log2_spec. lia.
  - exists d, ds. rewrite E, app_nil_r. exact (conj eq_refl D).
Qed.

Lemma int_part_print_unsigned (n : Z) :
  (0 <= n)%Z -> int_part (print_unsigned n).
Proof.
  intros Hn. destruct (Z.eq_dec n 0) as [->|Hz]; [now left|].
  destruct (print_unsigned_shape n ltac:(lia)) as (d & ds & E & D).
  right. exists d, ds. exact (conj E D).
Qed.

(** The text of a [long long] is a text of the number grammar. *)
Lemma json_number_print_long_long (z : Z) : json_number (print_long_long z).
Proof.
  unfold print_long_long. destruct (z <? 0)%Z eqn:L.
  - apply Z.ltb_lt in L. exists ["-"], (print_unsigned (- z)), [], [].
    rewrite app_nil_r. split; [reflexivity|]. split; [now right|].
    split; [apply int_part_print_unsigned; lia|]. split; now left.
  - apply Z.ltb_ge in L. exists [], (print_unsigned z), [], [].
    rewrite app_nil_r. split; [reflexivity|]. split; [now left|].
    split; [now apply int_part_print_unsigned|]. split; now left.
Qed.

(** The conversion of the text of a [long long]. *)
Lemma stod_print_long_long (z : Z) :
  stod (print_long_long z) = Double.strtod_value (z <? 0)%Z (Z.abs z) 0.
Proof.
  assert (H : forall n, (0 <= n)%Z ->
            stod (print_unsigned n) = Double.strtod_value false n 0
            /\ stod ("-" :: print_unsigned n) = Double.strtod_value true n 0).
  { intros n Hn.
    pose proof (print_unsigned_isdigit n) as Hd.
    pose proof (print_unsigned_value n Hn) as Hv.
    pose proof (print_unsigned_nonempty n) as Hne.
    destruct (print_unsigned n) as [|d ds] eqn:E; [contradiction|].
    pose proof Hd as Hd'. cbn [forallb] in Hd'.
    apply andb_true_iff in Hd'. destruct Hd' as [Hd1 _].
    pose proof (isdigit_facts d Hd1) as (F0 & F1 & F2 & _).
    assert (Sp : span isdigit (d :: ds) = (d :: ds, [])).
    { rewrite <- (app_nil_r (d :: ds)) at 1. now apply span_all. }
    split.
    - unfold stod. cbn [skip_spaces]. rewrite F0.
      rewrite (take_sign_other d ds F1 F2). cbv beta iota. rewrite Sp.
      cbv beta iota. rewrite app_nil_r, Hv. reflexivity.
    - unfold stod. change (skip_spaces ("-" :: d :: ds)) with ("-" :: d :: ds).
      change (take_sign ("-" :: d :: ds)) with (true, d :: ds).
      cbv beta iota. rewrite Sp.
      cbv beta iota. rewrite app_nil_r, Hv. reflexivity. }
  unfold print_long_long. destruct (z <? 0)%Z eqn:L.
  - apply Z.ltb_lt in L. replace (Z.abs z) with (- z)%Z by lia.
    apply H. lia.
  - apply Z.ltb_ge in L. replace (Z.abs z) with z by lia.
    now apply H.
Qed.

Lemma iter_xO_value (p k : positive) :
  Zpos (Pos.iter xO p k) = (Zpos p * 2 ^ Zpos k)%Z.
Proof.
  induction k as [|k IH] using Pos.peano_ind.
  - cbn [Pos.iter]. rewrite Pos2Z.inj_xO. change (2 ^ 1)%Z with 2%Z. lia.
  - rewrite Pos.iter_succ, Pos2Z.inj_xO, IH, Pos2Z.inj_succ.
    rewrite Z.pow_succ_r by lia. lia.
Qed.

Lemma digits2_iter_xO (p k : positive) :
  digits2_pos (Pos.iter xO p k) = (digits2_pos p + k)%positive.
Proof.
  induction k as [|k IH] using Pos.peano_ind.
  - cbn [Pos.iter digits2_pos]. lia.
  - rewrite Pos.iter_succ. cbn [digits2_pos]. rewrite IH. lia.
Qed.

(** An integer of at most 53 bits is a double: its conversion is exact,
    with the mantissa aligned on 53 bits. *)
Lemma binary_round_small (s : bool) (p : positive) :
  (Zpos (digits2_pos p) <= 53)%Z ->
  exists mz ez,
    binary_round Double.prec Double.emax s p 0 = S754_finite s mz ez
    /\ (- 52 <= ez <= 0)%Z
    /\ Zpos mz = (Zpos p * 2 ^ (- ez))%Z
    /\ (Zpos (digits2_pos mz) + ez = Zpos (digits2_pos p))%Z.
Proof.
  intros Hd. unfold binary_round, Double.prec, Double.emax.
  set (d := digits2_pos p) in *.
  assert (Ef : fexp 53 1024 (Zpos d + 0) = (Zpos d - 53)%Z).
  { unfold fexp, emin. lia. }
  rewrite Ef. unfold shl_align.
  assert (Aux : forall mz ez,
            (Zpos (digits2_pos mz) + ez = Zpos d)%Z -> (ez = Zpos d - 53)%Z ->
            binary_round_aux 53 1024 s (Zpos mz) ez loc_Exact
            = S754_finite s mz ez).
  { intros mz ez Hm He. unfold binary_round_aux, shr_fexp.
    cbn [Zdigits2]. rewrite Hm.
    assert (E0 : (fexp 53 1024 (Zpos d) - ez = 0)%Z)
      by (unfold fexp, emin; lia).
    rewrite E0. cbn [shr shr_record_of_loc shr_m loc_of_shr_record
                     round_nearest_even Zdigits2].
    rewrite Hm, E0. cbn [shr shr_record_of_loc shr_m].
    replace (ez <=? 1024 - 53)%Z with true
      by (symmetry; apply Z.leb_le; lia).
    reflexivity. }
  destruct (Zpos d - 53 - 0)%Z as [|k|k] eqn:Ek; [|lia|].
  - exists p, 0%Z. rewrite (Aux p 0%Z); [|fold d; lia|lia].
    repeat split; try lia.
  - exists (Pos.iter xO p k), (Zpos d - 53)%Z.
    pose proof (digits2_iter_xO p k) as Hdig. fold d in Hdig.
    rewrite (Aux _ _); [|rewrite Hdig; lia|reflexivity].
    repeat split; try lia.
    rewrite iter_xO_value.
    replace (- (Zpos d - 53))%Z with (Zpos k) by lia. reflexivity.
Qed.

Lemma SFeqb_refl (s : bool) (m : positive) (e : Z) :
  SFeqb (S754_finite s m e) (S754_finite s m e) = true.
Proof.
  unfold SFeqb, SFcompare. rewrite Z.compare_refl.
  destruct s; now rewrite ?Pos.compare_cont_refl.
Qed.

Lemma digits2_pos_lower (p : positive) :
  (2 ^ (Zpos (digits2_pos p) - 1) <= Zpos p)%Z.
Proof.
  induction p as [p IH|p IH|]; cbn [digits2_pos].
  - rewrite Pos2Z.inj_succ, Pos2Z.inj_xI.
    replace (Z.succ (Zpos (digits2_pos p)) - 1)%Z
      with (Z.succ (Zpos (digits2_pos p) - 1)) by lia.
    rewrite Z.pow_succ_r by lia. lia.
  - rewrite Pos2Z.inj_succ.
    replace (Z.succ (Zpos (digits2_pos p)) - 1)%Z
      with (Z.succ (Zpos (digits2_pos p) - 1)) by lia.
    rewrite Z.pow_succ_r by lia. lia.
  - vm_compute. discriminate.
Qed.

Lemma digits2_pos_small (p : positive) :
  (Zpos p < 2 ^ 53)%Z -> (Zpos (digits2_pos p) <= 53)%Z.
Proof.
  intros H. pose proof (digits2_pos_lower p) as L.
  destruct (Z.le_gt_cases (Zpos (digits2_pos p)) 53) as [|G]; [assumption|].
  assert (P : (2 ^ 53 <= 2 ^ (Zpos (digits2_pos p) - 1))%Z)
    by (apply Z.pow_le_mono_r; lia).
  lia.
Qed.

Lemma small_integer_double (s : bool) (p : positive) :
  (Zpos p < 2 ^ 53)%Z ->
  let d := binary_round Double.prec Double.emax s p 0 in
  Double.to_long_long d = (if s then Zneg p else Zpos p)
  /\ Double.eqb d d = true
  /\ Double.strtod_value s (Zpos p) 0 = Some d.
Proof.
  intros Hp d.
  destruct (binary_round_small s p (digits2_pos_small p Hp)) as
    (mz & ez & E & He & Hm & Hdig).
  unfold d. split; [|split].
  - rewrite E. unfold Double.to_long_long, Double.truncate.
    assert (T : match ez with
                | Z.neg q => Z.shiftr (Zpos mz) (Zpos q)
                | _ => Z.shiftl (Zpos mz) ez
                end = Zpos p).
    { destruct ez as [|q|q]; [|lia|].
      - cbn [Z.shiftl]. rewrite Hm. cbn. lia.
      - rewrite Z.shiftr_div_pow2 by lia. rewrite Hm.
        change (- Zneg q)%Z with (Zpos q).
        apply Z.div_mul. apply Z.pow_nonzero; lia. }
    rewrite T. unfold Double.LLONG_MIN, Double.LLONG_MAX.
    assert (B : (2 ^ 53 < 2 ^ 63)%Z) by (apply Z.pow_lt_mono_r; lia).
    destruct s.
    + replace ((- 2 ^ 63 <=? - Zpos p) && (- Zpos p <=? 2 ^ 63 - 1))%Z
        with true; [reflexivity|].
      symmetry. apply andb_true_iff. split; apply Z.leb_le; lia.
    + replace ((- 2 ^ 63 <=? Zpos p) && (Zpos p <=? 2 ^ 63 - 1))%Z
        with true; [reflexivity|].
      symmetry. apply andb_true_iff. split; apply Z.leb_le; lia.
  - rewrite E. apply SFeqb_refl.
  - unfold Double.strtod_value, Double.of_decimal.
    replace (Z.to_pos (Zpos p * 10 ^ 0)) with p
      by (rewrite Z.pow_0_r, Z.mul_1_r; reflexivity).
    rewrite E. unfold Double.tiny.
    replace (Zpos p * 10 ^ Z.max 0 0 * 2 ^ 1076
             <? (2 ^ 54 - 1) * 10 ^ Z.max (- 0) 0)%Z with false;
      [reflexivity|].
    symmetry. apply Z.ltb_ge.
    change (Z.max 0 0) with 0%Z. change (Z.max (- 0) 0) with 0%Z.
    rewrite Z.pow_0_r, !Z.mul_1_r.
    assert (B : (2 ^ 54 - 1 <= 2 ^ 1076)%Z)
      by (intros B; vm_compute in B; discriminate B).
    nia.
Qed.

(** Integers below [2^53] in magnitude are free of precision effects:
    they are printed as integers and the text converts back to them. *)
Lemma plain_integer (z : Z) :
  (Z.abs z < 2 ^ 53)%Z -> plain_number (Double.of_Z z).
Proof.
  intros Hz.
  assert (Hs : stringify_number (Double.of_Z z) = print_long_long z
               /\ Double.strtod_value (z <? 0)%Z (Z.abs z) 0
                  = Some (Double.of_Z z)).
  { destruct z as [|p|p].
    - split; reflexivity.
    - destruct (small_integer_double false p Hz) as (T & Q & D).
      unfold stringify_number, Double.of_Z, binary_normalize.
      rewrite T, Q. split; [reflexivity|exact D].
    - destruct (small_integer_double true p Hz) as (T & Q & D).
      unfold stringify_number, Double.of_Z, binary_normalize.
      rewrite T. change (binary_round Double.prec Double.emax true p 0)
        with (Double.of_Z (Zneg p)) in Q at 1.
      split; [|exact D].
      change (Double.of_Z (Zneg p))
        with (binary_round Double.prec Double.emax true p 0) in Q.
      now rewrite Q. }
  destruct Hs as [Hs Hd]. split.
  - rewrite Hs. apply json_number_print_long_long.
  - rewrite Hs, stod_print_long_long. exact Hd.
Qed.

(** ** The number branch on every double *)

Lemma iter_pos_nat {A : Type} (f : A -> A) (n : positive) : forall x,
  iter_pos f n x = Nat.iter (Pos.to_nat n) f x.
Proof.
  induction n as [n IH|n IH|]; intros x; cbn [iter_pos].
  - rewrite !IH, Pos2Nat.inj_xI.
    replace (S (2 * Pos.to_nat n)) with (Pos.to_nat n + S (Pos.to_nat n))
      by lia.
    rewrite Nat.iter_add, Nat.iter_succ_r. reflexivity.
  - rewrite !IH, Pos2Nat.inj_xO.
    replace (2 * Pos.to_nat n) with (Pos.to_nat n + Pos.to_nat n) by lia.
    now rewrite Nat.iter_add.
  - reflexivity.
Qed.

Lemma shr_1_iter (n : nat) : forall m,
  Nat.iter n shr_1
    {| shr_m := Zpos (Nat.iter n xO m); shr_r := false; shr_s := false |}
  = {| shr_m := Zpos m; shr_r := false; shr_s := false |}.
Proof.
  induction n as [|n IH]; intros m; [reflexivity|].
  rewrite Nat.iter_succ_r. cbn [Nat.iter shr_1 orb]. apply IH.
Qed.

Lemma shr_exact (k m : positive) :
  iter_pos shr_1 k
    {| shr_m := Zpos (Pos.iter xO m k); shr_r := false; shr_s := false |}
  = {| shr_m := Zpos m; shr_r := false; shr_s := false |}.
Proof.
  rewrite iter_pos_nat, Pos2Nat.inj_iter. apply shr_1_iter.
Qed.

Lemma bounded_inv (m : positive) (e : Z) :
  bounded 53 1024 m e = true ->
  (Z.max (Zpos (digits2_pos m) + e - 53) (-1074) = e /\ e <= 971)%Z.
Proof.
  unfold bounded, canonical_mantissa, fexp, emin. intros H.
  apply andb_true_iff in H. destruct H as [H1 H2].
  apply Z.eqb_eq in H1. apply Z.leb_le in H2. split; [exact H1|lia].
Qed.

(** Rounding leaves a double as it is. *)
Lemma binary_round_aux_exact (s : bool) (m : positive) (e : Z) :
  bounded 53 1024 m e = true ->
  binary_round_aux 53 1024 s (Zpos m) e loc_Exact = S754_finite s m e.
Proof.
  intros H. apply bounded_inv in H. destruct H as [H1 H2].
  unfold binary_round_aux, shr_fexp. cbn [Zdigits2].
  assert (E0 : (fexp 53 1024 (Zpos (digits2_pos m) + e) - e = 0)%Z)
    by (unfold fexp, emin; lia).
  rewrite E0. cbn [shr shr_record_of_loc shr_m loc_of_shr_record
                   round_nearest_even Zdigits2].
  rewrite E0. cbn [shr shr_record_of_loc shr_m].
  replace (e <=? 1024 - 53)%Z with true by (symmetry; apply Z.leb_le; lia).
  reflexivity.
Qed.

Lemma binary_round_shifted_up (s : bool) (p k : positive) :
  bounded 53 1024 (Pos.iter xO p k) (Zneg k) = true ->
  binary_round 53 1024 s p 0 = S754_finite s (Pos.iter xO p k) (Zneg k).
Proof.
  intros H. pose proof (bounded_inv _ _ H) as [H1 _].
  rewrite digits2_iter_xO in H1.
  unfold binary_round.
  assert (Ef : fexp 53 1024 (Zpos (digits2_pos p) + 0) = Zneg k).
  { unfold fexp, emin. lia. }
  rewrite Ef. unfold shl_align. cbn [Z.sub Z.add Z.opp].
  now apply binary_round_aux_exact.
Qed.

Lemma binary_round_shifted_down (s : bool) (m k : positive) :
  bounded 53 1024 m (Zpos k) = true ->
  binary_round 53 1024 s (Pos.iter xO m k) 0 = S754_finite s m (Zpos k).
Proof.
  intros H. pose proof (bounded_inv _ _ H) as [H1 H2].
  unfold binary_round. rewrite digits2_iter_xO.
  assert (Ef : fexp 53 1024 (Zpos (digits2_pos m + k) + 0) = Zpos k).
  { unfold fexp, emin. lia. }
  rewrite Ef. unfold shl_align. cbn [Z.sub Z.add Z.opp].
  unfold binary_round_aux, shr_fexp. cbn [Zdigits2].
  rewrite digits2_iter_xO, Ef.
  cbn [Z.sub Z.add Z.opp shr shr_record_of_loc]. 
  rewrite shr_exact.
  cbn [shr_m loc_of_shr_record round_nearest_even Zdigits2].
  assert (E0 : (fexp 53 1024 (Zpos (digits2_pos m) + Zpos k) - Zpos k = 0)%Z)
    by (unfold fexp, emin; lia).
  cbn [Z.add] in E0 |- *. rewrite E0. cbn [shr shr_m].
  assert (L : (Zpos k <=? 1024 - 53)%Z = true) by (apply Z.leb_le; lia).
  cbn [Z.sub Z.add Z.opp] in L |- *. now rewrite L.
Qed.

Lemma Some_eq {A : Type} (a b : A) : Some a = Some b -> a = b.
Proof. intros H. now injection H. Qed.

Lemma of_Z_integral (s : bool) (m : positive) (e z : Z) :
  bounded 53 1024 m e = true ->
  integral_value (S754_finite s m e) = Some z ->
  Double.of_Z z = S754_finite s m e
  /\ Double.truncate (S754_finite s m e) = Some z.
Proof.
  intros B I. pose proof (bounded_inv _ _ B) as [B1 B2].
  unfold integral_value in I. destruct e as [|k|k].
  - apply Some_eq in I.
    assert (Hz : z = if s then Zneg m else Zpos m) by (destruct s; lia).
    clear I. subst z. split.
    + pose proof (binary_round_aux_exact s m 0 B) as R.
      assert (Q : binary_round 53 1024 s m 0 = S754_finite s m 0).
      { unfold binary_round.
        assert (Ef : fexp 53 1024 (Zpos (digits2_pos m) + 0) = 0%Z)
          by (unfold fexp, emin; lia).
        rewrite Ef. exact R. }
      destruct s; exact Q.
    + cbn [Double.truncate Z.shiftl]. destruct s; reflexivity.
  - apply Some_eq in I. pose proof (iter_xO_value m k) as V.
    assert (Hz : z = if s then Zneg (Pos.iter xO m k)
                     else Zpos (Pos.iter xO m k)) by (destruct s; lia).
    clear I. subst z. split.
    + pose proof (binary_round_shifted_down s m k B) as R.
      destruct s; exact R.
    + cbn [Double.truncate]. rewrite Z.shiftl_mul_pow2 by lia.
      destruct s; f_equal; lia.
  - destruct (Zpos m mod 2 ^ Zpos k =? 0)%Z eqn:D; [|discriminate I].
    apply Some_eq in I. apply Z.eqb_eq in D.
    assert (P2 : (0 < 2 ^ Zpos k)%Z) by (apply Z.pow_pos_nonneg; lia).
    pose proof (Z.div_mod (Zpos m) (2 ^ Zpos k) ltac:(lia)) as DM.
    rewrite D, Z.add_0_r in DM.
    assert (Q0 : (0 < Zpos m / 2 ^ Zpos k)%Z) by nia.
    destruct (Zpos m / 2 ^ Zpos k)%Z as [|p|p] eqn:Eq; try lia.
    assert (Em : m = Pos.iter xO p k).
    { apply Pos2Z.inj. rewrite iter_xO_value. lia. }
    assert (Hz : z = if s then Zneg p else Zpos p) by (destruct s; lia).
    clear I. subst z. split.
    + subst m. pose proof (binary_round_shifted_up s p k B) as R.
      destruct s; exact R.
    + cbn [Double.truncate]. rewrite Z.shiftr_div_pow2 by lia.
      change (- Zneg k)%Z with (Zpos k). rewrite Eq. destruct s; reflexivity.
Qed.

Lemma SFeqb_finite_inv s m e s' m' e' :
  SFeqb (S754_finite s m e) (S754_finite s' m' e') = true ->
  s = s' /\ m = m' /\ e = e'.
Proof.
  unfold SFeqb, SFcompare.
  destruct s, s'; try discriminate;
    destruct (e ?= e')%Z eqn:E; try discriminate;
    destruct (Pos.compare_cont Eq m m') eqn:M; try discriminate;
    intros _; apply Z.compare_eq in E; apply Pos.compare_eq in M;
    now subst.
Qed.

Lemma digits2_pos_upper (p : positive) :
  (Zpos p < 2 ^ Zpos (digits2_pos p))%Z.
Proof.
  induction p as [p IH|p IH|]; cbn [digits2_pos].
  - rewrite Pos2Z.inj_succ, Z.pow_succ_r by lia. lia.
  - rewrite Pos2Z.inj_succ, Z.pow_succ_r by lia. lia.
  - vm_compute. reflexivity.
Qed.

Lemma bounded_small (m : positive) (e : Z) :
  bounded 53 1024 m e = true -> (Zpos m < 2 ^ 53)%Z.
Proof.
  intros B. apply bounded_inv in B. destruct B as [B1 _].
  pose proof (digits2_pos_upper m) as U.
  assert (D : (Zpos (digits2_pos m) <= 53)%Z) by lia.
  assert (P : (2 ^ Zpos (digits2_pos m) <= 2 ^ 53)%Z)
    by (apply Z.pow_le_mono_r; lia).
  lia.
Qed.

(** The number branch on every double. *)
Lemma stringify_number_value (d : double) :
  is_double d = true ->
  stringify_number d
  = match long_long_value d with
    | Some z => print_long_long z
    | None => print_double d
    end.
Proof.
  intros V. unfold long_long_value.
  destruct d as [s|s| |s m e].
  - destruct s; reflexivity.
  - destruct s; reflexivity.
  - reflexivity.
  - change (bounded 53 1024 m e = true) in V.
    destruct (integral_value (S754_finite s m e)) as [z|] eqn:I.
    + destruct (of_Z_integral s m e z V I) as [Q T].
      unfold stringify_number, Double.to_long_long. rewrite T.
      unfold in_long_long. destruct (_ && _)%bool eqn:R.
      * rewrite Q. unfold Double.eqb. rewrite SFeqb_refl. reflexivity.
      * replace (Double.eqb (S754_finite s m e) (Double.of_Z Double.LLONG_MIN))
          with false; [reflexivity|].
        symmetry. apply not_true_is_false. intros E.
        change (Double.of_Z Double.LLONG_MIN)
          with (S754_finite true 4503599627370496 11) in E.
        apply SFeqb_finite_inv in E. destruct E as (-> & -> & ->).
        vm_compute in I. apply Some_eq in I. subst z.
        vm_compute in R. discriminate R.
    + cbn [integral_value] in I.
      destruct e as [|k|k]; try discriminate I.
      destruct (Zpos m mod 2 ^ Zpos k =? 0)%Z eqn:D; [discriminate I|].
      apply Z.eqb_neq in D. clear I.
      pose proof (bounded_small m _ V) as Sm.
      assert (P2 : (0 < 2 ^ Zpos k)%Z) by (apply Z.pow_pos_nonneg; lia).
      assert (Q0 : (0 <= Zpos m / 2 ^ Zpos k <= Zpos m)%Z).
      { split; [apply Z.div_pos; lia|].
        apply Z.div_le_upper_bound; [lia|]. nia. }
      unfold stringify_number, Double.to_long_long.
      cbn [Double.truncate]. rewrite Z.shiftr_div_pow2 by lia.
      change (- Zneg k)%Z with (Zpos k).
      set (q := (Zpos m / 2 ^ Zpos k)%Z) in *.
      set (t := if s then (- q)%Z else q).
      assert (R : ((Double.LLONG_MIN <=? t) && (t <=? Double.LLONG_MAX))%Z
                  = true).
      { unfold Double.LLONG_MIN, Double.LLONG_MAX.
        assert (B : (2 ^ 53 < 2 ^ 63)%Z) by (apply Z.pow_lt_mono_r; lia).
        apply andb_true_iff. unfold t.
        split; apply Z.leb_le; destruct s; lia. }
      rewrite R.
      replace (Double.eqb (S754_finite s m (Zneg k)) (Double.of_Z t))
        with false; [reflexivity|].
      symmetry. apply not_true_is_false. intros E.
      destruct q as [|p|p] eqn:Eq; [| |lia].
      * unfold t in E. destruct s; discriminate E.
      * assert (Hp : (Zpos p < 2 ^ 53)%Z) by lia.
        assert (Et : Double.of_Z t
                     = binary_round 53 1024 s p 0)
          by (unfold t; destruct s; reflexivity).
        rewrite Et in E.
        destruct (binary_round_small s p (digits2_pos_small p Hp))
          as (mz & ez & Er & He & Hm & _).
        change Double.prec with 53%Z in Er. change Double.emax with 1024%Z in Er.
        rewrite Er in E. apply SFeqb_finite_inv in E.
        destruct E as (_ & <- & <-).
        apply D. rewrite Hm. change (- Zneg k)%Z with (Zpos k).
        apply Z.mod_mul. lia.
Qed.

Lemma print_long_long_bare (z : Z) :
  forallb (fun c => isdigit c || Ascii.eqb c "-") (print_long_long z) = true.
Proof.
  assert (H : forall s, forallb isdigit s = true ->
              forallb (fun c => isdigit c || Ascii.eqb c "-") s = true).
  { intros s Hs. rewrite forallb_forall in *. intros c Hc.
    now rewrite (Hs c Hc). }
  unfold print_long_long. destruct (z <? 0)%Z.
  - cbn [forallb]. rewrite H by apply print_unsigned_isdigit. reflexivity.
  - apply H, print_unsigned_isdigit.
Qed.

Lemma bounded_intro (m : positive) (e : Z) :
  (Z.max (Zpos (digits2_pos m) + e - 53) (-1074) = e)%Z -> (e <= 971)%Z ->
  bounded 53 1024 m e = true.
Proof.
  intros H1 H2. unfold bounded, canonical_mantissa, fexp, emin.
  apply andb_true_iff. split; [apply Z.eqb_eq; lia|apply Z.leb_le; lia].
Qed.

(** An integer below [2^53] in magnitude is a double, and the double is
    that integer. *)
Lemma of_Z_small (z : Z) :
  (Z.abs z < 2 ^ 53)%Z ->
  is_double (Double.of_Z z) = true
  /\ long_long_value (Double.of_Z z) = Some z.
Proof.
  intros Hz.
  assert (H : forall s p, (Zpos p < 2 ^ 53)%Z ->
            exists m e,
              binary_round 53 1024 s p 0 = S754_finite s m e
              /\ bounded 53 1024 m e = true
              /\ integral_value (S754_finite s m e)
                 = Some (if s then Zneg p else Zpos p)).
  { intros s p Hp. pose proof (digits2_pos_small p Hp) as Hd.
    destruct (Z.eq_dec (Zpos (digits2_pos p)) 53) as [E|E].
    - assert (B : bounded 53 1024 p 0 = true) by (apply bounded_intro; lia).
      exists p, 0%Z. split; [|split; [exact B|]].
      + unfold binary_round.
        assert (Ef : fexp 53 1024 (Zpos (digits2_pos p) + 0) = 0%Z)
          by (unfold fexp, emin; lia).
        rewrite Ef. now apply binary_round_aux_exact.
      + unfold integral_value. f_equal. destruct s; lia.
    - destruct (53 - Zpos (digits2_pos p))%Z as [|k|k] eqn:Ek; try lia.
      assert (B : bounded 53 1024 (Pos.iter xO p k) (Zneg k) = true).
      { apply bounded_intro; [|lia]. rewrite digits2_iter_xO. lia. }
      exists (Pos.iter xO p k), (Zneg k). split; [|split; [exact B|]].
      + now apply binary_round_shifted_up.
      + unfold integral_value. rewrite iter_xO_value.
        assert (P2 : (2 ^ Zpos k <> 0)%Z) by (apply Z.pow_nonzero; lia).
        rewrite Z.mod_mul, Z.div_mul by exact P2.
        rewrite Z.eqb_refl. f_equal. destruct s; lia. }
  assert (R : in_long_long z = true).
  { unfold in_long_long, Double.LLONG_MIN, Double.LLONG_MAX.
    assert (B : (2 ^ 53 < 2 ^ 63)%Z) by (apply Z.pow_lt_mono_r; lia).
    apply andb_true_iff. split; apply Z.leb_le; lia. }
  destruct z as [|p|p].
  - split; reflexivity.
  - destruct (H false p Hz) as (m & e & E & B & I).
    unfold Double.of_Z, binary_normalize, Double.prec, Double.emax.
    rewrite E. split; [exact B|]. unfold long_long_value.
    rewrite I. cbv beta iota. now rewrite R.
  - destruct (H true p Hz) as (m & e & E & B & I).
    unfold Double.of_Z, binary_normalize, Double.prec, Double.emax.
    rewrite E. split; [exact B|]. unfold long_long_value.
    rewrite I. cbv beta iota. now rewrite R.
Qed.



(** ** The round trip *)

(** C1, on the code: the compact text of a value parses back to the value
    when its numbers are free of precision effects and the keys of its
    objects have no quotation mark and no backslash; every integer below
    [2^53] in magnitude is such a number.  A key is printed between
    quotation marks as it is, while the characters of a string payload are
    escaped: the text of an object with a quotation mark or a backslash in
    a key does not parse, or parses to another object. *)
Theorem round_trip_but_for_keys :
  (forall v, printable v ->
     parse (stringify false 0 v) = Ok v (length (stringify false 0 v)))
  /\ (forall z, (Z.abs z < 2 ^ 53)%Z -> plain_number (Double.of_Z z))
  /\ stringify false 0 (JObject [([DQ], JNull)])
     = lit "{" ++ [DQ; DQ; DQ] ++ lit ": null}"
  /\ parse (stringify false 0 (JObject [([DQ], JNull)]))
     = Throw (ParseError Expected_colon_after_key_in_object 3)
  /\ parse (stringify false 0 (JObject [([BSLASH], JNull)]))
     = Throw (ParseError Unterminated_string 11)
  /\ parse (stringify false 0
              (JObject [(lit "a" ++ DQ :: lit ":1," ++ DQ :: lit "b", JNull)]))
     = Ok (JObject [(lit "a", Json_of_int 1); (lit "b", JNull)]) 17
  /\ parse (stringify false 0 (JString [DQ; BSLASH]))
     = Ok (JString [DQ; BSLASH]) 6.
Proof.
  split; [exact stringify_parse_round_trip|].
  split; [exact plain_integer|].
  repeat split; vm_compute; reflexivity.
Qed.

Lemma plain_number_3 : plain_number (Double.of_Z 3).
Proof.
  split; [|vm_compute; reflexivity].
  exists [], (lit "3"), [], [].
  split; [vm_compute; reflexivity|]. split; [now left|].
  split; [right; exists "3", []; repeat split; discriminate|].
  split; now left.
Qed.

Lemma plain_number_3_5 :
  plain_number (S754_finite false 7881299347898368 (-51)).
Proof.
  split; [|vm_compute; reflexivity].
  exists [], (lit "3"), (lit ".5"), [].
  split; [vm_compute; reflexivity|]. split; [now left|].
  split; [right; exists "3", []; repeat split; discriminate|].
  split; [right; exists (lit "5"); repeat split; discriminate|now left].
Qed.

Lemma plain_number_minus_17 : plain_number (Double.of_Z (-17)).
Proof.
  split; [|vm_compute; reflexivity].
  exists (lit "-"), (lit "17"), [], [].
  split; [vm_compute; reflexivity|]. split; [now right|].
  split; [right; exists "1", (lit "7"); repeat split; discriminate|].
  split; now left.
Qed.

Lemma round_trip_but_for_keys_witness :
  parse (stringify false 0 sample_value)
  = Ok sample_value (length (stringify false 0 sample_value)).
Proof.
  apply (proj1 round_trip_but_for_keys sample_value).
  cbn [sample_value printable All].
  repeat match goal with
         | |- _ /\ _ => split
         | |- True => exact I
         | |- plain_number _ =>
             first [ exact plain_number_3 | exact plain_number_3_5
                   | exact plain_number_minus_17 ]
         | |- _ = true => reflexivity
         end.
Defined.

(** ** Duplicate keys *)

Lemma map_store_twice {V : Type} (m : list (text * V)) key v1 v2 :
  map_store (map_store m key v1) key v2 = map_store m key v2.
Proof.
  induction m as [|[k w] m IH]; [reflexivity|].
  cbn [map_store]. destruct (text_compare key k) eqn:E; cbn [map_store];
    rewrite E; [reflexivity|reflexivity|now rewrite IH].
Qed.

Lemma map_subscript_store {V : Type} (dflt : V) (m : list (text * V)) key v :
  map_subscript dflt (map_store m key v) key
  = map_store (map_subscript dflt m key) key v
  \/ map_find m key = None.
Proof.
  induction m as [|[k w] m IH]; [now right|].
  cbn [map_store map_subscript map_find].
  destruct (text_compare key k) eqn:E; cbn [map_store map_subscript];
    rewrite ?E; auto.
  destruct IH as [IH|IH]; [left; now rewrite IH|now right].
Qed.

(** Assigning twice to a key leaves one entry, with the second value. *)
Lemma map_assign_twice {V : Type} (dflt : V) (m : list (text * V)) key v1 v2 :
  map_assign dflt (map_assign dflt m key v1) key v2 = map_assign dflt m key v2.
Proof.
  unfold map_assign.
  pose proof (map_find_subscript_same dflt m key) as F.
  assert (F' : exists w, map_find (map_subscript dflt m key) key = Some w)
    by (destruct (map_find m key); eauto).
  destruct F' as [w Fw]. set (m1 := map_subscript dflt m key) in *.
  destruct (map_subscript_store dflt m1 key v1) as [E|E]; [|congruence].
  rewrite E, (map_subscript_present dflt m1 key w Fw).
  apply map_store_twice.
Qed.

Lemma assign_all_sorted_keys (l : list (text * Json)) : forall obj,
  keys_sorted obj = true -> keys_sorted (assign_all obj l) = true.
Proof.
  induction l as [|[k x] l IH]; intros obj H; [exact H|].
  unfold assign_all. cbn [fold_left]. apply IH. now apply map_assign_sorted.
Qed.

Lemma parse_of_value json v c t :
  json = c :: t -> isspace c = false ->
  parse_value (fuel_for json) json 0 = Ok v (length json) ->
  parse json = Ok v (length json).
Proof.
  intros E Sp Hv. unfold parse, JsonParser_parse.
  assert (H0 : skipn 0 json = c :: t) by exact E.
  eapply bind_ok.
  { apply (skip_while_stops isspace json 0 _ H0). cbn. now rewrite Sp. }
  eapply bind_ok; [exact Hv|].
  eapply bind_ok.
  { apply (skip_while_stops isspace json _ []); [|reflexivity].
    now apply skipn_all. }
  unfold bind, get_pos, size. now rewrite Nat.ltb_irrefl.
Qed.

(** The parser on the text of an object that lists the entries [l], with
    duplicate keys or not: the map built by assigning the entries in the
    order of the text. *)
Lemma parse_object_text (l : list (text * Json)) :
  All (fun '(k, x) => plain_key k = true /\ printable x) l ->
  parse (object_text l)
  = Ok (JObject (assign_all [] l)) (length (object_text l)).
Proof.
  intros Hl.
  assert (Hall : All (fun '(k, x) =>
                        plain_key k = true
                        /\ reads_back (stringify false 1) x) l).
  { clear - Hl. induction l as [|[k x] l IH]; cbn in *; [exact I|].
    destruct Hl as [[Pk Px] Pl]. repeat split; auto;
      now apply printable_reads_back. }
  assert (Hb : All (fun '(_, x) =>
                      need x <= 2 * length (stringify false 1 x) + 1) l).
  { clear. induction l as [|[k x] l IH]; cbn; [exact I|].
    split; [apply need_bound|exact IH]. }
  pose proof (total_members_bound 0 (stringify false 1) l Hb) as B.
  apply (parse_of_value (object_text l) _ "{"
           (stringify_members false 0 (stringify false 1) l ++ ["}"]));
    [reflexivity|reflexivity|].
  assert (L : length (object_text l)
              = length (stringify_members false 0 (stringify false 1) l) + 2).
  { unfold object_text. cbn [length]. rewrite length_app. cbn [length]. lia. }
  unfold fuel_for. rewrite L.
  replace (2 * (length (stringify_members false 0 (stringify false 1) l) + 2) + 2)
    with (S (2 * length (stringify_members false 0 (stringify false 1) l) + 5))
    by lia.
  rewrite (parse_value_object 0 (stringify false 1) l _ (object_text l) 0 []
             Hall); [reflexivity|lia|].
  unfold object_text. cbn [skipn]. reflexivity.
Qed.

(** ** Every object the parser builds is in key order *)

Lemma All_In {A : Type} (P : A -> Prop) (l : list A) :
  All P l <-> forall x, In x l -> P x.
Proof.
  induction l as [|y l IH]; cbn.
  - split; [intros _ x []|trivial].
  - rewrite IH. split.
    + intros [Hy Hl] x [<-|HIn]; auto.
    + intros H. split; [apply H; now left|intros x HIn; apply H; now right].
Qed.

Lemma All_snoc {A : Type} (P : A -> Prop) (l : list A) (x : A) :
  All P l -> P x -> All P (l ++ [x]).
Proof.
  rewrite !All_In. intros Hl Hx y HIn. apply in_app_or in HIn.
  destruct HIn as [HIn|[<-|[]]]; auto.
Qed.

Lemma map_store_In {V : Type} (m : list (text * V)) key v k' v' :
  In (k', v') (map_store m key v) -> v' = v \/ In (k', v') m.
Proof.
  induction m as [|[k w] m IH]; cbn [map_store]; [tauto|].
  destruct (text_compare key k); cbn [In].
  - intros [E|H]; [injection E as _ <-; now left|tauto].
  - tauto.
  - intros [E|H]; [tauto|]. apply IH in H. tauto.
Qed.

Lemma map_assign_values {V : Type} (Q : V -> Prop) (dflt : V)
    (m : list (text * V)) key v :
  Q dflt -> Q v -> All (fun '(_, x) => Q x) m ->
  All (fun '(_, x) => Q x) (map_assign dflt m key v).
Proof.
  rewrite !All_In. intros Hd Hv Hm [k' v'] HIn. unfold map_assign in HIn.
  apply map_store_In in HIn. destruct HIn as [->|HIn]; [exact Hv|].
  apply map_subscript_In in HIn.
  destruct HIn as [HIn|(_ & -> & _)]; [exact (Hm _ HIn)|exact Hd].
Qed.

Lemma parse_string_text_total_shape json pos v p :
  parse_string json pos = Ok v p -> is_string v = true.
Proof.
  unfold parse_string. intros H. apply bind_inv in H.
  destruct H as (s & p1 & _ & H). now injection H as <- _.
Qed.

Lemma parse_well_formed (fuel : nat) :
  (forall json pos v p, parse_value fuel json pos = Ok v p -> well_formed v)
  /\ (forall arr json pos v p,
        All well_formed arr ->
        parse_array_loop fuel arr json pos = Ok v p -> well_formed v)
  /\ (forall obj json pos v p,
        keys_sorted obj = true -> All (fun '(_, x) => well_formed x) obj ->
        parse_object_loop fuel obj json pos = Ok v p -> well_formed v).
Proof.
  induction fuel as [|f (IHv & IHa & IHo)];
    [repeat split; intros; discriminate|].
  split; [|split].
  - intros json pos v p H. cbn [parse_value] in H.
    apply bind_inv in H. destruct H as ([] & p1 & _ & H).
    apply bind_inv in H. destruct H as (c & p2 & _ & H).
    destruct (Ascii.eqb c "n").
    { unfold parse_null in H. destruct (text_eqb _ _); [|discriminate H].
      now injection H as <- _. }
    destruct (Ascii.eqb c "t" || Ascii.eqb c "f").
    { unfold parse_bool in H.
      repeat (destruct (text_eqb _ _); [now injection H as <- _|]).
      discriminate H. }
    destruct (Ascii.eqb c DQ).
    { apply parse_string_text_total_shape in H. now destruct v. }
    destruct (Ascii.eqb c "[").
    { unfold parse_array_with in H.
      apply bind_inv in H. destruct H as (c1 & p3 & _ & H).
      destruct (negb (Ascii.eqb c1 "[")); [discriminate H|].
      apply bind_inv in H. destruct H as ([] & p4 & _ & H).
      apply bind_inv in H. destruct H as ([] & p5 & _ & H).
      apply bind_inv in H. destruct H as (c2 & p6 & _ & H).
      destruct (Ascii.eqb c2 "]").
      - apply bind_inv in H. destruct H as ([] & p7 & _ & H).
        now injection H as <- _.
      - apply (IHa [] json p6 v p I H). }
    destruct (Ascii.eqb c "{").
    { unfold parse_object_with in H.
      apply bind_inv in H. destruct H as (c1 & p3 & _ & H).
      destruct (negb (Ascii.eqb c1 "{")); [discriminate H|].
      apply bind_inv in H. destruct H as ([] & p4 & _ & H).
      apply bind_inv in H. destruct H as ([] & p5 & _ & H).
      apply bind_inv in H. destruct H as (c2 & p6 & _ & H).
      destruct (Ascii.eqb c2 "}").
      - apply bind_inv in H. destruct H as ([] & p7 & _ & H).
        injection H as <- _. now split.
      - apply (IHo [] json p6 v p eq_refl I H). }
    destruct (Ascii.eqb c "-" || isdigit c); [|discriminate H].
    apply parse_number_sound in H.
    destruct H as (num & d & _ & _ & _ & ->). exact I.
  - intros arr json pos v p Harr H. cbn [parse_array_loop] in H.
    apply bind_inv in H. destruct H as (x & p1 & Hx & H). cbv zeta in H.
    apply IHv in Hx.
    apply bind_inv in H. destruct H as ([] & p2 & _ & H).
    apply bind_inv in H. destruct H as (c & p3 & _ & H).
    pose proof (All_snoc _ _ _ Harr Hx) as Harr'.
    destruct (Ascii.eqb c "]").
    + apply bind_inv in H. destruct H as ([] & p4 & _ & H).
      now injection H as <- _.
    + destruct (negb (Ascii.eqb c ",")); [discriminate H|].
      apply bind_inv in H. destruct H as ([] & p4 & _ & H).
      apply bind_inv in H. destruct H as ([] & p5 & _ & H).
      apply (IHa _ json p5 v p Harr' H).
  - intros obj json pos v p Hs Hobj H. cbn [parse_object_loop] in H.
    apply bind_inv in H. destruct H as ([] & p1 & _ & H).
    apply bind_inv in H. destruct H as (c & p2 & _ & H).
    destruct (negb (Ascii.eqb c DQ)); [discriminate H|].
    apply bind_inv in H. destruct H as (key & p3 & _ & H).
    apply bind_inv in H. destruct H as ([] & p4 & _ & H).
    apply bind_inv in H. destruct H as (c' & p5 & _ & H).
    destruct (negb (Ascii.eqb c' ":")); [discriminate H|].
    apply bind_inv in H. destruct H as ([] & p6 & _ & H).
    apply bind_inv in H. destruct H as ([] & p7 & _ & H).
    apply bind_inv in H. destruct H as (x & p8 & Hx & H). cbv zeta in H.
    apply IHv in Hx.
    pose proof (map_assign_sorted JNull obj key x Hs) as Hs'.
    pose proof (map_assign_values well_formed JNull obj key x I Hx Hobj)
      as Hobj'.
    apply bind_inv in H. destruct H as ([] & p9 & _ & H).
    apply bind_inv in H. destruct H as (c'' & p10 & _ & H).
    destruct (Ascii.eqb c'' "}").
    + apply bind_inv in H. destruct H as ([] & p11 & _ & H).
      injection H as <- _. now split.
    + destruct (negb (Ascii.eqb c'' ",")); [discriminate H|].
      apply bind_inv in H. destruct H as ([] & p11 & _ & H).
      apply (IHo _ json p11 v p Hs' Hobj' H).
Qed.

Lemma parse_result_well_formed json v p :
  parse json = Ok v p -> well_formed v.
Proof.
  unfold parse, JsonParser_parse. generalize (fuel_for json) as fuel.
  intros fuel H.
  apply bind_inv in H. destruct H as ([] & p1 & _ & H).
  apply bind_inv in H. destruct H as (x & p2 & Hx & H).
  apply bind_inv in H. destruct H as ([] & p3 & _ & H).
  apply bind_inv in H. destruct H as (q & p4 & _ & H).
  apply bind_inv in H. destruct H as (n & p5 & _ & H).
  destruct (q <? n); [discriminate H|].
  assert (E : x = v) by (unfold ret in H; congruence). subst x.
  now apply (proj1 (parse_well_formed fuel)) in Hx.
Qed.

(** *** Objects built from an initializer list *)

Lemma map_insert_subscript {V : Type} (m : list (text * V)) key v :
  map_insert m key v = map_subscript v m key.
Proof.
  induction m as [|[k w] m IH]; [reflexivity|].
  cbn [map_insert map_subscript]. now rewrite IH.
Qed.

Lemma map_find_insert_same {V : Type} (m : list (text * V)) key v :
  map_find (map_insert m key v) key
  = match map_find m key with Some w => Some w | None => Some v end.
Proof. rewrite map_insert_subscript. apply map_find_subscript_same. Qed.

Lemma map_find_insert_other {V : Type} (m : list (text * V)) key v k :
  k <> key -> map_find (map_insert m key v) k = map_find m k.
Proof.
  intros Hk. induction m as [|[k0 v0] m IH]; cbn [map_insert map_find].
  - destruct (text_compare k key) eqn:E; try reflexivity.
    apply text_compare_eq in E. contradiction.
  - destruct (text_compare key k0) eqn:E0; cbn [map_find].
    + reflexivity.
    + destruct (text_compare k key) eqn:E.
      * apply text_compare_eq in E. contradiction.
      * now rewrite (text_compare_lt_trans _ _ _ E E0).
      * reflexivity.
    + destruct (text_compare k k0); auto.
Qed.

Lemma map_insert_sorted {V : Type} (m : list (text * V)) key v :
  keys_sorted m = true -> keys_sorted (map_insert m key v) = true.
Proof. rewrite map_insert_subscript. apply map_subscript_sorted. Qed.

Lemma insert_all_found {V : Type} (l : list (text * V)) : forall m key v,
  map_find m key = Some v ->
  map_find (fold_left (fun m kv => map_insert m (fst kv) (snd kv)) l m) key
  = Some v.
Proof.
  induction l as [|[k x] l IH]; intros m key v H; [exact H|].
  cbn [fold_left fst snd]. apply IH.
  destruct (list_eq_dec ascii_dec k key) as [->|Hk].
  - now rewrite map_find_insert_same, H.
  - rewrite map_find_insert_other by congruence. exact H.
Qed.

Lemma insert_all_absent {V : Type} (l : list (text * V)) : forall m key,
  map_find m key = None -> ~ In key (map fst l) ->
  map_find (fold_left (fun m kv => map_insert m (fst kv) (snd kv)) l m) key
  = None.
Proof.
  induction l as [|[k x] l IH]; intros m key H Hn; [exact H|].
  cbn [fold_left fst snd]. cbn [map fst In] in Hn. apply IH; [|tauto].
  rewrite map_find_insert_other; [exact H|]. intros ->. tauto.
Qed.

Lemma insert_all_sorted {V : Type} (l : list (text * V)) : forall m,
  keys_sorted m = true ->
  keys_sorted (fold_left (fun m kv => map_insert m (fst kv) (snd kv)) l m)
  = true.
Proof.
  induction l as [|[k x] l IH]; intros m H; [exact H|].
  cbn [fold_left]. apply IH. now apply map_insert_sorted.
Qed.

(** The first pair of a key is the one an initializer list keeps. *)
Lemma map_of_list_first_wins {V : Type} (l1 l2 : list (text * V)) key v :
  ~ In key (map fst l1) ->
  map_find (map_of_list (l1 ++ (key, v) :: l2)) key = Some v.
Proof.
  intros Hn. unfold map_of_list. rewrite fold_left_app. cbn [fold_left fst snd].
  apply insert_all_found. rewrite map_find_insert_same.
  now rewrite (insert_all_absent l1 [] key eq_refl Hn).
Qed.

Lemma map_assign_absent {V : Type} (dflt : V) (m : list (text * V)) key v :
  map_find m key = None -> map_assign dflt m key v = map_insert m key v.
Proof.
  unfold map_assign.
  induction m as [|[k w] m IH]; cbn [map_find map_subscript map_insert].
  - intros _. cbn [map_store]. now rewrite text_compare_refl.
  - destruct (text_compare key k) eqn:E; [discriminate| |].
    + intros _. cbn [map_store]. now rewrite text_compare_refl.
    + intros H. cbn [map_store]. rewrite E. now rewrite (IH H).
Qed.

Lemma insert_all_assign (l : list (text * Json)) : forall m,
  NoDup (map fst l) ->
  (forall k, In k (map fst l) -> map_find m k = None) ->
  fold_left (fun m kv => map_insert m (fst kv) (snd kv)) l m = assign_all m l.
Proof.
  induction l as [|[k x] l IH]; intros m Hd Hm; [reflexivity|].
  unfold assign_all. cbn [fold_left fst snd]. cbn [map fst] in Hd, Hm.
  inversion Hd as [|? ? Hk Hd']; subst.
  rewrite (map_assign_absent JNull m k x (Hm k (or_introl eq_refl))).
  apply (IH _ Hd'). intros k' Hk'.
  rewrite map_find_insert_other; [apply Hm; now right|].
  intros ->. contradiction.
Qed.

Lemma map_of_list_distinct (l : list (text * Json)) :
  NoDup (map fst l) -> map_of_list l = assign_all [] l.
Proof. intros H. apply insert_all_assign; auto. Qed.

(** C6, as the code has it: assigning to a key that a map already has
    replaces the value and adds no entry; the parser builds an object by
    such assignments, so that in the text of an object the last value
    given for a key is the one the object has; the object read from the
    text with the key a twice has the one entry with the number 2; and
    every object the parser returns, at any depth, has its entries in
    strictly increasing key order, the order in which they are iterated
    and printed.  An object built from an initializer list is in key order
    too, but has for each key the first value the list gives it; it is the
    object that assignments in the order of the list build when no key is
    listed twice. *)
Theorem duplicate_key_last_write_wins :
  (forall (o : JsonObject) key v1 v2,
     map_assign JNull (map_assign JNull o key v1) key v2
     = map_assign JNull o key v2
     /\ map_find (map_assign JNull (map_assign JNull o key v1) key v2) key
        = Some v2)
  /\ (forall l1 l2 key v,
        All (fun '(k, x) => plain_key k = true /\ printable x)
            (l1 ++ (key, v) :: l2) ->
        ~ In key (map fst l2) ->
        exists o,
          parse (object_text (l1 ++ (key, v) :: l2))
          = Ok (JObject o) (length (object_text (l1 ++ (key, v) :: l2)))
          /\ index_key (JObject o) key = Returns v
          /\ keys_sorted o = true)
  /\ parse (lit "{" ++ DQ :: lit "a" ++ DQ :: lit ":1,"
            ++ DQ :: lit "a" ++ DQ :: lit ":2}")
     = Ok (JObject [(lit "a", Json_of_int 2)]) 13
  /\ index_key (JObject [(lit "a", Json_of_int 2)]) (lit "a")
     = Returns (Json_of_int 2)
  /\ as_number (Json_of_int 2) = Returns (Double.of_Z 2)
  /\ (forall json v p, parse json = Ok v p -> well_formed v)
  /\ (forall (o : JsonObject) key v,
        keys_sorted o = true -> keys_sorted (map_assign JNull o key v) = true)
  /\ (forall (l1 l2 : list (text * Json)) key v,
        ~ In key (map fst l1) ->
        index_key (JObject (map_of_list (l1 ++ (key, v) :: l2))) key
        = Returns v)
  /\ (forall l : list (text * Json),
        NoDup (map fst l) -> map_of_list l = assign_all [] l)
  /\ (forall l : list (text * Json), keys_sorted (map_of_list l) = true).
Proof.
  split.
  { intros o key v1 v2. split; [apply map_assign_twice|].
    apply map_find_assign_same. }
  split.
  { intros l1 l2 key v Hall Hn.
    exists (assign_all [] (l1 ++ (key, v) :: l2)).
    split; [now apply parse_object_text|].
    split; [|now apply assign_all_sorted_keys].
    unfold index_key, as_object.
    now rewrite (assign_all_last_wins l1 l2 [] key v Hn). }
  split; [vm_compute; reflexivity|].
  split; [reflexivity|]. split; [reflexivity|].
  split; [exact parse_result_well_formed|].
  split; [intros o key v; apply map_assign_sorted|].
  split.
  { intros l1 l2 key v Hn. unfold index_key, as_object.
    now rewrite (map_of_list_first_wins l1 l2 key v Hn). }
  split; [exact map_of_list_distinct|].
  intros l. now apply insert_all_sorted.
Qed.

Lemma plain_number_1 : plain_number (Double.of_Z 1).
Proof.
  split; [|vm_compute; reflexivity].
  exists [], (lit "1"), [], [].
  split; [vm_compute; reflexivity|]. split; [now left|].
  split; [right; exists "1", []; repeat split; discriminate|].
  split; now left.
Qed.

Lemma duplicate_key_last_write_wins_witness :
  (exists o,
     parse (object_text [(lit "a", Json_of_int 1); (lit "b", JNull);
                         (lit "a", JBool true)])
     = Ok (JObject o)
          (length (object_text [(lit "a", Json_of_int 1); (lit "b", JNull);
                                (lit "a", JBool true)]))
     /\ index_key (JObject o) (lit "a") = Returns (JBool true)
     /\ keys_sorted o = true)
  /\ well_formed (JObject [(lit "a", Json_of_int 2)])
  /\ keys_sorted (map_assign JNull [(lit "b", JNull)] (lit "a") JNull) = true
  /\ index_key
       (JObject (map_of_list ([(lit "b", JNull)]
                              ++ (lit "a", JBool false)
                                 :: [(lit "a", JBool true)]))) (lit "a")
     = Returns (JBool false)
  /\ map_of_list [(lit "b", JNull); (lit "a", JBool true)]
     = assign_all [] [(lit "b", JNull); (lit "a", JBool true)].
Proof.
  destruct duplicate_key_last_write_wins
    as (_ & G2 & _ & _ & _ & G6 & G7 & G8 & G9 & _).
  split; [|split; [|split; [|split]]].
  - apply (G2 [(lit "a", Json_of_int 1); (lit "b", JNull)] []
              (lit "a") (JBool true)).
    + unfold Json_of_int. cbn [app All printable].
      repeat match goal with
             | |- _ /\ _ => split
             | |- True => exact I
             | |- plain_number _ => exact plain_number_1
             | |- _ = true => reflexivity
             end.
    + intros [].
  - apply (G6 (lit "{" ++ DQ :: lit "a" ++ DQ :: lit ":1,"
               ++ DQ :: lit "a" ++ DQ :: lit ":2}")
              (JObject [(lit "a", Json_of_int 2)]) 13).
    vm_compute. reflexivity.
  - apply (G7 [(lit "b", JNull)] (lit "a") JNull). reflexivity.
  - apply (G8 [(lit "b", JNull)] [(lit "a", JBool true)] (lit "a")
              (JBool false)).
    cbn. intros [H|[]]. discriminate H.
  - apply (G9 [(lit "b", JNull); (lit "a", JBool true)]).
    cbn [map fst]. repeat constructor; cbn; intuition discriminate.
Defined.

(** C6 as it was stated, the last write winning also in an object built
    programmatically, fails for an object built from an initializer list:
    of two pairs with the key a the constructor of the map inserts the
    first and leaves the second out, so that the entry is the number 1 and
    not the number 2 of the last pair. *)
Lemma initializer_list_keeps_first :
  index_key (JObject (map_of_list [(lit "a", Json_of_int 1);
                                   (lit "a", Json_of_int 2)])) (lit "a")
  = Returns (Json_of_int 1)
  /\ as_number (Json_of_int 1) = Returns (Double.of_Z 1)
  /\ Double.eqb (Double.of_Z 1) (Double.of_Z 2) = false.
Proof. repeat split. Qed.

(** ** The recursion budget of [parse] is never exhausted *)

Lemma safe_at_le {A : Type} (pos pos' : nat) (r : Outcome A) :
  pos <= pos' -> safe_at pos' r -> safe_at pos r.
Proof. destruct r; cbn; intros; auto; lia. Qed.

Lemma safe_at_bind {A B : Type} (m : Parser A) (k : A -> Parser B) json pos :
  safe_at pos (m json pos) ->
  (forall a p, m json pos = Ok a p -> pos <= p -> safe_at p (k a json p)) ->
  safe_at pos (bind m k json pos).
Proof.
  unfold bind. destruct (m json pos) as [a p| |]; cbn; auto.
  intros L H. apply (safe_at_le pos p); auto.
Qed.

Lemma safe_bind {A B : Type} (m : Parser A) (k : A -> Parser B) :
  safe m -> (forall a, safe (k a)) -> safe (bind m k).
Proof.
  intros Hm Hk json pos. apply safe_at_bind; [apply Hm|].
  intros a p _ _. apply Hk.
Qed.

Lemma safe_ret {A : Type} (a : A) : safe (ret a).
Proof. intros json pos. cbn. lia. Qed.

Lemma safe_throw {A : Type} (msg : message) : safe (@throw A msg).
Proof. intros json pos. exact I. Qed.

Lemma safe_throw_at {A : Type} (msg : message) (p : nat) :
  safe (@throw_at A msg p).
Proof. intros json pos. exact I. Qed.

Lemma safe_get_pos : safe get_pos.
Proof. intros json pos. cbn. lia. Qed.

Lemma safe_size : safe size.
Proof. intros json pos. cbn. lia. Qed.

Lemma safe_json : safe json_.
Proof. intros json pos. cbn. lia. Qed.

Lemma safe_peek : safe peek.
Proof. intros json pos. rewrite peek_skipn. cbn. lia. Qed.

Lemma safe_current : safe current.
Proof.
  intros json pos. unfold current. destruct (length json <=? pos); cbn; auto.
Qed.

Lemma safe_advance : safe advance.
Proof.
  intros json pos. unfold advance. destruct (pos <? length json); cbn; lia.
Qed.

Lemma safe_skip_while (p : ascii -> bool) : safe (skip_while p).
Proof.
  intros json pos. destruct (skip_while_total p json pos) as [pos' E].
  rewrite E. apply skip_while_inv in E. destruct E as [[_ ->] _]. cbn. lia.
Qed.

Lemma safe_when (b : bool) (m : Parser unit) : safe m -> safe (when b m).
Proof. intros H. destruct b; [exact H|apply safe_ret]. Qed.

Lemma safe_if {A : Type} (b : bool) (m1 m2 : Parser A) :
  safe m1 -> safe m2 -> safe (if b then m1 else m2).
Proof. now destruct b. Qed.

Lemma safe_parse_null : safe parse_null.
Proof.
  intros json pos. unfold parse_null. destruct (text_eqb _ _); cbn; lia.
Qed.

Lemma safe_parse_bool : safe parse_bool.
Proof.
  intros json pos. unfold parse_bool.
  repeat (destruct (text_eqb _ _); [cbn; lia|]). exact I.
Qed.

Create HintDb safe.
#[local] Hint Resolve safe_ret safe_throw safe_throw_at safe_get_pos safe_size
  safe_json safe_peek safe_current safe_advance safe_skip_while safe_when
  safe_if safe_parse_null safe_parse_bool : safe.

Ltac safe_steps :=
  repeat first
    [ solve [auto with safe]
    | apply safe_bind; [|intros ?]
    | apply safe_if
    | apply safe_when ].

Lemma safe_parse_number : safe parse_number.
Proof.
  unfold parse_number, number_sign, number_integer, number_fraction,
    number_exponent, skip_digits.
  safe_steps. cbv zeta. destruct (stod _); auto with safe.
Qed.

Lemma safe_parse_escape (escaped : ascii) : safe (parse_escape escaped).
Proof.
  unfold parse_escape.
  repeat (apply safe_if; [solve [auto with safe]|]).
  apply safe_if; [|auto with safe].
  intros json pos. apply safe_at_bind; [apply safe_advance|].
  intros [] p1 _ L1. unfold bind at 1 2, get_pos, size.
  destruct (length json <? p1 + 4); [exact I|].
  unfold bind at 1, json_. cbv zeta.
  destruct (stoi16 _); [|exact I]. cbn. lia.
Qed.

Lemma safe_parse_string_loop (fuel : nat) :
  forall result, safe (parse_string_loop fuel result).
Proof.
  induction fuel as [|f IH]; intros result; cbn [parse_string_loop];
    [apply safe_ret|].
  pose proof safe_parse_escape.
  safe_steps; try apply IH; auto with safe.
Qed.

Lemma safe_parse_string_text : safe parse_string_text.
Proof.
  unfold parse_string_text. pose proof safe_parse_string_loop.
  safe_steps; auto with safe.
Qed.

Lemma safe_parse_string : safe parse_string.
Proof.
  unfold parse_string. apply safe_bind; [apply safe_parse_string_text|].
  intros. apply safe_ret.
Qed.

(** After a character has been seen under the cursor, [advance] moves. *)
Lemma advance_after json pos c :
  hd NUL (skipn pos json) = c -> c <> NUL ->
  advance json pos = Ok tt (S pos) /\ pos < length json.
Proof.
  intros H Hc. apply hd_cons in H; [|exact Hc]. destruct H as [rest H].
  split; [now apply advance_cons with (c := c) (rest := rest)|].
  now apply skipn_cons_inv in H.
Qed.

Lemma eqb_not_nul (c x : ascii) :
  Ascii.eqb c x = true -> x <> NUL -> c <> NUL.
Proof. intros E Hx. apply Ascii.eqb_eq in E. now subst. Qed.

Lemma safe_at_current json pos (k : ascii -> Parser Json) :
  (forall c, pos < length json -> safe_at pos (k c json pos)) ->
  safe_at pos (bind current k json pos).
Proof.
  intros H. unfold bind, current.
  destruct (length json <=? pos) eqn:E; [exact I|].
  apply H. now apply Nat.leb_gt in E.
Qed.

Lemma safe_at_peek {A : Type} json pos (k : ascii -> Parser A) :
  safe_at pos (k (hd NUL (skipn pos json)) json pos) ->
  safe_at pos (bind peek k json pos).
Proof. intros H. unfold bind. now rewrite peek_skipn. Qed.

Lemma safe_at_skip {A : Type} json pos (k : unit -> Parser A) :
  (forall p, pos <= p -> safe_at p (k tt json p)) ->
  safe_at pos (bind skip_whitespace k json pos).
Proof.
  intros H. apply safe_at_bind; [apply safe_skip_while|].
  intros [] p _ L. now apply H.
Qed.

Lemma safe_at_advance_lt {A : Type} json pos (k : unit -> Parser A) :
  pos < length json ->
  safe_at (S pos) (k tt json (S pos)) ->
  safe_at pos (bind advance k json pos).
Proof.
  intros L H. unfold bind, advance. apply Nat.ltb_lt in L. rewrite L.
  apply (safe_at_le pos (S pos)); [lia|exact H].
Qed.

Lemma hd_lt json pos c :
  Ascii.eqb (hd NUL (skipn pos json)) c = true -> c <> NUL ->
  pos < length json.
Proof.
  intros E Hc. apply Ascii.eqb_eq in E. apply hd_cons in E; [|exact Hc].
  destruct E as [rest E]. now apply skipn_cons_inv in E.
Qed.

(** With a budget of twice the remaining length, and one or two, nothing
    runs out. *)
Lemma parse_fuel_enough (fuel : nat) :
  (forall json pos,
     2 * (length json - pos) + 1 <= fuel ->
     safe_at pos (parse_value fuel json pos))
  /\ (forall arr json pos,
        2 * (length json - pos) + 2 <= fuel ->
        safe_at pos (parse_array_loop fuel arr json pos))
  /\ (forall obj json pos,
        2 * (length json - pos) + 2 <= fuel ->
        safe_at pos (parse_object_loop fuel obj json pos)).
Proof.
  induction fuel as [|f (IHv & IHa & IHo)];
    [repeat split; intros; lia|].
  split; [|split].
  - intros json pos Hf. cbn [parse_value].
    apply safe_at_skip. intros p1 L1.
    apply safe_at_current. intros c Lc.
    destruct (Ascii.eqb c "n"); [apply safe_parse_null|].
    destruct (Ascii.eqb c "t" || Ascii.eqb c "f"); [apply safe_parse_bool|].
    destruct (Ascii.eqb c DQ); [apply safe_parse_string|].
    destruct (Ascii.eqb c "[").
    { unfold parse_array_with.
      apply safe_at_current. intros c1 _.
      destruct (negb (Ascii.eqb c1 "[")); [exact I|].
      apply safe_at_advance_lt; [exact Lc|].
      apply safe_at_skip. intros p2 L2.
      apply safe_at_peek.
      destruct (Ascii.eqb _ "]").
      - apply safe_bind; [apply safe_advance|intros; apply safe_ret].
      - apply IHa. lia. }
    destruct (Ascii.eqb c "{").
    { unfold parse_object_with.
      apply safe_at_current. intros c1 _.
      destruct (negb (Ascii.eqb c1 "{")); [exact I|].
      apply safe_at_advance_lt; [exact Lc|].
      apply safe_at_skip. intros p2 L2.
      apply safe_at_peek.
      destruct (Ascii.eqb _ "}").
      - apply safe_bind; [apply safe_advance|intros; apply safe_ret].
      - apply IHo. lia. }
    destruct (Ascii.eqb c "-" || isdigit c);
      [apply safe_parse_number|exact I].
  - intros arr json pos Hf. cbn [parse_array_loop].
    apply safe_at_bind; [apply IHv; lia|].
    intros v p1 _ L1. cbv zeta.
    apply safe_at_skip. intros p2 L2.
    apply safe_at_peek.
    destruct (Ascii.eqb _ "]").
    { apply safe_bind; [apply safe_advance|intros; apply safe_ret]. }
    destruct (Ascii.eqb (hd NUL (skipn p2 json)) ",") eqn:E; [|exact I].
    cbn [negb].
    pose proof (hd_lt json p2 "," E ltac:(discriminate)) as Lt.
    apply safe_at_advance_lt; [exact Lt|].
    apply safe_at_skip. intros p3 L3.
    apply IHa. lia.
  - intros obj json pos Hf. cbn [parse_object_loop].
    apply safe_at_skip. intros p1 L1.
    apply safe_at_peek.
    destruct (negb (Ascii.eqb _ DQ)); [exact I|].
    apply safe_at_bind; [apply safe_parse_string_text|].
    intros key p2 _ L2.
    apply safe_at_skip. intros p3 L3.
    apply safe_at_peek.
    destruct (Ascii.eqb (hd NUL (skipn p3 json)) ":") eqn:E; [|exact I].
    cbn [negb].
    pose proof (hd_lt json p3 ":" E ltac:(discriminate)) as Lt.
    apply safe_at_advance_lt; [exact Lt|].
    apply safe_at_skip. intros p4 L4.
    apply safe_at_bind; [apply IHv; lia|].
    intros v p5 _ L5. cbv zeta.
    apply safe_at_skip. intros p6 L6.
    apply safe_at_peek.
    destruct (Ascii.eqb _ "}").
    { apply safe_bind; [apply safe_advance|intros; apply safe_ret]. }
    destruct (Ascii.eqb (hd NUL (skipn p6 json)) ",") eqn:E'; [|exact I].
    cbn [negb].
    pose proof (hd_lt json p6 "," E' ltac:(discriminate)) as Lt'.
    apply safe_at_advance_lt; [exact Lt'|].
    apply IHo. lia.
Qed.

(** [parse] returns a value or raises a parse error: the recursion budget
    it gives to [parse_value] is never exhausted. *)
Theorem parse_total (json : text) :
  (exists v p, parse json = Ok v p) \/ (exists e, parse json = Throw e).
Proof.
  unfold parse, JsonParser_parse.
  pose proof (proj1 (parse_fuel_enough (fuel_for json)) json) as Hv.
  destruct (skip_while_total isspace json 0) as [p1 E1].
  rewrite (bind_ok _ _ _ _ _ _ _ E1 eq_refl).
  specialize (Hv p1 ltac:(unfold fuel_for; lia)).
  destruct (parse_value (fuel_for json) json p1) as [v p2| e |] eqn:E2;
    [|right; exists e; now apply bind_throw|contradiction].
  rewrite (bind_ok _ _ _ _ _ _ _ E2 eq_refl).
  destruct (skip_while_total isspace json p2) as [p3 E3].
  rewrite (bind_ok _ _ _ _ _ _ _ E3 eq_refl).
  unfold bind, get_pos, size.
  destruct (p3 <? length json); [right|left]; repeat eexists.
Qed.

(** ** The cursor stays inside the input *)

Lemma tidy_at_le {A : Type} json (pos pos' : nat) (r : Outcome A) :
  pos <= pos' -> tidy_at json pos' r -> tidy_at json pos r.
Proof.
  destruct r; cbn; intros L H; [lia|split; [lia|tauto]|exact I].
Qed.

Lemma tidy_at_bind {A B : Type} (m : Parser A) (k : A -> Parser B) json pos :
  tidy_at json pos (m json pos) ->
  (forall a p, m json pos = Ok a p -> pos <= p <= length json ->
     tidy_at json p (k a json p)) ->
  tidy_at json pos (bind m k json pos).
Proof.
  unfold bind. destruct (m json pos) as [a p| |]; cbn; auto.
  intros L H. apply (tidy_at_le json pos p); [lia|]. now apply H.
Qed.

Lemma tidy_bind {A B : Type} (m : Parser A) (k : A -> Parser B) :
  tidy m -> (forall a, tidy (k a)) -> tidy (bind m k).
Proof.
  intros Hm Hk json pos L. apply tidy_at_bind; [now apply Hm|].
  intros a p _ Lp. apply Hk. lia.
Qed.

Lemma tidy_ret {A : Type} (a : A) : tidy (ret a).
Proof. intros json pos L. cbn. lia. Qed.

Lemma tidy_throw {A : Type} (msg : message) :
  opening_check msg = false -> tidy (@throw A msg).
Proof. intros H json pos L. cbn. split; [lia|exact H]. Qed.

Lemma tidy_peek : tidy peek.
Proof. intros json pos L. rewrite peek_skipn. cbn. lia. Qed.

Lemma tidy_current : tidy current.
Proof.
  intros json pos L. unfold current.
  destruct (length json <=? pos); cbn; [split; [lia|reflexivity]|lia].
Qed.

Lemma tidy_advance : tidy advance.
Proof.
  intros json pos L. unfold advance.
  destruct (pos <? length json) eqn:E; cbn; [|lia].
  apply Nat.ltb_lt in E. lia.
Qed.

Lemma tidy_skip_while (p : ascii -> bool) : tidy (skip_while p).
Proof.
  intros json pos L. destruct (skip_while_total p json pos) as [pos' E].
  rewrite E. apply skip_while_inv in E. destruct E as [[E ->] _]. cbn.
  apply skipn_length_le in E. destruct E as [E|[E _]]; [lia|].
  apply app_eq_nil in E. destruct E as [-> _]. cbn. lia.
Qed.

Lemma tidy_when (b : bool) (m : Parser unit) : tidy m -> tidy (when b m).
Proof. intros H. destruct b; [exact H|apply tidy_ret]. Qed.

Lemma tidy_if {A : Type} (b : bool) (m1 m2 : Parser A) :
  tidy m1 -> tidy m2 -> tidy (if b then m1 else m2).
Proof. now destruct b. Qed.

Lemma substr_eq_length (json t : text) (pos n : nat) :
  text_eqb (substr json pos n) t = true -> length t = n -> 0 < n ->
  pos + n <= length json.
Proof.
  intros E Ht Hn. apply text_eqb_eq in E.
  apply (f_equal (@length ascii)) in E. unfold substr in E.
  rewrite length_firstn, length_skipn in E. lia.
Qed.

Lemma tidy_parse_null : tidy parse_null.
Proof.
  intros json pos L. unfold parse_null.
  destruct (text_eqb _ _) eqn:E; cbn; [|split; [lia|reflexivity]].
  apply substr_eq_length in E; [lia|reflexivity|lia].
Qed.

Lemma tidy_parse_bool : tidy parse_bool.
Proof.
  intros json pos L. unfold parse_bool.
  destruct (text_eqb (substr json pos 4) _) eqn:E.
  { cbn [tidy_at]. apply substr_eq_length in E; [lia|reflexivity|lia]. }
  destruct (text_eqb (substr json pos 5) _) eqn:E';
    cbn [tidy_at position what]; [|split; [lia|reflexivity]].
  apply substr_eq_length in E'; [lia|reflexivity|lia].
Qed.

Create HintDb tidy.
#[local] Hint Resolve tidy_ret tidy_peek tidy_current tidy_advance
  tidy_skip_while tidy_when tidy_if tidy_parse_null tidy_parse_bool : tidy.

Ltac tidy_steps :=
  repeat first
    [ solve [auto with tidy]
    | apply tidy_throw; reflexivity
    | apply tidy_bind; [|intros ?]
    | apply tidy_if
    | apply tidy_when ].

(** The scan of [parse_number] and the conversion: the error of the
    conversion is placed at the start of the number. *)
Lemma tidy_parse_number : tidy parse_number.
Proof.
  intros json pos L. unfold parse_number.
  unfold bind at 1, get_pos.
  assert (T : forall m : Parser unit, tidy m ->
            forall k : unit -> Parser Json,
              (forall p, pos <= p <= length json -> tidy_at json pos (k tt json p)) ->
              forall p, pos <= p <= length json ->
              tidy_at json pos (bind m k json p)).
  { intros m Hm k Hk p Lp. unfold bind.
    specialize (Hm json p (proj2 Lp)).
    destruct (m json p) as [[] p'| |]; cbn in *; [apply Hk; lia| |exact I].
    split; [lia|tauto]. }
  apply T; [unfold number_sign; tidy_steps| |lia]. intros p1 L1.
  apply T; [unfold number_integer, skip_digits; tidy_steps| |lia].
  intros p2 L2.
  apply T; [unfold number_fraction, skip_digits; tidy_steps| |lia].
  intros p3 L3.
  apply T; [unfold number_exponent, skip_digits; tidy_steps| |lia].
  intros p4 L4.
  unfold bind, get_pos, json_. cbv zeta.
  destruct (stod _); cbn; [lia|]. split; [lia|reflexivity].
Qed.

Lemma tidy_parse_escape (escaped : ascii) : tidy (parse_escape escaped).
Proof.
  unfold parse_escape.
  repeat (apply tidy_if; [solve [auto with tidy]|]).
  apply tidy_if; [|apply tidy_throw; reflexivity].
  intros json pos L. apply tidy_at_bind; [now apply tidy_advance|].
  intros [] p1 _ L1. unfold bind at 1 2, get_pos, size.
  destruct (length json <? p1 + 4) eqn:E; [cbn; split; [lia|reflexivity]|].
  apply Nat.ltb_ge in E.
  unfold bind at 1, json_. cbv zeta.
  destruct (stoi16 _); cbn; [lia|]. split; [lia|reflexivity].
Qed.

Lemma tidy_parse_string_loop (fuel : nat) :
  forall result, tidy (parse_string_loop fuel result).
Proof.
  induction fuel as [|f IH]; intros result; cbn [parse_string_loop];
    [apply tidy_ret|].
  intros json pos L. unfold bind at 1 2, get_pos, size.
  apply tidy_at_bind; [now apply tidy_peek|]. intros c p Hp _.
  apply peek_inv in Hp. destruct Hp as [-> ->].
  destruct ((pos <? length json) && _); [|cbn; lia].
  destruct (Ascii.eqb _ BSLASH).
  - apply tidy_at_bind; [now apply tidy_advance|]. intros [] p1 _ L1.
    unfold bind at 1, get_pos.
    destruct (length json <=? p1); [cbn; split; [lia|reflexivity]|].
    apply tidy_at_bind; [apply tidy_peek; lia|]. intros e p2 _ L2.
    apply tidy_at_bind; [apply tidy_parse_escape; lia|]. intros ch p3 _ L3.
    apply tidy_at_bind; [apply tidy_advance; lia|]. intros [] p4 _ L4.
    apply IH. lia.
  - apply tidy_at_bind; [now apply tidy_advance|]. intros [] p1 _ L1.
    apply IH. lia.
Qed.

(** [parse_string] on a quotation mark: its opening check passes. *)
Lemma tidy_parse_string_text json pos :
  Ascii.eqb (hd NUL (skipn pos json)) DQ = true ->
  tidy_at json pos (parse_string_text json pos).
Proof.
  intros E. pose proof (hd_lt json pos DQ E ltac:(discriminate)) as Lt.
  apply Ascii.eqb_eq in E. apply hd_cons in E; [|discriminate].
  destruct E as [rest E]. unfold parse_string_text.
  rewrite (bind_ok _ _ _ _ _ _ _ (current_cons _ _ _ _ E) eq_refl).
  change (negb (Ascii.eqb DQ DQ)) with false. cbv iota.
  rewrite (bind_ok _ _ _ _ _ _ _ (advance_cons _ _ _ _ E) eq_refl).
  apply (tidy_at_le json pos (S pos)); [lia|].
  unfold bind at 1 2, get_pos, size.
  apply tidy_at_bind; [apply tidy_parse_string_loop; lia|].
  intros s p1 _ L1.
  apply tidy_at_bind; [apply tidy_peek; lia|]. intros c p2 _ L2.
  destruct (negb _); [cbn; split; [lia|reflexivity]|].
  apply tidy_at_bind; [apply tidy_advance; lia|]. intros [] p3 _ L3.
  cbn. lia.
Qed.

Lemma tidy_at_skip {A : Type} json pos (k : unit -> Parser A) :
  pos <= length json ->
  (forall p, pos <= p <= length json -> tidy_at json p (k tt json p)) ->
  tidy_at json pos (bind skip_whitespace k json pos).
Proof.
  intros L H. apply tidy_at_bind; [now apply tidy_skip_while|].
  intros [] p _ Lp. now apply H.
Qed.

Lemma tidy_at_peek {A : Type} json pos (k : ascii -> Parser A) :
  tidy_at json pos (k (hd NUL (skipn pos json)) json pos) ->
  tidy_at json pos (bind peek k json pos).
Proof. intros H. unfold bind. now rewrite peek_skipn. Qed.

Lemma tidy_at_advance_lt {A : Type} json pos (k : unit -> Parser A) :
  pos < length json ->
  tidy_at json (S pos) (k tt json (S pos)) ->
  tidy_at json pos (bind advance k json pos).
Proof.
  intros L H. unfold bind, advance. apply Nat.ltb_lt in L. rewrite L.
  apply (tidy_at_le json pos (S pos)); [lia|exact H].
Qed.

Lemma tidy_close json pos (v : Json) :
  pos <= length json ->
  tidy_at json pos (bind advance (fun _ => ret v) json pos).
Proof.
  intros L. apply tidy_at_bind; [now apply tidy_advance|].
  intros [] p _ Lp. cbn. lia.
Qed.

(** The descent: every position it reaches and every position it reports
    is inside the input, and the opening checks of the three functions it
    dispatches to always pass. *)
Lemma parse_tidy (fuel : nat) :
  (forall json pos, pos <= length json ->
     tidy_at json pos (parse_value fuel json pos))
  /\ (forall arr json pos, pos <= length json ->
        tidy_at json pos (parse_array_loop fuel arr json pos))
  /\ (forall obj json pos, pos <= length json ->
        tidy_at json pos (parse_object_loop fuel obj json pos)).
Proof.
  induction fuel as [|f (IHv & IHa & IHo)];
    [repeat split; intros; exact I|].
  split; [|split].
  - intros json pos L. cbn [parse_value].
    apply tidy_at_skip; [exact L|]. intros p1 L1.
    unfold bind at 1, current.
    destruct (length json <=? p1) eqn:El; [cbn; split; [lia|reflexivity]|].
    apply Nat.leb_gt in El.
    destruct (skipn p1 json) as [|c rest] eqn:Es;
      [apply skipn_nil_inv in Es; lia|].
    pose proof (skipn_cons_inv _ _ _ _ Es) as (_ & -> & _).
    destruct (Ascii.eqb c "n"); [apply tidy_parse_null; lia|].
    destruct (Ascii.eqb c "t" || Ascii.eqb c "f");
      [apply tidy_parse_bool; lia|].
    destruct (Ascii.eqb c DQ) eqn:Eq.
    { unfold parse_string. apply tidy_at_bind.
      - apply tidy_parse_string_text. now rewrite Es.
      - intros s p2 _ L2. cbn. lia. }
    destruct (Ascii.eqb c "[") eqn:Ea.
    { unfold parse_array_with.
      rewrite (bind_ok _ _ _ _ _ _ _ (current_cons _ _ _ _ Es) eq_refl).
      rewrite Ea. cbn [negb].
      apply tidy_at_advance_lt; [exact El|].
      apply tidy_at_skip; [lia|]. intros p2 L2.
      apply tidy_at_peek.
      destruct (Ascii.eqb _ "]"); [apply tidy_close; lia|].
      apply IHa. lia. }
    destruct (Ascii.eqb c "{") eqn:Eo.
    { unfold parse_object_with.
      rewrite (bind_ok _ _ _ _ _ _ _ (current_cons _ _ _ _ Es) eq_refl).
      rewrite Eo. cbn [negb].
      apply tidy_at_advance_lt; [exact El|].
      apply tidy_at_skip; [lia|]. intros p2 L2.
      apply tidy_at_peek.
      destruct (Ascii.eqb _ "}"); [apply tidy_close; lia|].
      apply IHo. lia. }
    destruct (Ascii.eqb c "-" || isdigit c);
      [apply tidy_parse_number; lia|cbn; split; [lia|reflexivity]].
  - intros arr json pos L. cbn [parse_array_loop].
    apply tidy_at_bind; [now apply IHv|].
    intros v p1 _ L1. cbv zeta.
    apply tidy_at_skip; [lia|]. intros p2 L2.
    apply tidy_at_peek.
    destruct (Ascii.eqb _ "]"); [apply tidy_close; lia|].
    destruct (Ascii.eqb (hd NUL (skipn p2 json)) ",") eqn:E;
      [|cbn; split; [lia|reflexivity]].
    cbn [negb].
    pose proof (hd_lt json p2 "," E ltac:(discriminate)) as Lt.
    apply tidy_at_advance_lt; [exact Lt|].
    apply tidy_at_skip; [lia|]. intros p3 L3.
    apply IHa. lia.
  - intros obj json pos L. cbn [parse_object_loop].
    apply tidy_at_skip; [exact L|]. intros p1 L1.
    apply tidy_at_peek.
    destruct (Ascii.eqb (hd NUL (skipn p1 json)) DQ) eqn:Eq;
      [|cbn; split; [lia|reflexivity]].
    cbn [negb].
    apply tidy_at_bind; [now apply tidy_parse_string_text|].
    intros key p2 _ L2.
    apply tidy_at_skip; [lia|]. intros p3 L3.
    apply tidy_at_peek.
    destruct (Ascii.eqb (hd NUL (skipn p3 json)) ":") eqn:E;
      [|cbn; split; [lia|reflexivity]].
    cbn [negb].
    pose proof (hd_lt json p3 ":" E ltac:(discriminate)) as Lt.
    apply tidy_at_advance_lt; [exact Lt|].
    apply tidy_at_skip; [lia|]. intros p4 L4.
    apply tidy_at_bind; [apply IHv; lia|].
    intros v p5 _ L5. cbv zeta.
    apply tidy_at_skip; [lia|]. intros p6 L6.
    apply tidy_at_peek.
    destruct (Ascii.eqb _ "}"); [apply tidy_close; lia|].
    destruct (Ascii.eqb (hd NUL (skipn p6 json)) ",") eqn:E';
      [|cbn; split; [lia|reflexivity]].
    cbn [negb].
    pose proof (hd_lt json p6 "," E' ltac:(discriminate)) as Lt'.
    apply tidy_at_advance_lt; [exact Lt'|].
    apply IHo. lia.
Qed.

Lemma parse_tidy_top (json : text) : tidy_at json 0 (parse json).
Proof.
  unfold parse, JsonParser_parse.
  apply tidy_at_skip; [lia|]. intros p1 L1.
  apply tidy_at_bind; [apply (proj1 (parse_tidy _)); lia|].
  intros v p2 _ L2.
  apply tidy_at_skip; [lia|]. intros p3 L3.
  unfold bind, get_pos, size.
  destruct (p3 <? length json) eqn:E; cbn; [split; [lia|reflexivity]|lia].
Qed.

(** X1: [parse] ends in one of two ways, on every input: with a value and
    the cursor at the end of the input, or with a parse error whose
    position is an offset of the input or its length. *)
Theorem parse_consumes_the_input (json : text) :
  (exists v, parse json = Ok v (length json))
  \/ (exists e, parse json = Throw e /\ position e <= length json).
Proof.
  pose proof (parse_tidy_top json) as T.
  destruct (parse_total json) as [(v & p & E)|(e & E)]; rewrite E in T.
  - left. exists v. rewrite E. f_equal.
    cbn in T.
    unfold parse, JsonParser_parse in E.
    apply bind_inv in E. destruct E as ([] & p1 & _ & E).
    apply bind_inv in E. destruct E as (x & p2 & _ & E).
    apply bind_inv in E. destruct E as ([] & p3 & _ & E).
    unfold bind, get_pos, size in E.
    destruct (p3 <? length json) eqn:L; [discriminate E|].
    apply Nat.ltb_ge in L. unfold ret in E. injection E as _ <-. lia.
  - right. exists e. split; [exact E|]. cbn in T. lia.
Qed.

Lemma parse_consumes_the_input_witness :
  (exists v, parse (lit "[1] x") = Ok v 5)
  \/ (exists e, parse (lit "[1] x") = Throw e /\ position e <= 5).
Proof. exact (parse_consumes_the_input (lit "[1] x")). Defined.

(** X2: the parser never reports a failed opening check: when
    [parse_string], [parse_array] and [parse_object] are called, the
    character they test has been seen by their caller. *)
Theorem opening_checks_never_fail (json : text) (e : JsonParseError) :
  parse json = Throw e ->
  what e <> Expected_quote /\ what e <> Expected_open_bracket
  /\ what e <> Expected_open_brace.
Proof.
  intros E. pose proof (parse_tidy_top json) as T. rewrite E in T.
  destruct T as [_ T]. repeat split; intros W; rewrite W in T; discriminate T.
Qed.

Lemma opening_checks_never_fail_witness :
  what (ParseError Expected_string_key_in_object 1) <> Expected_quote
  /\ what (ParseError Expected_string_key_in_object 1)
     <> Expected_open_bracket
  /\ what (ParseError Expected_string_key_in_object 1) <> Expected_open_brace.
Proof.
  apply (opening_checks_never_fail (lit "{1}")). vm_compute. reflexivity.
Defined.

(** ** Reading indented text back *)

Lemma sample_value_printable : printable sample_value.
Proof.
  cbn [sample_value printable All].
  repeat match goal with
         | |- _ /\ _ => split
         | |- True => exact I
         | |- plain_number _ =>
             first [ exact plain_number_3 | exact plain_number_3_5
                   | exact plain_number_minus_17 ]
         | |- _ = true => reflexivity
         end.
Qed.

Lemma isspace_number_char (c : ascii) :
  isspace c = true -> number_char c = false.
Proof.
  destruct c as [[] [] [] [] [] [] [] []]; vm_compute; intros H;
    try discriminate H; reflexivity.
Qed.

Lemma stops_after_spaces (p : ascii -> bool) (ws : text) c rest :
  (forall x, isspace x = true -> p x = false) ->
  forallb isspace ws = true -> p c = false ->
  stops p (ws ++ c :: rest) = true.
Proof.
  intros Hp Hws Hc. destruct ws as [|x ws]; cbn in *.
  - now rewrite Hc.
  - apply andb_true_iff in Hws. destruct Hws as [Hx _].
    now rewrite (Hp x Hx).
Qed.

Lemma make_indent_isspace (pretty : bool) (indent : Z) :
  forallb isspace (make_indent pretty indent) = true.
Proof.
  unfold make_indent. destruct pretty; [|reflexivity].
  induction (Z.to_nat (indent * 2)) as [|n IH]; [reflexivity|].
  cbn [repeat forallb]. now rewrite IH.
Qed.

Lemma when_isspace (b : bool) (t : text) :
  forallb isspace t = true -> forallb isspace (when_ b t) = true.
Proof. now destruct b. Qed.

Lemma element_indent_isspace (pretty : bool) (indent : Z) :
  forallb isspace (element_indent pretty indent) = true.
Proof.
  unfold element_indent. rewrite forallb_app.
  rewrite !when_isspace; auto using make_indent_isspace.
Qed.

Lemma stringify_elements_cons pretty indent print v l :
  stringify_elements pretty indent print (v :: l)
  = element_indent pretty indent ++ print v
    ++ elements_after pretty indent print l.
Proof.
  unfold element_indent, elements_after. cbn [stringify_elements].
  now rewrite <- !app_assoc.
Qed.

Lemma stringify_members_cons pretty indent print key val l :
  stringify_members pretty indent print ((key, val) :: l)
  = element_indent pretty indent ++ DQ :: key ++ DQ :: ":" :: " "
    :: print val ++ members_after pretty indent print l.
Proof.
  unfold element_indent, members_after. cbn [stringify_members].
  now rewrite <- !app_assoc.
Qed.

Lemma spaces_then_value (ws : text) (c : ascii) (t : text) :
  value_start c = true -> stops isspace (c :: t) = true.
Proof.
  intros Sc. apply value_start_facts in Sc. destruct Sc as (Sp & _).
  cbn. now rewrite Sp.
Qed.

(** The loop of [parse_array] on the text of the elements [v :: l], from
    the first character of [v], in either layout. *)
Lemma parse_array_loop_any (b : bool) (indent : Z) (print : Json -> text)
    (l : list Json) :
  All (reads_back print) l ->
  forall v, reads_back print v ->
  forall fuel arr json pos ws rest,
    total need (v :: l) <= fuel ->
    forallb isspace ws = true ->
    skipn pos json
    = print v ++ elements_after b indent print l ++ ws ++ "]" :: rest ->
    parse_array_loop fuel arr json pos
    = Ok (JArray (arr ++ v :: l))
         (pos + length (print v ++ elements_after b indent print l ++ ws) + 1).
Proof.
  induction l as [|v' l IH];
    intros Hl v [_ Hv] fuel arr json pos ws rest Hf Hws H;
    (destruct fuel as [|fuel]; [cbn in Hf; lia|]);
    cbn [total] in Hf; cbn [parse_array_loop].
  - assert (E : elements_after b indent print [] = when_ b [LF]).
    { unfold elements_after. cbn [is_nil negb when_ stringify_elements app].
      now rewrite app_nil_r. }
    rewrite E in *.
    assert (Hw : forallb isspace (when_ b [LF] ++ ws) = true).
    { rewrite forallb_app, Hws. now destruct b. }
    assert (H0 : skipn pos json
                 = print v ++ (when_ b [LF] ++ ws) ++ "]" :: rest).
    { rewrite H. now rewrite <- !app_assoc. }
    eapply bind_ok.
    { apply (Hv fuel json pos ((when_ b [LF] ++ ws) ++ "]" :: rest));
        [lia|exact H0|].
      apply stops_after_spaces;
        [exact isspace_number_char|exact Hw|reflexivity]. }
    cbv zeta.
    pose proof (skipn_app_inv _ _ _ _ H0) as H1.
    eapply bind_ok.
    { apply (skip_while_spec isspace json _ _ _ H1 Hw). reflexivity. }
    pose proof (skipn_app_inv _ _ _ _ H1) as H2.
    eapply bind_ok; [apply (peek_cons _ _ _ _ H2)|].
    change (Ascii.eqb "]" "]") with true. cbv iota.
    eapply bind_ok; [apply (advance_cons _ _ _ _ H2)|].
    unfold ret. f_equal. rewrite !length_app. lia.
  - destruct Hl as [Hv' Hl].
    pose proof Hv' as [(c & t & Ec & Sc) _].
    assert (E : elements_after b indent print (v' :: l)
                = "," :: (when_ b [LF] ++ element_indent b indent)
                  ++ print v' ++ elements_after b indent print l).
    { unfold elements_after at 1. rewrite stringify_elements_cons.
      cbn [is_nil negb when_ app]. now rewrite <- !app_assoc. }
    rewrite E in *. clear E.
    set (W := when_ b [LF] ++ element_indent b indent) in *.
    assert (Hw : forallb isspace W = true).
    { unfold W. rewrite forallb_app, element_indent_isspace.
      now destruct b. }
    set (T := print v' ++ elements_after b indent print l ++ ws
              ++ "]" :: rest) in *.
    assert (H0 : skipn pos json = print v ++ "," :: W ++ T).
    { rewrite H. unfold T. cbn [app]. now rewrite <- !app_assoc. }
    eapply bind_ok.
    { apply (Hv fuel json pos ("," :: W ++ T)); [lia|exact H0|reflexivity]. }
    cbv zeta.
    pose proof (skipn_app_inv _ _ _ _ H0) as H1.
    eapply bind_ok;
      [apply (skip_while_stops isspace json _ _ H1); reflexivity|].
    eapply bind_ok; [apply (peek_cons _ _ _ _ H1)|].
    change (Ascii.eqb "," "]") with false.
    change (negb (Ascii.eqb "," ",")) with false. cbv iota.
    eapply bind_ok; [apply (advance_cons _ _ _ _ H1)|].
    pose proof (skipn_cons_inv _ _ _ _ H1) as (_ & _ & H2).
    eapply bind_ok.
    { apply (skip_while_spec isspace json _ _ _ H2 Hw).
      unfold T. rewrite Ec. cbn [app].
      now apply (spaces_then_value []). }
    pose proof (skipn_app_inv _ _ _ _ H2) as H3.
    rewrite (IH Hl v' Hv' fuel (arr ++ [v]) json _ ws rest);
      [|cbn [total] in *; lia|exact Hws|exact H3].
    rewrite <- app_assoc. cbn [app]. apply f_equal.
    unfold T. repeat (cbn [length]; rewrite ?length_app). lia.
Qed.

(** The loop of [parse_object] on the text of the entries
    [(key, val) :: l], from the white space before the first key, in
    either layout. *)
Lemma parse_object_loop_any (b : bool) (indent : Z) (print : Json -> text)
    (l : list (text * Json)) :
  All (fun '(k, x) => plain_key k = true /\ reads_back print x) l ->
  forall key val, plain_key key = true -> reads_back print val ->
  forall fuel obj json pos ws0 ws rest,
    total (fun '(_, x) => need x) ((key, val) :: l) <= fuel ->
    forallb isspace ws0 = true -> forallb isspace ws = true ->
    skipn pos json
    = ws0 ++ DQ :: key ++ DQ :: ":" :: " " :: print val
      ++ members_after b indent print l ++ ws ++ "}" :: rest ->
    parse_object_loop fuel obj json pos
    = Ok (JObject (assign_all obj ((key, val) :: l)))
         (pos + length (ws0 ++ DQ :: key ++ DQ :: ":" :: " " :: print val
                        ++ members_after b indent print l ++ ws) + 1).
Proof.
  induction l as [|[key' val'] l IH];
    intros Hl key val Hk [Hs Hv] fuel obj json pos ws0 ws rest Hf Hws0 Hws H;
    (destruct fuel as [|fuel]; [cbn in Hf; lia|]);
    cbn [total] in Hf; cbn [parse_object_loop].
  - assert (E : members_after b indent print [] = when_ b [LF]).
    { unfold members_after. cbn [is_nil negb when_ stringify_members app].
      now rewrite app_nil_r. }
    rewrite E in *. clear E.
    assert (Hw : forallb isspace (when_ b [LF] ++ ws) = true).
    { rewrite forallb_app, Hws. now destruct b. }
    set (TL := (when_ b [LF] ++ ws) ++ "}" :: rest).
    assert (HT : stops number_char TL = true).
    { apply stops_after_spaces;
        [exact isspace_number_char|exact Hw|reflexivity]. }
    assert (H' : skipn pos json
                 = ws0 ++ DQ :: key ++ DQ :: ":" :: " " :: print val ++ TL).
    { rewrite H. unfold TL. now rewrite <- !app_assoc. }
    clear H.
    eapply bind_ok.
    { apply (skip_while_spec isspace json _ _ _ H' Hws0). reflexivity. }
    pose proof (skipn_app_inv _ _ _ _ H') as H0.
    eapply bind_ok; [apply (peek_cons _ _ _ _ H0)|].
    change (negb (Ascii.eqb DQ DQ)) with false. cbv iota.
    eapply bind_ok; [apply (parse_string_text_plain json _ key _ H0 Hk)|].
    assert (H1 : skipn (pos + length ws0 + length key + 2) json
                 = ":" :: " " :: print val ++ TL).
    { apply (skipn_after json (pos + length ws0) _ (DQ :: key ++ [DQ])).
      - rewrite H0. cbn [app]. f_equal. now rewrite <- app_assoc.
      - cbn [length]. rewrite length_app. cbn [length]. lia. }
    pose proof (skipn_cons_inv _ _ _ _ H1) as (_ & _ & H2).
    pose proof (skipn_cons_inv _ _ _ _ H2) as (_ & _ & H3).
    pose proof (skipn_app_inv _ _ _ _ H3) as H4.
    eapply bind_ok;
      [apply (skip_while_stops isspace json _ _ H1); reflexivity|].
    eapply bind_ok; [apply (peek_cons _ _ _ _ H1)|].
    change (negb (Ascii.eqb ":" ":")) with false. cbv iota.
    eapply bind_ok; [apply (advance_cons _ _ _ _ H1)|].
    destruct Hs as (c & t & Ec & Sc).
    eapply bind_ok.
    { apply (skip_while_spec isspace json _ [" "] _ H2); [reflexivity|].
      rewrite Ec. cbn [app]. now apply (spaces_then_value []). }
    cbn [length].
    replace (S (pos + length ws0 + length key + 2) + 1)
      with (S (S (pos + length ws0 + length key + 2))) by lia.
    eapply bind_ok; [apply (Hv fuel json _ TL); [lia|exact H3|exact HT]|].
    cbv zeta.
    eapply bind_ok.
    { apply (skip_while_spec isspace json _ _ _ H4 Hw). reflexivity. }
    pose proof (skipn_app_inv _ _ _ _ H4) as H5.
    eapply bind_ok; [apply (peek_cons _ _ _ _ H5)|].
    change (Ascii.eqb "}" "}") with true. cbv iota.
    eapply bind_ok; [apply (advance_cons _ _ _ _ H5)|].
    unfold ret. f_equal.
    repeat (cbn [length]; rewrite ?length_app). lia.
  - destruct Hl as [[Hk' Hv'] Hl].
    assert (E : members_after b indent print ((key', val') :: l)
                = "," :: (when_ b [LF] ++ element_indent b indent)
                  ++ DQ :: key' ++ DQ :: ":" :: " " :: print val'
                  ++ members_after b indent print l).
    { unfold members_after at 1. rewrite stringify_members_cons.
      cbn [is_nil negb when_ app]. now rewrite <- !app_assoc. }
    rewrite E in *. clear E.
    set (W := when_ b [LF] ++ element_indent b indent) in *.
    assert (Hw : forallb isspace W = true).
    { unfold W. rewrite forallb_app, element_indent_isspace.
      now destruct b. }
    set (T := W ++ DQ :: key' ++ DQ :: ":" :: " " :: print val'
              ++ members_after b indent print l ++ ws ++ "}" :: rest) in *.
    assert (H' : skipn pos json
                 = ws0 ++ DQ :: key ++ DQ :: ":" :: " " :: print val
                   ++ "," :: T).
    { rewrite H. unfold T.
      repeat (progress (rewrite <- ?app_assoc; cbn [app])). reflexivity. }
    clear H.
    eapply bind_ok.
    { apply (skip_while_spec isspace json _ _ _ H' Hws0). reflexivity. }
    pose proof (skipn_app_inv _ _ _ _ H') as H0.
    eapply bind_ok; [apply (peek_cons _ _ _ _ H0)|].
    change (negb (Ascii.eqb DQ DQ)) with false. cbv iota.
    eapply bind_ok; [apply (parse_string_text_plain json _ key _ H0 Hk)|].
    assert (H1 : skipn (pos + length ws0 + length key + 2) json
                 = ":" :: " " :: print val ++ "," :: T).
    { apply (skipn_after json (pos + length ws0) _ (DQ :: key ++ [DQ])).
      - rewrite H0. cbn [app]. f_equal. now rewrite <- app_assoc.
      - cbn [length]. rewrite length_app. cbn [length]. lia. }
    pose proof (skipn_cons_inv _ _ _ _ H1) as (_ & _ & H2).
    pose proof (skipn_cons_inv _ _ _ _ H2) as (_ & _ & H3).
    pose proof (skipn_app_inv _ _ _ _ H3) as H4.
    eapply bind_ok;
      [apply (skip_while_stops isspace json _ _ H1); reflexivity|].
    eapply bind_ok; [apply (peek_cons _ _ _ _ H1)|].
    change (negb (Ascii.eqb ":" ":")) with false. cbv iota.
    eapply bind_ok; [apply (advance_cons _ _ _ _ H1)|].
    destruct Hs as (c & t & Ec & Sc).
    eapply bind_ok.
    { apply (skip_while_spec isspace json _ [" "] _ H2); [reflexivity|].
      rewrite Ec. cbn [app]. now apply (spaces_then_value []). }
    cbn [length].
    replace (S (pos + length ws0 + length key + 2) + 1)
      with (S (S (pos + length ws0 + length key + 2))) by lia.
    eapply bind_ok;
      [apply (Hv fuel json _ ("," :: T)); [lia|exact H3|reflexivity]|].
    cbv zeta.
    eapply bind_ok;
      [apply (skip_while_stops isspace json _ _ H4); reflexivity|].
    eapply bind_ok; [apply (peek_cons _ _ _ _ H4)|].
    change (Ascii.eqb "," "}") with false.
    change (negb (Ascii.eqb "," ",")) with false. cbv iota.
    eapply bind_ok; [apply (advance_cons _ _ _ _ H4)|].
    pose proof (skipn_cons_inv _ _ _ _ H4) as (_ & _ & H5).
    rewrite (IH Hl key' val' Hk' Hv' fuel (map_assign JNull obj key val)
               json _ W ws rest);
      [|cbn [total] in *; lia|exact Hw|exact Hws|exact H5].
    apply f_equal. unfold T.
    repeat (cbn [length]; rewrite ?length_app). lia.
Qed.

Ltac flatten_app := repeat (progress (rewrite <- ?app_assoc; cbn [app])).

(** Every printable value is read back from its text in either layout,
    at any indentation. *)
Lemma reads_back_layout (v : Json) :
  printable v -> forall b indent, reads_back (stringify b indent) v.
Proof.
  induction v as [ | x | d | s | a IH | o IH] using Json_induction;
    intros Hp b indent.
  1-4: exact (printable_reads_back _ Hp indent).
  - assert (Hall : All (reads_back (stringify b (indent + 1))) a).
    { cbn [printable] in Hp. clear - IH Hp.
      induction a as [|x a IHa]; cbn in *; [exact I|].
      destruct IH as [Hx IH], Hp as [Px Pa]. split; auto. }
    clear IH Hp. unfold reads_back.
    split; [eexists _, _; split; [cbn [stringify]; reflexivity|reflexivity]|].
    intros [|fuel] json pos rest Hf H Hr; [cbn in Hf; lia|].
    cbn [need] in Hf. cbn [stringify] in *.
    destruct a as [|x a].
    + rewrite andb_false_r in *. cbn [when_ stringify_elements app] in *.
      rewrite (parse_value_dispatch fuel json pos "[" _ H eq_refl).
      change (Ascii.eqb "[" "n") with false.
      change (Ascii.eqb "[" "t" || Ascii.eqb "[" "f") with false.
      change (Ascii.eqb "[" DQ) with false.
      change (Ascii.eqb "[" "[") with true. cbv iota.
      unfold parse_array_with.
      eapply bind_ok; [apply (current_cons _ _ _ _ H)|].
      change (negb (Ascii.eqb "[" "[")) with false. cbv iota.
      eapply bind_ok; [apply (advance_cons _ _ _ _ H)|].
      pose proof (skipn_cons_inv _ _ _ _ H) as (_ & _ & H1).
      eapply bind_ok;
        [apply (skip_while_stops isspace json _ _ H1); reflexivity|].
      eapply bind_ok; [apply (peek_cons _ _ _ _ H1)|].
      change (Ascii.eqb "]" "]") with true. cbv iota.
      eapply bind_ok; [apply (advance_cons _ _ _ _ H1)|].
      unfold ret. f_equal. cbn [length]. lia.
    + cbn [is_nil negb] in *. rewrite andb_true_r in *.
      rewrite stringify_elements_cons in *.
      set (P := stringify b (indent + 1)) in *.
      set (W0 := when_ b [LF] ++ element_indent b indent).
      set (wsE := when_ b (make_indent b indent)) in *.
      assert (Hw0 : forallb isspace W0 = true).
      { unfold W0. rewrite forallb_app, element_indent_isspace.
        now destruct b. }
      assert (HwE : forallb isspace wsE = true)
        by (apply when_isspace, make_indent_isspace).
      set (T := P x ++ elements_after b indent P a ++ wsE ++ "]" :: rest).
      assert (H' : skipn pos json = "[" :: W0 ++ T).
      { rewrite H. unfold W0, T. flatten_app. reflexivity. }
      clear H.
      destruct Hall as [Hx Hall].
      pose proof Hx as [(c & t & Ec & Sc) _].
      pose proof (value_start_facts c Sc) as (Sp & Br & _).
      rewrite (parse_value_dispatch fuel json pos "[" _ H' eq_refl).
      change (Ascii.eqb "[" "n") with false.
      change (Ascii.eqb "[" "t" || Ascii.eqb "[" "f") with false.
      change (Ascii.eqb "[" DQ) with false.
      change (Ascii.eqb "[" "[") with true. cbv iota.
      unfold parse_array_with.
      eapply bind_ok; [apply (current_cons _ _ _ _ H')|].
      change (negb (Ascii.eqb "[" "[")) with false. cbv iota.
      eapply bind_ok; [apply (advance_cons _ _ _ _ H')|].
      pose proof (skipn_cons_inv _ _ _ _ H') as (_ & _ & H1).
      pose proof (skipn_app_inv _ _ _ _ H1) as H2.
      assert (Hhd : skipn (S pos + length W0) json
                    = c :: t ++ elements_after b indent P a ++ wsE
                      ++ "]" :: rest).
      { rewrite H2. unfold T. rewrite Ec. reflexivity. }
      eapply bind_ok.
      { apply (skip_while_spec isspace json _ _ _ H1 Hw0).
        unfold T. rewrite Ec. cbn [app]. now apply (spaces_then_value []). }
      eapply bind_ok; [apply (peek_cons _ _ _ _ Hhd)|].
      rewrite Br.
      rewrite (parse_array_loop_any b indent P a Hall x Hx fuel [] json _
                 wsE rest); [|cbn [total] in *; lia|exact HwE|exact H2].
      cbn [app]. apply f_equal. unfold W0.
      repeat (cbn [length]; rewrite ?length_app). lia.
  - cbn [printable] in Hp. destruct Hp as [Hs Hp].
    assert (Hall : All (fun '(k, x) =>
                          plain_key k = true
                          /\ reads_back (stringify b (indent + 1)) x) o).
    { clear - IH Hp.
      induction o as [|[k x] o IHo]; cbn in *; [exact I|].
      destruct IH as [Hx IH], Hp as [[Pk Px] Po]. repeat split; auto.
      - now apply Hx.
      - now apply Hx. }
    clear IH Hp. unfold reads_back.
    split; [eexists _, _; split; [cbn [stringify]; reflexivity|reflexivity]|].
    intros [|fuel] json pos rest Hf H Hr; [cbn in Hf; lia|].
    cbn [need] in Hf. cbn [stringify] in *.
    destruct o as [|[key val] o].
    + rewrite andb_false_r in *. cbn [when_ stringify_members app] in *.
      rewrite (parse_value_dispatch fuel json pos "{" _ H eq_refl).
      change (Ascii.eqb "{" "n") with false.
      change (Ascii.eqb "{" "t" || Ascii.eqb "{" "f") with false.
      change (Ascii.eqb "{" DQ) with false.
      change (Ascii.eqb "{" "[") with false.
      change (Ascii.eqb "{" "{") with true. cbv iota.
      unfold parse_object_with.
      eapply bind_ok; [apply (current_cons _ _ _ _ H)|].
      change (negb (Ascii.eqb "{" "{")) with false. cbv iota.
      eapply bind_ok; [apply (advance_cons _ _ _ _ H)|].
      pose proof (skipn_cons_inv _ _ _ _ H) as (_ & _ & H1).
      eapply bind_ok;
        [apply (skip_while_stops isspace json _ _ H1); reflexivity|].
      eapply bind_ok; [apply (peek_cons _ _ _ _ H1)|].
      change (Ascii.eqb "}" "}") with true. cbv iota.
      eapply bind_ok; [apply (advance_cons _ _ _ _ H1)|].
      unfold ret. f_equal. cbn [length]. lia.
    + cbn [is_nil negb] in *. rewrite andb_true_r in *.
      rewrite stringify_members_cons in *.
      set (P := stringify b (indent + 1)) in *.
      set (W0 := when_ b [LF] ++ element_indent b indent).
      set (wsE := when_ b (make_indent b indent)) in *.
      assert (Hw0 : forallb isspace W0 = true).
      { unfold W0. rewrite forallb_app, element_indent_isspace.
        now destruct b. }
      assert (HwE : forallb isspace wsE = true)
        by (apply when_isspace, make_indent_isspace).
      set (T := DQ :: key ++ DQ :: ":" :: " " :: P val
                ++ members_after b indent P o ++ wsE ++ "}" :: rest).
      assert (H' : skipn pos json = "{" :: W0 ++ T).
      { rewrite H. unfold W0, T. flatten_app. reflexivity. }
      clear H.
      destruct Hall as [[Hk Hx] Hall].
      rewrite (parse_value_dispatch fuel json pos "{" _ H' eq_refl).
      change (Ascii.eqb "{" "n") with false.
      change (Ascii.eqb "{" "t" || Ascii.eqb "{" "f") with false.
      change (Ascii.eqb "{" DQ) with false.
      change (Ascii.eqb "{" "[") with false.
      change (Ascii.eqb "{" "{") with true. cbv iota.
      unfold parse_object_with.
      eapply bind_ok; [apply (current_cons _ _ _ _ H')|].
      change (negb (Ascii.eqb "{" "{")) with false. cbv iota.
      eapply bind_ok; [apply (advance_cons _ _ _ _ H')|].
      pose proof (skipn_cons_inv _ _ _ _ H') as (_ & _ & H1).
      pose proof (skipn_app_inv _ _ _ _ H1) as H2.
      eapply bind_ok.
      { apply (skip_while_spec isspace json _ _ _ H1 Hw0). reflexivity. }
      eapply bind_ok; [apply (peek_cons _ _ _ _ H2)|].
      change (Ascii.eqb DQ "}") with false. cbv iota.
      rewrite (parse_object_loop_any b indent P o Hall key val Hk Hx fuel []
                 json _ [] wsE rest);
        [|cbn [total] in *; lia|reflexivity|exact HwE|exact H2].
      rewrite (assign_all_sorted ((key, val) :: o) []) by exact Hs.
      cbn [app]. apply f_equal. unfold W0.
      repeat (cbn [length]; rewrite ?length_app). lia.
Qed.

Lemma total_elements_bound_any (b : bool) (indent : Z) (print : Json -> text)
    (l : list Json) :
  All (fun x => need x <= 2 * length (print x) + 1) l ->
  total need l <= 2 * length (stringify_elements b indent print l) + 2.
Proof.
  induction l as [|x l IH]; [cbn; lia|].
  intros [Hx Hl]. specialize (IH Hl).
  cbn [total stringify_elements]. rewrite !length_app.
  destruct l as [|y l]; cbn [is_nil negb when_ length total] in *; lia.
Qed.

Lemma total_members_bound_any (b : bool) (indent : Z) (print : Json -> text)
    (l : list (text * Json)) :
  All (fun '(_, x) => need x <= 2 * length (print x) + 1) l ->
  total (fun '(_, x) => need x) l
  <= 2 * length (stringify_members b indent print l) + 2.
Proof.
  induction l as [|[k x] l IH]; [cbn; lia|].
  intros [Hx Hl]. specialize (IH Hl).
  cbn [total stringify_members]. rewrite !length_app.
  cbn [length]. rewrite !length_app. cbn [length]. rewrite !length_app.
  destruct l as [|y l]; cbn [is_nil negb when_ length total] in *; lia.
Qed.

Lemma need_bound_any (v : Json) :
  forall b indent, need v <= 2 * length (stringify b indent v) + 1.
Proof.
  induction v as [ | x | d | s | a IH | o IH] using Json_induction;
    intros b indent; cbn [need stringify]; try lia.
  - cbn [length]. rewrite !length_app. cbn [length].
    pose proof (total_elements_bound_any b indent (stringify b (indent + 1)) a)
      as B.
    assert (Hall : All (fun x => need x
                     <= 2 * length (stringify b (indent + 1) x) + 1) a).
    { clear - IH. induction a as [|x a IHa]; cbn in *; [exact I|].
      destruct IH as [Hx IH]. split; auto. }
    specialize (B Hall). lia.
  - cbn [length]. rewrite !length_app. cbn [length].
    pose proof (total_members_bound_any b indent (stringify b (indent + 1)) o)
      as B.
    assert (Hall : All (fun '(_, x) => need x
                     <= 2 * length (stringify b (indent + 1) x) + 1) o).
    { clear - IH. induction o as [|[k x] o IHo]; cbn in *; [exact I|].
      destruct IH as [Hx IH]. split; auto. }
    specialize (B Hall). lia.
Qed.

(** The text of a printable value, in either layout, between two runs of
    white space and before a text that does not continue a number. *)
Lemma parse_value_in_context (v : Json) (b : bool) (indent : Z)
    (ws1 rest : text) :
  printable v -> forallb isspace ws1 = true ->
  stops number_char rest = true ->
  let json := ws1 ++ stringify b indent v ++ rest in
  exists p1,
    skip_whitespace json 0 = Ok tt p1
    /\ parse_value (fuel_for json) json p1
       = Ok v (length ws1 + length (stringify b indent v)).
Proof.
  intros Hp Hw1 Hr json.
  destruct (reads_back_layout v Hp b indent) as [(c & t & E & Sc) Hrd].
  exists (length ws1). split.
  - apply (skip_while_spec isspace json 0 ws1 _ eq_refl Hw1).
    rewrite E. cbn [app]. now apply (spaces_then_value []).
  - apply (Hrd (fuel_for json) json (length ws1) rest).
    + pose proof (need_bound_any v b indent). unfold fuel_for, json.
      rewrite !length_app. lia.
    + unfold json. apply (skipn_app_inv _ 0 ws1 _ eq_refl).
    + exact Hr.
Qed.

(** X3: the text of a printable value parses back to the value in the
    indented layout as in the compact one, at any indentation, and with
    any white space before and after it. *)
Theorem pretty_round_trip (v : Json) (pretty : bool) (indent : Z)
    (ws1 ws2 : text) :
  printable v ->
  forallb isspace ws1 = true -> forallb isspace ws2 = true ->
  parse (ws1 ++ stringify pretty indent v ++ ws2)
  = Ok v (length (ws1 ++ stringify pretty indent v ++ ws2)).
Proof.
  intros Hp Hw1 Hw2.
  assert (Hr : stops number_char ws2 = true).
  { destruct ws2 as [|x ws2]; [reflexivity|]. cbn in *.
    apply andb_true_iff in Hw2. destruct Hw2 as [Hx _].
    now rewrite (isspace_number_char x Hx). }
  destruct (parse_value_in_context v pretty indent ws1 ws2 Hp Hw1 Hr)
    as (p1 & E1 & E2).
  unfold parse, JsonParser_parse.
  set (json := ws1 ++ stringify pretty indent v ++ ws2) in *.
  eapply bind_ok; [exact E1|].
  eapply bind_ok; [exact E2|].
  assert (H2 : skipn (length ws1 + length (stringify pretty indent v)) json
               = ws2 ++ []).
  { rewrite app_nil_r. unfold json.
    apply (skipn_after _ 0 _ (ws1 ++ stringify pretty indent v)).
    - now rewrite <- app_assoc.
    - now rewrite length_app. }
  eapply bind_ok.
  { apply (skip_while_spec isspace json _ _ _ H2 Hw2). reflexivity. }
  unfold bind, get_pos, size, json. rewrite !length_app.
  rewrite Nat.add_assoc, Nat.ltb_irrefl. reflexivity.
Qed.

Lemma pretty_round_trip_witness :
  parse ([LF; " "] ++ stringify true 0 sample_value ++ [CR; HT])
  = Ok sample_value
       (length ([LF; " "] ++ stringify true 0 sample_value ++ [CR; HT])).
Proof.
  apply (pretty_round_trip sample_value true 0 [LF; " "] [CR; HT]);
    [exact sample_value_printable|reflexivity|reflexivity].
Defined.

(** X4: a character after the text of a printable value that is neither
    white space nor the continuation of a number is rejected at its
    position. *)
Theorem trailing_text_rejected (v : Json) (pretty : bool) (indent : Z)
    (c : ascii) (rest : text) :
  printable v -> isspace c = false -> number_char c = false ->
  parse (stringify pretty indent v ++ c :: rest)
  = Throw (ParseError Unexpected_characters_after_JSON_value
             (length (stringify pretty indent v))).
Proof.
  intros Hp Hc Hn.
  assert (Hr : stops number_char (c :: rest) = true) by (cbn; now rewrite Hn).
  destruct (parse_value_in_context v pretty indent [] (c :: rest) Hp eq_refl Hr)
    as (p1 & E1 & E2).
  cbn [app length Nat.add] in *.
  unfold parse, JsonParser_parse.
  set (json := stringify pretty indent v ++ c :: rest) in *.
  eapply bind_ok; [exact E1|].
  eapply bind_ok; [exact E2|].
  assert (H2 : skipn (length (stringify pretty indent v)) json = c :: rest).
  { unfold json. apply (skipn_app_inv _ 0 _ _ eq_refl). }
  eapply bind_ok.
  { apply (skip_while_stops isspace json _ _ H2). cbn. now rewrite Hc. }
  unfold bind, get_pos, size, json. rewrite length_app. cbn [length].
  replace (length (stringify pretty indent v)
           <? length (stringify pretty indent v) + S (length rest))
    with true by (symmetry; apply Nat.ltb_lt; lia).
  reflexivity.
Qed.

Lemma trailing_text_rejected_witness :
  parse (stringify true 0 sample_value ++ "]" :: lit "[]")
  = Throw (ParseError Unexpected_characters_after_JSON_value
             (length (stringify true 0 sample_value))).
Proof.
  apply (trailing_text_rejected sample_value true 0 "]" (lit "[]"));
    [exact sample_value_printable|reflexivity|reflexivity].
Defined.

(** ** Edges of the input *)

(** X5: an input of white space only, the empty input among them, is
    rejected with the end-of-input error at its length. *)
Theorem blank_input_rejected (json : text) :
  forallb isspace json = true ->
  parse json = Throw (ParseError Unexpected_end_of_input (length json)).
Proof.
  intros Hws. unfold parse, JsonParser_parse, fuel_for.
  replace (2 * length json + 2) with (S (2 * length json + 1)) by lia.
  assert (H0 : skipn 0 json = json ++ []) by (now rewrite app_nil_r).
  assert (H1 : skipn (length json) json = []) by apply skipn_all.
  eapply bind_ok.
  { apply (skip_while_spec isspace json 0 json [] H0 Hws). reflexivity. }
  cbn [Nat.add]. apply bind_throw. cbn [parse_value].
  eapply bind_ok;
    [apply (skip_while_stops isspace json _ _ H1); reflexivity|].
  apply bind_throw. now apply current_nil.
Qed.

Lemma blank_input_rejected_witness :
  parse [" "; LF; HT] = Throw (ParseError Unexpected_end_of_input 3).
Proof. apply (blank_input_rejected [" "; LF; HT]). reflexivity. Defined.

(** The string loop on a text without quotation mark and backslash that
    runs to the end of the input. *)
Lemma string_loop_plain_end (s : text) : forall fuel result json pos,
  skipn pos json = s -> plain_key s = true -> length s <= fuel ->
  parse_string_loop fuel result json pos = Ok (result ++ s) (pos + length s).
Proof.
  induction s as [|c s IH]; intros fuel result json pos H Hp Hf.
  - rewrite (string_loop_end _ _ _ _ H). cbn [length].
    now rewrite app_nil_r, Nat.add_0_r.
  - destruct fuel as [|fuel]; [cbn in Hf; lia|].
    cbn [plain_key forallb] in Hp. apply andb_true_iff in Hp.
    destruct Hp as [Hc Hp]. apply andb_true_iff in Hc.
    destruct Hc as [Hq Hb]. apply negb_true_iff in Hq, Hb.
    rewrite (string_loop_plain _ _ _ _ _ _ H Hq Hb).
    pose proof (skipn_cons_inv _ _ _ _ H) as (_ & _ & H1).
    rewrite (IH fuel _ json _ H1 Hp) by (cbn in Hf; lia).
    rewrite <- app_assoc. cbn [app length]. f_equal. lia.
Qed.

(** The string loop on such a text followed by a backslash on which the
    input ends. *)
Lemma string_loop_backslash_end (s : text) : forall fuel result json pos,
  skipn pos json = s ++ [BSLASH] -> plain_key s = true -> length s < fuel ->
  parse_string_loop fuel result json pos
  = Throw (ParseError Unterminated_string (pos + length s + 1)).
Proof.
  induction s as [|c s IH]; intros fuel result json pos H Hp Hf;
    (destruct fuel as [|fuel]; [cbn in Hf; lia|]).
  - cbn [app] in H. cbn [parse_string_loop length].
    eapply bind_ok; [reflexivity|]. eapply bind_ok; [reflexivity|].
    eapply bind_ok; [apply (peek_cons _ _ _ _ H)|].
    pose proof (skipn_cons_inv _ _ _ _ H) as (Lt & _ & H2).
    apply Nat.ltb_lt in Lt. rewrite Lt.
    change (negb (Ascii.eqb BSLASH DQ)) with true.
    change (Ascii.eqb BSLASH BSLASH) with true. cbv iota. cbn [andb].
    eapply bind_ok; [apply (advance_cons _ _ _ _ H)|].
    eapply bind_ok; [reflexivity|].
    apply skipn_nil_inv in H2. apply Nat.leb_le in H2. rewrite H2.
    unfold throw. do 2 f_equal. lia.
  - cbn [plain_key forallb] in Hp. apply andb_true_iff in Hp.
    destruct Hp as [Hc Hp]. apply andb_true_iff in Hc.
    destruct Hc as [Hq Hb]. apply negb_true_iff in Hq, Hb.
    cbn [app] in H. cbn [length].
    rewrite (string_loop_plain _ _ _ _ _ _ H Hq Hb).
    pose proof (skipn_cons_inv _ _ _ _ H) as (_ & _ & H1).
    rewrite (IH fuel _ json _ H1 Hp) by (cbn in Hf; lia).
    do 2 f_equal. lia.
Qed.

(** [parse] on an input that begins with a quotation mark is
    [parse_string] on it, up to the check for trailing characters. *)
Lemma parse_string_input (json t : text) :
  json = DQ :: t ->
  parse json
  = bind parse_string
      (fun result =>
         skip_whitespace ;; pos <- get_pos ;; n <- size ;;
         if pos <? n then throw Unexpected_characters_after_JSON_value
         else ret result) json 0.
Proof.
  intros E. unfold parse, JsonParser_parse, fuel_for.
  replace (2 * length json + 2) with (S (2 * length json + 1)) by lia.
  assert (H0 : skipn 0 json = DQ :: t) by exact E.
  eapply bind_ok;
    [apply (skip_while_stops isspace json 0 _ H0); reflexivity|].
  unfold bind at 1.
  rewrite (parse_value_dispatch _ json 0 DQ t H0 eq_refl).
  reflexivity.
Qed.

(** X6: between two quotation marks, a text without quotation mark and
    backslash is read as it is, whatever its characters: control
    characters and bytes above 127 need no escape. *)
Theorem raw_string_verbatim (s : text) :
  plain_key s = true ->
  parse (DQ :: s ++ [DQ]) = Ok (JString s) (length s + 2).
Proof.
  intros Hp. rewrite (parse_string_input _ (s ++ [DQ]) eq_refl).
  set (json := DQ :: s ++ [DQ]).
  assert (H0 : skipn 0 json = DQ :: s ++ DQ :: []) by reflexivity.
  unfold parse_string.
  eapply bind_ok.
  { eapply bind_ok; [apply (parse_string_text_plain json 0 s [] H0 Hp)|].
    reflexivity. }
  cbn [Nat.add].
  assert (H1 : skipn (length s + 2) json = []).
  { apply (skipn_after json 0 _ json []); [now rewrite app_nil_r|].
    unfold json. cbn [length]. rewrite length_app. cbn [length]. lia. }
  eapply bind_ok;
    [apply (skip_while_stops isspace json _ _ H1); reflexivity|].
  unfold bind, get_pos, size, json. cbn [length]. rewrite length_app.
  cbn [length].
  replace (length s + 2 <? S (length s + 1)) with false
    by (symmetry; apply Nat.ltb_ge; lia).
  reflexivity.
Qed.

Lemma raw_string_verbatim_witness :
  parse (DQ :: [LF; "a"; "200"] ++ [DQ]) = Ok (JString [LF; "a"; "200"]) 5.
Proof. apply (raw_string_verbatim [LF; "a"; "200"]). reflexivity. Defined.

(** X7: a string that the input ends before its closing quotation mark
    is rejected with the unterminated-string error at the length of the
    input, whether the input ends in the text of the string or on the
    backslash of an escape. *)
Theorem unterminated_string_rejected (s : text) :
  plain_key s = true ->
  parse (DQ :: s)
  = Throw (ParseError Unterminated_string (length (DQ :: s)))
  /\ parse (DQ :: s ++ [BSLASH])
     = Throw (ParseError Unterminated_string (length (DQ :: s ++ [BSLASH]))).
Proof.
  intros Hp. split.
  - rewrite (parse_string_input _ s eq_refl).
    set (json := DQ :: s).
    assert (H0 : skipn 0 json = DQ :: s) by reflexivity.
    assert (H1 : skipn 1 json = s) by reflexivity.
    assert (H2 : skipn (1 + length s) json = []) by apply skipn_all.
    apply bind_throw. unfold parse_string. apply bind_throw.
    unfold parse_string_text.
    eapply bind_ok; [apply (current_cons _ _ _ _ H0)|].
    change (negb (Ascii.eqb DQ DQ)) with false. cbv iota.
    eapply bind_ok; [apply (advance_cons _ _ _ _ H0)|].
    eapply bind_ok; [reflexivity|].
    eapply bind_ok; [reflexivity|].
    eapply bind_ok.
    { apply (string_loop_plain_end s _ [] json 1 H1 Hp).
      unfold json. cbn [length]. lia. }
    eapply bind_ok; [apply (peek_nil _ _ H2)|]. reflexivity.
  - rewrite (parse_string_input _ (s ++ [BSLASH]) eq_refl).
    set (json := DQ :: s ++ [BSLASH]).
    assert (H0 : skipn 0 json = DQ :: s ++ [BSLASH]) by reflexivity.
    assert (H1 : skipn 1 json = s ++ [BSLASH]) by reflexivity.
    assert (L : length json = S (S (length s))).
    { unfold json. cbn [length]. rewrite length_app. cbn [length]. lia. }
    apply bind_throw. unfold parse_string. apply bind_throw.
    unfold parse_string_text.
    eapply bind_ok; [apply (current_cons _ _ _ _ H0)|].
    change (negb (Ascii.eqb DQ DQ)) with false. cbv iota.
    eapply bind_ok; [apply (advance_cons _ _ _ _ H0)|].
    eapply bind_ok; [reflexivity|].
    eapply bind_ok; [reflexivity|].
    apply bind_throw.
    rewrite (string_loop_backslash_end s _ [] json 1 H1 Hp) by (rewrite L; lia).
    rewrite L. do 2 f_equal. lia.
Qed.

Lemma unterminated_string_rejected_witness :
  parse (DQ :: lit "ab") = Throw (ParseError Unterminated_string 3)
  /\ parse (DQ :: lit "ab" ++ [BSLASH])
     = Throw (ParseError Unterminated_string 4).
Proof. apply (unterminated_string_rejected (lit "ab")). reflexivity. Defined.

(** ** Assignments to different keys *)

Lemma map_find_subscript_other {V : Type} (dflt : V) (m : list (text * V))
    key k :
  k <> key -> map_find (map_subscript dflt m key) k = map_find m k.
Proof.
  intros Hk. induction m as [|[k0 v0] m IH]; cbn [map_subscript map_find].
  - destruct (text_compare k key) eqn:E; try reflexivity.
    apply text_compare_eq in E. contradiction.
  - destruct (text_compare key k0) eqn:E0; cbn [map_find].
    + reflexivity.
    + destruct (text_compare k key) eqn:E.
      * apply text_compare_eq in E. contradiction.
      * now rewrite (text_compare_lt_trans _ _ _ E E0).
      * reflexivity.
    + destruct (text_compare k k0); auto.
Qed.

Lemma map_find_assign_other {V : Type} (dflt : V) (m : list (text * V))
    key v k :
  k <> key -> map_find (map_assign dflt m key v) k = map_find m k.
Proof.
  intros Hk. unfold map_assign.
  rewrite map_find_store_other by exact Hk.
  now apply map_find_subscript_other.
Qed.

Lemma map_find_below {V : Type} (m : list (text * V)) k key :
  above k m -> text_compare key k <> Gt -> map_find m key = None.
Proof.
  intros Ha Hk. destruct m as [|[k0 v0] m]; [reflexivity|].
  cbn [map_find].
  assert (L : text_compare k k0 = Lt) by (apply (Ha k0 v0); now left).
  destruct (text_compare key k) eqn:E; [| |contradiction].
  - apply text_compare_eq in E. subst. now rewrite L.
  - now rewrite (text_compare_lt_trans _ _ _ E L).
Qed.

(** Two maps in key order with the same entry, or none, at every key are
    the same map. *)
Lemma sorted_map_ext {V : Type} (m m' : list (text * V)) :
  keys_sorted m = true -> keys_sorted m' = true ->
  (forall key, map_find m key = map_find m' key) -> m = m'.
Proof.
  revert m'. induction m as [|[k v] m IH]; intros [|[k' v'] m'] Hs Hs' H.
  - reflexivity.
  - specialize (H k'). cbn in H. rewrite text_compare_refl in H.
    discriminate H.
  - specialize (H k). cbn in H. rewrite text_compare_refl in H.
    discriminate H.
  - apply keys_sorted_cons in Hs, Hs'.
    destruct Hs as [Ha Hs], Hs' as [Ha' Hs'].
    assert (Ek : k = k').
    { pose proof (H k) as H1. pose proof (H k') as H2.
      cbn [map_find] in H1, H2. rewrite text_compare_refl in H1, H2.
      destruct (text_compare k k') eqn:E.
      - now apply text_compare_eq.
      - discriminate H1.
      - apply text_compare_gt_lt in E. rewrite E in H2. discriminate H2. }
    subst k'.
    assert (Ev : v = v').
    { specialize (H k). cbn [map_find] in H.
      rewrite text_compare_refl in H. congruence. }
    subst v'. f_equal. apply IH; [exact Hs|exact Hs'|].
    intros key. specialize (H key). cbn [map_find] in H.
    destruct (text_compare key k) eqn:E.
    + rewrite (map_find_below m k key Ha), (map_find_below m' k key Ha');
        congruence.
    + rewrite (map_find_below m k key Ha), (map_find_below m' k key Ha');
        congruence.
    + exact H.
Qed.

Lemma map_assign_comm {V : Type} (dflt : V) (m : list (text * V))
    k1 k2 v1 v2 :
  keys_sorted m = true -> k1 <> k2 ->
  map_assign dflt (map_assign dflt m k1 v1) k2 v2
  = map_assign dflt (map_assign dflt m k2 v2) k1 v1.
Proof.
  intros Hs Hk. apply sorted_map_ext.
  - now do 2 apply map_assign_sorted.
  - now do 2 apply map_assign_sorted.
  - intros key.
    destruct (text_compare key k1) eqn:E1.
    + apply text_compare_eq in E1. subst key.
      rewrite map_find_assign_other by exact Hk.
      now rewrite !map_find_assign_same.
    + assert (N1 : key <> k1)
        by (intros ->; rewrite text_compare_refl in E1; discriminate).
      rewrite (map_find_assign_other dflt _ k1 v1 key N1).
      destruct (text_compare key k2) eqn:E2.
      * apply text_compare_eq in E2. subst key.
        now rewrite !map_find_assign_same.
      * assert (N2 : key <> k2)
          by (intros ->; rewrite text_compare_refl in E2; discriminate).
        now rewrite !map_find_assign_other by assumption.
      * assert (N2 : key <> k2)
          by (intros ->; rewrite text_compare_refl in E2; discriminate).
        now rewrite !map_find_assign_other by assumption.
    + assert (N1 : key <> k1)
        by (intros ->; rewrite text_compare_refl in E1; discriminate).
      rewrite (map_find_assign_other dflt _ k1 v1 key N1).
      destruct (text_compare key k2) eqn:E2.
      * apply text_compare_eq in E2. subst key.
        now rewrite !map_find_assign_same.
      * assert (N2 : key <> k2)
          by (intros ->; rewrite text_compare_refl in E2; discriminate).
        now rewrite !map_find_assign_other by assumption.
      * assert (N2 : key <> k2)
          by (intros ->; rewrite text_compare_refl in E2; discriminate).
        now rewrite !map_find_assign_other by assumption.
Qed.

Lemma assign_all_app (obj : JsonObject) (l1 l2 : list (text * Json)) :
  assign_all obj (l1 ++ l2) = assign_all (assign_all obj l1) l2.
Proof. unfold assign_all. apply fold_left_app. Qed.

(** X8: an object does not remember the order of its assignments.
    Assigning to two different keys gives the same object in either
    order, an assignment leaves the entry of every other key as it was,
    and two texts that list the same entries, two neighbours with
    different keys exchanged, are read as the same object. *)
Theorem assignment_order_is_forgotten :
  (forall (o : JsonObject) k1 k2 v1 v2,
     keys_sorted o = true -> k1 <> k2 ->
     map_assign JNull (map_assign JNull o k1 v1) k2 v2
     = map_assign JNull (map_assign JNull o k2 v2) k1 v1)
  /\ (forall (o : JsonObject) key v k,
        k <> key ->
        index_key (JObject (map_assign JNull o key v)) k
        = index_key (JObject o) k)
  /\ (forall l1 l2 k1 v1 k2 v2,
        All (fun '(k, x) => plain_key k = true /\ printable x)
            (l1 ++ (k1, v1) :: (k2, v2) :: l2) ->
        k1 <> k2 ->
        exists o,
          parse (object_text (l1 ++ (k1, v1) :: (k2, v2) :: l2))
          = Ok (JObject o)
               (length (object_text (l1 ++ (k1, v1) :: (k2, v2) :: l2)))
          /\ parse (object_text (l1 ++ (k2, v2) :: (k1, v1) :: l2))
             = Ok (JObject o)
                  (length (object_text (l1 ++ (k2, v2) :: (k1, v1) :: l2)))).
Proof.
  split; [intros; now apply map_assign_comm|].
  split.
  { intros o key v k Hk. unfold index_key, as_object.
    now rewrite map_find_assign_other. }
  intros l1 l2 k1 v1 k2 v2 Hall Hk.
  exists (assign_all [] (l1 ++ (k1, v1) :: (k2, v2) :: l2)).
  split; [now apply parse_object_text|].
  assert (E : assign_all [] (l1 ++ (k1, v1) :: (k2, v2) :: l2)
              = assign_all [] (l1 ++ (k2, v2) :: (k1, v1) :: l2)).
  { rewrite !assign_all_app. unfold assign_all at 1 3. cbn [fold_left].
    rewrite (map_assign_comm JNull _ k1 k2 v1 v2);
      [reflexivity|now apply assign_all_sorted_keys|exact Hk]. }
  rewrite E. apply parse_object_text.
  clear - Hall. induction l1 as [|[k x] l1 IH]; cbn [app All] in *.
  - tauto.
  - destruct Hall as [Hx Hall]. split; [exact Hx|now apply IH].
Qed.

Lemma assignment_order_is_forgotten_witness :
  map_assign JNull (map_assign JNull [(lit "b", JNull)] (lit "c") (JBool true))
    (lit "a") (JBool false)
  = map_assign JNull
      (map_assign JNull [(lit "b", JNull)] (lit "a") (JBool false))
      (lit "c") (JBool true).
Proof.
  apply (proj1 assignment_order_is_forgotten [(lit "b", JNull)]
           (lit "c") (lit "a") (JBool true) (JBool false));
    [reflexivity|discriminate].
Defined.

(** ** The first character of a value *)

Lemma parse_value_no_start fuel json pos c rest :
  skipn pos json = c :: rest -> isspace c = false -> value_start c = false ->
  parse_value (S fuel) json pos = Throw (ParseError Unexpected_character pos).
Proof.
  intros H Sp Hv.
  rewrite (parse_value_dispatch fuel json pos c rest H Sp).
  clear - Hv.
  destruct c as [[] [] [] [] [] [] [] []];
    try discriminate Hv; reflexivity.
Qed.

Lemma parse_after_spaces (ws : text) (c : ascii) (rest : text) e :
  forallb isspace ws = true -> isspace c = false ->
  (forall fuel, parse_value (S fuel) (ws ++ c :: rest) (length ws) = Throw e) ->
  parse (ws ++ c :: rest) = Throw e.
Proof.
  intros Hws Sp Hv. unfold parse, JsonParser_parse, fuel_for.
  set (json := ws ++ c :: rest) in *.
  replace (2 * length json + 2) with (S (2 * length json + 1)) by lia.
  eapply bind_ok.
  { apply (skip_while_spec isspace json 0 ws (c :: rest) eq_refl Hws).
    cbn. now rewrite Sp. }
  cbn [Nat.add]. apply bind_throw. apply Hv.
Qed.

(** X9: the first character after the leading white space decides what is
    read.  A character that begins no value is rejected as unexpected at
    its position; after an n only the literal null is accepted, after a t
    or an f only the literals true and false, and anything else is
    rejected at the position of that first character. *)
Theorem first_character_decides (ws : text) (c : ascii) (rest : text) :
  forallb isspace ws = true -> isspace c = false ->
  (value_start c = false ->
   parse (ws ++ c :: rest)
   = Throw (ParseError Unexpected_character (length ws)))
  /\ (c = "n" -> firstn 4 (c :: rest) <> lit "null" ->
      parse (ws ++ c :: rest)
      = Throw (ParseError Invalid_null_value (length ws)))
  /\ (c = "t" \/ c = "f" ->
      firstn 4 (c :: rest) <> lit "true" ->
      firstn 5 (c :: rest) <> lit "false" ->
      parse (ws ++ c :: rest)
      = Throw (ParseError Invalid_boolean_value (length ws))).
Proof.
  intros Hws Sp.
  assert (H : skipn (length ws) (ws ++ c :: rest) = c :: rest)
    by (apply (skipn_app_inv _ 0 ws _ eq_refl)).
  assert (F : forall n t, firstn n (c :: rest) <> t ->
              text_eqb (substr (ws ++ c :: rest) (length ws) n) t = false).
  { intros n t Hn. unfold substr. rewrite H.
    destruct (text_eqb _ t) eqn:E; [|reflexivity].
    apply text_eqb_eq in E. contradiction. }
  split; [|split].
  - intros Hv.
    apply (parse_after_spaces ws c rest _ Hws Sp).
    intros fuel. now apply (parse_value_no_start fuel _ _ c rest).
  - intros -> Hn.
    apply (parse_after_spaces ws "n" rest _ Hws Sp). intros fuel.
    rewrite (parse_value_dispatch fuel _ _ "n" rest H Sp).
    change (Ascii.eqb "n" "n") with true. cbv iota.
    unfold parse_null. now rewrite (F 4 _ Hn).
  - intros Hc Ht Hf.
    apply (parse_after_spaces ws c rest _ Hws Sp). intros fuel.
    rewrite (parse_value_dispatch fuel _ _ c rest H Sp).
    destruct Hc as [->| ->].
    + change (Ascii.eqb "t" "n") with false.
      change (Ascii.eqb "t" "t" || Ascii.eqb "t" "f") with true. cbv iota.
      unfold parse_bool. now rewrite (F 4 _ Ht), (F 5 _ Hf).
    + change (Ascii.eqb "f" "n") with false.
      change (Ascii.eqb "f" "t" || Ascii.eqb "f" "f") with true. cbv iota.
      unfold parse_bool. now rewrite (F 4 _ Ht), (F 5 _ Hf).
Qed.

Lemma first_character_decides_witness :
  parse ([" "] ++ "+" :: lit "1")
  = Throw (ParseError Unexpected_character 1)
  /\ parse ([] ++ "n" :: lit "ul")
     = Throw (ParseError Invalid_null_value 0)
  /\ parse ([LF] ++ "t" :: lit "rUe")
     = Throw (ParseError Invalid_boolean_value 1).
Proof.
  split; [|split].
  - apply (proj1 (first_character_decides [" "] "+" (lit "1")
                    eq_refl eq_refl)).
    reflexivity.
  - apply (proj1 (proj2 (first_character_decides [] "n" (lit "ul")
                           eq_refl eq_refl)));
      [reflexivity|discriminate].
  - apply (proj2 (proj2 (first_character_decides [LF] "t" (lit "rUe")
                           eq_refl eq_refl)));
      [now left|discriminate|discriminate].
Defined.

(** ** Errors inside objects and arrays *)

(** [parse] on an input that begins with a character that is not white
    space: a call of [parse_value] at the start, then the check for
    trailing characters. *)
Lemma parse_input (json : text) (c : ascii) (t : text) :
  json = c :: t -> isspace c = false ->
  parse json
  = bind (parse_value (S (2 * length json + 1)))
      (fun result =>
         skip_whitespace ;; pos <- get_pos ;; n <- size ;;
         if pos <? n then throw Unexpected_characters_after_JSON_value
         else ret result) json 0.
Proof.
  intros E Sp. unfold parse, JsonParser_parse, fuel_for.
  replace (2 * length json + 2) with (S (2 * length json + 1)) by lia.
  assert (H0 : skipn 0 json = c :: t) by exact E.
  eapply bind_ok;
    [apply (skip_while_stops isspace json 0 _ H0); cbn; now rewrite Sp|].
  reflexivity.
Qed.

Lemma stops_isspace_hd (t : text) :
  isspace (hd NUL t) = false -> stops isspace t = true.
Proof. intros H. rewrite stops_hd by reflexivity. now rewrite H. Qed.

(** [parse_value] on an opening brace: the loop of [parse_object], unless
    the object is empty. *)
Lemma parse_value_open_brace fuel json pos ws rest :
  skipn pos json = "{" :: ws ++ rest ->
  forallb isspace ws = true -> isspace (hd NUL rest) = false ->
  parse_value (S fuel) json pos
  = if Ascii.eqb (hd NUL rest) "}"
    then Ok (JObject []) (S (S pos + length ws))
    else parse_object_loop fuel [] json (S pos + length ws).
Proof.
  intros H Hws Hr.
  rewrite (parse_value_dispatch fuel json pos "{" _ H eq_refl).
  change (Ascii.eqb "{" "n") with false.
  change (Ascii.eqb "{" "t" || Ascii.eqb "{" "f") with false.
  change (Ascii.eqb "{" DQ) with false.
  change (Ascii.eqb "{" "[") with false.
  change (Ascii.eqb "{" "{") with true. cbv iota.
  unfold parse_object_with.
  eapply bind_ok; [apply (current_cons _ _ _ _ H)|].
  change (negb (Ascii.eqb "{" "{")) with false. cbv iota.
  eapply bind_ok; [apply (advance_cons _ _ _ _ H)|].
  pose proof (skipn_cons_inv _ _ _ _ H) as (_ & _ & H1).
  pose proof (skipn_app_inv _ _ _ _ H1) as H2.
  eapply bind_ok.
  { apply (skip_while_spec isspace json _ _ _ H1 Hws).
    now apply stops_isspace_hd. }
  eapply bind_ok; [apply peek_skipn|]. rewrite H2.
  destruct (Ascii.eqb (hd NUL rest) "}") eqn:E; [|reflexivity].
  pose proof (hd_cons rest "}") as Hc.
  apply Ascii.eqb_eq in E. destruct (Hc E ltac:(discriminate)) as [t' ->].
  eapply bind_ok; [apply (advance_cons _ _ _ _ H2)|]. reflexivity.
Qed.

(** [parse_value] on an opening bracket, likewise. *)
Lemma parse_value_open_bracket fuel json pos ws rest :
  skipn pos json = "[" :: ws ++ rest ->
  forallb isspace ws = true -> isspace (hd NUL rest) = false ->
  parse_value (S fuel) json pos
  = if Ascii.eqb (hd NUL rest) "]"
    then Ok (JArray []) (S (S pos + length ws))
    else parse_array_loop fuel [] json (S pos + length ws).
Proof.
  intros H Hws Hr.
  rewrite (parse_value_dispatch fuel json pos "[" _ H eq_refl).
  change (Ascii.eqb "[" "n") with false.
  change (Ascii.eqb "[" "t" || Ascii.eqb "[" "f") with false.
  change (Ascii.eqb "[" DQ) with false.
  change (Ascii.eqb "[" "[") with true. cbv iota.
  unfold parse_array_with.
  eapply bind_ok; [apply (current_cons _ _ _ _ H)|].
  change (negb (Ascii.eqb "[" "[")) with false. cbv iota.
  eapply bind_ok; [apply (advance_cons _ _ _ _ H)|].
  pose proof (skipn_cons_inv _ _ _ _ H) as (_ & _ & H1).
  pose proof (skipn_app_inv _ _ _ _ H1) as H2.
  eapply bind_ok.
  { apply (skip_while_spec isspace json _ _ _ H1 Hws).
    now apply stops_isspace_hd. }
  eapply bind_ok; [apply peek_skipn|]. rewrite H2.
  destruct (Ascii.eqb (hd NUL rest) "]") eqn:E; [|reflexivity].
  pose proof (hd_cons rest "]") as Hc.
  apply Ascii.eqb_eq in E. destruct (Hc E ltac:(discriminate)) as [t' ->].
  eapply bind_ok; [apply (advance_cons _ _ _ _ H2)|]. reflexivity.
Qed.

(** X11: an array or an object with nothing but white space between its
    delimiters is read as the empty array or the empty object, and
    [stringify] writes the two without any white space in either
    layout. *)
Theorem empty_containers (ws : text) :
  forallb isspace ws = true ->
  parse ("[" :: ws ++ ["]"]) = Ok (JArray []) (length ws + 2)
  /\ parse ("{" :: ws ++ ["}"]) = Ok (JObject []) (length ws + 2)
  /\ (forall pretty indent,
        stringify pretty indent (JArray []) = lit "[]"
        /\ stringify pretty indent (JObject []) = lit "{}").
Proof.
  intros Hws.
  assert (L : forall c d : ascii, length (c :: ws ++ [d]) = length ws + 2).
  { intros c d. cbn [length]. rewrite length_app. cbn [length]. lia. }
  assert (E : forall (c d : ascii) v,
            parse_value (S (2 * length (c :: ws ++ [d]) + 1))
              (c :: ws ++ [d]) 0 = Ok v (S (S 0 + length ws)) ->
            isspace c = false ->
            parse (c :: ws ++ [d]) = Ok v (length ws + 2)).
  { intros c d v Hv Sp.
    rewrite (parse_input _ c (ws ++ [d]) eq_refl Sp).
    eapply bind_ok; [exact Hv|].
    assert (H1 : skipn (S (S 0 + length ws)) (c :: ws ++ [d]) = []).
    { apply (skipn_after _ 0 _ (c :: ws ++ [d]) []);
        [now rewrite app_nil_r|]. rewrite L. lia. }
    eapply bind_ok;
      [apply (skip_while_stops isspace _ _ _ H1); reflexivity|].
    unfold bind, get_pos, size. rewrite L.
    replace (S (S 0 + length ws) <? length ws + 2) with false
      by (symmetry; apply Nat.ltb_ge; lia).
    unfold ret. f_equal. lia. }
  split; [|split].
  - apply E; [|reflexivity].
    now rewrite (parse_value_open_bracket _ _ 0 ws ["]"] eq_refl Hws eq_refl).
  - apply E; [|reflexivity].
    now rewrite (parse_value_open_brace _ _ 0 ws ["}"] eq_refl Hws eq_refl).
  - intros pretty indent. cbn [stringify is_nil negb].
    rewrite andb_false_r. split; reflexivity.
Qed.

Lemma empty_containers_witness :
  parse ("[" :: [" "; LF; HT] ++ ["]"]) = Ok (JArray []) 5
  /\ parse ("{" :: [" "; LF; HT] ++ ["}"]) = Ok (JObject []) 5.
Proof.
  split.
  - apply (proj1 (empty_containers [" "; LF; HT] eq_refl)).
  - apply (proj1 (proj2 (empty_containers [" "; LF; HT] eq_refl))).
Defined.

(** X12: in an object, where a key is expected, the end of the input and
    every character but white space, a quotation mark and, for the first
    key, the closing brace are rejected with the error that asks for a
    string key; after a key, the end of the input and every character but
    white space and a colon are rejected with the error that asks for the
    colon.  Both errors are at the position of the offending character. *)
Theorem object_key_errors (ws rest : text) :
  forallb isspace ws = true -> isspace (hd NUL rest) = false ->
  (Ascii.eqb (hd NUL rest) DQ = false ->
   Ascii.eqb (hd NUL rest) "}" = false ->
   parse ("{" :: ws ++ rest)
   = Throw (ParseError Expected_string_key_in_object (S (length ws))))
  /\ (forall key,
        plain_key key = true -> Ascii.eqb (hd NUL rest) ":" = false ->
        parse ("{" :: DQ :: key ++ DQ :: ws ++ rest)
        = Throw (ParseError Expected_colon_after_key_in_object
                   (length key + 3 + length ws))).
Proof.
  intros Hws Hr. split.
  - intros Hq Hb.
    rewrite (parse_input _ "{" (ws ++ rest) eq_refl eq_refl).
    apply bind_throw.
    rewrite (parse_value_open_brace _ _ 0 ws rest eq_refl Hws Hr), Hb.
    set (json := "{" :: ws ++ rest).
    assert (H1 : skipn (1 + length ws) json = rest)
      by (apply (skipn_app_inv json 1 ws rest eq_refl)).
    cbn [parse_object_loop].
    eapply bind_ok.
    { apply (skip_while_stops isspace json _ _ H1).
      now apply stops_isspace_hd. }
    eapply bind_ok; [apply peek_skipn|]. rewrite H1, Hq. reflexivity.
  - intros key Hk Hc.
    set (json := "{" :: DQ :: key ++ DQ :: ws ++ rest).
    rewrite (parse_input json "{" _ eq_refl eq_refl).
    apply bind_throw.
    assert (H0 : skipn 0 json = "{" :: [] ++ DQ :: key ++ DQ :: ws ++ rest)
      by reflexivity.
    rewrite (parse_value_open_brace _ _ 0 [] _ H0 eq_refl eq_refl).
    cbn [hd]. change (Ascii.eqb DQ "}") with false. cbv iota.
    cbn [length Nat.add].
    assert (H1 : skipn 1 json = DQ :: key ++ DQ :: ws ++ rest)
      by reflexivity.
    assert (H2 : skipn (1 + length key + 2) json = ws ++ rest).
    { apply (skipn_after json 1 _ (DQ :: key ++ [DQ])).
      - rewrite H1. cbn [app]. f_equal. now rewrite <- app_assoc.
      - cbn [length]. rewrite length_app. cbn [length]. lia. }
    pose proof (skipn_app_inv _ _ _ _ H2) as H3.
    cbn [parse_object_loop].
    eapply bind_ok;
      [apply (skip_while_stops isspace json _ _ H1); reflexivity|].
    eapply bind_ok; [apply (peek_cons _ _ _ _ H1)|].
    change (negb (Ascii.eqb DQ DQ)) with false. cbv iota.
    eapply bind_ok; [apply (parse_string_text_plain json 1 key _ H1 Hk)|].
    eapply bind_ok.
    { apply (skip_while_spec isspace json _ _ _ H2 Hws).
      now apply stops_isspace_hd. }
    eapply bind_ok; [apply peek_skipn|]. rewrite H3, Hc.
    unfold throw. cbn [negb]. do 2 f_equal. lia.
Qed.

Lemma object_key_errors_witness :
  parse ("{" :: [] ++ lit "invalid}")
  = Throw (ParseError Expected_string_key_in_object 1)
  /\ parse ("{" :: DQ :: lit "key" ++ DQ :: [" "] ++ lit "= 1}")
     = Throw (ParseError Expected_colon_after_key_in_object 7).
Proof.
  split.
  - apply (proj1 (object_key_errors [] (lit "invalid}") eq_refl eq_refl));
      reflexivity.
  - apply (proj2 (object_key_errors [" "] (lit "= 1}") eq_refl eq_refl)
             (lit "key")); reflexivity.
Defined.

(** ** The parser does not look behind the cursor *)

Lemma skipn_shift (pre json : text) (pos : nat) :
  skipn (length pre + pos) (pre ++ json) = skipn pos json.
Proof. induction pre as [|c pre IH]; [reflexivity|exact IH]. Qed.

Lemma char_at_shift (pre json : text) (pos : nat) :
  char_at (pre ++ json) (length pre + pos) = char_at json pos.
Proof. unfold char_at. apply app_nth2_plus. Qed.

Lemma substr_shift (pre json : text) (pos n : nat) :
  substr (pre ++ json) (length pre + pos) n = substr json pos n.
Proof. unfold substr. now rewrite skipn_shift. Qed.

Lemma ltb_shift (n a b : nat) : (n + a <? n + b) = (a <? b).
Proof.
  destruct (a <? b) eqn:E.
  - apply Nat.ltb_lt in E. apply Nat.ltb_lt. lia.
  - apply Nat.ltb_ge in E. apply Nat.ltb_ge. lia.
Qed.

Lemma leb_shift (n a b : nat) : (n + a <=? n + b) = (a <=? b).
Proof.
  destruct (a <=? b) eqn:E.
  - apply Nat.leb_le in E. apply Nat.leb_le. lia.
  - apply Nat.leb_gt in E. apply Nat.leb_gt. lia.
Qed.

Lemma bind_get_pos {B : Type} (k : nat -> Parser B) json pos :
  bind get_pos k json pos = k pos json pos.
Proof. reflexivity. Qed.

Lemma bind_size {B : Type} (k : nat -> Parser B) json pos :
  bind size k json pos = k (length json) json pos.
Proof. reflexivity. Qed.

Lemma bind_json {B : Type} (k : text -> Parser B) json pos :
  bind json_ k json pos = k json json pos.
Proof. reflexivity. Qed.

Lemma rel_bind_at {A B : Type} (m : Parser A) (k k' : A -> Parser B)
    pre json pos :
  m (pre ++ json) (length pre + pos) = shift (length pre) (m json pos) ->
  (forall a p, k' a (pre ++ json) (length pre + p)
               = shift (length pre) (k a json p)) ->
  bind m k' (pre ++ json) (length pre + pos)
  = shift (length pre) (bind m k json pos).
Proof.
  intros Hm Hk. unfold bind. rewrite Hm.
  destruct (m json pos) as [a p|e|]; cbn [shift]; auto.
Qed.

Lemma rel_bind {A B : Type} (m : Parser A) (k : A -> Parser B) :
  cursor_relative m -> (forall a, cursor_relative (k a)) ->
  cursor_relative (bind m k).
Proof.
  intros Hm Hk pre json pos. apply rel_bind_at; [apply Hm|].
  intros a p. apply Hk.
Qed.

Lemma rel_ret {A : Type} (a : A) : cursor_relative (ret a).
Proof. intros pre json pos. reflexivity. Qed.

Lemma rel_throw {A : Type} (msg : message) : cursor_relative (@throw A msg).
Proof. intros pre json pos. reflexivity. Qed.

Lemma rel_peek : cursor_relative peek.
Proof.
  intros pre json pos. unfold peek.
  rewrite length_app, leb_shift, char_at_shift.
  now destruct (length json <=? pos).
Qed.

Lemma rel_current : cursor_relative current.
Proof.
  intros pre json pos. unfold current.
  rewrite length_app, leb_shift, char_at_shift.
  now destruct (length json <=? pos).
Qed.

Lemma rel_advance : cursor_relative advance.
Proof.
  intros pre json pos. unfold advance.
  rewrite length_app, ltb_shift.
  destruct (pos <? length json); cbn [shift]; [|reflexivity].
  now rewrite Nat.add_succ_r.
Qed.

Lemma rel_skip_while (p : ascii -> bool) : cursor_relative (skip_while p).
Proof.
  intros pre json pos. unfold skip_while.
  replace (length (pre ++ json) - (length pre + pos))
    with (length json - pos) by (rewrite length_app; lia).
  generalize (length json - pos) as fuel. intros fuel. revert pos.
  induction fuel as [|f IH]; intros pos; cbn [skip_while_loop];
    [reflexivity|].
  rewrite length_app, ltb_shift, char_at_shift.
  destruct ((pos <? length json) && p (char_at json pos)); [|reflexivity].
  rewrite <- Nat.add_succ_r. apply IH.
Qed.

Lemma rel_skip_whitespace : cursor_relative skip_whitespace.
Proof. apply rel_skip_while. Qed.

Lemma rel_when (b : bool) (m : Parser unit) :
  cursor_relative m -> cursor_relative (when b m).
Proof. intros H. destruct b; [exact H|apply rel_ret]. Qed.

Lemma rel_if {A : Type} (b : bool) (m1 m2 : Parser A) :
  cursor_relative m1 -> cursor_relative m2 ->
  cursor_relative (if b then m1 else m2).
Proof. now destruct b. Qed.

Lemma rel_parse_null : cursor_relative parse_null.
Proof.
  intros pre json pos. unfold parse_null. rewrite substr_shift.
  destruct (text_eqb _ _); cbn [shift]; [|reflexivity].
  now rewrite Nat.add_assoc.
Qed.

Lemma rel_parse_bool : cursor_relative parse_bool.
Proof.
  intros pre json pos. unfold parse_bool. rewrite !substr_shift.
  destruct (text_eqb (substr json pos 4) _); cbn [shift];
    [now rewrite Nat.add_assoc|].
  destruct (text_eqb _ _); cbn [shift]; [|reflexivity].
  now rewrite Nat.add_assoc.
Qed.

Create HintDb rel.
#[local] Hint Resolve rel_ret rel_throw rel_peek rel_current rel_advance
  rel_skip_while rel_skip_whitespace rel_when rel_if rel_parse_null rel_parse_bool : rel.

Ltac rel_steps :=
  repeat first
    [ solve [auto with rel]
    | apply rel_bind; [|intros ?]
    | apply rel_if
    | apply rel_when ].

(** The scan of [parse_number] remembers where it started: the text it
    converts and the position of the conversion error move with the
    cursor. *)
Lemma rel_parse_number : cursor_relative parse_number.
Proof.
  intros pre json pos. unfold parse_number.
  rewrite !bind_get_pos.
  apply rel_bind_at;
    [apply (ltac:(unfold number_sign; rel_steps)
             : cursor_relative number_sign)|].
  intros [] p1.
  apply rel_bind_at;
    [apply (ltac:(unfold number_integer, skip_digits; rel_steps)
             : cursor_relative number_integer)|].
  intros [] p2.
  apply rel_bind_at;
    [apply (ltac:(unfold number_fraction, skip_digits; rel_steps)
             : cursor_relative number_fraction)|].
  intros [] p3.
  apply rel_bind_at;
    [apply (ltac:(unfold number_exponent, skip_digits; rel_steps)
             : cursor_relative number_exponent)|].
  intros [] p4.
  rewrite !bind_get_pos, !bind_json. cbv zeta.
  replace (length pre + p4 - (length pre + pos)) with (p4 - pos) by lia.
  rewrite substr_shift.
  destruct (stod _); reflexivity.
Qed.

Lemma rel_parse_escape (escaped : ascii) :
  cursor_relative (parse_escape escaped).
Proof.
  unfold parse_escape.
  repeat (apply rel_if; [solve [auto with rel]|]).
  apply rel_if; [|auto with rel].
  intros pre json pos. apply rel_bind_at; [apply rel_advance|].
  intros [] p1. rewrite !bind_get_pos, !bind_size.
  rewrite length_app.
  replace (length pre + length json <? length pre + p1 + 4)
    with (length json <? p1 + 4)
    by (rewrite <- Nat.add_assoc; now rewrite ltb_shift).
  destruct (length json <? p1 + 4); [reflexivity|].
  rewrite !bind_json. cbv zeta. rewrite substr_shift.
  destruct (stoi16 _); [|reflexivity].
  unfold bind, set_pos, ret. cbn [shift]. f_equal. lia.
Qed.

Lemma rel_parse_string_loop (fuel : nat) :
  forall result, cursor_relative (parse_string_loop fuel result).
Proof.
  induction fuel as [|f IH]; intros result; cbn [parse_string_loop];
    [apply rel_ret|].
  intros pre json pos. rewrite !bind_get_pos, !bind_size.
  apply rel_bind_at; [apply rel_peek|]. intros c p.
  rewrite length_app, ltb_shift.
  destruct ((pos <? length json) && negb (Ascii.eqb c DQ));
    [|reflexivity].
  destruct (Ascii.eqb c BSLASH).
  - apply rel_bind_at; [apply rel_advance|]. intros [] p1.
    rewrite !bind_get_pos, leb_shift.
    destruct (length json <=? p1); [reflexivity|].
    pose proof rel_parse_escape.
    apply (ltac:(rel_steps; apply IH)
            : cursor_relative
                (escaped <- peek ;; ch <- parse_escape escaped ;;
                 advance ;; parse_string_loop f (result ++ [ch]))).
  - apply (ltac:(rel_steps; apply IH)
            : cursor_relative
                (advance ;; parse_string_loop f (result ++ [c]))).
Qed.

Lemma rel_parse_string_text : cursor_relative parse_string_text.
Proof.
  intros pre json pos. unfold parse_string_text.
  apply rel_bind_at; [apply rel_current|]. intros c p.
  destruct (negb (Ascii.eqb c DQ)); [reflexivity|].
  apply rel_bind_at; [apply rel_advance|]. intros [] p1.
  rewrite !bind_get_pos, !bind_size.
  replace (length (pre ++ json) - (length pre + p1))
    with (length json - p1) by (rewrite length_app; lia).
  apply rel_bind_at; [apply rel_parse_string_loop|]. intros s p2.
  apply (ltac:(rel_steps)
          : cursor_relative
              (c <- peek ;;
               if negb (Ascii.eqb c DQ) then throw Unterminated_string
               else advance ;; ret s)).
Qed.

Lemma rel_parse_string : cursor_relative parse_string.
Proof.
  unfold parse_string. apply rel_bind; [apply rel_parse_string_text|].
  intros. apply rel_ret.
Qed.

#[local] Hint Resolve rel_parse_number rel_parse_string_text
  rel_parse_string : rel.

(** The descent looks at the input from the cursor on only. *)
Lemma parse_cursor_relative (fuel : nat) :
  cursor_relative (parse_value fuel)
  /\ (forall arr, cursor_relative (parse_array_loop fuel arr))
  /\ (forall obj, cursor_relative (parse_object_loop fuel obj)).
Proof.
  induction fuel as [|f (IHv & IHa & IHo)];
    [repeat split; intros; intros pre json pos; reflexivity|].
  split; [|split].
  - cbn [parse_value]. unfold parse_array_with, parse_object_with.
    rel_steps; auto.
  - intros arr. cbn [parse_array_loop]. rel_steps; auto.
  - intros obj. cbn [parse_object_loop]. rel_steps; auto.
Qed.

Lemma rel_JsonParser_parse (fuel : nat) :
  cursor_relative (JsonParser_parse fuel).
Proof.
  intros pre json pos. unfold JsonParser_parse.
  apply rel_bind_at; [apply rel_skip_while|]. intros [] p1.
  apply rel_bind_at; [apply (proj1 (parse_cursor_relative fuel))|].
  intros v p2.
  apply rel_bind_at; [apply rel_skip_while|]. intros [] p3.
  unfold bind, get_pos, size. rewrite length_app, ltb_shift.
  now destruct (p3 <? length json).
Qed.

(** *** More recursion budget changes nothing *)

Lemma bind_more {A B : Type} (m m' : Parser A) (k k' : A -> Parser B)
    json pos :
  (m json pos <> OutOfFuel -> m' json pos = m json pos) ->
  (forall a p, m json pos = Ok a p -> k a json p <> OutOfFuel ->
     k' a json p = k a json p) ->
  bind m k json pos <> OutOfFuel ->
  bind m' k' json pos = bind m k json pos.
Proof.
  unfold bind. intros Hm Hk H.
  destruct (m json pos) as [a p|e|] eqn:E.
  - rewrite Hm by discriminate. now apply Hk.
  - now rewrite Hm by discriminate.
  - contradiction.
Qed.

Ltac more_step first :=
  match goal with
  | H : _ <> OutOfFuel |- _ =>
      eapply bind_more; [first|clear H; intros ? ? _ ?|exact H]
  end.

Ltac same_step := more_step ltac:(intros _; reflexivity).

Lemma parse_more_fuel (f : nat) :
  (forall json pos,
     parse_value f json pos <> OutOfFuel ->
     parse_value (S f) json pos = parse_value f json pos)
  /\ (forall arr json pos,
        parse_array_loop f arr json pos <> OutOfFuel ->
        parse_array_loop (S f) arr json pos = parse_array_loop f arr json pos)
  /\ (forall obj json pos,
        parse_object_loop f obj json pos <> OutOfFuel ->
        parse_object_loop (S f) obj json pos
        = parse_object_loop f obj json pos).
Proof.
  induction f as [|f (IHv & IHa & IHo)];
    [repeat split; intros; now contradiction H|].
  split; [|split].
  - intros json pos H.
    change (parse_value (S (S f)))
      with (skip_whitespace ;;
            c <- current ;;
            if Ascii.eqb c "n" then parse_null
            else if Ascii.eqb c "t" || Ascii.eqb c "f" then parse_bool
            else if Ascii.eqb c DQ then parse_string
            else if Ascii.eqb c "["
                 then parse_array_with (parse_array_loop (S f))
            else if Ascii.eqb c "{"
                 then parse_object_with (parse_object_loop (S f))
            else if Ascii.eqb c "-" || isdigit c then parse_number
            else throw Unexpected_character).
    cbn [parse_value] in *.
    same_step. same_step.
    destruct (Ascii.eqb _ "n"); [reflexivity|].
    destruct (Ascii.eqb _ "t" || Ascii.eqb _ "f"); [reflexivity|].
    destruct (Ascii.eqb _ DQ); [reflexivity|].
    destruct (Ascii.eqb _ "[").
    { unfold parse_array_with in *.
      same_step. destruct (negb _); [reflexivity|].
      same_step. same_step. same_step.
      destruct (Ascii.eqb _ "]"); [reflexivity|]. now apply IHa. }
    destruct (Ascii.eqb _ "{"); [|reflexivity].
    unfold parse_object_with in *.
    same_step. destruct (negb _); [reflexivity|].
    same_step. same_step. same_step.
    destruct (Ascii.eqb _ "}"); [reflexivity|]. now apply IHo.
  - intros arr json pos H.
    change (parse_array_loop (S (S f)) arr)
      with (v <- parse_value (S f) ;;
            let arr := arr ++ [v] in
            skip_whitespace ;;
            c <- peek ;;
            if Ascii.eqb c "]" then advance ;; ret (JArray arr)
            else if negb (Ascii.eqb c ",") then
              throw Expected_comma_or_close_bracket_in_array
            else advance ;; skip_whitespace ;; parse_array_loop (S f) arr).
    cbn [parse_array_loop] in *.
    more_step ltac:(apply IHv). cbv zeta in *.
    same_step. same_step.
    destruct (Ascii.eqb _ "]"); [reflexivity|].
    destruct (negb _); [reflexivity|].
    same_step. same_step. now apply IHa.
  - intros obj json pos H.
    change (parse_object_loop (S (S f)) obj)
      with (skip_whitespace ;;
            c <- peek ;;
            if negb (Ascii.eqb c DQ) then throw Expected_string_key_in_object
            else
              key <- parse_string_text ;;
              skip_whitespace ;;
              c <- peek ;;
              if negb (Ascii.eqb c ":")
              then throw Expected_colon_after_key_in_object
              else
                advance ;;
                skip_whitespace ;;
                v <- parse_value (S f) ;;
                let obj := map_assign JNull obj key v in
                skip_whitespace ;;
                c <- peek ;;
                if Ascii.eqb c "}" then advance ;; ret (JObject obj)
                else if negb (Ascii.eqb c ",") then
                  throw Expected_comma_or_close_brace_in_object
                else advance ;; parse_object_loop (S f) obj).
    cbn [parse_object_loop] in *.
    same_step. same_step.
    destruct (negb _); [reflexivity|].
    same_step. same_step. same_step.
    destruct (negb _); [reflexivity|].
    same_step. same_step.
    more_step ltac:(apply IHv). cbv zeta in *.
    same_step. same_step.
    destruct (Ascii.eqb _ "}"); [reflexivity|].
    destruct (negb _); [reflexivity|].
    same_step. now apply IHo.
Qed.

Lemma parse_value_fuel_le (f f' : nat) json pos :
  f <= f' -> parse_value f json pos <> OutOfFuel ->
  parse_value f' json pos = parse_value f json pos.
Proof.
  intros L H. induction L as [|f' L IH]; [reflexivity|].
  rewrite <- IH. apply (proj1 (parse_more_fuel f')). now rewrite IH.
Qed.

Lemma skip_while_prefix (p : ascii -> bool) (ws json : text) :
  forallb p ws = true ->
  skip_while p (ws ++ json) 0 = skip_while p (ws ++ json) (length ws + 0).
Proof.
  intros Hws. destruct (skip_while_total p json 0) as [q E].
  rewrite (rel_skip_while p ws json 0), E. cbn [shift].
  apply skip_while_inv in E. destruct E as [[E ->] Hs].
  cbn [skipn Nat.add] in *.
  rewrite (skip_while_spec p (ws ++ json) 0
             (ws ++ fst (span p json)) (skipn (length (fst (span p json))) json)).
  - now rewrite length_app.
  - cbn [skipn]. rewrite <- app_assoc. now rewrite <- E.
  - rewrite forallb_app, Hws. apply span_forallb.
  - exact Hs.
Qed.

(** X15: the parser looks at the input from the cursor on only: with any
    text put before the input, [parse_value] started after that text
    does what it does on the input alone, every position moved by the
    length of the text.  In particular white space before an input
    changes nothing but the positions: the result of [parse], value or
    error, is the same, moved by the length of the white space. *)
Theorem leading_white_space_shifts :
  (forall fuel pre json pos,
     parse_value fuel (pre ++ json) (length pre + pos)
     = shift (length pre) (parse_value fuel json pos))
  /\ (forall ws json,
        forallb isspace ws = true ->
        parse (ws ++ json) = shift (length ws) (parse json)).
Proof.
  split; [intros fuel; apply (proj1 (parse_cursor_relative fuel))|].
  intros ws json Hws. unfold parse.
  set (F := fuel_for (ws ++ json)).
  assert (E1 : JsonParser_parse F (ws ++ json) 0
               = JsonParser_parse F (ws ++ json) (length ws + 0)).
  { unfold JsonParser_parse, bind at 1 5.
    unfold skip_whitespace. now rewrite (skip_while_prefix isspace ws json Hws). }
  rewrite E1, (rel_JsonParser_parse F ws json 0). f_equal.
  unfold JsonParser_parse.
  destruct (skip_while_total isspace json 0) as [p1 Ep].
  unfold skip_whitespace at 1 3.
  rewrite !(bind_ok _ _ _ _ _ _ _ Ep eq_refl).
  unfold bind at 1 5.
  rewrite (parse_value_fuel_le (fuel_for json) F json p1); [reflexivity| |].
  - unfold F, fuel_for. rewrite length_app. lia.
  - pose proof (proj1 (parse_fuel_enough (fuel_for json)) json p1) as S.
    intros O. rewrite O in S. apply S. unfold fuel_for. lia.
Qed.

Lemma leading_white_space_shifts_witness :
  parse ([" "; LF] ++ lit "[1,]")
  = shift (length [" "; LF]) (parse (lit "[1,]")).
Proof.
  apply (proj2 leading_white_space_shifts [" "; LF] (lit "[1,]")).
  reflexivity.
Defined.

(** ** What every parsed value is made of *)

Section ParsedValues.
Variable P : Json -> Prop.
Hypothesis P_null : P JNull.
Hypothesis P_bool : forall b, P (JBool b).
Hypothesis P_string : forall s, P (JString s).
Hypothesis P_number :
  forall num d, json_number num -> stod num = Some d -> P (JNumber d).
Hypothesis P_array : forall a, All P a -> P (JArray a).
Hypothesis P_object :
  forall o, keys_sorted o = true -> All (fun '(_, x) => P x) o ->
            P (JObject o).

(** A property of the literals, of every string, of the numbers that the
    conversion of a text of the grammar gives, and of the arrays and
    objects built from values that have it, holds of every value the
    descent returns. *)
Lemma parsed_value_ind (fuel : nat) :
  (forall json pos v p, parse_value fuel json pos = Ok v p -> P v)
  /\ (forall arr json pos v p,
        All P arr ->
        parse_array_loop fuel arr json pos = Ok v p -> P v)
  /\ (forall obj json pos v p,
        keys_sorted obj = true -> All (fun '(_, x) => P x) obj ->
        parse_object_loop fuel obj json pos = Ok v p -> P v).
Proof.
  induction fuel as [|f (IHv & IHa & IHo)];
    [repeat split; intros; discriminate|].
  split; [|split].
  - intros json pos v p H. cbn [parse_value] in H.
    apply bind_inv in H. destruct H as ([] & p1 & _ & H).
    apply bind_inv in H. destruct H as (c & p2 & _ & H).
    destruct (Ascii.eqb c "n").
    { unfold parse_null in H. destruct (text_eqb _ _); [|discriminate H].
      now injection H as <- _. }
    destruct (Ascii.eqb c "t" || Ascii.eqb c "f").
    { unfold parse_bool in H.
      repeat (destruct (text_eqb _ _); [now injection H as <- _|]).
      discriminate H. }
    destruct (Ascii.eqb c DQ).
    { unfold parse_string in H. apply bind_inv in H.
      destruct H as (s & p3 & _ & H). now injection H as <- _. }
    destruct (Ascii.eqb c "[").
    { unfold parse_array_with in H.
      apply bind_inv in H. destruct H as (c1 & p3 & _ & H).
      destruct (negb (Ascii.eqb c1 "[")); [discriminate H|].
      apply bind_inv in H. destruct H as ([] & p4 & _ & H).
      apply bind_inv in H. destruct H as ([] & p5 & _ & H).
      apply bind_inv in H. destruct H as (c2 & p6 & _ & H).
      destruct (Ascii.eqb c2 "]").
      - apply bind_inv in H. destruct H as ([] & p7 & _ & H).
        injection H as <- _. now apply P_array.
      - apply (IHa [] json p6 v p I H). }
    destruct (Ascii.eqb c "{").
    { unfold parse_object_with in H.
      apply bind_inv in H. destruct H as (c1 & p3 & _ & H).
      destruct (negb (Ascii.eqb c1 "{")); [discriminate H|].
      apply bind_inv in H. destruct H as ([] & p4 & _ & H).
      apply bind_inv in H. destruct H as ([] & p5 & _ & H).
      apply bind_inv in H. destruct H as (c2 & p6 & _ & H).
      destruct (Ascii.eqb c2 "}").
      - apply bind_inv in H. destruct H as ([] & p7 & _ & H).
        injection H as <- _. now apply P_object.
      - apply (IHo [] json p6 v p eq_refl I H). }
    destruct (Ascii.eqb c "-" || isdigit c); [|discriminate H].
    apply parse_number_sound in H.
    destruct H as (num & d & _ & Hn & Hd & ->). now apply (P_number num).
  - intros arr json pos v p Harr H. cbn [parse_array_loop] in H.
    apply bind_inv in H. destruct H as (x & p1 & Hx & H). cbv zeta in H.
    apply IHv in Hx.
    apply bind_inv in H. destruct H as ([] & p2 & _ & H).
    apply bind_inv in H. destruct H as (c & p3 & _ & H).
    pose proof (All_snoc _ _ _ Harr Hx) as Harr'.
    destruct (Ascii.eqb c "]").
    + apply bind_inv in H. destruct H as ([] & p4 & _ & H).
      injection H as <- _. now apply P_array.
    + destruct (negb (Ascii.eqb c ",")); [discriminate H|].
      apply bind_inv in H. destruct H as ([] & p4 & _ & H).
      apply bind_inv in H. destruct H as ([] & p5 & _ & H).
      apply (IHa _ json p5 v p Harr' H).
  - intros obj json pos v p Hs Hobj H. cbn [parse_object_loop] in H.
    apply bind_inv in H. destruct H as ([] & p1 & _ & H).
    apply bind_inv in H. destruct H as (c & p2 & _ & H).
    destruct (negb (Ascii.eqb c DQ)); [discriminate H|].
    apply bind_inv in H. destruct H as (key & p3 & _ & H).
    apply bind_inv in H. destruct H as ([] & p4 & _ & H).
    apply bind_inv in H. destruct H as (c' & p5 & _ & H).
    destruct (negb (Ascii.eqb c' ":")); [discriminate H|].
    apply bind_inv in H. destruct H as ([] & p6 & _ & H).
    apply bind_inv in H. destruct H as ([] & p7 & _ & H).
    apply bind_inv in H. destruct H as (x & p8 & Hx & H). cbv zeta in H.
    apply IHv in Hx.
    pose proof (map_assign_sorted JNull obj key x Hs) as Hs'.
    pose proof (map_assign_values P JNull obj key x P_null Hx Hobj)
      as Hobj'.
    apply bind_inv in H. destruct H as ([] & p9 & _ & H).
    apply bind_inv in H. destruct H as (c'' & p10 & _ & H).
    destruct (Ascii.eqb c'' "}").
    + apply bind_inv in H. destruct H as ([] & p11 & _ & H).
      injection H as <- _. now apply P_object.
    + destruct (negb (Ascii.eqb c'' ",")); [discriminate H|].
      apply bind_inv in H. destruct H as ([] & p11 & _ & H).
      apply (IHo _ json p11 v p Hs' Hobj' H).
Qed.

Lemma parse_result_ind json v p : parse json = Ok v p -> P v.
Proof.
  unfold parse, JsonParser_parse. generalize (fuel_for json) as fuel.
  intros fuel H.
  apply bind_inv in H. destruct H as ([] & p1 & _ & H).
  apply bind_inv in H. destruct H as (x & p2 & Hx & H).
  apply bind_inv in H. destruct H as ([] & p3 & _ & H).
  apply bind_inv in H. destruct H as (q & p4 & _ & H).
  apply bind_inv in H. destruct H as (n & p5 & _ & H).
  destruct (q <? n); [discriminate H|].
  assert (E : x = v) by (unfold ret in H; congruence). subst x.
  now apply (proj1 (parsed_value_ind fuel)) in Hx.
Qed.
End ParsedValues.

Lemma strtod_value_finite neg m e d :
  Double.strtod_value neg m e = Some d -> is_finite d = true.
Proof.
  unfold Double.strtod_value.
  destruct (Double.of_decimal neg m e) as [s|s| |s dm de] eqn:E; intros H.
  - destruct (m =? 0)%Z; [|discriminate H]. now injection H as <-.
  - discriminate H.
  - discriminate H.
  - destruct (_ && _); [discriminate H|]. now injection H as <-.
Qed.

Lemma stod_finite (str : text) (d : double) :
  stod str = Some d -> is_finite d = true.
Proof.
  unfold stod.
  destruct (take_sign _) as [neg s1].
  destruct (span isdigit s1) as [ip s2].
  destruct (match s2 with "." :: s' => span isdigit s' | _ => ([], s2) end)
    as [fp s3].
  destruct (ip ++ fp) as [|c ds]; [discriminate|].
  apply strtod_value_finite.
Qed.

(** X16: every number in a value that [parse] returns, at any depth, is
    finite: the conversion rejects the literals out of the range of
    [double], so that no infinity and no NaN comes out of the parser. *)
Theorem parsed_numbers_are_finite (json : text) (v : Json) (p : nat) :
  parse json = Ok v p -> numbers_finite v.
Proof.
  apply (parse_result_ind numbers_finite); cbn [numbers_finite]; auto.
  intros num d _ H. now apply (stod_finite num).
Qed.

Lemma parsed_numbers_are_finite_witness :
  numbers_finite (JArray [JNumber (Double.of_Z 1)]).
Proof.
  apply (parsed_numbers_are_finite (lit "[1]") _ 3). vm_compute. reflexivity.
Defined.

(** ** The characters of the text of a value *)

Lemma forallb_impl {A : Type} (p q : A -> bool) (l : list A) :
  (forall x, p x = true -> q x = true) ->
  forallb p l = true -> forallb q l = true.
Proof.
  intros H. rewrite !forallb_forall. auto.
Qed.

Lemma forallb_firstn {A : Type} (p : A -> bool) (n : nat) (l : list A) :
  forallb p l = true -> forallb p (firstn n l) = true.
Proof.
  rewrite !forallb_forall. intros H x Hx. apply H.
  rewrite <- (firstn_skipn n l). apply in_or_app. now left.
Qed.

Lemma forallb_skipn {A : Type} (p : A -> bool) (n : nat) (l : list A) :
  forallb p l = true -> forallb p (skipn n l) = true.
Proof.
  rewrite !forallb_forall. intros H x Hx. apply H.
  rewrite <- (firstn_skipn n l). apply in_or_app. now right.
Qed.

Lemma forallb_rev {A : Type} (p : A -> bool) (l : list A) :
  forallb p l = true -> forallb p (rev l) = true.
Proof.
  rewrite !forallb_forall. intros H x Hx. apply H. now apply in_rev.
Qed.

Lemma forallb_repeat {A : Type} (p : A -> bool) (x : A) (n : nat) :
  p x = true -> forallb p (repeat x n) = true.
Proof. intros H. induction n; cbn; [reflexivity|now rewrite H]. Qed.

Lemma strip_zeros_rev_skipn (r : text) :
  exists k, strip_zeros_rev r = skipn k r.
Proof.
  induction r as [|x r [k IH]]; [now exists 0|].
  destruct x as [[] [] [] [] [] [] [] []];
    try (now exists 0).
  exists (S k). exact IH.
Qed.

Lemma forallb_strip_zeros (p : ascii -> bool) (s : text) :
  forallb p s = true -> forallb p (strip_zeros s) = true.
Proof.
  intros H. unfold strip_zeros. apply forallb_rev.
  destruct (strip_zeros_rev_skipn (rev s)) as [k ->].
  now apply forallb_skipn, forallb_rev.
Qed.

Lemma isdigit_visible (c : ascii) : isdigit c = true -> visible c = true.
Proof.
  destruct c as [[] [] [] [] [] [] [] []]; vm_compute; intros H;
    try discriminate H; reflexivity.
Qed.

Lemma digits_visible (s : text) :
  forallb isdigit s = true -> forallb visible s = true.
Proof. apply forallb_impl, isdigit_visible. Qed.

Lemma with_fraction_visible (ip fp : text) :
  forallb visible ip = true -> forallb visible fp = true ->
  forallb visible (with_fraction ip fp) = true.
Proof.
  intros Hi Hf. unfold with_fraction. destruct fp as [|c fp]; [exact Hi|].
  rewrite forallb_app, Hi. cbn [forallb andb]. exact Hf.
Qed.

Lemma print_long_long_visible (z : Z) :
  forallb visible (print_long_long z) = true.
Proof.
  unfold print_long_long. destruct (z <? 0)%Z; cbn [forallb];
    rewrite ?digits_visible by apply print_unsigned_isdigit; reflexivity.
Qed.

Lemma print_double_visible (d : double) :
  forallb visible (print_double d) = true.
Proof.
  destruct d as [s|s| |s m e]; cbn [print_double];
    try (destruct s; reflexivity); [reflexivity|].
  destruct (Double.six_digits (Zpos m) e) as [n x].
  pose proof (print_unsigned_isdigit n) as Hd.
  assert (B : forallb visible
                (if ((x <? -4) || (6 <=? x))%Z then
                   with_fraction (firstn 1 (print_unsigned n))
                     (strip_zeros (skipn 1 (print_unsigned n)))
                   ++ "e" :: (if (x <? 0)%Z then "-" else "+")
                   :: print_padded 2 (Z.abs x)
                 else if (x <? 0)%Z then
                   with_fraction (lit "0")
                     (strip_zeros (repeat "0" (Z.to_nat (- x - 1))
                                   ++ print_unsigned n))
                 else
                   with_fraction (firstn (Z.to_nat (x + 1)) (print_unsigned n))
                     (strip_zeros (skipn (Z.to_nat (x + 1))
                                     (print_unsigned n)))) = true).
  { destruct ((x <? -4) || (6 <=? x))%Z.
    - rewrite forallb_app. apply andb_true_iff. split.
      + apply with_fraction_visible.
        * now apply digits_visible, forallb_firstn.
        * now apply digits_visible, forallb_strip_zeros, forallb_skipn.
      + assert (Hp : forallb visible (print_padded 2 (Z.abs x)) = true).
        { unfold print_padded. rewrite forallb_app.
          rewrite forallb_repeat by reflexivity.
          apply digits_visible, print_unsigned_isdigit. }
        cbn [forallb]. rewrite Hp. now destruct (x <? 0)%Z.
    - destruct (x <? 0)%Z.
      + apply with_fraction_visible; [reflexivity|].
        apply digits_visible, forallb_strip_zeros.
        rewrite forallb_app, Hd. now rewrite forallb_repeat.
      + apply with_fraction_visible.
        * now apply digits_visible, forallb_firstn.
        * now apply digits_visible, forallb_strip_zeros, forallb_skipn. }
  destruct s; cbn [forallb]; now rewrite B.
Qed.

Lemma escape_char_visible (c : ascii) :
  forallb visible (escape_char c) = true.
Proof. destruct c as [[] [] [] [] [] [] [] []]; reflexivity. Qed.

Lemma escaped_visible (s : text) :
  forallb visible (flat_map escape_char s) = true.
Proof.
  induction s as [|c s IH]; [reflexivity|].
  cbn [flat_map]. now rewrite forallb_app, escape_char_visible.
Qed.

Lemma visible_line_char (pretty : bool) (s : text) :
  forallb visible s = true -> forallb (line_char pretty) s = true.
Proof.
  apply forallb_impl. intros x H. unfold line_char. now rewrite H.
Qed.

Lemma make_indent_line (pretty : bool) (b : bool) (indent : Z) :
  forallb (line_char pretty) (make_indent b indent) = true.
Proof.
  apply visible_line_char. unfold make_indent. destruct b; [|reflexivity].
  now apply forallb_repeat.
Qed.

(** The characters of the text of a value: no control character but the
    line feeds of the indented layout, when no key has one. *)
Lemma stringify_line_chars (v : Json) :
  keys_visible v -> forall pretty indent,
  forallb (line_char pretty) (stringify pretty indent v) = true.
Proof.
  induction v as [ | x | d | s | a IH | o IH] using Json_induction;
    intros Hk pretty indent; cbn [stringify].
  - now apply visible_line_char.
  - apply visible_line_char. now destruct x.
  - apply visible_line_char. unfold stringify_number.
    destruct (Double.eqb _ _);
      [apply print_long_long_visible|apply print_double_visible].
  - apply visible_line_char. cbn [forallb].
    rewrite forallb_app, escaped_visible. reflexivity.
  - cbn [keys_visible] in Hk.
    assert (E : forallb (line_char pretty)
                  (stringify_elements pretty indent
                     (stringify pretty (indent + 1)) a) = true).
    { clear - IH Hk. induction a as [|x a IHa]; [reflexivity|].
      destruct IH as [Hx IH], Hk as [Kx Ka].
      cbn [stringify_elements]. rewrite !forallb_app.
      rewrite (Hx Kx pretty (indent + 1)%Z), (IHa IH Ka).
      destruct pretty, a; cbn [when_ is_nil negb forallb andb];
        rewrite ?make_indent_line; reflexivity. }
    cbn [forallb]. rewrite !forallb_app, E.
    destruct pretty, a; cbn [when_ is_nil negb forallb andb];
      rewrite ?make_indent_line; reflexivity.
  - cbn [keys_visible] in Hk.
    assert (E : forallb (line_char pretty)
                  (stringify_members pretty indent
                     (stringify pretty (indent + 1)) o) = true).
    { clear - IH Hk. induction o as [|[k x] o IHo]; [reflexivity|].
      destruct IH as [Hx IH], Hk as [[Kk Kx] Ko].
      cbn [stringify_members]. rewrite !forallb_app. cbn [forallb].
      rewrite !forallb_app. cbn [forallb]. rewrite !forallb_app.
      rewrite (Hx Kx pretty (indent + 1)%Z), (IHo IH Ko).
      rewrite (visible_line_char pretty k Kk).
      destruct pretty, o; cbn [when_ is_nil negb forallb andb];
        rewrite ?make_indent_line; reflexivity. }
    cbn [forallb]. rewrite !forallb_app, E.
    destruct pretty, o; cbn [when_ is_nil negb forallb andb];
      rewrite ?make_indent_line; reflexivity.
Qed.

(** X17: when no key of a value has a control character, the compact
    text of the value has none: every control character of a string
    payload is escaped, and the text is one line.  In the indented
    layout the only control characters are the line feeds. *)
Theorem text_has_no_control_character (v : Json) (indent : Z) :
  keys_visible v ->
  forallb visible (stringify false indent v) = true
  /\ forallb (fun c => visible c || Ascii.eqb c LF)
       (stringify true indent v) = true.
Proof.
  intros Hk. split.
  - apply (forallb_impl (line_char false));
      [|exact (stringify_line_chars v Hk false indent)].
    intros c. unfold line_char. cbn [andb]. now rewrite orb_false_r.
  - exact (stringify_line_chars v Hk true indent).
Qed.

Lemma text_has_no_control_character_witness :
  forallb visible (stringify false 0 sample_value) = true
  /\ forallb (fun c => visible c || Ascii.eqb c LF)
       (stringify true 0 sample_value) = true.
Proof.
  apply (text_has_no_control_character sample_value 0).
  cbn [sample_value keys_visible All]. repeat split.
Defined.

(** ** The parser does not look beyond the value *)

Lemma skipn_ext (json ext : text) (pos : nat) :
  pos <= length json -> skipn pos (json ++ ext) = skipn pos json ++ ext.
Proof.
  intros L. rewrite skipn_app.
  replace (pos - length json) with 0 by lia. reflexivity.
Qed.

Lemma view_ext (json ext : text) (pos : nat) (c : ascii) (rest : text) :
  skipn pos json = c :: rest -> skipn pos (json ++ ext) = c :: rest ++ ext.
Proof.
  intros H. pose proof (skipn_cons_inv _ _ _ _ H) as (L & _).
  rewrite skipn_ext by lia. now rewrite H.
Qed.

Lemma hd_real (json : text) (pos : nat) (c : ascii) :
  hd NUL (skipn pos json) = c -> c <> NUL ->
  exists rest, skipn pos json = c :: rest.
Proof. intros H Hc. now apply hd_cons. Qed.

Lemma current_inv json pos c p :
  current json pos = Ok c p ->
  p = pos /\ exists rest, skipn pos json = c :: rest.
Proof.
  unfold current. destruct (length json <=? pos) eqn:E; [discriminate|].
  intros H. injection H as <- <-. split; [reflexivity|].
  apply Nat.leb_gt in E.
  destruct (skipn pos json) as [|c rest] eqn:Es.
  - apply skipn_nil_inv in Es. lia.
  - pose proof (skipn_cons_inv _ _ _ _ Es) as (_ & -> & _). eauto.
Qed.

Lemma skip_while_ext (p : ascii -> bool) json ext pos q :
  skip_while p json pos = Ok tt q -> pos <= length json ->
  stops p (skipn q json ++ ext) = true ->
  skip_while p (json ++ ext) pos = Ok tt q.
Proof.
  intros H L Hs. apply skip_while_inv in H. destruct H as [[E ->] _].
  apply (skip_while_spec p (json ++ ext) pos (fst (span p (skipn pos json)))
           (skipn (pos + length (fst (span p (skipn pos json)))) json ++ ext)).
  - rewrite skipn_ext by exact L. rewrite E at 1. now rewrite <- app_assoc.
  - apply span_forallb.
  - exact Hs.
Qed.

Lemma skip_while_real (p : ascii -> bool) json ext pos q c rest :
  skip_while p json pos = Ok tt q -> skipn q json = c :: rest ->
  skip_while p (json ++ ext) pos = Ok tt q.
Proof.
  intros H Hq. pose proof H as H'.
  apply skip_while_inv in H'. destruct H' as [[E Eq] Hs].
  apply (skip_while_ext p json ext pos q H).
  - pose proof (skipn_cons_inv _ _ _ _ Hq) as (L & _). lia.
  - rewrite Hq in *. exact Hs.
Qed.

Lemma skip_while_bound (p : ascii -> bool) json pos q :
  skip_while p json pos = Ok tt q -> pos <= length json ->
  pos <= q <= length json.
Proof.
  intros H L. pose proof (tidy_skip_while p json pos L) as T.
  now rewrite H in T.
Qed.

Lemma substr_ext (json ext : text) (pos n : nat) :
  pos + n <= length json ->
  substr (json ++ ext) pos n = substr json pos n.
Proof.
  intros L. unfold substr. rewrite skipn_ext by lia.
  rewrite firstn_app.
  replace (n - length (skipn pos json)) with 0
    by (rewrite length_skipn; lia).
  cbn [firstn]. now rewrite app_nil_r.
Qed.

Lemma parse_null_ext json ext pos v p :
  parse_null json pos = Ok v p -> parse_null (json ++ ext) pos = Ok v p.
Proof.
  unfold parse_null. destruct (text_eqb _ _) eqn:E; [|discriminate].
  intros H. rewrite substr_ext, E; [exact H|].
  apply (substr_eq_length json (lit "null") pos 4 E eq_refl). lia.
Qed.

Lemma parse_bool_ext json ext pos v p :
  parse_bool json pos = Ok v p -> parse_bool (json ++ ext) pos = Ok v p.
Proof.
  unfold parse_bool.
  destruct (text_eqb (substr json pos 4) _) eqn:E.
  { intros H. rewrite substr_ext, E; [exact H|].
    apply (substr_eq_length json (lit "true") pos 4 E eq_refl). lia. }
  destruct (text_eqb (substr json pos 5) _) eqn:E'; [|discriminate].
  intros H.
  pose proof (substr_eq_length json (lit "false") pos 5 E' eq_refl
                ltac:(lia)) as L5.
  rewrite (substr_ext json ext pos 4) by lia.
  rewrite (substr_ext json ext pos 5) by lia.
  now rewrite E, E'.
Qed.

(** *** Numbers *)

Lemma inert_facts (c : ascii) :
  inert c = true ->
  isdigit c = false /\ Ascii.eqb c "." = false
  /\ Ascii.eqb c "e" = false /\ Ascii.eqb c "E" = false
  /\ Ascii.eqb c "-" = false /\ Ascii.eqb c "+" = false
  /\ Ascii.eqb c "0" = false.
Proof.
  destruct c as [[] [] [] [] [] [] [] []]; vm_compute; intros H;
    try discriminate H; repeat split.
Qed.

Lemma bind_peek {B : Type} (k : ascii -> Parser B) json pos :
  bind peek k json pos = k (hd NUL (skipn pos json)) json pos.
Proof. unfold bind. now rewrite peek_skipn. Qed.

Lemma hd_ext (json ext : text) (pos : nat) :
  pos <= length json ->
  hd NUL (skipn pos (json ++ ext))
  = match skipn pos json with [] => hd NUL ext | c :: _ => c end.
Proof.
  intros L. rewrite skipn_ext by exact L. now destruct (skipn pos json).
Qed.

Lemma eqb_hd_ext (x : ascii) json ext pos :
  Ascii.eqb NUL x = false -> Ascii.eqb (hd NUL ext) x = false ->
  pos <= length json ->
  Ascii.eqb (hd NUL (skipn pos (json ++ ext))) x
  = Ascii.eqb (hd NUL (skipn pos json)) x.
Proof.
  intros Hx He L. rewrite hd_ext by exact L.
  destruct (skipn pos json); cbn [hd]; congruence.
Qed.

Lemma isdigit_hd_ext json ext pos :
  isdigit (hd NUL ext) = false -> pos <= length json ->
  isdigit (hd NUL (skipn pos (json ++ ext)))
  = isdigit (hd NUL (skipn pos json)).
Proof.
  intros He L. rewrite hd_ext by exact L.
  destruct (skipn pos json); cbn [hd]; [exact He|reflexivity].
Qed.

Lemma advance_on (T : ascii -> bool) json ext pos :
  T (hd NUL (skipn pos json)) = true -> T NUL = false ->
  advance json pos = Ok tt (S pos)
  /\ advance (json ++ ext) pos = Ok tt (S pos)
  /\ S pos <= length json.
Proof.
  intros H Hn.
  destruct (skipn pos json) as [|c rest] eqn:E;
    [cbn [hd] in H; congruence|].
  pose proof (skipn_cons_inv _ _ _ _ E) as (L & _).
  split; [apply (advance_cons _ _ _ _ E)|].
  split; [apply (advance_cons _ _ _ _ (view_ext json ext pos c rest E))|lia].
Qed.

Lemma skip_digits_ext json ext pos q :
  skip_digits json pos = Ok tt q -> pos <= length json ->
  isdigit (hd NUL ext) = false ->
  skip_digits (json ++ ext) pos = Ok tt q /\ q <= length json.
Proof.
  intros H L He. split; [|now apply (skip_while_bound isdigit json pos q)].
  apply (skip_while_ext isdigit json ext pos q H L).
  apply skip_while_inv in H. destruct H as [_ Hs].
  destruct (skipn q json) as [|c rest]; [|exact Hs].
  cbn [app]. rewrite stops_hd by reflexivity. now rewrite He.
Qed.

Section NumberScan.
Variable json : text.
Variable ext : text.
Hypothesis ext_inert : inert (hd NUL ext) = true.

Lemma number_sign_ext pos q :
  number_sign json pos = Ok tt q -> pos <= length json ->
  number_sign (json ++ ext) pos = Ok tt q /\ q <= length json.
Proof.
  destruct (inert_facts _ ext_inert) as (Hd & Hp & He & HE & Hm & Hs & Hz).
  unfold number_sign. rewrite !bind_peek. intros H L.
  rewrite eqb_hd_ext by (reflexivity || assumption).
  destruct (Ascii.eqb (hd NUL (skipn pos json)) "-") eqn:E; cbn [when] in *.
  - destruct (advance_on (fun c => Ascii.eqb c "-") json ext pos E eq_refl)
      as (A & A' & LA).
    rewrite A in H. injection H as <-. now split.
  - unfold ret in *. injection H as <-. now split.
Qed.

Lemma number_integer_ext pos q :
  number_integer json pos = Ok tt q -> pos <= length json ->
  number_integer (json ++ ext) pos = Ok tt q /\ q <= length json.
Proof.
  destruct (inert_facts _ ext_inert) as (Hd & Hp & He & HE & Hm & Hs & Hz).
  unfold number_integer. rewrite !bind_peek. intros H L.
  rewrite eqb_hd_ext by (reflexivity || assumption).
  rewrite isdigit_hd_ext by assumption.
  destruct (Ascii.eqb (hd NUL (skipn pos json)) "0") eqn:E.
  - destruct (advance_on (fun c => Ascii.eqb c "0") json ext pos E eq_refl)
      as (A & A' & LA).
    rewrite A in H. injection H as <-. now split.
  - destruct (isdigit (hd NUL (skipn pos json))); [|discriminate H].
    now apply skip_digits_ext.
Qed.

Lemma digits_run_ext (msg : message) pos q :
  (c <- peek ;; if negb (isdigit c) then throw msg else skip_digits)
    json pos = Ok tt q ->
  pos <= length json ->
  (c <- peek ;; if negb (isdigit c) then throw msg else skip_digits)
    (json ++ ext) pos = Ok tt q
  /\ q <= length json.
Proof.
  destruct (inert_facts _ ext_inert) as (Hd & _).
  rewrite !bind_peek. intros H L.
  rewrite isdigit_hd_ext by assumption.
  destruct (isdigit (hd NUL (skipn pos json))); [|discriminate H].
  now apply skip_digits_ext.
Qed.

Lemma number_fraction_ext pos q :
  number_fraction json pos = Ok tt q -> pos <= length json ->
  number_fraction (json ++ ext) pos = Ok tt q /\ q <= length json.
Proof.
  destruct (inert_facts _ ext_inert) as (Hd & Hp & He & HE & Hm & Hs & Hz).
  unfold number_fraction. rewrite !bind_peek. intros H L.
  rewrite eqb_hd_ext by (reflexivity || assumption).
  destruct (Ascii.eqb (hd NUL (skipn pos json)) ".") eqn:E; cbn [when] in *.
  - destruct (advance_on (fun c => Ascii.eqb c ".") json ext pos E eq_refl)
      as (A & A' & LA).
    rewrite (bind_ok _ _ _ _ _ _ _ A eq_refl) in H.
    rewrite (bind_ok _ _ _ _ _ _ _ A' eq_refl).
    now apply digits_run_ext.
  - unfold ret in *. injection H as <-. now split.
Qed.

Lemma number_exponent_ext pos q :
  number_exponent json pos = Ok tt q -> pos <= length json ->
  number_exponent (json ++ ext) pos = Ok tt q /\ q <= length json.
Proof.
  destruct (inert_facts _ ext_inert) as (Hd & Hp & He & HE & Hm & Hs & Hz).
  unfold number_exponent. rewrite !bind_peek. intros H L.
  rewrite !eqb_hd_ext by (reflexivity || assumption).
  destruct (Ascii.eqb (hd NUL (skipn pos json)) "e"
            || Ascii.eqb (hd NUL (skipn pos json)) "E") eqn:E;
    cbn [when] in *.
  - destruct (advance_on (fun c => Ascii.eqb c "e" || Ascii.eqb c "E")
                json ext pos E eq_refl) as (A & A' & LA).
    rewrite (bind_ok _ _ _ _ _ _ _ A eq_refl) in H.
    rewrite (bind_ok _ _ _ _ _ _ _ A' eq_refl).
    rewrite !bind_peek in *.
    rewrite !eqb_hd_ext by (reflexivity || assumption).
    destruct (Ascii.eqb (hd NUL (skipn (S pos) json)) "+"
              || Ascii.eqb (hd NUL (skipn (S pos) json)) "-") eqn:E';
      cbn [when] in *.
    + destruct (advance_on (fun c => Ascii.eqb c "+" || Ascii.eqb c "-")
                  json ext (S pos) E' eq_refl) as (B & B' & LB).
      rewrite (bind_ok _ _ _ _ _ _ _ B eq_refl) in H.
      rewrite (bind_ok _ _ _ _ _ _ _ B' eq_refl).
      now apply digits_run_ext.
    + unfold bind at 1 in H. unfold bind at 1. cbn [ret] in *.
      now apply digits_run_ext.
  - unfold ret in *. injection H as <-. now split.
Qed.

Lemma parse_number_ext pos v p :
  parse_number json pos = Ok v p -> pos <= length json ->
  parse_number (json ++ ext) pos = Ok v p /\ p <= length json.
Proof.
  unfold parse_number. rewrite !bind_get_pos. intros H L.
  apply bind_inv in H. destruct H as ([] & p1 & H1 & H).
  apply bind_inv in H. destruct H as ([] & p2 & H2 & H).
  apply bind_inv in H. destruct H as ([] & p3 & H3 & H).
  apply bind_inv in H. destruct H as ([] & p4 & H4 & H).
  destruct (number_sign_ext pos p1 H1 L) as [E1 L1].
  destruct (number_integer_ext p1 p2 H2 L1) as [E2 L2].
  destruct (number_fraction_ext p2 p3 H3 L2) as [E3 L3].
  destruct (number_exponent_ext p3 p4 H4 L3) as [E4 L4].
  assert (M : pos <= p4).
  { pose proof (tidy_parse_number json pos L) as T.
    apply number_sign_inv in H1. apply number_integer_inv in H2.
    apply number_fraction_inv in H3. apply number_exponent_inv in H4.
    destruct H1 as (? & _ & _ & ->), H2 as (? & _ & _ & ->),
             H3 as (? & _ & _ & ->), H4 as (? & _ & _ & ->). lia. }
  rewrite (bind_ok _ _ _ _ _ _ _ E1 eq_refl).
  rewrite (bind_ok _ _ _ _ _ _ _ E2 eq_refl).
  rewrite (bind_ok _ _ _ _ _ _ _ E3 eq_refl).
  rewrite (bind_ok _ _ _ _ _ _ _ E4 eq_refl).
  rewrite bind_get_pos, bind_json in *. cbv zeta in *.
  rewrite substr_ext by lia.
  destruct (stod _); [|discriminate H].
  unfold ret in *. injection H as <- <-. now split.
Qed.
End NumberScan.

(** *** Strings *)

Lemma parse_escape_ext (e : ascii) json ext pos ch q :
  parse_escape e json pos = Ok ch q -> pos < length json ->
  parse_escape e (json ++ ext) pos = Ok ch q /\ q < length json.
Proof.
  unfold parse_escape. intros H L.
  repeat match type of H with
         | (if ?b then ret _ else _) _ _ = _ =>
             destruct b;
             [unfold ret in *; injection H as <- <-; now split|]
         end.
  destruct (Ascii.eqb e "u"); [|discriminate H].
  assert (A : advance json pos = Ok tt (S pos))
    by (unfold advance; apply Nat.ltb_lt in L; now rewrite L).
  assert (A' : advance (json ++ ext) pos = Ok tt (S pos)).
  { unfold advance.
    replace (pos <? length (json ++ ext)) with true; [reflexivity|].
    symmetry. apply Nat.ltb_lt. rewrite length_app. lia. }
  rewrite (bind_ok _ _ _ _ _ _ _ A eq_refl) in H.
  rewrite (bind_ok _ _ _ _ _ _ _ A' eq_refl).
  rewrite bind_get_pos, bind_size in *.
  destruct (length json <? S pos + 4) eqn:E; [discriminate H|].
  apply Nat.ltb_ge in E.
  replace (length (json ++ ext) <? S pos + 4) with false
    by (symmetry; apply Nat.ltb_ge; rewrite length_app; lia).
  rewrite bind_json in *. cbv zeta in *.
  rewrite substr_ext by lia.
  destruct (stoi16 _); [|discriminate H].
  unfold bind, set_pos, ret in *. injection H as <- <-. split; [reflexivity|lia].
Qed.

Lemma string_loop_ext json ext :
  forall fuel result pos s p rest fuel',
    parse_string_loop fuel result json pos = Ok s p ->
    skipn p json = DQ :: rest -> fuel <= fuel' ->
    parse_string_loop fuel' result (json ++ ext) pos = Ok s p.
Proof.
  induction fuel as [|f IH]; intros result pos s p rest fuel' H Hq Hf.
  - cbn in H. injection H as <- <-.
    apply (string_loop_quote _ _ _ _ _ (view_ext json ext pos DQ rest Hq)).
  - destruct fuel' as [|f']; [lia|].
    cbn [parse_string_loop] in *.
    rewrite bind_get_pos, bind_size, bind_peek in *.
    destruct (skipn pos json) as [|c rest0] eqn:Es.
    { apply skipn_nil_inv in Es. apply Nat.ltb_ge in Es.
      cbn [hd] in H. rewrite Es in H. cbn [andb] in H.
      injection H as <- <-.
      apply skipn_cons_inv in Hq. apply Nat.ltb_ge in Es. lia. }
    pose proof (view_ext json ext pos c rest0 Es) as Es'.
    pose proof (skipn_cons_inv _ _ _ _ Es) as (L & _ & Es1).
    rewrite Es'. cbn [hd] in *.
    replace (pos <? length (json ++ ext)) with true
      by (symmetry; apply Nat.ltb_lt; rewrite length_app; lia).
    replace (pos <? length json) with true in H
      by (symmetry; now apply Nat.ltb_lt).
    cbn [andb] in *.
    destruct (Ascii.eqb c DQ); cbn [negb] in *.
    { exact H. }
    destruct (Ascii.eqb c BSLASH);
      rewrite (bind_ok _ _ _ _ _ _ _ (advance_cons _ _ _ _ Es) eq_refl) in H;
      rewrite (bind_ok _ _ _ _ _ _ _ (advance_cons _ _ _ _ Es') eq_refl).
    + rewrite bind_get_pos in *.
      destruct (length json <=? S pos) eqn:E1; [discriminate H|].
      apply Nat.leb_gt in E1.
      replace (length (json ++ ext) <=? S pos) with false
        by (symmetry; apply Nat.leb_gt; rewrite length_app; lia).
      rewrite bind_peek in *. rewrite hd_ext by lia.
      destruct (skipn (S pos) json) as [|e rest1] eqn:Ee;
        [apply skipn_nil_inv in Ee; lia|].
      cbn [hd] in *.
      apply bind_inv in H. destruct H as (ch & q & He & H).
      destruct (parse_escape_ext e json ext (S pos) ch q He E1) as [He' Lq].
      rewrite (bind_ok _ _ _ _ _ _ _ He' eq_refl).
      assert (A : advance json q = Ok tt (S q))
        by (unfold advance; apply Nat.ltb_lt in Lq; now rewrite Lq).
      assert (A' : advance (json ++ ext) q = Ok tt (S q)).
      { unfold advance.
        replace (q <? length (json ++ ext)) with true; [reflexivity|].
        symmetry. apply Nat.ltb_lt. rewrite length_app. lia. }
      rewrite (bind_ok _ _ _ _ _ _ _ A eq_refl) in H.
      rewrite (bind_ok _ _ _ _ _ _ _ A' eq_refl).
      apply (IH _ _ _ _ rest f' H Hq). lia.
    + apply (IH _ _ _ _ rest f' H Hq). lia.
Qed.

Lemma parse_string_text_ext json ext pos s p :
  parse_string_text json pos = Ok s p ->
  parse_string_text (json ++ ext) pos = Ok s p /\ p <= length json.
Proof.
  unfold parse_string_text. intros H.
  apply bind_inv in H. destruct H as (c & p0 & Hc & H).
  apply current_inv in Hc. destruct Hc as (-> & rest & Es).
  pose proof (view_ext json ext pos c rest Es) as Es'.
  rewrite (bind_ok _ _ _ _ _ _ _ (current_cons _ _ _ _ Es') eq_refl).
  destruct (negb (Ascii.eqb c DQ)); [discriminate H|].
  rewrite (bind_ok _ _ _ _ _ _ _ (advance_cons _ _ _ _ Es) eq_refl) in H.
  rewrite (bind_ok _ _ _ _ _ _ _ (advance_cons _ _ _ _ Es') eq_refl).
  rewrite bind_get_pos, bind_size in *.
  apply bind_inv in H. destruct H as (r & p2 & Hl & H).
  rewrite bind_peek in H.
  destruct (Ascii.eqb (hd NUL (skipn p2 json)) DQ) eqn:Eq;
    [|discriminate H].
  cbn [negb] in H. apply Ascii.eqb_eq in Eq.
  destruct (hd_real json p2 DQ Eq ltac:(discriminate)) as [rest2 E2].
  pose proof (view_ext json ext p2 DQ rest2 E2) as E2'.
  pose proof (skipn_cons_inv _ _ _ _ E2) as (L2 & _).
  rewrite (bind_ok _ _ _ _ _ _ _ (advance_cons _ _ _ _ E2) eq_refl) in H.
  unfold ret in H. injection H as <- <-.
  split; [|lia].
  eapply bind_ok.
  { apply (string_loop_ext json ext _ _ _ _ _ rest2 _ Hl E2).
    rewrite length_app. lia. }
  eapply bind_ok; [apply (peek_cons _ _ _ _ E2')|].
  change (negb (Ascii.eqb DQ DQ)) with false. cbv iota.
  eapply bind_ok; [apply (advance_cons _ _ _ _ E2')|]. reflexivity.
Qed.

(** *** Values *)

Lemma eqb_real json q (x : ascii) :
  Ascii.eqb (hd NUL (skipn q json)) x = true -> x <> NUL ->
  exists rest, skipn q json = x :: rest.
Proof.
  intros E Hx. apply Ascii.eqb_eq in E. now apply hd_real.
Qed.

Lemma skip_again json pos q :
  skip_whitespace json pos = Ok tt q -> skip_whitespace json q = Ok tt q.
Proof.
  intros H. apply skip_while_inv in H. destruct H as [_ Hs].
  now apply (skip_while_stops isspace json q (skipn q json)).
Qed.

(** A value begins on a character. *)
Lemma value_on_char fuel json pos q v p :
  skip_whitespace json pos = Ok tt q ->
  parse_value fuel json q = Ok v p ->
  exists c rest, skipn q json = c :: rest.
Proof.
  intros Hs H. destruct fuel as [|f]; [discriminate H|].
  cbn [parse_value] in H.
  rewrite (bind_ok _ _ _ _ _ _ _ (skip_again _ _ _ Hs) eq_refl) in H.
  apply bind_inv in H. destruct H as (c & p1 & Hc & _).
  apply current_inv in Hc. destruct Hc as (_ & rest & E). eauto.
Qed.

Lemma array_loop_on_char fuel arr json pos q v p :
  skip_whitespace json pos = Ok tt q ->
  parse_array_loop fuel arr json q = Ok v p ->
  exists c rest, skipn q json = c :: rest.
Proof.
  intros Hs H. destruct fuel as [|f]; [discriminate H|].
  cbn [parse_array_loop] in H.
  apply bind_inv in H. destruct H as (x & p1 & Hx & _).
  apply (value_on_char f json pos q x p1 Hs Hx).
Qed.

Lemma object_loop_on_char fuel obj json pos q v p :
  skip_whitespace json pos = Ok tt q ->
  parse_object_loop fuel obj json q = Ok v p ->
  exists c rest, skipn q json = c :: rest.
Proof.
  intros Hs H. destruct fuel as [|f]; [discriminate H|].
  cbn [parse_object_loop] in H.
  rewrite (bind_ok _ _ _ _ _ _ _ (skip_again _ _ _ Hs) eq_refl) in H.
  rewrite bind_peek in H.
  destruct (Ascii.eqb (hd NUL (skipn q json)) DQ) eqn:E; [|discriminate H].
  destruct (eqb_real json q DQ E ltac:(discriminate)) as [rest Er]. eauto.
Qed.

Section Beyond.
Variable json : text.
Variable ext : text.
Hypothesis ext_inert : inert (hd NUL ext) = true.

Lemma skip_to_char pos q c rest :
  skip_whitespace json pos = Ok tt q -> skipn q json = c :: rest ->
  skip_whitespace (json ++ ext) pos = Ok tt q
  /\ skipn q (json ++ ext) = c :: rest ++ ext.
Proof.
  intros Hs E. split; [|now apply view_ext].
  apply (skip_while_real isspace json ext pos q c rest Hs E).
Qed.

(** After a value, the closing character or the comma. *)
Lemma close_or_comma (close : ascii) (done next : Parser Json) (msg : message)
    pos q v p :
  close <> NUL ->
  skip_whitespace json pos = Ok tt q ->
  (c <- peek ;;
   if Ascii.eqb c close then advance ;; done
   else if negb (Ascii.eqb c ",") then throw msg
   else advance ;; next) json q = Ok v p ->
  exists c rest,
    skipn q json = c :: rest
    /\ skip_whitespace (json ++ ext) pos = Ok tt q
    /\ skipn q (json ++ ext) = c :: rest ++ ext
    /\ ((Ascii.eqb c close = true /\ done json (S q) = Ok v p)
        \/ (Ascii.eqb c close = false /\ c = ","
            /\ next json (S q) = Ok v p)).
Proof.
  intros Hc Hs H. rewrite bind_peek in H.
  destruct (Ascii.eqb (hd NUL (skipn q json)) close) eqn:E1.
  - destruct (eqb_real json q close E1 Hc) as [rest Er].
    destruct (skip_to_char pos q close rest Hs Er) as [Hs' Er'].
    rewrite (bind_ok _ _ _ _ _ _ _ (advance_cons _ _ _ _ Er) eq_refl) in H.
    exists close, rest. repeat split; auto. left.
    split; [apply Ascii.eqb_refl|exact H].
  - destruct (Ascii.eqb (hd NUL (skipn q json)) ",") eqn:E2;
      [|discriminate H].
    cbn [negb] in H.
    destruct (eqb_real json q "," E2 ltac:(discriminate)) as [rest Er].
    destruct (skip_to_char pos q "," rest Hs Er) as [Hs' Er'].
    rewrite (bind_ok _ _ _ _ _ _ _ (advance_cons _ _ _ _ Er) eq_refl) in H.
    exists ",", rest. repeat split; auto. right.
    rewrite Er in E1. cbn [hd] in E1. auto.
Qed.

Lemma close_or_comma_ext (close : ascii) (done' next' : Parser Json)
    (msg : message) pos q c rest v p :
  skip_whitespace (json ++ ext) pos = Ok tt q ->
  skipn q (json ++ ext) = c :: rest ->
  (Ascii.eqb c close = true /\ done' (json ++ ext) (S q) = Ok v p)
  \/ (Ascii.eqb c close = false /\ c = ","
      /\ next' (json ++ ext) (S q) = Ok v p) ->
  (skip_whitespace ;;
   c <- peek ;;
   if Ascii.eqb c close then advance ;; done'
   else if negb (Ascii.eqb c ",") then throw msg
   else advance ;; next') (json ++ ext) pos = Ok v p.
Proof.
  intros Hs E H.
  eapply bind_ok; [exact Hs|].
  eapply bind_ok; [apply (peek_cons _ _ _ _ E)|].
  destruct H as [[E1 H]|(E1 & -> & H)]; rewrite E1.
  - eapply bind_ok; [apply (advance_cons _ _ _ _ E)|]. exact H.
  - change (negb (Ascii.eqb "," ",")) with false. cbv iota.
    eapply bind_ok; [apply (advance_cons _ _ _ _ E)|]. exact H.
Qed.

Lemma parse_value_beyond (fuel : nat) :
  (forall pos v p,
     parse_value fuel json pos = Ok v p ->
     parse_value fuel (json ++ ext) pos = Ok v p)
  /\ (forall arr pos v p,
        parse_array_loop fuel arr json pos = Ok v p ->
        parse_array_loop fuel arr (json ++ ext) pos = Ok v p)
  /\ (forall obj pos v p,
        parse_object_loop fuel obj json pos = Ok v p ->
        parse_object_loop fuel obj (json ++ ext) pos = Ok v p).
Proof.
  induction fuel as [|f (IHv & IHa & IHo)];
    [repeat split; intros; discriminate|].
  split; [|split].
  - intros pos v p H. cbn [parse_value] in *.
    apply bind_inv in H. destruct H as ([] & p1 & Hs & H).
    apply bind_inv in H. destruct H as (c & p1' & Hc & H).
    apply current_inv in Hc. destruct Hc as (-> & rest & E).
    destruct (skip_to_char pos p1 c rest Hs E) as [Hs' E'].
    pose proof (skipn_cons_inv _ _ _ _ E) as (L & _).
    eapply bind_ok; [exact Hs'|].
    eapply bind_ok; [apply (current_cons _ _ _ _ E')|].
    destruct (Ascii.eqb c "n"); [now apply parse_null_ext|].
    destruct (Ascii.eqb c "t" || Ascii.eqb c "f");
      [now apply parse_bool_ext|].
    destruct (Ascii.eqb c DQ).
    { unfold parse_string in *.
      apply bind_inv in H. destruct H as (s & p2 & Hk & H).
      eapply bind_ok; [apply (parse_string_text_ext _ _ _ _ _ Hk)|].
      exact H. }
    destruct (Ascii.eqb c "[") eqn:Ea.
    { unfold parse_array_with in *.
      rewrite (bind_ok _ _ _ _ _ _ _ (current_cons _ _ _ _ E) eq_refl) in H.
      rewrite (bind_ok _ _ _ _ _ _ _ (current_cons _ _ _ _ E') eq_refl).
      rewrite Ea in *. cbn [negb] in *.
      rewrite (bind_ok _ _ _ _ _ _ _ (advance_cons _ _ _ _ E) eq_refl) in H.
      rewrite (bind_ok _ _ _ _ _ _ _ (advance_cons _ _ _ _ E') eq_refl).
      apply bind_inv in H. destruct H as ([] & p2 & Hs2 & H).
      rewrite bind_peek in H.
      destruct (Ascii.eqb (hd NUL (skipn p2 json)) "]") eqn:E1.
      - destruct (eqb_real json p2 "]" E1 ltac:(discriminate)) as [r2 Er].
        destruct (skip_to_char _ p2 _ r2 Hs2 Er) as [Hs2' Er'].
        eapply bind_ok; [exact Hs2'|].
        eapply bind_ok; [apply (peek_cons _ _ _ _ Er')|].
        change (Ascii.eqb "]" "]") with true. cbv iota.
        rewrite (bind_ok _ _ _ _ _ _ _ (advance_cons _ _ _ _ Er) eq_refl) in H.
        eapply bind_ok; [apply (advance_cons _ _ _ _ Er')|]. exact H.
      - destruct (array_loop_on_char _ _ _ _ _ _ _ Hs2 H) as (c2 & r2 & Er).
        destruct (skip_to_char _ p2 _ r2 Hs2 Er) as [Hs2' Er'].
        eapply bind_ok; [exact Hs2'|].
        eapply bind_ok; [apply (peek_cons _ _ _ _ Er')|].
        rewrite Er in E1. cbn [hd] in E1. rewrite E1.
        now apply IHa. }
    destruct (Ascii.eqb c "{") eqn:Eo.
    { unfold parse_object_with in *.
      rewrite (bind_ok _ _ _ _ _ _ _ (current_cons _ _ _ _ E) eq_refl) in H.
      rewrite (bind_ok _ _ _ _ _ _ _ (current_cons _ _ _ _ E') eq_refl).
      rewrite Eo in *. cbn [negb] in *.
      rewrite (bind_ok _ _ _ _ _ _ _ (advance_cons _ _ _ _ E) eq_refl) in H.
      rewrite (bind_ok _ _ _ _ _ _ _ (advance_cons _ _ _ _ E') eq_refl).
      apply bind_inv in H. destruct H as ([] & p2 & Hs2 & H).
      rewrite bind_peek in H.
      destruct (Ascii.eqb (hd NUL (skipn p2 json)) "}") eqn:E1.
      - destruct (eqb_real json p2 "}" E1 ltac:(discriminate)) as [r2 Er].
        destruct (skip_to_char _ p2 _ r2 Hs2 Er) as [Hs2' Er'].
        eapply bind_ok; [exact Hs2'|].
        eapply bind_ok; [apply (peek_cons _ _ _ _ Er')|].
        change (Ascii.eqb "}" "}") with true. cbv iota.
        rewrite (bind_ok _ _ _ _ _ _ _ (advance_cons _ _ _ _ Er) eq_refl) in H.
        eapply bind_ok; [apply (advance_cons _ _ _ _ Er')|]. exact H.
      - destruct (object_loop_on_char _ _ _ _ _ _ _ Hs2 H) as (c2 & r2 & Er).
        destruct (skip_to_char _ p2 _ r2 Hs2 Er) as [Hs2' Er'].
        eapply bind_ok; [exact Hs2'|].
        eapply bind_ok; [apply (peek_cons _ _ _ _ Er')|].
        rewrite Er in E1. cbn [hd] in E1. rewrite E1.
        now apply IHo. }
    destruct (Ascii.eqb c "-" || isdigit c); [|discriminate H].
    apply (parse_number_ext json ext ext_inert p1 v p H). lia.
  - intros arr pos v p H. cbn [parse_array_loop] in *.
    apply bind_inv in H. destruct H as (x & p1 & Hx & H). cbv zeta in *.
    eapply bind_ok; [apply (IHv _ _ _ Hx)|].
    apply bind_inv in H. destruct H as ([] & p2 & Hs & H).
    destruct (close_or_comma "]" _ _ _ p1 p2 v p ltac:(discriminate) Hs H)
      as (c & rest & Er & Hs' & Er' & Hcase).
    apply (close_or_comma_ext "]" _ _ _ p1 p2 c (rest ++ ext) v p Hs' Er').
    destruct Hcase as [[E1 Hd]|(E1 & -> & Hn)]; [left; now split|right].
    split; [exact E1|]. split; [reflexivity|].
    apply bind_inv in Hn. destruct Hn as ([] & p4 & Hs4 & Hn).
    destruct (array_loop_on_char _ _ _ _ _ _ _ Hs4 Hn) as (c4 & r4 & E4).
    destruct (skip_to_char _ p4 _ r4 Hs4 E4) as [Hs4' E4'].
    eapply bind_ok; [exact Hs4'|]. now apply IHa.
  - intros obj pos v p H. cbn [parse_object_loop] in *.
    apply bind_inv in H. destruct H as ([] & p1 & Hs1 & H).
    rewrite bind_peek in H.
    destruct (Ascii.eqb (hd NUL (skipn p1 json)) DQ) eqn:Eq;
      [|discriminate H].
    cbn [negb] in H.
    destruct (eqb_real json p1 DQ Eq ltac:(discriminate)) as [r1 E1].
    destruct (skip_to_char _ p1 _ r1 Hs1 E1) as [Hs1' E1'].
    eapply bind_ok; [exact Hs1'|].
    eapply bind_ok; [apply (peek_cons _ _ _ _ E1')|].
    change (negb (Ascii.eqb DQ DQ)) with false. cbv iota.
    apply bind_inv in H. destruct H as (key & p2 & Hk & H).
    eapply bind_ok; [apply (parse_string_text_ext _ _ _ _ _ Hk)|].
    apply bind_inv in H. destruct H as ([] & p3 & Hs3 & H).
    rewrite bind_peek in H.
    destruct (Ascii.eqb (hd NUL (skipn p3 json)) ":") eqn:Ec;
      [|discriminate H].
    cbn [negb] in H.
    destruct (eqb_real json p3 ":" Ec ltac:(discriminate)) as [r3 E3].
    destruct (skip_to_char _ p3 _ r3 Hs3 E3) as [Hs3' E3'].
    eapply bind_ok; [exact Hs3'|].
    eapply bind_ok; [apply (peek_cons _ _ _ _ E3')|].
    change (negb (Ascii.eqb ":" ":")) with false. cbv iota.
    rewrite (bind_ok _ _ _ _ _ _ _ (advance_cons _ _ _ _ E3) eq_refl) in H.
    eapply bind_ok; [apply (advance_cons _ _ _ _ E3')|].
    apply bind_inv in H. destruct H as ([] & p5 & Hs5 & H).
    apply bind_inv in H. destruct H as (x & p6 & Hx & H). cbv zeta in *.
    destruct (value_on_char _ _ _ _ _ _ Hs5 Hx) as (c5 & r5 & E5).
    destruct (skip_to_char _ p5 _ r5 Hs5 E5) as [Hs5' E5'].
    eapply bind_ok; [exact Hs5'|].
    eapply bind_ok; [apply (IHv _ _ _ Hx)|].
    apply bind_inv in H. destruct H as ([] & p7 & Hs7 & H).
    destruct (close_or_comma "}" _ _ _ p6 p7 v p ltac:(discriminate) Hs7 H)
      as (c & rest & Er & Hs' & Er' & Hcase).
    apply (close_or_comma_ext "}" _ _ _ p6 p7 c (rest ++ ext) v p Hs' Er').
    destruct Hcase as [[E1n Hd]|(E1n & -> & Hn)]; [left; now split|right].
    split; [exact E1n|]. split; [reflexivity|]. now apply IHo.
Qed.
End Beyond.

Lemma isspace_inert (c : ascii) : isspace c = true -> inert c = true.
Proof.
  destruct c as [[] [] [] [] [] [] [] []]; vm_compute; intros H;
    try discriminate H; reflexivity.
Qed.

(** X18: a value that is read does not depend on what follows it in the
    input, as long as what follows does not begin with a character that
    can continue a number: the parser does not look beyond the value.  In
    particular white space after an input that parses changes nothing but
    the final position. *)
Theorem nothing_beyond_the_value :
  (forall fuel json ext pos v p,
     parse_value fuel json pos = Ok v p -> inert (hd NUL ext) = true ->
     parse_value fuel (json ++ ext) pos = Ok v p)
  /\ (forall json ws v p,
        parse json = Ok v p -> forallb isspace ws = true ->
        parse (json ++ ws) = Ok v (p + length ws)).
Proof.
  assert (P1 : forall fuel json ext pos v p,
            parse_value fuel json pos = Ok v p -> inert (hd NUL ext) = true ->
            parse_value fuel (json ++ ext) pos = Ok v p).
  { intros fuel json ext pos v p H Hi.
    now apply (proj1 (parse_value_beyond json ext Hi fuel)). }
  split; [exact P1|].
  intros json ws v p H Hws.
  destruct ws as [|w ws'];
    [rewrite app_nil_r; cbn [length]; now rewrite Nat.add_0_r|].
  set (ws := w :: ws') in *.
  assert (Hi : inert (hd NUL ws) = true).
  { cbn [ws hd forallb] in *. apply andb_true_iff in Hws.
    now apply isspace_inert. }
  unfold parse, JsonParser_parse in *.
  apply bind_inv in H. destruct H as ([] & p1 & Hs1 & H).
  apply bind_inv in H. destruct H as (x & p2 & Hx & H).
  apply bind_inv in H. destruct H as ([] & p3 & Hs3 & H).
  rewrite bind_get_pos, bind_size in H.
  destruct (p3 <? length json) eqn:E3; [discriminate H|].
  apply Nat.ltb_ge in E3. unfold ret in H. injection H as -> <-.
  pose proof (skip_while_bound isspace json 0 p1 Hs1 ltac:(lia)) as B1.
  assert (B2 : p1 <= p2 <= length json).
  { pose proof (proj1 (parse_tidy (fuel_for json)) json p1 ltac:(lia)) as T.
    now rewrite Hx in T. }
  pose proof (skip_while_bound isspace json p2 p3 Hs3 ltac:(lia)) as B3.
  destruct (value_on_char _ _ _ _ _ _ Hs1 Hx) as (c1 & r1 & E1).
  eapply bind_ok;
    [apply (skip_while_real isspace json ws 0 p1 c1 r1 Hs1 E1)|].
  eapply bind_ok.
  { rewrite (parse_value_fuel_le (fuel_for json) (fuel_for (json ++ ws))).
    - apply (P1 _ _ _ _ _ _ Hx Hi).
    - unfold fuel_for. rewrite length_app. lia.
    - rewrite (P1 _ _ _ _ _ _ Hx Hi). discriminate. }
  apply skip_while_inv in Hs3. destruct Hs3 as [[Ec Ep] _].
  assert (En : skipn p3 json = []) by (apply skipn_all2; lia).
  rewrite En, app_nil_r in Ec.
  eapply bind_ok.
  { apply (skip_while_spec isspace (json ++ ws) p2
             (fst (span isspace (skipn p2 json)) ++ ws) []).
    - rewrite skipn_ext by lia. rewrite Ec at 1. now rewrite app_nil_r.
    - rewrite forallb_app, Hws. now rewrite span_forallb.
    - reflexivity. }
  rewrite bind_get_pos, bind_size, !length_app.
  replace (p2 + (length (fst (span isspace (skipn p2 json))) + length ws)
           <? length json + length ws) with false
    by (symmetry; apply Nat.ltb_ge; lia).
  unfold ret. f_equal. lia.
Qed.

Lemma nothing_beyond_the_value_witness :
  parse_value 3 (lit "[1]" ++ lit "]") 0 = Ok (JArray [Json_of_int 1]) 3
  /\ parse (lit "[1]" ++ [" "; LF])
     = Ok (JArray [Json_of_int 1]) (3 + length [" "; LF]).
Proof.
  split.
  - apply (proj1 nothing_beyond_the_value 3 (lit "[1]") (lit "]") 0);
      reflexivity.
  - apply (proj2 nothing_beyond_the_value (lit "[1]") [" "; LF]);
      [vm_compute|]; reflexivity.
Defined.

(** ** Escapes *)

Lemma string_loop_plain_then (s : text) : forall fuel result json pos rest,
  skipn pos json = s ++ rest -> plain_key s = true ->
  parse_string_loop (length s + fuel) result json pos
  = parse_string_loop fuel (result ++ s) json (pos + length s).
Proof.
  induction s as [|c s IH]; intros fuel result json pos rest H Hp.
  - cbn [length Nat.add]. now rewrite app_nil_r, Nat.add_0_r.
  - cbn [plain_key forallb] in Hp. apply andb_true_iff in Hp.
    destruct Hp as [Hc Hp]. apply andb_true_iff in Hc.
    destruct Hc as [Hq Hb]. apply negb_true_iff in Hq, Hb.
    cbn [app length Nat.add] in *.
    rewrite (string_loop_plain _ _ _ _ _ _ H Hq Hb).
    pose proof (skipn_cons_inv _ _ _ _ H) as (_ & _ & H1).
    rewrite (IH fuel _ json _ rest H1 Hp).
    rewrite <- app_assoc. cbn [app]. f_equal. lia.
Qed.

(** [parse] on a string whose text begins with [s] and a backslash: the
    escape is what decides. *)
Lemma parse_at_escape (s : text) (e : ascii) (rest : text) (err : JsonParseError) :
  plain_key s = true ->
  parse_escape e (DQ :: s ++ BSLASH :: e :: rest) (length s + 2) = Throw err ->
  parse (DQ :: s ++ BSLASH :: e :: rest) = Throw err.
Proof.
  intros Hp He.
  rewrite (parse_string_input _ (s ++ BSLASH :: e :: rest) eq_refl).
  set (json := DQ :: s ++ BSLASH :: e :: rest) in *.
  assert (H0 : skipn 0 json = DQ :: s ++ BSLASH :: e :: rest) by reflexivity.
  assert (H1 : skipn 1 json = s ++ BSLASH :: e :: rest) by reflexivity.
  pose proof (skipn_app_inv _ _ _ _ H1) as H2.
  apply bind_throw. unfold parse_string. apply bind_throw.
  unfold parse_string_text.
  eapply bind_ok; [apply (current_cons _ _ _ _ H0)|].
  change (negb (Ascii.eqb DQ DQ)) with false. cbv iota.
  eapply bind_ok; [apply (advance_cons _ _ _ _ H0)|].
  eapply bind_ok; [reflexivity|].
  eapply bind_ok; [reflexivity|].
  apply bind_throw.
  replace (length json - 1) with (length s + S (S (length rest)))
    by (unfold json; cbn [length]; rewrite length_app; cbn [length]; lia).
  rewrite (string_loop_plain_then s _ [] json 1 _ H1 Hp).
  rewrite (string_loop_backslash _ _ _ _ _ _ H2).
  apply bind_throw.
  replace (S (1 + length s)) with (length s + 2) by lia. exact He.
Qed.

(** X19: after a backslash in a string, each of the eight letters of the
    named escapes makes the string loop append the character it stands
    for and go on after the two characters; a character that is none of
    them nor the u of a code point is rejected with the
    invalid-escape-sequence error at its position; and a u followed by
    fewer than four characters is rejected with the invalid-unicode-escape
    error at the position after the u. *)
Theorem escape_letters :
  (forall e ch, In (e, ch) named_escapes ->
     forall fuel result json pos rest,
       skipn pos json = BSLASH :: e :: rest ->
       parse_string_loop (S fuel) result json pos
       = parse_string_loop fuel (result ++ [ch]) json (pos + 2))
  /\ (forall s e rest,
        plain_key s = true -> escape_letter e = false ->
        parse (DQ :: s ++ BSLASH :: e :: rest)
        = Throw (ParseError Invalid_escape_sequence (length s + 2)))
  /\ (forall s hex,
        plain_key s = true -> length hex < 4 ->
        parse (DQ :: s ++ BSLASH :: "u" :: hex)
        = Throw (ParseError Invalid_unicode_escape (length s + 3))).
Proof.
  split; [|split].
  - intros e ch HIn fuel result json pos rest H.
    apply (string_loop_simple fuel result json pos e ch rest H).
    cbn in HIn.
    repeat (destruct HIn as [E|HIn];
            [injection E as <- <-; reflexivity|]).
    contradiction.
  - intros s e rest Hp He. apply (parse_at_escape s e rest _ Hp).
    clear - He.
    destruct e as [[] [] [] [] [] [] [] []];
      try discriminate He; reflexivity.
  - intros s hex Hp Hh. apply (parse_at_escape s "u" hex _ Hp).
    set (json := DQ :: s ++ BSLASH :: "u" :: hex).
    assert (H3 : skipn (length s + 2) json = "u" :: hex).
    { apply (skipn_after json 0 _ (DQ :: s ++ [BSLASH])).
      - unfold json. cbn [app]. f_equal. now rewrite <- app_assoc.
      - cbn [length]. rewrite length_app. cbn [length]. lia. }
    assert (L : length json = length s + 3 + length hex).
    { unfold json. cbn [length]. rewrite length_app. cbn [length]. lia. }
    change (parse_escape "u")
      with (advance ;;
            pos <- get_pos ;;
            n <- size ;;
            if n <? pos + 4 then @throw ascii Invalid_unicode_escape
            else
              json <- json_ ;;
              match stoi16 (substr json pos 4) with
              | Some code_point =>
                  set_pos (pos + 3) ;;
                  ret (if (code_point <? 128)%Z
                       then char_of_int code_point else "?")
              | None => throw Invalid_unicode_escape
              end).
    eapply bind_ok; [apply (advance_cons _ _ _ _ H3)|].
    unfold bind, get_pos, size. rewrite L.
    replace (length s + 3 + length hex <? S (length s + 2) + 4) with true
      by (symmetry; apply Nat.ltb_lt; lia).
    unfold throw. do 2 f_equal. lia.
Qed.

Lemma escape_letters_witness :
  parse_string_loop 2 [] (DQ :: BSLASH :: lit "n" ++ [DQ]) 1
  = parse_string_loop 1 ([] ++ [LF]) (DQ :: BSLASH :: lit "n" ++ [DQ]) (1 + 2)
  /\ parse (DQ :: lit "a" ++ BSLASH :: "x" :: lit "41")
     = Throw (ParseError Invalid_escape_sequence (length (lit "a") + 2))
  /\ parse (DQ :: lit "a" ++ BSLASH :: "u" :: lit "41")
     = Throw (ParseError Invalid_unicode_escape (length (lit "a") + 3)).
Proof.
  split; [|split].
  - apply (proj1 escape_letters "n" LF ltac:(cbn; tauto) 1 []
             (DQ :: BSLASH :: lit "n" ++ [DQ]) 1 [DQ]).
    reflexivity.
  - apply (proj1 (proj2 escape_letters) (lit "a") "x" (lit "41"));
      reflexivity.
  - apply (proj2 (proj2 escape_letters) (lit "a") (lit "41"));
      [reflexivity|cbn; lia].
Defined.

(** ** Integers in the text *)

Lemma stringify_small_integer (z : Z) :
  (Z.abs z < 2 ^ 53)%Z ->
  stringify_number (Double.of_Z z) = print_long_long z.
Proof.
  intros Hz. destruct z as [|p|p].
  - reflexivity.
  - destruct (small_integer_double false p Hz) as (T & Q & _).
    unfold stringify_number, Double.of_Z, binary_normalize.
    now rewrite T, Q.
  - destruct (small_integer_double true p Hz) as (T & Q & _).
    unfold stringify_number, Double.of_Z, binary_normalize.
    rewrite T.
    change (Double.of_Z (Zneg p))
      with (binary_round Double.prec Double.emax true p 0).
    now rewrite Q.
Qed.

(** X20: a number that is an integer below [2^53] in magnitude is
    written with all its decimal digits, after a minus sign when it is
    negative, never in the scientific notation of the stream, and the
    text is read back as the same number. *)
Theorem integers_keep_their_digits (z : Z) :
  (Z.abs z < 2 ^ 53)%Z ->
  (forall pretty indent,
     stringify pretty indent (Json_of_int z)
     = if (z <? 0)%Z then "-" :: print_unsigned (Z.abs z)
       else print_unsigned (Z.abs z))
  /\ forallb isdigit (print_unsigned (Z.abs z)) = true
  /\ decimal_value (print_unsigned (Z.abs z)) = Z.abs z
  /\ parse (stringify false 0 (Json_of_int z))
     = Ok (Json_of_int z) (length (stringify false 0 (Json_of_int z))).
Proof.
  intros Hz.
  assert (E : forall pretty indent,
            stringify pretty indent (Json_of_int z) = print_long_long z).
  { intros pretty indent. cbn [stringify Json_of_int].
    now apply stringify_small_integer. }
  split; [|split; [|split]].
  - intros pretty indent. rewrite E. unfold print_long_long.
    destruct (z <? 0)%Z eqn:L.
    + apply Z.ltb_lt in L. now rewrite Z.abs_neq by lia.
    + apply Z.ltb_ge in L. now rewrite Z.abs_eq by lia.
  - apply print_unsigned_isdigit.
  - apply print_unsigned_value. lia.
  - apply (stringify_parse_round_trip (Json_of_int z)).
    now apply plain_integer.
Qed.

Lemma integers_keep_their_digits_witness :
  stringify true 3 (Json_of_int 1234567890)
  = (if (1234567890 <? 0)%Z then "-" :: print_unsigned (Z.abs 1234567890)
     else print_unsigned (Z.abs 1234567890))
  /\ decimal_value (print_unsigned (Z.abs 1234567890)) = Z.abs 1234567890.
Proof.
  split.
  - apply (proj1 (integers_keep_their_digits 1234567890 eq_refl) true 3%Z).
  - apply (proj1 (proj2 (proj2 (integers_keep_their_digits 1234567890
                                  eq_refl)))).
Defined.

(** ** Keys written with escapes *)

(** X22: the parser reads the key of an entry as it reads a string: a
    key written between quotation marks with the escapes of the string
    branch of [stringify] is read as the key itself, whatever its
    characters.  The keys that [stringify] writes are not read back only
    because it writes them without these escapes. *)
Theorem escaped_key_is_decoded (key : text) (v : Json) :
  printable v ->
  parse ("{" :: DQ :: flat_map escape_char key ++ DQ :: ":" :: " "
         :: stringify false 0 v ++ ["}"])
  = Ok (JObject [(key, v)])
       (length ("{" :: DQ :: flat_map escape_char key ++ DQ :: ":" :: " "
                :: stringify false 0 v ++ ["}"])).
Proof.
  intros Hp.
  destruct (printable_reads_back v Hp 0%Z) as [(c & t & E & Sc) Hrd].
  set (text := stringify false 0 v) in *.
  set (ek := flat_map escape_char key).
  set (json := "{" :: DQ :: ek ++ DQ :: ":" :: " " :: text ++ ["}"]).
  assert (L : length json = length ek + 5 + length text + 1).
  { unfold json. repeat (cbn [length]; rewrite ?length_app). lia. }
  rewrite (parse_input json "{" _ eq_refl eq_refl).
  assert (H0 : skipn 0 json
               = "{" :: [] ++ DQ :: ek ++ DQ :: ":" :: " " :: text ++ ["}"])
    by reflexivity.
  assert (H1 : skipn 1 json = DQ :: ek ++ DQ :: ":" :: " " :: text ++ ["}"])
    by reflexivity.
  assert (H2 : skipn (1 + length ek + 2) json = ":" :: " " :: text ++ ["}"]).
  { apply (skipn_after json 1 _ (DQ :: ek ++ [DQ])).
    - rewrite H1. cbn [app]. f_equal. now rewrite <- app_assoc.
    - cbn [length]. rewrite length_app. cbn [length]. lia. }
  pose proof (skipn_cons_inv _ _ _ _ H2) as (_ & _ & H3).
  pose proof (skipn_cons_inv _ _ _ _ H3) as (_ & _ & H4).
  pose proof (skipn_app_inv _ _ _ _ H4) as H5.
  pose proof (skipn_cons_inv _ _ _ _ H5) as (_ & _ & H6).
  eapply bind_ok.
  { rewrite (parse_value_open_brace _ _ 0 [] _ H0 eq_refl eq_refl).
    cbn [hd]. change (Ascii.eqb DQ "}") with false. cbv iota.
    cbn [length Nat.add]. rewrite L.
    replace (2 * (length ek + 5 + length text + 1) + 1)
      with (S (2 * length text + 1 + (2 * (length ek + 5) + 1))) by lia.
    set (fuel := 2 * length text + 1 + _).
    cbn [parse_object_loop].
    eapply bind_ok;
      [apply (skip_while_stops isspace json _ _ H1); reflexivity|].
    eapply bind_ok; [apply (peek_cons _ _ _ _ H1)|].
    change (negb (Ascii.eqb DQ DQ)) with false. cbv iota.
    eapply bind_ok; [apply (parse_string_text_escaped json 1 key _ H1)|].
    fold ek.
    eapply bind_ok;
      [apply (skip_while_stops isspace json _ _ H2); reflexivity|].
    eapply bind_ok; [apply (peek_cons _ _ _ _ H2)|].
    change (negb (Ascii.eqb ":" ":")) with false. cbv iota.
    eapply bind_ok; [apply (advance_cons _ _ _ _ H2)|].
    eapply bind_ok.
    { apply (skip_while_spec isspace json _ [" "] _ H3); [reflexivity|].
      rewrite E. cbn [app]. now apply (spaces_then_value []). }
    cbn [length].
    eapply bind_ok.
    { apply (Hrd fuel json _ ["}"]);
        [|replace (S (1 + length ek + 2) + 1)
            with (S (S (1 + length ek + 2))) by lia; exact H4|reflexivity].
      pose proof (need_bound v 0%Z) as B. fold text in B. unfold fuel. lia. }
    cbv zeta.
    replace (S (1 + length ek + 2) + 1 + length text)
      with (S (S (1 + length ek + 2)) + length text) by lia.
    eapply bind_ok;
      [apply (skip_while_stops isspace json _ _ H5); reflexivity|].
    eapply bind_ok; [apply (peek_cons _ _ _ _ H5)|].
    change (Ascii.eqb "}" "}") with true. cbv iota.
    eapply bind_ok; [apply (advance_cons _ _ _ _ H5)|].
    unfold ret, map_assign. cbn [map_subscript map_store].
    rewrite text_compare_refl. reflexivity. }
  eapply bind_ok;
    [apply (skip_while_stops isspace json _ _ H6); reflexivity|].
  rewrite bind_get_pos, bind_size, L.
  replace (S (S (S (1 + length ek + 2)) + length text)
           <? length ek + 5 + length text + 1) with false
    by (symmetry; apply Nat.ltb_ge; lia).
  unfold ret. f_equal. lia.
Qed.

Lemma escaped_key_is_decoded_witness :
  parse ("{" :: DQ :: flat_map escape_char [DQ; BSLASH; LF] ++ DQ :: ":" :: " "
         :: stringify false 0 sample_value ++ ["}"])
  = Ok (JObject [([DQ; BSLASH; LF], sample_value)])
       (length ("{" :: DQ :: flat_map escape_char [DQ; BSLASH; LF]
                ++ DQ :: ":" :: " " :: stringify false 0 sample_value
                ++ ["}"])).
Proof.
  apply (escaped_key_is_decoded [DQ; BSLASH; LF] sample_value).
  exact sample_value_printable.
Defined.

(** ** Texts that parse, inside an array or an object *)

Lemma parse_with_fuel (json : text) (F : nat) :
  fuel_for json <= F -> JsonParser_parse F json 0 = parse json.
Proof.
  intros L. unfold parse, JsonParser_parse.
  destruct (skip_while_total isspace json 0) as [p1 Ep].
  unfold skip_whitespace at 1 3.
  rewrite !(bind_ok _ _ _ _ _ _ _ Ep eq_refl).
  unfold bind at 1 5.
  rewrite (parse_value_fuel_le (fuel_for json) F json p1 L); [reflexivity|].
  pose proof (proj1 (parse_fuel_enough (fuel_for json)) json p1) as S.
  intros O. rewrite O in S. apply S. unfold fuel_for. lia.
Qed.

Lemma parse_value_skip fuel json pos q :
  skip_whitespace json pos = Ok tt q ->
  parse_value fuel json pos = parse_value fuel json q.
Proof.
  intros Hs. destruct fuel as [|f]; [reflexivity|]. cbn [parse_value].
  rewrite (bind_ok _ _ _ _ _ _ _ Hs eq_refl).
  now rewrite (bind_ok _ _ _ _ _ _ _ (skip_again _ _ _ Hs) eq_refl).
Qed.

Lemma bind_same {A B : Type} (m : Parser A) (k : A -> Parser B) json p q :
  m json p = m json q -> bind m k json p = bind m k json q.
Proof. unfold bind. now intros ->. Qed.

Lemma array_loop_skip fuel arr json pos q :
  skip_whitespace json pos = Ok tt q ->
  parse_array_loop fuel arr json q = parse_array_loop fuel arr json pos.
Proof.
  intros Hs. destruct fuel as [|f]; [reflexivity|]. cbn [parse_array_loop].
  apply bind_same. symmetry. now apply parse_value_skip.
Qed.

Lemma reads_split (e : text) (v : Json) :
  reads e v ->
  exists p1 p2,
    skip_whitespace e 0 = Ok tt p1
    /\ parse_value (fuel_for e) e p1 = Ok v p2
    /\ skip_whitespace e p2 = Ok tt (length e)
    /\ p1 <= p2 <= length e.
Proof.
  unfold reads, parse, JsonParser_parse. intros H.
  apply bind_inv in H. destruct H as ([] & p1 & Hs1 & H).
  apply bind_inv in H. destruct H as (x & p2 & Hx & H).
  apply bind_inv in H. destruct H as ([] & p3 & Hs3 & H).
  rewrite bind_get_pos, bind_size in H.
  destruct (p3 <? length e) eqn:E3; [discriminate H|].
  unfold ret in H. injection H as -> ->.
  exists p1, p2. repeat split; auto.
  - pose proof (skip_while_bound isspace e 0 p1 Hs1 ltac:(lia)). 
    pose proof (proj1 (parse_tidy (fuel_for e)) e p1 ltac:(lia)) as T.
    rewrite Hx in T. cbn in T. lia.
  - pose proof (skip_while_bound isspace e 0 p1 Hs1 ltac:(lia)). 
    pose proof (proj1 (parse_tidy (fuel_for e)) e p1 ltac:(lia)) as T.
    rewrite Hx in T. cbn in T. lia.
Qed.

(** A text that is read as a value is read as that value wherever it
    stands in an input, when what follows it is not white space and
    cannot continue a number. *)
Lemma reads_at (e : text) (v : Json) fuel json pos rest :
  reads e v -> skipn pos json = e ++ rest ->
  isspace (hd NUL rest) = false -> inert (hd NUL rest) = true ->
  fuel_for e <= fuel ->
  exists p2,
    parse_value fuel json pos = Ok v (pos + p2)
    /\ skip_whitespace json (pos + p2) = Ok tt (pos + length e).
Proof.
  intros R H Sp Hi Lf.
  destruct (reads_split e v R) as (p1 & p2 & Hs1 & Hv & Hs3 & B).
  assert (Hv1 : parse_value fuel e p1 = Ok v p2).
  { rewrite (parse_value_fuel_le (fuel_for e) fuel e p1 Lf); [exact Hv|].
    rewrite Hv. discriminate. }
  assert (Hv0 : parse_value fuel e 0 = Ok v p2)
    by (now rewrite (parse_value_skip fuel e 0 p1 Hs1)).
  pose proof (proj1 (parse_value_beyond e rest Hi fuel) 0 v p2 Hv0) as Hx.
  assert (Ne : e <> []).
  { intros ->. cbn in B. assert (p1 = 0) by lia. subst p1.
    destruct (value_on_char _ _ _ _ _ _ Hs1 Hv) as (c & r & E).
    discriminate E. }
  assert (Lp : pos <= length json).
  { destruct (Nat.le_gt_cases pos (length json)) as [|G]; [assumption|].
    rewrite skipn_all2 in H by lia. destruct e; [contradiction|discriminate]. }
  set (pre := firstn pos json).
  assert (Ej : json = pre ++ (e ++ rest))
    by (unfold pre; now rewrite <- H, firstn_skipn).
  assert (Lpre : length pre = pos)
    by (unfold pre; rewrite length_firstn; lia).
  exists p2. split.
  - pose proof (proj1 (parse_cursor_relative fuel) pre (e ++ rest) 0) as C.
    rewrite Hx, Lpre, Nat.add_0_r, <- Ej in C. exact C.
  - pose proof (rel_skip_whitespace pre (e ++ rest) p2) as C.
    rewrite Lpre, <- Ej in C. rewrite C. unfold skip_whitespace.
    apply skip_while_inv in Hs3. destruct Hs3 as [[Ec Ep] _].
    assert (En : skipn (length e) e = []) by apply skipn_all.
    rewrite En, app_nil_r in Ec.
    rewrite (skip_while_spec isspace (e ++ rest) p2 (skipn p2 e) rest).
    + cbn [shift]. apply f_equal. rewrite length_skipn. lia.
    + now rewrite skipn_ext by lia.
    + rewrite Ec. apply span_forallb.
    + now apply stops_isspace_hd.
Qed.

Lemma value_begins fuel json pos q v p :
  skip_whitespace json pos = Ok tt q ->
  parse_value fuel json q = Ok v p ->
  value_start (hd NUL (skipn q json)) = true.
Proof.
  intros Hs H.
  destruct (value_on_char _ _ _ _ _ _ Hs H) as (c & r & E).
  rewrite E. cbn [hd].
  destruct (value_start c) eqn:V; [reflexivity|].
  destruct fuel as [|f]; [discriminate H|].
  apply skip_while_inv in Hs. destruct Hs as [_ St].
  rewrite E in St. cbn [stops] in St. apply negb_true_iff in St.
  rewrite (parse_value_no_start f json q c r E St V) in H. discriminate H.
Qed.

Lemma open_bracket fuel json pos t q :
  skipn pos json = "[" :: t ->
  skip_whitespace json (S pos) = Ok tt q ->
  Ascii.eqb (hd NUL (skipn q json)) "]" = false ->
  parse_value (S fuel) json pos = parse_array_loop fuel [] json (S pos).
Proof.
  intros H Hs E.
  rewrite (parse_value_dispatch fuel json pos "[" _ H eq_refl).
  change (Ascii.eqb "[" "n") with false.
  change (Ascii.eqb "[" "t" || Ascii.eqb "[" "f") with false.
  change (Ascii.eqb "[" DQ) with false.
  change (Ascii.eqb "[" "[") with true. cbv iota.
  unfold parse_array_with.
  eapply bind_ok; [apply (current_cons _ _ _ _ H)|].
  change (negb (Ascii.eqb "[" "[")) with false. cbv iota.
  eapply bind_ok; [apply (advance_cons _ _ _ _ H)|].
  eapply bind_ok; [exact Hs|].
  eapply bind_ok; [apply peek_skipn|].
  rewrite E. now apply array_loop_skip.
Qed.

Lemma separated_cons (e : text) (es : list text) :
  separated (e :: es)
  = e ++ match es with [] => [] | _ :: _ => "," :: separated es end.
Proof. destruct es; cbn [separated]; [now rewrite app_nil_r|reflexivity]. Qed.

(** After an element and the white space that follows it: the closing
    bracket, a comma, or an error. *)
Lemma after_element_step fuel arr json q c :
  hd NUL (skipn q json) = c ->
  (x <- peek ;;
   if Ascii.eqb x "]" then advance ;; ret (JArray arr)
   else if negb (Ascii.eqb x ",") then
     throw Expected_comma_or_close_bracket_in_array
   else advance ;; skip_whitespace ;; parse_array_loop fuel arr) json q
  = if Ascii.eqb c "]" then Ok (JArray arr) (S q)
    else if Ascii.eqb c "," then parse_array_loop fuel arr json (S q)
    else Throw (ParseError Expected_comma_or_close_bracket_in_array q).
Proof.
  intros Hc. rewrite bind_peek, Hc.
  destruct (Ascii.eqb c "]") eqn:E1.
  - apply Ascii.eqb_eq in E1. subst c.
    destruct (hd_cons _ _ E1 ltac:(discriminate)) as [r Er].
    eapply bind_ok; [apply (advance_cons _ _ _ _ Er)|]. reflexivity.
  - destruct (Ascii.eqb c ",") eqn:E2; [|reflexivity]. cbn [negb].
    apply Ascii.eqb_eq in E2. subst c.
    destruct (hd_cons _ _ E2 ltac:(discriminate)) as [r Er].
    eapply bind_ok; [apply (advance_cons _ _ _ _ Er)|].
    destruct (skip_while_total isspace json (S q)) as [q' Hq].
    eapply bind_ok; [exact Hq|]. now apply array_loop_skip.
Qed.

Lemma array_loop_reads (es : list text) : forall vs fuel arr json pos rest,
  Forall2 reads es vs -> es <> [] ->
  skipn pos json = separated es ++ rest ->
  isspace (hd NUL rest) = false -> inert (hd NUL rest) = true ->
  Forall (fun e => fuel_for e + length es <= fuel) es ->
  parse_array_loop fuel arr json pos
  = if Ascii.eqb (hd NUL rest) "]"
    then Ok (JArray (arr ++ vs)) (S (pos + length (separated es)))
    else if Ascii.eqb (hd NUL rest) ","
    then parse_array_loop (fuel - length es) (arr ++ vs) json
           (S (pos + length (separated es)))
    else Throw (ParseError Expected_comma_or_close_bracket_in_array
                  (pos + length (separated es))).
Proof.
  induction es as [|e es IH]; intros vs fuel arr json pos rest R Ne H Sp Hi Hf;
    [contradiction|].
  inversion R as [|? v ? vs' Re Rs]; subst. clear R Ne.
  inversion Hf as [|? ? Fe Fs]; subst.
  destruct fuel as [|f]; [cbn [length] in Fe; lia|].
  rewrite separated_cons in *. rewrite <- app_assoc in H.
  cbn [parse_array_loop].
  destruct es as [|e' es].
  - inversion Rs; subst. cbn [app] in H. rewrite app_nil_r.
    destruct (reads_at e v f json pos rest Re H Sp Hi) as (p2 & Hv & Hs);
      [cbn [length] in Fe; lia|].
    eapply bind_ok; [exact Hv|]. cbv zeta.
    eapply bind_ok; [exact Hs|].
    rewrite (after_element_step f (arr ++ [v]) json _ (hd NUL rest)).
    + cbn [length]. replace (S f - 1) with f by lia. reflexivity.
    + now rewrite (skipn_app_inv _ _ _ _ H).
  - set (tl := separated (e' :: es)) in *.
    change (("," :: tl) ++ rest) with ("," :: tl ++ rest) in H.
    destruct (reads_at e v f json pos ("," :: tl ++ rest) Re H eq_refl eq_refl)
      as (p2 & Hv & Hs); [cbn [length] in Fe; lia|].
    eapply bind_ok; [exact Hv|]. cbv zeta.
    eapply bind_ok; [exact Hs|].
    pose proof (skipn_app_inv _ _ _ _ H) as H1.
    rewrite (after_element_step f (arr ++ [v]) json _ ",");
      [|now rewrite H1].
    change (Ascii.eqb "," "]") with false.
    change (Ascii.eqb "," ",") with true. cbv iota.
    pose proof (skipn_cons_inv _ _ _ _ H1) as (_ & _ & H2).
    rewrite (IH vs' f (arr ++ [v]) json (S (pos + length e)) rest Rs
               ltac:(discriminate) H2 Sp Hi).
    + rewrite <- app_assoc. cbn [app].
      rewrite length_app. cbn [length].
      replace (S (pos + length e) + length tl)
        with (pos + (length e + S (length tl))) by lia.
      replace (S f - S (S (length es))) with (f - S (length es)) by lia.
      reflexivity.
    + clear - Fs. cbn [length] in *.
      rewrite Forall_forall in *. intros x Hx. specialize (Fs x Hx). lia.
Qed.

Lemma separated_length_In (es : list text) (e : text) :
  In e es -> length e <= length (separated es).
Proof.
  induction es as [|x es IH]; [intros []|].
  rewrite separated_cons, length_app. intros [->|Hin]; [lia|].
  specialize (IH Hin). destruct es as [|y es]; [destruct Hin|].
  cbn [length]. lia.
Qed.

Lemma first_element_begins (es : list text) vs json pos rest q :
  Forall2 reads es vs -> es <> [] ->
  skipn pos json = separated es ++ rest ->
  isspace (hd NUL rest) = false -> inert (hd NUL rest) = true ->
  skip_whitespace json pos = Ok tt q ->
  value_start (hd NUL (skipn q json)) = true.
Proof.
  intros R Ne H Sp Hi Hs. destruct es as [|e es]; [contradiction|].
  inversion R as [|? v ? vs' Re Rs]; subst.
  rewrite separated_cons, <- app_assoc in H.
  assert (Hv : exists p, parse_value (fuel_for e) json pos = Ok v p).
  { destruct es as [|e' es].
    - cbn [app] in H.
      destruct (reads_at e v (fuel_for e) json pos rest Re H Sp Hi
                  (Nat.le_refl _)) as (p2 & Hv & _). eauto.
    - change (("," :: separated (e' :: es)) ++ rest)
        with ("," :: separated (e' :: es) ++ rest) in H.
      destruct (reads_at e v (fuel_for e) json pos _ Re H eq_refl eq_refl
                  (Nat.le_refl _)) as (p2 & Hv & _). eauto. }
  destruct Hv as [p Hv]. rewrite (parse_value_skip _ _ _ _ Hs) in Hv.
  apply (value_begins _ _ _ _ _ _ Hs Hv).
Qed.

Lemma array_of_texts (es : list text) (vs : list Json) (rest : text) :
  es <> [] -> Forall2 reads es vs ->
  isspace (hd NUL rest) = false -> inert (hd NUL rest) = true ->
  let json := "[" :: separated es ++ rest in
  let F := fuel_for json + length es in
  parse_value (S F) json 0
  = if Ascii.eqb (hd NUL rest) "]"
    then Ok (JArray vs) (S (S (length (separated es))))
    else if Ascii.eqb (hd NUL rest) ","
    then parse_array_loop (fuel_for json) vs json
           (S (S (length (separated es))))
    else Throw (ParseError Expected_comma_or_close_bracket_in_array
                  (S (length (separated es)))).
Proof.
  intros Ne R Sp Hi json F.
  assert (H0 : skipn 0 json = "[" :: separated es ++ rest) by reflexivity.
  assert (H1 : skipn 1 json = separated es ++ rest) by reflexivity.
  destruct (skip_while_total isspace json 1) as [q Hq].
  pose proof (first_element_begins es vs json 1 rest q R Ne H1 Sp Hi Hq) as V.
  apply value_start_facts in V. destruct V as (_ & Br & _).
  rewrite (open_bracket F json 0 _ q H0 Hq Br).
  rewrite (array_loop_reads es vs F [] json 1 rest R Ne H1 Sp Hi).
  - cbn [app Nat.add]. unfold F.
    replace (fuel_for json + length es - length es) with (fuel_for json)
      by lia.
    reflexivity.
  - apply Forall_forall. intros e He.
    pose proof (separated_length_In es e He) as L.
    unfold F, fuel_for, json. cbn [length]. rewrite length_app. lia.
Qed.

Lemma parse_open (json : text) (c : ascii) (t : text) (F : nat) r :
  json = c :: t -> isspace c = false -> fuel_for json <= F ->
  (r = OutOfFuel -> False) ->
  parse_value F json 0 = r ->
  parse json
  = match r with
    | Ok v p =>
        (skip_whitespace ;; pos <- get_pos ;; n <- size ;;
         if pos <? n then throw Unexpected_characters_after_JSON_value
         else ret v) json p
    | Throw e => Throw e
    | OutOfFuel => OutOfFuel
    end.
Proof.
  intros E Sp L Hr H. rewrite <- (parse_with_fuel json F L).
  unfold JsonParser_parse.
  assert (H0 : skipn 0 json = c :: t) by exact E.
  eapply bind_ok;
    [apply (skip_while_stops isspace json 0 _ H0); cbn; now rewrite Sp|].
  unfold bind at 1. rewrite H. destruct r; try reflexivity.
Qed.

(** X10: in an array, after an element the parser wants a comma or the
    closing bracket.  The elements are any texts that parse, each with
    any white space around it, and any number of them.  When after the
    last of them the input ends, or goes on with a character that is
    neither white space nor a comma nor the closing bracket, and that
    cannot continue a number, the error is the one that names the comma
    and the bracket, at the position of that character, which is the end
    of the input when the input ends there. *)
Theorem element_not_followed (es : list text) (vs : list Json) (rest : text) :
  es <> [] -> Forall2 reads es vs ->
  isspace (hd NUL rest) = false -> inert (hd NUL rest) = true ->
  Ascii.eqb (hd NUL rest) "]" = false ->
  Ascii.eqb (hd NUL rest) "," = false ->
  parse ("[" :: separated es ++ rest)
  = Throw (ParseError Expected_comma_or_close_bracket_in_array
             (S (length (separated es)))).
Proof.
  intros Ne R Sp Hi E1 E2.
  pose proof (array_of_texts es vs rest Ne R Sp Hi) as A. cbv zeta in A.
  rewrite E1, E2 in A.
  apply (parse_open _ "[" _ _ _ eq_refl eq_refl) in A;
    [exact A|lia|discriminate].
Qed.

Lemma element_not_followed_witness :
  parse (lit "[1,2 x")
  = Throw (ParseError Expected_comma_or_close_bracket_in_array 5)
  /\ parse (lit "[ 1")
     = Throw (ParseError Expected_comma_or_close_bracket_in_array 3)
  /\ parse (lit "[1.50 , [true] }")
     = Throw (ParseError Expected_comma_or_close_bracket_in_array 15).
Proof.
  split; [|split].
  - apply (element_not_followed [lit "1"; lit "2 "]
             [Json_of_int 1; Json_of_int 2] (lit "x") ltac:(discriminate));
      try reflexivity.
    repeat constructor; vm_compute; reflexivity.
  - apply (element_not_followed [lit " 1"] [Json_of_int 1] []
             ltac:(discriminate)); try reflexivity.
    repeat constructor; vm_compute; reflexivity.
  - apply (element_not_followed [lit "1.50 "; lit " [true] "]
             [JNumber (S754_finite false 6755399441055744 (-52));
              JArray [JBool true]] (lit "}") ltac:(discriminate));
      try reflexivity.
    repeat constructor; vm_compute; reflexivity.
Defined.

Lemma after_comma (es : list text) (vs : list Json) (ws rest : text) e :
  es <> [] -> Forall2 reads es vs -> forallb isspace ws = true ->
  stops isspace rest = true ->
  (forall f,
     parse_value (S f) ("[" :: separated es ++ "," :: ws ++ rest)
       (length (separated es) + 2 + length ws) = Throw e) ->
  parse ("[" :: separated es ++ "," :: ws ++ rest) = Throw e.
Proof.
  intros Ne R Hws St He.
  pose proof (array_of_texts es vs ("," :: ws ++ rest) Ne R eq_refl eq_refl)
    as A. cbv zeta in A.
  change (Ascii.eqb (hd NUL ("," :: ws ++ rest)) "]") with false in A.
  change (Ascii.eqb (hd NUL ("," :: ws ++ rest)) ",") with true in A.
  cbv iota in A.
  set (json := "[" :: separated es ++ "," :: ws ++ rest) in *.
  set (q := S (S (length (separated es)))) in *.
  assert (Hq : skipn q json = ws ++ rest).
  { unfold q, json. cbn [skipn].
    pose proof (skipn_app_inv (separated es ++ "," :: ws ++ rest) 0
                  (separated es) ("," :: ws ++ rest) eq_refl) as H1.
    cbn [Nat.add] in H1.
    now pose proof (skipn_cons_inv _ _ _ _ H1) as (_ & _ & H2). }
  assert (Lq : q + length ws = length (separated es) + 2 + length ws)
    by (unfold q; lia).
  assert (A' : parse_value (S (fuel_for json + length es)) json 0 = Throw e).
  { rewrite A. unfold fuel_for.
    replace (2 * length json + 2) with (S (S (2 * length json))) by lia.
    cbn [parse_array_loop]. apply bind_throw.
    pose proof (skip_while_spec isspace json q ws rest Hq Hws St) as Hs.
    rewrite (parse_value_skip _ _ _ _ Hs), Lq. apply He. }
  apply (parse_open json "[" _ _ _ eq_refl eq_refl) in A';
    [exact A'|lia|discriminate].
Qed.

(** X14: in an array, after a comma a value must follow.  After any
    number of elements, each a text that parses, a comma and any white
    space: the end of the input is rejected as an unexpected end of
    input, and a character that begins no value, the closing bracket of a
    trailing comma among them, is rejected as an unexpected character, at
    the position after the white space. *)
Theorem comma_not_followed (es : list text) (vs : list Json) (ws rest : text) :
  es <> [] -> Forall2 reads es vs -> forallb isspace ws = true ->
  (rest = [] ->
   parse ("[" :: separated es ++ "," :: ws ++ rest)
   = Throw (ParseError Unexpected_end_of_input
              (length (separated es) + 2 + length ws)))
  /\ (forall c t,
        rest = c :: t -> isspace c = false -> value_start c = false ->
        parse ("[" :: separated es ++ "," :: ws ++ rest)
        = Throw (ParseError Unexpected_character
                   (length (separated es) + 2 + length ws))).
Proof.
  intros Ne R Hws.
  assert (Hq : skipn (length (separated es) + 2 + length ws)
                 ("[" :: separated es ++ "," :: ws ++ rest) = rest).
  { replace (length (separated es) + 2 + length ws)
      with (S (S (length (separated es)) + length ws)) by lia.
    cbn [skipn].
    apply (skipn_app_inv (separated es ++ "," :: ws ++ rest)
             (S (length (separated es))) ws rest).
    pose proof (skipn_app_inv (separated es ++ "," :: ws ++ rest) 0
                  (separated es) ("," :: ws ++ rest) eq_refl) as H1.
    cbn [Nat.add] in H1.
    now pose proof (skipn_cons_inv _ _ _ _ H1) as (_ & _ & H2). }
  split.
  - intros ->. apply (after_comma es vs ws [] _ Ne R Hws eq_refl).
    intros f. cbn [parse_value].
    eapply bind_ok;
      [apply (skip_while_stops isspace _ _ [] Hq eq_refl)|].
    apply bind_throw. now apply current_nil.
  - intros c t -> Sp V.
    apply (after_comma es vs ws (c :: t) _ Ne R Hws);
      [cbn; now rewrite Sp|].
    intros f. now apply (parse_value_no_start f _ _ c t Hq).
Qed.

Lemma comma_not_followed_witness :
  parse (lit "[1, 2, 3,]") = Throw (ParseError Unexpected_character 9)
  /\ parse (lit "[1, 2, 3, ") = Throw (ParseError Unexpected_end_of_input 10).
Proof.
  assert (R : Forall2 reads [lit "1"; lit " 2"; lit " 3"]
                [Json_of_int 1; Json_of_int 2; Json_of_int 3]).
  { repeat constructor; vm_compute; reflexivity. }
  split.
  - apply (proj2 (comma_not_followed [lit "1"; lit " 2"; lit " 3"] _ []
                    (lit "]") ltac:(discriminate) R eq_refl) "]" []);
      reflexivity.
  - apply (proj1 (comma_not_followed [lit "1"; lit " 2"; lit " 3"] _ (lit " ")
                    [] ltac:(discriminate) R eq_refl)).
    reflexivity.
Defined.

(** *** Entries of an object *)

Lemma parse_value_string_inv fuel json pos s pos' :
  parse_value fuel json pos = Ok (JString s) pos' ->
  exists p, skip_whitespace json pos = Ok tt p
            /\ parse_string_text json p = Ok s pos'.
Proof.
  destruct fuel as [|f]; [discriminate|]. cbn [parse_value]. intros H.
  apply bind_inv in H. destruct H as ([] & p & Hs & H).
  exists p. split; [exact Hs|].
  apply bind_inv in H. destruct H as (c & p1 & Hc & H).
  assert (p1 = p) as ->.
  { unfold current in Hc. destruct (length json <=? p); [discriminate|].
    now injection Hc. }
  destruct (Ascii.eqb c "n").
  { unfold parse_null in H. destruct (text_eqb _ _); discriminate H. }
  destruct (Ascii.eqb c "t" || Ascii.eqb c "f").
  { unfold parse_bool in H. repeat destruct (text_eqb _ _); discriminate H. }
  destruct (Ascii.eqb c DQ).
  { unfold parse_string in H. apply bind_inv in H.
    destruct H as (s' & p2 & Hs' & H). unfold ret in H.
    injection H as -> ->. exact Hs'. }
  destruct (Ascii.eqb c "[").
  { apply parse_array_with_shape in H; [discriminate H|].
    apply parse_array_loop_shape. }
  destruct (Ascii.eqb c "{").
  { apply parse_object_with_shape in H; [discriminate H|].
    apply parse_object_loop_shape. }
  destruct (Ascii.eqb c "-" || isdigit c); [|discriminate H].
  apply parse_number_sound in H. destruct H as (num & d & _ & _ & _ & E).
  discriminate E.
Qed.

Lemma skip_tail (e : text) json pos p2 rest :
  skip_whitespace e p2 = Ok tt (length e) -> p2 <= length e ->
  skipn pos json = e ++ rest -> isspace (hd NUL rest) = false ->
  skip_whitespace json (pos + p2) = Ok tt (pos + length e).
Proof.
  intros Hs B H Sp.
  apply skip_while_inv in Hs. destruct Hs as [[Ec Ep] _].
  assert (En : skipn (length e) e = []) by apply skipn_all.
  rewrite En, app_nil_r in Ec.
  unfold skip_whitespace.
  rewrite (skip_while_spec isspace json (pos + p2) (skipn p2 e) rest).
  - apply f_equal. rewrite length_skipn. lia.
  - rewrite Nat.add_comm, <- skipn_skipn, H. now rewrite skipn_ext by lia.
  - rewrite Ec. apply span_forallb.
  - now apply stops_isspace_hd.
Qed.

(** The text of a key, where it stands in an input. *)
Lemma key_at (kd k : text) json pos rest :
  reads kd (JString k) -> skipn pos json = kd ++ rest ->
  isspace (hd NUL rest) = false ->
  exists p1 p2,
    skip_whitespace json pos = Ok tt (pos + p1)
    /\ hd NUL (skipn (pos + p1) json) = DQ
    /\ parse_string_text json (pos + p1) = Ok k (pos + p2)
    /\ skip_whitespace json (pos + p2) = Ok tt (pos + length kd).
Proof.
  intros R H Sp.
  destruct (reads_split kd _ R) as (p1 & p2 & Hs1 & Hv & Hs3 & B).
  apply parse_value_string_inv in Hv. destruct Hv as (p & Hp & Hst).
  pose proof (skip_again _ _ _ Hs1) as Hs1'.
  assert (p = p1) by congruence. subst p. clear Hp Hs1'.
  assert (Ec : exists r, skipn p1 kd = DQ :: r).
  { pose proof Hst as Hst'. unfold parse_string_text in Hst'.
    apply bind_inv in Hst'. destruct Hst' as (c & p0 & Hc & Hk).
    apply current_inv in Hc. destruct Hc as (-> & r & E).
    destruct (Ascii.eqb c DQ) eqn:Ed; [|discriminate Hk].
    apply Ascii.eqb_eq in Ed. subst c. eauto. }
  destruct Ec as [r Er].
  assert (Lp : pos <= length json).
  { destruct (Nat.le_gt_cases pos (length json)) as [|G]; [assumption|].
    rewrite skipn_all2 in H by lia. destruct kd; discriminate. }
  set (pre := firstn pos json).
  assert (Ej : json = pre ++ (kd ++ rest))
    by (unfold pre; now rewrite <- H, firstn_skipn).
  assert (Lpre : length pre = pos)
    by (unfold pre; rewrite length_firstn; lia).
  exists p1, p2. split; [|split; [|split]].
  - pose proof (rel_skip_whitespace pre (kd ++ rest) 0) as C.
    rewrite Lpre, Nat.add_0_r, <- Ej in C. rewrite C.
    unfold skip_whitespace in *.
    now rewrite (skip_while_real isspace kd rest 0 p1 DQ r Hs1 Er).
  - rewrite Nat.add_comm, <- skipn_skipn, H.
    now rewrite (view_ext kd rest p1 DQ r Er).
  - pose proof (rel_parse_string_text pre (kd ++ rest) p1) as C.
    rewrite Lpre, <- Ej in C. rewrite C.
    now rewrite (proj1 (parse_string_text_ext kd rest p1 k p2 Hst)).
  - now apply (skip_tail kd json pos p2 rest).
Qed.

Lemma object_loop_skip fuel obj json pos q :
  skip_whitespace json pos = Ok tt q ->
  parse_object_loop fuel obj json q = parse_object_loop fuel obj json pos.
Proof.
  intros Hs. destruct fuel as [|f]; [reflexivity|]. cbn [parse_object_loop].
  rewrite (bind_ok _ _ _ _ _ _ _ Hs eq_refl).
  now rewrite (bind_ok _ _ _ _ _ _ _ (skip_again _ _ _ Hs) eq_refl).
Qed.

Lemma after_entry_step fuel obj json q c :
  hd NUL (skipn q json) = c ->
  (x <- peek ;;
   if Ascii.eqb x "}" then advance ;; ret (JObject obj)
   else if negb (Ascii.eqb x ",") then
     throw Expected_comma_or_close_brace_in_object
   else advance ;; parse_object_loop fuel obj) json q
  = if Ascii.eqb c "}" then Ok (JObject obj) (S q)
    else if Ascii.eqb c "," then parse_object_loop fuel obj json (S q)
    else Throw (ParseError Expected_comma_or_close_brace_in_object q).
Proof.
  intros Hc. rewrite bind_peek, Hc.
  destruct (Ascii.eqb c "}") eqn:E1.
  - apply Ascii.eqb_eq in E1. subst c.
    destruct (hd_cons _ _ E1 ltac:(discriminate)) as [r Er].
    eapply bind_ok; [apply (advance_cons _ _ _ _ Er)|]. reflexivity.
  - destruct (Ascii.eqb c ",") eqn:E2; [|reflexivity]. cbn [negb].
    apply Ascii.eqb_eq in E2. subst c.
    destruct (hd_cons _ _ E2 ltac:(discriminate)) as [r Er].
    eapply bind_ok; [apply (advance_cons _ _ _ _ Er)|]. reflexivity.
Qed.

(** One entry of an object, wherever it stands. *)
Lemma entry_at (kd e k : text) (v : Json) f obj json pos rest :
  reads kd (JString k) -> reads e v ->
  skipn pos json = kd ++ ":" :: e ++ rest ->
  isspace (hd NUL rest) = false -> inert (hd NUL rest) = true ->
  fuel_for e <= f ->
  parse_object_loop (S f) obj json pos
  = let q := pos + length (kd ++ ":" :: e) in
    let obj' := map_assign JNull obj k v in
    if Ascii.eqb (hd NUL rest) "}" then Ok (JObject obj') (S q)
    else if Ascii.eqb (hd NUL rest) "," then parse_object_loop f obj' json (S q)
    else Throw (ParseError Expected_comma_or_close_brace_in_object q).
Proof.
  intros Rk Re H Sp Hi Lf.
  destruct (key_at kd k json pos (":" :: e ++ rest) Rk H eq_refl)
    as (p1 & p2 & Hs1 & Hd & Hst & Hs2).
  pose proof (skipn_app_inv _ _ _ _ H) as H1.
  pose proof (skipn_cons_inv _ _ _ _ H1) as (_ & _ & H2).
  destruct (reads_at e v f json _ rest Re H2 Sp Hi Lf) as (p3 & Hv & Hs3).
  pose proof (skipn_app_inv _ _ _ _ H2) as H3.
  cbn [parse_object_loop].
  eapply bind_ok; [exact Hs1|].
  rewrite bind_peek, Hd. change (negb (Ascii.eqb DQ DQ)) with false. cbv iota.
  eapply bind_ok; [exact Hst|].
  eapply bind_ok; [exact Hs2|].
  rewrite bind_peek, H1. cbn [hd].
  change (negb (Ascii.eqb ":" ":")) with false. cbv iota.
  eapply bind_ok; [apply (advance_cons _ _ _ _ H1)|].
  destruct (skip_while_total isspace json (S (pos + length kd))) as [q' Hq].
  eapply bind_ok; [exact Hq|].
  rewrite (bind_same (parse_value f) _ json q' (S (pos + length kd))
             (eq_sym (parse_value_skip f json _ q' Hq))).
  eapply bind_ok; [exact Hv|]. cbv zeta.
  eapply bind_ok; [exact Hs3|].
  rewrite (after_entry_step f _ json _ (hd NUL rest)); [|now rewrite H3].
  rewrite length_app. cbn [length].
  replace (pos + (length kd + S (length e)))
    with (S (pos + length kd) + length e) by lia.
  reflexivity.
Qed.

Lemma object_loop_reads (ts : list (text * text)) :
  forall kvs fuel obj json pos rest,
  Forall2 reads_entry ts kvs -> ts <> [] ->
  skipn pos json = separated (map entry_text ts) ++ rest ->
  isspace (hd NUL rest) = false -> inert (hd NUL rest) = true ->
  Forall (fun t => fuel_for (snd t) + length ts <= fuel) ts ->
  parse_object_loop fuel obj json pos
  = let q := pos + length (separated (map entry_text ts)) in
    if Ascii.eqb (hd NUL rest) "}"
    then Ok (JObject (assign_all obj kvs)) (S q)
    else if Ascii.eqb (hd NUL rest) ","
    then parse_object_loop (fuel - length ts) (assign_all obj kvs) json (S q)
    else Throw (ParseError Expected_comma_or_close_brace_in_object q).
Proof.
  induction ts as [|[kd e] ts IH];
    intros kvs fuel obj json pos rest R Ne H Sp Hi Hf; [contradiction|].
  inversion R as [|? [k v] ? kvs' [Rk Re] Rs]; subst. clear R Ne.
  cbn [fst snd] in Rk, Re.
  inversion Hf as [|? ? Fe Fs]; subst. cbn [snd length] in Fe.
  destruct fuel as [|f]; [lia|].
  cbn [map] in *. rewrite separated_cons in *. rewrite <- app_assoc in H.
  unfold entry_text at 1 in H. cbn [fst snd] in H.
  rewrite <- app_assoc in H. cbn [app] in H.
  unfold assign_all. cbn [fold_left]. fold (assign_all (map_assign JNull obj k v) kvs').
  destruct ts as [|t' ts].
  - inversion Rs; subst. cbn [map app] in *.
    rewrite (entry_at kd e k v f obj json pos rest Rk Re H Sp Hi ltac:(lia)).
    cbv zeta. rewrite app_nil_r. unfold entry_text at 1 2 3. cbn [fst snd length].
    replace (S f - 1) with f by lia. reflexivity.
  - set (tl := separated (map entry_text (t' :: ts))) in *.
    cbn [map] in H.
    change (("," :: tl) ++ rest) with ("," :: tl ++ rest) in H.
    rewrite (entry_at kd e k v f obj json pos ("," :: tl ++ rest) Rk Re H
               eq_refl eq_refl ltac:(lia)).
    cbv zeta. cbn [hd].
    change (Ascii.eqb "," "}") with false.
    change (Ascii.eqb "," ",") with true. cbv iota.
    assert (H2 : skipn (S (pos + length (kd ++ ":" :: e))) json = tl ++ rest).
    { replace (kd ++ ":" :: e ++ "," :: tl ++ rest)
        with ((kd ++ ":" :: e) ++ "," :: tl ++ rest) in H
        by (rewrite <- app_assoc; reflexivity).
      pose proof (skipn_app_inv _ _ _ _ H) as H1.
      now pose proof (skipn_cons_inv _ _ _ _ H1) as (_ & _ & H2). }
    rewrite (IH kvs' f _ json _ rest Rs ltac:(discriminate) H2 Sp Hi).
    + cbv zeta. cbn [map].
      assert (L : length (entry_text (kd, e) ++ "," :: tl)
                  = S (length (kd ++ ":" :: e) + length tl)).
      { unfold entry_text. cbn [fst snd]. rewrite length_app.
        cbn [length]. lia. }
      rewrite L.
      replace (S (pos + length (kd ++ ":" :: e)) + length tl)
        with (pos + S (length (kd ++ ":" :: e) + length tl)) by lia.
      replace (S f - length ((kd, e) :: t' :: ts))
        with (f - length (t' :: ts)) by (cbn [length]; lia).
      reflexivity.
    + clear - Fs. cbn [length] in *.
      rewrite Forall_forall in *. intros x Hx. specialize (Fs x Hx). lia.
Qed.

Lemma open_brace fuel json pos t q :
  skipn pos json = "{" :: t ->
  skip_whitespace json (S pos) = Ok tt q ->
  Ascii.eqb (hd NUL (skipn q json)) "}" = false ->
  parse_value (S fuel) json pos = parse_object_loop fuel [] json (S pos).
Proof.
  intros H Hs E.
  rewrite (parse_value_dispatch fuel json pos "{" _ H eq_refl).
  change (Ascii.eqb "{" "n") with false.
  change (Ascii.eqb "{" "t" || Ascii.eqb "{" "f") with false.
  change (Ascii.eqb "{" DQ) with false.
  change (Ascii.eqb "{" "[") with false.
  change (Ascii.eqb "{" "{") with true. cbv iota.
  unfold parse_object_with.
  eapply bind_ok; [apply (current_cons _ _ _ _ H)|].
  change (negb (Ascii.eqb "{" "{")) with false. cbv iota.
  eapply bind_ok; [apply (advance_cons _ _ _ _ H)|].
  eapply bind_ok; [exact Hs|].
  eapply bind_ok; [apply peek_skipn|].
  rewrite E. now apply object_loop_skip.
Qed.

Lemma entry_text_length_In (ts : list (text * text)) (t : text * text) :
  In t ts -> length (snd t) <= length (separated (map entry_text ts)).
Proof.
  intros Hin.
  apply Nat.le_trans with (length (entry_text t)).
  - unfold entry_text. rewrite length_app. cbn [length]. lia.
  - apply separated_length_In. now apply in_map.
Qed.

Lemma object_of_texts (ts : list (text * text)) (kvs : list (text * Json))
    (rest : text) :
  ts <> [] -> Forall2 reads_entry ts kvs ->
  isspace (hd NUL rest) = false -> inert (hd NUL rest) = true ->
  let json := "{" :: separated (map entry_text ts) ++ rest in
  let F := fuel_for json + length ts in
  parse_value (S F) json 0
  = if Ascii.eqb (hd NUL rest) "}"
    then Ok (JObject (assign_all [] kvs))
           (S (S (length (separated (map entry_text ts)))))
    else if Ascii.eqb (hd NUL rest) ","
    then parse_object_loop (fuel_for json) (assign_all [] kvs) json
           (S (S (length (separated (map entry_text ts)))))
    else Throw (ParseError Expected_comma_or_close_brace_in_object
                  (S (length (separated (map entry_text ts))))).
Proof.
  intros Ne R Sp Hi json F.
  assert (H0 : skipn 0 json = "{" :: separated (map entry_text ts) ++ rest)
    by reflexivity.
  assert (H1 : skipn 1 json = separated (map entry_text ts) ++ rest)
    by reflexivity.
  assert (Br : exists q, skip_whitespace json 1 = Ok tt q
                         /\ Ascii.eqb (hd NUL (skipn q json)) "}" = false).
  { destruct ts as [|[kd e] ts]; [contradiction|].
    inversion R as [|? [k v] ? kvs' [Rk Re] Rs]; subst. cbn [fst snd] in Rk.
    cbn [map] in H1. rewrite separated_cons in H1.
    unfold entry_text at 1 in H1. cbn [fst snd] in H1.
    rewrite <- !app_assoc in H1.
    destruct (key_at kd k json 1 _ Rk H1 eq_refl) as (p1 & p2 & Hs & Hd & _).
    exists (1 + p1). split; [exact Hs|]. now rewrite Hd. }
  destruct Br as (q & Hq & Br).
  rewrite (open_brace F json 0 _ q H0 Hq Br).
  rewrite (object_loop_reads ts kvs F [] json 1 rest R Ne H1 Sp Hi).
  - cbv zeta. cbn [Nat.add]. unfold F.
    replace (fuel_for json + length ts - length ts) with (fuel_for json)
      by lia.
    reflexivity.
  - apply Forall_forall. intros t Ht.
    pose proof (entry_text_length_In ts t Ht) as L.
    unfold F, fuel_for, json. cbn [length]. rewrite length_app. lia.
Qed.

(** X13: in an object, after the value of an entry the parser wants a
    comma or the closing brace.  The entries are any number of texts of a
    key, a colon and the text of a value, where the text of the key parses
    to a string and the text of the value parses, each with any white
    space around it.  When after the last value the input ends, or goes
    on with a character that is neither white space nor a comma nor the
    closing brace, and that cannot continue a number, the error is the one
    that names the comma and the brace, at the position of that character,
    which is the end of the input when the input ends there. *)
Theorem member_not_followed (ts : list (text * text))
    (kvs : list (text * Json)) (rest : text) :
  ts <> [] -> Forall2 reads_entry ts kvs ->
  isspace (hd NUL rest) = false -> inert (hd NUL rest) = true ->
  Ascii.eqb (hd NUL rest) "}" = false ->
  Ascii.eqb (hd NUL rest) "," = false ->
  parse ("{" :: separated (map entry_text ts) ++ rest)
  = Throw (ParseError Expected_comma_or_close_brace_in_object
             (S (length (separated (map entry_text ts))))).
Proof.
  intros Ne R Sp Hi E1 E2.
  pose proof (object_of_texts ts kvs rest Ne R Sp Hi) as A. cbv zeta in A.
  rewrite E1, E2 in A.
  apply (parse_open _ "{" _ _ _ eq_refl eq_refl) in A;
    [exact A|lia|discriminate].
Qed.

Lemma member_not_followed_witness :
  parse (lit "{" ++ DQ :: lit "key" ++ DQ :: lit ": "
         ++ DQ :: lit "value" ++ [DQ])
  = Throw (ParseError Expected_comma_or_close_brace_in_object 15)
  /\ parse (lit "{ " ++ DQ :: lit "a" ++ DQ :: lit " : 1 , "
            ++ DQ :: BSLASH :: lit "n" ++ DQ :: lit ":[ ] ;")
     = Throw (ParseError Expected_comma_or_close_brace_in_object 21).
Proof.
  split.
  - apply (member_not_followed
             [(DQ :: lit "key" ++ [DQ], " " :: DQ :: lit "value" ++ [DQ])]
             [(lit "key", JString (lit "value"))] []
             ltac:(discriminate)); try reflexivity.
    repeat constructor; vm_compute; reflexivity.
  - apply (member_not_followed
             [(" " :: DQ :: lit "a" ++ [DQ; " "], lit " 1 ");
              (" " :: DQ :: BSLASH :: lit "n" ++ [DQ], lit "[ ] ")]
             [(lit "a", Json_of_int 1); ([LF], JArray [])] (lit ";")
             ltac:(discriminate)); try reflexivity.
    repeat constructor; vm_compute; reflexivity.
Defined.
